(** * Schneegerverteiler: balances and settlements of src/App.jsx

    The computational core of the application is two closures of the [App]
    component: the [balances] memo (lines 89-106) and [calculateSettlements]
    (lines 170-215).  Both compute on JavaScript numbers, that is on IEEE 754
    binary64 values.  They are embedded here over the specification of
    binary64 arithmetic that comes with the prover ([SpecFloat], precision 53,
    maximal exponent 1024), so every operation rounds exactly as it does in
    the running program.  [balances] keeps its numbers in an object literal,
    which is embedded with what it inherits from [Object.prototype] and with
    the order in which [Object.entries] lists its keys.  What else the
    component computes follows the two: the history of the expenses, the
    total, the form and what is shown of the balances. *)

From Stdlib Require Import ZArith NArith Lia Bool List Ascii String.
From Stdlib Require Import Sorted.
From Stdlib Require Import Floats.SpecFloat.
From Stdlib Require Import DecimalString DecimalN.
From stdpp Require Import base list strings.

Local Open Scope Z_scope.

(** ** JavaScript numbers *)

Module Js.

Definition prec : Z := 53.
Definition emax : Z := 1024.

Definition number : Type := spec_float.

Definition add : number -> number -> number := SFadd prec emax.
Definition sub : number -> number -> number := SFsub prec emax.
Definition mul : number -> number -> number := SFmul prec emax.
Definition div : number -> number -> number := SFdiv prec emax.
Definition neg : number -> number := SFopp.
(** [x < y]; false as soon as one side is NaN. *)
Definition lt : number -> number -> bool := SFltb.
(** [x <= y]; false as soon as one side is NaN. *)
Definition le : number -> number -> bool := SFleb.

(** The number an integer literal or an array length denotes. *)
Definition of_Z (z : Z) : number := binary_normalize prec emax z 0 false.

Definition NaN : number := S754_nan.
Definition zero : number := S754_zero false.
Definition hundred : number := of_Z 100.
(** The literal [0.01]: the binary64 value nearest to 1/100. *)
Definition cent : number := div (of_Z 1) (of_Z 100).

(** A value every binary64 operation can return: its mantissa has at most 53
    bits and sits at the exponent the format prescribes for it. *)
Definition valid (x : number) : bool := valid_binary prec emax x.

(** [x] is [Infinity] or [-Infinity]. *)
Definition infinite (x : number) : bool :=
  match x with
  | S754_infinity _ => true
  | _ => false
  end.

(** 10^21, from which on [toFixed] prints in exponent notation. *)
Definition sextillion : number := of_Z (10 ^ 21).

(** [Math.abs]. *)
Definition Math_abs : number -> number := SFabs.

(** [Math.min] of two arguments: NaN when either is, the smaller one
    otherwise, -0 counting as smaller than +0. *)
Definition Math_min (x y : number) : number :=
  match SFcompare x y with
  | None => NaN
  | Some Lt => x
  | Some Gt => y
  | Some Eq =>
      match x, y with
      | S754_zero true, _ => x
      | _, S754_zero true => y
      | _, _ => x
      end
  end.

(** [Math.max] of two arguments: NaN when either is, the larger one
    otherwise, +0 counting as larger than -0. *)
Definition Math_max (x y : number) : number :=
  match SFcompare x y with
  | None => NaN
  | Some Lt => y
  | Some Gt => x
  | Some Eq =>
      match x, y with
      | S754_zero false, _ => x
      | _, S754_zero false => y
      | _, _ => x
      end
  end.

(** [Math.round]: the integer nearest to [x], a tie going towards +∞; an
    argument in [-0.5, 0) gives -0.  For a finite [x = ±m·2^e] with [e < 0]
    the result is [floor (x + 1/2)], computed on the exact value. *)
Definition Math_round (x : number) : number :=
  match x with
  | S754_finite s m e =>
      if 0 <=? e then x
      else
        let n := (2 * cond_Zopp s (Zpos m) + 2 ^ (- e)) / 2 ^ (- e + 1) in
        if n =? 0 then S754_zero s else of_Z n
  | _ => x
  end.

(** [parseFloat] applied to a number: the argument is first converted to a
    string and that string is parsed back.  The conversion prints enough
    digits to identify the number, so the number is returned unchanged; the
    one exception is -0, which prints as "0". *)
Definition parseFloat (x : number) : number :=
  match x with
  | S754_zero _ => zero
  | _ => x
  end.

(** *** Printing numbers *)

(** The decimal digits of a natural number; "0" for zero. *)
Definition digits (n : N) : string := NilZero.string_of_uint (N.to_uint n).

Definition digit (n : N) : ascii :=
  ascii_of_N (48 + n mod 10)%N.

(** The number of decimal digits of a positive integer. *)
Definition decimal_length (v : Z) : Z := Z.of_nat (String.length (digits (Z.to_N v))).

(** [Number::toString] of a finite value of at least 10^21, which is an
    integer [v].  The standard asks for the least number [k] of digits such
    that some [k]-digit integer [s] and exponent [n] have [s * 10^(n-k)]
    convert to the number itself, and prints in exponent notation because
    [n > 21].  The search tries [k = 1, 2, ...] and, for each, the two
    [k]-digit neighbours of [v]. *)
Fixpoint shortest_digits (fuel : nat) (x : number) (v : Z) (k : Z) : option (Z * Z) :=
  match fuel with
  | O => None
  | S fuel' =>
      let n := decimal_length v in
      let scale := 10 ^ (n - k) in
      let lo := v / scale in
      let hi := lo + 1 in
      let fits s := match SFcompare (of_Z (s * scale)) x with Some Eq => true | _ => false end in
      let closer_lo := (v - lo * scale <=? hi * scale - v) in
      if fits lo && (closer_lo || negb (fits hi)) then Some (lo, n)
      else if fits hi then (if hi =? 10 ^ k then Some (hi / 10, n + 1) else Some (hi, n))
      else shortest_digits fuel' x v (k + 1)
  end.

Definition exponent_notation (s n : Z) : string :=
  let ds := digits (Z.to_N s) in
  match ds with
  | String d EmptyString => String d EmptyString
  | String d rest => String d (String "." rest)
  | EmptyString => EmptyString
  end +:+ "e+" +:+ digits (Z.to_N (n - 1)).

Definition toString_large (x : number) (v : Z) : string :=
  match shortest_digits 18 x v 1 with
  | Some (s, n) => exponent_notation s n
  | None => digits (Z.to_N v)
  end.

(** [n] hundredths in fixed notation: the digits of [n] with a point before
    the last two, and a 0 before the point when [n < 100]. *)
Definition fixed (n : N) : string :=
  digits (n / 100)%N +:+ String "." (String (digit (n / 10)%N) (String (digit n) "")).

(** [x.toFixed(2)].  A value that is not finite prints as [String(x)] does.
    Otherwise the sign is split off, and a magnitude of 10^21 or more also
    prints as [String(x)] does; below that, [n] is the integer for which
    [n / 100] is nearest to the exact value of [x] (the larger one on a tie)
    and the result is [n] written with a point before its last two digits. *)
Definition toFixed2 (x : number) : string :=
  match x with
  | S754_nan => "NaN"
  | S754_infinity false => "Infinity"
  | S754_infinity true => "-Infinity"
  | S754_zero _ => "0.00"
  | S754_finite s m e =>
      let sign := if s then "-" else "" in
      if (0 <=? e) && (10 ^ 21 <=? Zpos m * 2 ^ e) then
        sign +:+ toString_large (S754_finite false m e) (Zpos m * 2 ^ e)
      else
        let n := Z.to_N (if 0 <=? e then 100 * Zpos m * 2 ^ e
                         else (200 * Zpos m + 2 ^ (- e)) / 2 ^ (- e + 1)) in
        sign +:+ fixed n
  end.

(** *** Reading an amount back *)

Definition digit_value (c : ascii) : option N :=
  let n := N_of_ascii c in
  if ((48 <=? n) && (n <=? 57))%N then Some (n - 48)%N else None.

(** Splits a string at its point when exactly two characters follow it. *)
Fixpoint split_fraction (s : string) : option (string * ascii * ascii) :=
  match s with
  | EmptyString => None
  | String c s' =>
      if Ascii.eqb c "." then
        match s' with
        | String d1 (String d2 EmptyString) => Some (EmptyString, d1, d2)
        | _ => None
        end
      else
        match split_fraction s' with
        | Some (w, d1, d2) => Some (String c w, d1, d2)
        | None => None
        end
  end.

(** The number of hundredths a string denotes when it is an amount with
    exactly two decimal places: one or more digits, a point, two digits.
    Any other string, a sign or an exponent included, gives [None]. *)
Definition hundredths (s : string) : option N :=
  match split_fraction s with
  | Some (w, d1, d2) =>
      match NilZero.uint_of_string w, digit_value d1, digit_value d2 with
      | Some u, Some a, Some b => Some (100 * N.of_uint u + 10 * a + b)%N
      | _, _, _ => None
      end
  | None => None
  end.

(** *** Conditions, comparisons and sorting *)

(** [x] counts as true in a condition: a number other than 0, -0 and NaN. *)
Definition truthy (x : number) : bool :=
  match x with
  | S754_nan | S754_zero _ => false
  | _ => true
  end.

(** [x === y] on numbers. *)
Definition strict_eq : number -> number -> bool := SFeqb.

(** [Array.prototype.sort] with a comparison function, on an array of any
    elements.  The sort is stable, and for a comparison function that is
    consistent on the elements the result is the stable sorted order, which
    is computed by insertion.  A comparison result that is NaN counts as 0. *)
Fixpoint Array_insert {A : Type} (compare : A -> A -> number) (x : A) (l : list A) : list A :=
  match l with
  | [] => [x]
  | y :: l' => if lt zero (compare x y) then y :: Array_insert compare x l' else x :: l
  end.

Definition Array_sort {A : Type} (compare : A -> A -> number) (l : list A) : list A :=
  foldr (Array_insert compare) [] l.

(** *** Values and property names *)

(** What a property of the object [bal] holds and what an expression on it
    gives: [undefined], a number, a member of [Object.prototype] (one of its
    functions, or the prototype itself under [__proto__]), or a string.  The
    only strings that arise are those that adding numbers to a member of
    [Object.prototype] makes: the member as [String] prints it, followed by
    the numbers added, each as [String] prints it.  [Text name added] is
    that string for the member [Object.prototype[name]]. *)
Inductive value : Type :=
  | Undefined
  | Num (x : number)
  | Member (name : string)
  | Text (name : string) (added : list number).

(** The name under which every object inherits the accessor of its
    prototype. *)
Definition proto : string := "__proto__".

(** The names of the properties of [Object.prototype], which an object
    literal inherits; all are functions but [__proto__]. *)
Definition Object_prototype : list string :=
  [ "constructor"; "__defineGetter__"; "__defineSetter__"; "hasOwnProperty";
    "__lookupGetter__"; "__lookupSetter__"; "isPrototypeOf"; "propertyIsEnumerable";
    "toString"; "valueOf"; "__proto__"; "toLocaleString" ]%string.

(** [ToNumber].  [undefined] converts to NaN.  A function converts through
    its source text and [Object.prototype] through "[object Object]"; no
    string that starts with either is a numeric literal, so they convert to
    NaN and so does every [Text]. *)
Definition ToNumber (v : value) : number :=
  match v with
  | Num x => x
  | _ => NaN
  end.

(** [v + x] for a number [x].  A member of [Object.prototype] converts to a
    string first, and then so does [x]: the result is the two strings put
    together.  Otherwise both sides are numbers after [ToNumber]. *)
Definition addition (v : value) (x : number) : value :=
  match v with
  | Undefined => Num (add NaN x)
  | Num y => Num (add y x)
  | Member name => Text name [x]
  | Text name added => Text name (added ++ [x])
  end.

(** [v - x] for a number [x]: always a number. *)
Definition subtraction (v : value) (x : number) : value :=
  Num (sub (ToNumber v) x).

(** The array index a property name is, if it is one: the name is the
    decimal writing, without leading zeros, of an integer from 0 to
    2^32 - 2. *)
Definition array_index (k : string) : option N :=
  match NilZero.uint_of_string k with
  | Some u =>
      let n := N.of_uint u in
      if bool_decide (digits n = k) && (n <? 2 ^ 32 - 1)%N then Some n else None
  | None => None
  end.

End Js.

(** ** The application *)

Module Expense.
(** An expense record as stored: [amount] is a number, [involved] the array
    of names the amount is split between ([None] when the field is
    missing). *)
Record t : Type := { amount : Js.number; payer : string; involved : option (list string) }.
End Expense.

Module Entry.
(** The objects [{ person, amount }] of the debtor and creditor arrays. *)
Record t : Type := { person : string; amount : Js.number }.
End Entry.

Module Transaction.
(** The objects [{ from, to, amount }] pushed to [transactions]; [amount] is
    the string [toFixed(2)] returns. *)
Record t : Type := { from : string; to : string; amount : string }.
End Transaction.

Module App.
Import Js.

(** The own properties of an object created by an object literal, in the
    order [Object.entries] lists them: the array indices in ascending
    order, then the other names in the order of their creation. *)
Definition properties : Type := list (string * value).

(** The own property [k] of [bal], if there is one. *)
Fixpoint own (bal : properties) (k : string) : option value :=
  match bal with
  | [] => None
  | (k', v) :: bal' => if decide (k' = k) then Some v else own bal' k
  end.

(** [bal[k]]: the own property, or else what [Object.prototype] has under
    that name, or else [undefined]. *)
Definition read (bal : properties) (k : string) : value :=
  match own bal k with
  | Some v => v
  | None => if bool_decide (k ∈ Object_prototype) then Member k else Undefined
  end.

(** The own property [k] of [bal] gets the value [v] and keeps its place. *)
Fixpoint overwrite (bal : properties) (k : string) (v : value) : properties :=
  match bal with
  | [] => []
  | (k', v') :: bal' =>
      if decide (k' = k) then (k', v) :: bal' else (k', v') :: overwrite bal' k v
  end.

(** A new property whose name is the array index [n] goes before the first
    property that is not a smaller array index. *)
Fixpoint enter (n : N) (k : string) (v : value) (bal : properties) : properties :=
  match bal with
  | [] => [(k, v)]
  | (k', v') :: bal' =>
      match array_index k' with
      | Some n' => if (n' <? n)%N then (k', v') :: enter n k v bal' else (k, v) :: bal
      | None => (k, v) :: bal
      end
  end.

(** [bal[k] = v] for a number or a string [v].  An own property is
    replaced.  Otherwise the name [__proto__] reaches the setter that
    [Object.prototype] has for it, which does nothing with a value that is
    neither an object nor null; any other name becomes a new own property
    (the functions of [Object.prototype] are writable, so they do not stand
    in the way): an array index among the array indices, any other name
    last. *)
Definition assign (bal : properties) (k : string) (v : value) : properties :=
  match own bal k with
  | Some _ => overwrite bal k v
  | None =>
      if decide (k = proto) then bal
      else
        match array_index k with
        | Some n => enter n k v bal
        | None => bal ++ [(k, v)]
        end
  end.

(** The body of [expenses.forEach] in [balances] (lines 93-104). *)
Definition add_expense (bal : properties) (exp : Expense.t) : properties :=
  match Expense.involved exp with
  | None | Some [] => bal
  | Some involved =>
      let share := div (Expense.amount exp) (of_Z (Z.of_nat (length involved))) in
      let bal :=
        assign bal (Expense.payer exp)
          (addition (read bal (Expense.payer exp)) (parseFloat (Expense.amount exp))) in
      fold_left (fun bal person => assign bal person (subtraction (read bal person) share))
        involved bal
  end.

(** [balances] (lines 89-106). *)
Definition balances (participants : list string) (expenses : list Expense.t) : properties :=
  let bal := fold_left (fun bal p => assign bal p (Num zero)) participants [] in
  fold_left add_expense expenses bal.

(** The entries of an object whose values are numbers, in the order
    [Object.entries] lists them. *)
Definition object : Type := list (string * number).

(** The entries of [balances] as [calculateSettlements] reads them: the one
    use it makes of a value is [amount * 100] (line 177), which converts
    the value to a number first. *)
Definition numbers (bal : properties) : object :=
  map (fun entry => (entry.1, ToNumber entry.2)) bal.

(** [Math.round(amount * 100) / 100] (line 177). *)
Definition rounded (amount : number) : number :=
  div (Math_round (mul amount hundred)) hundred.

(** Step 1 of [calculateSettlements] (lines 175-180): the two [push]es. *)
Definition separate (balances : object) : list Entry.t * list Entry.t :=
  fold_left
    (fun '(debtors, creditors) '(person, amount) =>
       let val := rounded amount in
       let debtors :=
         if lt val (neg cent) then debtors ++ [Entry.Build_t person val] else debtors in
       let creditors :=
         if lt cent val then creditors ++ [Entry.Build_t person val] else creditors in
       (debtors, creditors))
    balances ([], []).

(** [Array.prototype.sort] with a comparison function.  The sort is stable,
    and the two comparison functions used here are consistent on the values
    that reach them (no NaN is ever pushed), so the result is the stable
    sorted order; it is computed by insertion.  A comparison result that is
    NaN counts as 0. *)
Fixpoint insert (compare : Entry.t -> Entry.t -> number) (x : Entry.t) (l : list Entry.t) : list Entry.t :=
  match l with
  | [] => [x]
  | y :: l' => if lt zero (compare x y) then y :: insert compare x l' else x :: l
  end.

Definition sort (compare : Entry.t -> Entry.t -> number) (l : list Entry.t) : list Entry.t :=
  foldr (insert compare) [] l.

Definition ascending (a b : Entry.t) : number := sub (Entry.amount a) (Entry.amount b).
Definition descending (a b : Entry.t) : number := sub (Entry.amount b) (Entry.amount a).

(** The variables of the matching loop. *)
Record state : Type :=
  { debtors : list Entry.t;
    creditors : list Entry.t;
    i : nat;
    j : nat;
    transactions : list Transaction.t }.

(** [i < debtors.length && j < creditors.length]. *)
Definition running (st : state) : bool :=
  bool_decide (i st < length (debtors st))%nat && bool_decide (j st < length (creditors st))%nat.

(** One execution of the loop body (lines 193-211).  The entries are
    objects shared with the arrays, so the two assignments update the
    arrays in place. *)
Definition step (st : state) : state :=
  match debtors st !! i st, creditors st !! j st with
  | Some debtor, Some creditor =>
      let amountToSettle := Math_min (Math_abs (Entry.amount debtor)) (Entry.amount creditor) in
      let transactions :=
        transactions st ++
          [Transaction.Build_t (Entry.person debtor) (Entry.person creditor) (toFixed2 amountToSettle)] in
      let debtor := Entry.Build_t (Entry.person debtor) (add (Entry.amount debtor) amountToSettle) in
      let creditor := Entry.Build_t (Entry.person creditor) (sub (Entry.amount creditor) amountToSettle) in
      {| debtors := <[i st := debtor]> (debtors st);
         creditors := <[j st := creditor]> (creditors st);
         i := if lt (Math_abs (Entry.amount debtor)) cent then S (i st) else i st;
         j := if lt (Entry.amount creditor) cent then S (j st) else j st;
         transactions := transactions |}
  | _, _ => st
  end.

(** The [while] loop, cut off after [fuel] executions of its body. *)
Fixpoint loop (fuel : nat) (st : state) : state :=
  match fuel with
  | O => st
  | S fuel' => if running st then loop fuel' (step st) else st
  end.

(** The state on entry to the loop (lines 171-190). *)
Definition start (balances : object) : state :=
  let '(debtors, creditors) := separate balances in
  {| debtors := sort ascending debtors;
     creditors := sort descending creditors;
     i := 0; j := 0; transactions := [] |}.

(** [calculateSettlements] (lines 170-215) on the balances it closes over:
    the transactions returned, or [None] when the loop is still running
    after [fuel] executions of its body. *)
Definition calculateSettlements (fuel : nat) (balances : object) : option (list Transaction.t) :=
  let st := loop fuel (start balances) in
  if running st then None else Some (transactions st).

End App.

(** * The rest of the component

    The history of the expenses, the total, the form and what is shown of
    the balances and the settlements. *)

Module Doc.

(** An expense as the snapshot listener stores it in [expenses] (lines
    67-70): the id of the document and its fields.  [createdAt] stands for
    [createdAt?.seconds]: [None] when the field is missing or null, as it
    is while the server has not set the timestamp. *)
Record t : Type :=
  { id : string;
    expense : Expense.t;
    description : string;
    date : string;
    createdAt : option Js.number }.

End Doc.

Module NewExpense.

(** The object [handleAddExpense] passes to [addDoc] (lines 123-130).  Its
    [createdAt] is the sentinel of [serverTimestamp()], which the server
    replaces by the time of the write. *)
Record t : Type :=
  { amount : Js.number;
    description : string;
    payer : string;
    involved : list string;
    date : string }.

(** The fields [balances] reads, once the document is stored. *)
Definition expense (e : t) : Expense.t :=
  {| Expense.amount := amount e; Expense.payer := payer e;
     Expense.involved := Some (involved e) |}.

End NewExpense.

Module Form.

(** The state of the form (lines 45-48). *)
Record t : Type :=
  { amount : string;
    description : string;
    payer : string;
    involved : list string }.

End Form.

Module Page.
Import Js App.

(** [DEFAULT_PARTICIPANTS] (line 36): the keys of [PARTICIPANT_CONFIG] in
    the order they are written. *)
Definition DEFAULT_PARTICIPANTS : list string :=
  ["Theo"; "Lillian"; "Ruben"; "Noreen"; "Casper"; "Swenne"; "Anneke"; "Michael";
   "Marten"]%string.

(** [Object.keys]. *)
Definition keys {A : Type} (o : list (string * A)) : list string := map fst o.

(** [totalSpent] (line 108). *)
Definition totalSpent (expenses : list Doc.t) : number :=
  fold_left (fun sum item => add sum (parseFloat (Expense.amount (Doc.expense item))))
    expenses zero.

Section History.

(** [Date.parse]: the time value of a date string, a whole number of
    milliseconds, or [None] for NaN. *)
Variable Date_parse : string -> option Z.

(** [Date.parse(a.date) || 0]. *)
Definition parsed (a : Doc.t) : number :=
  let t := match Date_parse (Doc.date a) with Some t => of_Z t | None => NaN end in
  if truthy t then t else zero.

(** [aTime] and [bTime] (lines 111-112). *)
Definition time (a : Doc.t) : number :=
  match Doc.createdAt a with
  | Some seconds => if truthy seconds then mul seconds (of_Z 1000) else parsed a
  | None => parsed a
  end.

(** The comparison function of [sortedExpenses] (lines 110-114). *)
Definition newest (a b : Doc.t) : number := sub (time b) (time a).

(** [sortedExpenses] (lines 109-115), a sorted copy of [expenses]. *)
Definition sortedExpenses (expenses : list Doc.t) : list Doc.t :=
  Array_sort newest expenses.

(** [visibleExpenses] (line 116). *)
Definition visibleExpenses (showAllHistory : bool) (expenses : list Doc.t) : list Doc.t :=
  if showAllHistory then sortedExpenses expenses else take 3%nat (sortedExpenses expenses).

End History.

(** [toggleInvolved] (lines 153-159), as a function of the list selected. *)
Definition toggleInvolved (involved : list string) (person : string) : list string :=
  if bool_decide (person ∈ involved) then filter (fun p => p <> person) involved
  else involved ++ [person].

(** [setOnly] (lines 161-163). *)
Definition setOnly (person : string) : list string := [person].

(** [selectAll] (lines 165-167). *)
Definition selectAll (participants : list string) : list string := participants.

Section Submit.

(** [parseFloat] on the text of the amount field. *)
Variable parseFloat_text : string -> number.

(** [handleAddExpense] (lines 119-143) up to the call of [addDoc]: the
    document it sends, none when it returns early.  [now] is
    [new Date().toISOString()]. *)
Definition handleAddExpense (form : Form.t) (now : string) : option NewExpense.t :=
  if bool_decide (Form.amount form = ""%string)
     || bool_decide (Form.description form = ""%string)
     || bool_decide (length (Form.involved form) = 0%nat)
  then None
  else Some {| NewExpense.amount := parseFloat_text (Form.amount form);
               NewExpense.description := Form.description form;
               NewExpense.payer := Form.payer form;
               NewExpense.involved := Form.involved form;
               NewExpense.date := now |}.

End Submit.

(** What the user of the page can do to the form, and what the page does
    to it when a document has been added. *)
Inductive event : Type :=
  | SetAmount (value : string)
  | SetPayer (value : string)
  | SetDescription (value : string)
  | ToggleInvolved (person : string)
  | SelectAll
  | Clear
  | Added.

(** The state of the form on the first rendering (lines 45-48); the roster
    is not empty. *)
Definition initial : Form.t :=
  {| Form.amount := ""; Form.description := "";
     Form.payer := hd ""%string DEFAULT_PARTICIPANTS; Form.involved := [] |}.

(** The handlers of the form (lines 251, 260, 275, 288, 300, 302) and the
    reset after [addDoc] (lines 140-142), each on the state of the latest
    rendering. *)
Definition handle (participants : list string) (form : Form.t) (ev : event) : Form.t :=
  match ev with
  | SetAmount value =>
      {| Form.amount := value; Form.description := Form.description form;
         Form.payer := Form.payer form; Form.involved := Form.involved form |}
  | SetPayer value =>
      {| Form.amount := Form.amount form; Form.description := Form.description form;
         Form.payer := value; Form.involved := Form.involved form |}
  | SetDescription value =>
      {| Form.amount := Form.amount form; Form.description := value;
         Form.payer := Form.payer form; Form.involved := Form.involved form |}
  | ToggleInvolved person =>
      {| Form.amount := Form.amount form; Form.description := Form.description form;
         Form.payer := Form.payer form;
         Form.involved := toggleInvolved (Form.involved form) person |}
  | SelectAll =>
      {| Form.amount := Form.amount form; Form.description := Form.description form;
         Form.payer := Form.payer form; Form.involved := selectAll participants |}
  | Clear =>
      {| Form.amount := Form.amount form; Form.description := Form.description form;
         Form.payer := Form.payer form; Form.involved := [] |}
  | Added =>
      {| Form.amount := ""; Form.description := "";
         Form.payer := Form.payer form; Form.involved := [] |}
  end.

(** The events the rendered page can raise: the payer is one of the options
    of the select (lines 263-265), and there is one toggle button for each
    participant (lines 284-297). *)
Definition offered (participants : list string) (ev : event) : Prop :=
  match ev with
  | SetPayer person | ToggleInvolved person => person ∈ participants
  | _ => True
  end.

(** [settlements] (line 217): nothing is computed while the panel is closed. *)
Definition settlements (isSettleOpen : bool) (fuel : nat) (balances : object) :
    option (list Transaction.t) :=
  if isSettleOpen then calculateSettlements fuel balances else Some [].

(** The class and the text of a balance (lines 369-370), the text without
    the currency sign. *)
Definition balance_class (amount : number) : string :=
  if le zero amount then "text-green-600" else "text-red-500".

Definition balance_text (amount : number) : string := toFixed2 amount.

End Page.

(** ** Notions the proofs are stated with *)

(** Entries that hold numbers, looked up and updated by name.  They say
    what paying a transaction does to a balance map, and what [add_expense]
    does to balances that are all numbers. *)
Module Entries.
Import Js App.

(** The number that the entries of an object hold under [k], if any. *)
Fixpoint get (o : object) (k : string) : option number :=
  match o with
  | [] => None
  | (k', v) :: o' => if decide (k' = k) then Some v else get o' k
  end.

(** The entries with the number [v] under [k]: in the place of the entry
    there was for [k], or else as a new last entry. *)
Fixpoint set (o : object) (k : string) (v : number) : object :=
  match o with
  | [] => [(k, v)]
  | (k', v') :: o' => if decide (k' = k) then (k', v) :: o' else (k', v') :: set o' k v
  end.

(** A number that is missing counts as NaN. *)
Definition to_number (v : option number) : number :=
  match v with
  | Some x => x
  | None => NaN
  end.

(** The properties that hold the numbers of the entries [o]. *)
Definition values (o : object) : properties :=
  map (fun entry => (entry.1, Num entry.2)) o.

(** What an expense does to entries that hold a number for its payer and
    for everybody involved: the additions and subtractions of
    [add_expense], each in the place of the entry. *)
Definition post (o : object) (exp : Expense.t) : object :=
  match Expense.involved exp with
  | None | Some [] => o
  | Some involved =>
      let share := div (Expense.amount exp) (of_Z (Z.of_nat (length involved))) in
      let o :=
        set o (Expense.payer exp)
          (add (to_number (get o (Expense.payer exp))) (parseFloat (Expense.amount exp))) in
      fold_left (fun o person => set o person (sub (to_number (get o person)) share))
        involved o
  end.

End Entries.

Module Format.
Import Js.

Abbreviation fexp := (SpecFloat.fexp 53 1024).
Abbreviation canonical := (canonical_mantissa 53 1024).
Abbreviation bounded := (SpecFloat.bounded 53 1024).

(** The record [r] holds [M] shifted right by [k] bits: the mantissa is the
    quotient, and the two bits kept beside it are both clear exactly when
    nothing was lost ([sticky0] says that something was lost before). *)
Definition shifted (M : Z) (sticky0 : bool) (k : Z) (r : shr_record) : Prop :=
  shr_m r = M / 2 ^ k /\
  orb (shr_r r) (shr_s r) = orb sticky0 (negb (M mod 2 ^ k =? 0)).

Definition inexact (l : location) : bool :=
  match l with loc_Exact => false | _ => true end.

(** The second half of [binary_round_aux]: renormalise and check the range. *)
Definition finish (sx : bool) (m e : Z) : spec_float :=
  let '(mrs, e') := shr_fexp 53 1024 m e loc_Exact in
  match shr_m mrs with
  | Z0 => S754_zero sx
  | Zpos m => if e' <=? 1024 - 53 then S754_finite sx m e' else S754_infinity sx
  | Zneg _ => S754_nan
  end.

(** The results an operation may return with sign [s]: a zero, an
    infinity, or a finite value in the format. *)
Definition good (s : bool) (x : spec_float) : Prop :=
  x = S754_zero s \/ x = S754_infinity s \/
  exists m e, x = S754_finite s m e /\ bounded m e = true.

(** A finite amount owed: negative and in the format. *)
Definition debt (x : number) : Prop :=
  exists m e, x = S754_finite true m e /\ bounded m e = true.

(** A finite amount due: positive and in the format. *)
Definition credit (x : number) : Prop :=
  exists m e, x = S754_finite false m e /\ bounded m e = true.

Definition is_zero (x : number) : Prop := exists s, x = S754_zero s.

(** [x] is the number that the whole number [n] denotes, and [n] is below
    2^53 in magnitude. *)
Definition whole (x : number) (n : Z) : Prop :=
  (n = 0 /\ x = S754_zero false) \/
  (n <> 0 /\ exists m e, x = S754_finite (n <? 0) m e /\ bounded m e = true /\
                          e <= 0 /\ Zpos m = Z.abs n * 2 ^ (- e)).

(** A zero or a finite number of the format. *)
Definition fin (x : number) : Prop :=
  match x with
  | S754_zero _ => True
  | S754_finite _ m e => bounded m e = true
  | _ => False
  end.

(** The value of a finite number in units of 2^-1074, the least positive
    number: an integer. *)
Definition sv (x : number) : Z :=
  match x with
  | S754_finite s m e => cond_Zopp s (Zpos m * 2 ^ (e + 1074))
  | _ => 0
  end.

(** One unit in the last place of the numbers below 2^32, and 2^32 itself,
    in units of 2^-1074. *)
Definition eps : Z := 2 ^ 1053.
Definition lim : Z := 2 ^ 1106.

(** The integer part of the magnitude of a finite number, with its sign. *)
Definition to_Z (x : number) : Z :=
  match x with
  | S754_finite s m e => cond_Zopp s (Zpos m / 2 ^ (- e))
  | _ => 0
  end.

(** [x] is a whole number below 2^53 in magnitude. *)
Definition integral (x : number) : Prop := whole x (to_Z x).

(** A balance that is a whole number below 2^46 in magnitude. *)
Definition whole_balance (x : number) : Prop := integral x /\ Z.abs (to_Z x) < 2 ^ 46.

(** A whole amount owed, and a whole amount due, below 2^46. *)
Definition whole_debt (x : number) : Prop := exists z, whole x z /\ - 2 ^ 46 < z < 0.
Definition whole_credit (x : number) : Prop := exists z, whole x z /\ 0 < z < 2 ^ 46.

(** An amount owed, and an amount due, that [toFixed] prints in fixed
    notation: at least 0.01 and below 10^21. *)
Definition small_debt (x : number) : Prop :=
  debt x /\ le cent (Math_abs x) = true /\ lt (Math_abs x) sextillion = true.

Definition small_credit (x : number) : Prop :=
  credit x /\ le cent x = true /\ lt x sextillion = true.

End Format.

Module Loop.
Import Js App Entries.

(** The number of entries the two cursors have not passed yet. *)
Definition remaining (st : state) : nat :=
  ((length (debtors st) - i st) + (length (creditors st) - j st))%nat.

(** Every entry at or after a cursor has the property of its side. *)
Definition ahead (Pd Pc : number -> Prop) (st : state) : Prop :=
  Forall (fun e => Pd (Entry.amount e)) (drop (i st) (debtors st)) /\
  Forall (fun e => Pc (Entry.amount e)) (drop (j st) (creditors st)).

(** The entry [calculateSettlements] pushes to [debtors] for a property of
    the balances, if it pushes one, and the one it pushes to [creditors]. *)
Definition listed_debtor (entry : string * number) : option Entry.t :=
  let val := rounded entry.2 in
  if lt val (neg cent) then Some (Entry.Build_t entry.1 val) else None.

Definition listed_creditor (entry : string * number) : option Entry.t :=
  let val := rounded entry.2 in
  if lt cent val then Some (Entry.Build_t entry.1 val) else None.

Definition persons (l : list Entry.t) : list string := map Entry.person l.

(** The call does not return: the loop is still running after any number
    of executions of its body. *)
Definition never_returns (balances : object) : Prop :=
  forall fuel, calculateSettlements fuel balances = None.

(** The entries the cursors have passed are settled. *)
Definition passed (st : state) : Prop :=
  Forall (fun e => Entry.amount e = zero) (take (i st) (debtors st)) /\
  Forall (fun e => Entry.amount e = zero) (take (j st) (creditors st)).

(** The balances [S] hold, for every entry of the two arrays, the amount
    of the entry, and zero for everybody else. *)
Definition agrees (st : state) (S : object) : Prop :=
  (forall e, e ∈ debtors st -> get S (Entry.person e) = Some (Entry.amount e)) /\
  (forall e, e ∈ creditors st -> get S (Entry.person e) = Some (Entry.amount e)) /\
  (forall p v, get S p = Some v ->
     p ∉ persons (debtors st) -> p ∉ persons (creditors st) -> v = zero).

(** The amounts of the entries, as whole numbers, added up. *)
Definition esum (l : list Entry.t) : Z :=
  foldr (fun e acc => Format.to_Z (Entry.amount e) + acc) 0 l.

End Loop.

(** ** What the specification speaks of *)

Module Spec.
Import Js App Entries Format Loop.

(** [sum(o.values())]: the values added up from 0 in the order of the
    properties. *)
Definition total (o : object) : number := fold_left add (map snd o) zero.

(** [|x| <= 0.01]: within the tolerance of zero. *)
Definition within_cent (x : number) : bool := le (Math_abs x) cent.

(** Every balance is a number. *)
Definition numeric (bal : properties) : Prop :=
  Forall (fun entry => exists x, entry.2 = Num x) bal.

(** The payer and the participants involved are on the roster. *)
Definition drawn (participants : list string) (exp : Expense.t) : Prop :=
  Expense.payer exp ∈ participants /\
  forall involved, Expense.involved exp = Some involved ->
    Forall (fun person => person ∈ participants) involved.

(** The amount is a positive whole number that splits into whole shares. *)
Definition even_split (exp : Expense.t) : Prop :=
  integral (Expense.amount exp) /\ 0 < to_Z (Expense.amount exp) /\
  forall involved, Expense.involved exp = Some involved ->
    (Z.of_nat (length involved) | to_Z (Expense.amount exp)).

(** The amounts of the expenses added up. *)
Definition volume (expenses : list Expense.t) : Z :=
  foldr (fun exp acc => to_Z (Expense.amount exp) + acc) 0 expenses.

(** The balances, their magnitudes and the positive ones, as whole numbers,
    added up. *)
Definition zsum (o : object) : Z := foldr (fun entry acc => to_Z entry.2 + acc) 0 o.
Definition zabs (o : object) : Z := foldr (fun entry acc => Z.abs (to_Z entry.2) + acc) 0 o.
Definition zcredit (o : object) : Z := foldr (fun entry acc => Z.max (to_Z entry.2) 0 + acc) 0 o.

(** Balances that are whole numbers adding up to [S], their magnitudes
    adding up to [B] at most, with every participant present. *)
Definition books (participants : list string) (S B : Z) (o : object) : Prop :=
  (forall q, q ∈ participants -> is_Some (get o q)) /\
  Forall (fun entry => integral entry.2) o /\
  zsum o = S /\ zabs o <= B.

(** The balances in units of 2^-1074, and their magnitudes, added up. *)
Definition fsum (o : object) : Z := foldr (fun entry acc => sv entry.2 + acc) 0 o.
Definition fabs (o : object) : Z := foldr (fun entry acc => Z.abs (sv entry.2) + acc) 0 o.

(** The operations of an expense that round: the division, the credit and
    a debit for each participant involved, counting two for each debit. *)
Definition updates (exp : Expense.t) : Z :=
  match Expense.involved exp with
  | Some involved => 2 * Z.of_nat (length involved) + 1
  | None => 0
  end.

Definition all_updates (expenses : list Expense.t) : Z :=
  foldr (fun exp acc => updates exp + acc) 0 expenses.

(** The magnitudes of the amounts, in units of 2^-1074, added up. *)
Definition fvolume (expenses : list Expense.t) : Z :=
  foldr (fun exp acc => Z.abs (sv (Expense.amount exp)) + acc) 0 expenses.

(** Finite balances adding up to [S], their magnitudes adding up to [M] at
    most, with every participant present and nobody else. *)
Definition ledger (participants : list string) (S M : Z) (o : object) : Prop :=
  (forall q, q ∈ participants -> is_Some (get o q)) /\
  Forall (fun entry => fin entry.2) o /\
  fsum o = S /\ fabs o <= M /\ (length o <= length participants)%nat.

(** The number that an amount printed with two decimal places denotes: for
    [n] hundredths, with [n] below 2^53, the binary64 value nearest to
    [n / 100].  Any other string converts to NaN. *)
Definition amount_value (s : string) : number :=
  match hundredths s with
  | Some n => div (of_Z (Z.of_N n)) hundred
  | None => NaN
  end.

(** The payment a transaction asks for, made on the balances: what [from]
    pays is added to the balance of [from] and taken off the balance of
    [to], as the loop itself does on its two entries. *)
Definition pay (o : object) (tx : Transaction.t) : object :=
  let v := amount_value (Transaction.amount tx) in
  let o := set o (Transaction.from tx) (add (to_number (get o (Transaction.from tx))) v) in
  set o (Transaction.to tx) (sub (to_number (get o (Transaction.to tx))) v).

Definition settle_all (o : object) (txs : list Transaction.t) : object :=
  fold_left pay txs o.

(** The amounts of the transactions added up from 0. *)
Definition sum_amounts (txs : list Transaction.t) : number :=
  fold_left (fun acc tx => add acc (amount_value (Transaction.amount tx))) txs zero.

(** [sum(max(b, 0) for b in balances.values())]. *)
Definition total_credit (o : object) : number :=
  fold_left (fun acc entry => add acc (Math_max entry.2 zero)) o zero.

(** The state of the loop on whole-number balances [o]: [S0] is what the
    entries ahead add up to, [C0] the credit there was at the start. *)
Definition exact_matching (o : object) (S0 C0 : Z) (st : state) : Prop :=
  ahead whole_debt whole_credit st /\
  passed st /\
  NoDup (persons (debtors st) ++ persons (creditors st)) /\
  esum (drop (i st) (debtors st)) + esum (drop (j st) (creditors st)) = S0 /\
  (C0 < 2 ^ 53 ->
   exists P, whole (sum_amounts (transactions st)) P /\ 0 <= P /\
             P + esum (drop (j st) (creditors st)) = C0) /\
  map fst (settle_all o (transactions st)) = map fst o /\
  agrees st (settle_all o (transactions st)).

End Spec.

(** ** What the further properties speak of *)

Module Terms.
Import Js App Entries Format Loop Page.

(** The place of a number other than NaN in the order of the numbers: its
    value in units of 2^-1074, and 2^2100 for Infinity, which is above
    every finite value. *)
Definition rank (x : number) : Z :=
  match x with
  | S754_infinity s => cond_Zopp s (2 ^ 2100)
  | _ => sv x
  end.

(** The comparison function asks for [x] to go behind [y] exactly when the
    place of [y] is before the place of [x]. *)
Definition ordered_by {A : Type} (compare : A -> A -> number) (place : A -> Z) (l : list A) :
    Prop :=
  forall x y, x ∈ l -> y ∈ l -> lt zero (compare x y) = (place y <? place x)%Z.

(** An entry holds a number. *)
Definition numbered (e : Entry.t) : Prop :=
  valid (Entry.amount e) = true /\ Entry.amount e <> NaN.

(** Who pays whom in a transaction. *)
Definition parties (tx : Transaction.t) : string * string :=
  (Transaction.from tx, Transaction.to tx).

(** Every transaction is between a debtor and a creditor of which one has
    been passed, and no two transactions are between the same two. *)
Definition paired (st : state) : Prop :=
  NoDup (persons (debtors st)) /\ NoDup (persons (creditors st)) /\
  Forall (fun tx => exists i' j',
            persons (debtors st) !! i' = Some (Transaction.from tx) /\
            persons (creditors st) !! j' = Some (Transaction.to tx) /\
            (i' < i st \/ j' < j st)%nat) (transactions st) /\
  NoDup (map parties (transactions st)).

(** A debtor entry is between what it was on entry to the loop and zero,
    and so is a creditor entry. *)
Definition less_owed (e0 e : Entry.t) : Prop :=
  Entry.person e0 = Entry.person e /\
  (to_Z (Entry.amount e0) <= to_Z (Entry.amount e) <= 0)%Z.

Definition less_due (e0 e : Entry.t) : Prop :=
  Entry.person e0 = Entry.person e /\
  (0 <= to_Z (Entry.amount e) <= to_Z (Entry.amount e0))%Z.

Definition shrinking (st0 st : state) : Prop :=
  ahead whole_debt whole_credit st /\
  Forall2 less_owed (debtors st0) (debtors st) /\
  Forall2 less_due (creditors st0) (creditors st).

(** The names whose balance an expense assigns to: none when it is skipped. *)
Definition touched (exp : Expense.t) : list string :=
  match Expense.involved exp with
  | None | Some [] => []
  | Some involved => Expense.payer exp :: involved
  end.

(** A value that is no number, or that is NaN: it converts to NaN. *)
Definition unset (v : value) : Prop := ToNumber v = NaN.

(** A value that is [undefined] or a number. *)
Definition plain (v : value) : Prop := v = Undefined \/ exists x, v = Num x.

(** The array index [a] is less than the array index [b]. *)
Definition index_before (a b : string) : Prop :=
  match array_index a, array_index b with
  | Some n, Some m => (n < m)%N
  | _, _ => False
  end.

(** The order in which an object lists the names of a roster as its keys:
    the array indices in ascending order, then the other names in the
    order of the roster. *)
Definition listing (participants keys : list string) : Prop :=
  exists indices,
    keys = indices ++ filter (fun k => array_index k = None) participants /\
    indices ≡ₚ filter (fun k => is_Some (array_index k)) participants /\
    StronglySorted index_before indices.

(** The seconds of every timestamp are a number of the format, as every
    number is. *)
Definition stamped (expenses : list Doc.t) : Prop :=
  Forall (fun a => forall seconds, Doc.createdAt a = Some seconds -> valid seconds = true)
    expenses.

(** The selection has no participant twice and nobody from off the roster. *)
Definition tidy (participants : list string) (form : Form.t) : Prop :=
  NoDup (Form.involved form) /\
  Forall (fun person => person ∈ participants) (Form.involved form).

(** The amounts as [totalSpent] adds them up, under the ids of their
    documents; their sum in units of 2^-1074; and the sum of their
    magnitudes as whole numbers. *)
Definition spent (expenses : list Doc.t) : object :=
  map (fun item => (Doc.id item, parseFloat (Expense.amount (Doc.expense item)))) expenses.

Definition spent_exactly (expenses : list Doc.t) : Z :=
  foldr (fun item acc => sv (Expense.amount (Doc.expense item)) + acc)%Z 0%Z expenses.

Definition spent_at_most (expenses : list Doc.t) : Z :=
  foldr (fun item acc => Z.abs (to_Z (Expense.amount (Doc.expense item))) + acc)%Z 0%Z expenses.

(** The text starts with a minus sign. *)
Definition has_minus (s : string) : bool :=
  match s with
  | String c _ => Ascii.eqb c "-"
  | EmptyString => false
  end.

End Terms.

(** ** Example inputs *)

Module Examples.
Import Js App Entries.

Definition roster : list string := ["A"; "B"; "C"]%string.

(** One expense of 10^15 that A pays for A, B and C. *)
Definition three_way : list Expense.t :=
  [ {| Expense.amount := of_Z (10 ^ 15); Expense.payer := "A"%string;
       Expense.involved := Some ["A"; "B"; "C"]%string |} ].

(** One expense of 30 that A pays for A, B and C. *)
Definition dinner : Expense.t :=
  {| Expense.amount := of_Z 30; Expense.payer := "A"%string;
     Expense.involved := Some ["A"; "B"; "C"]%string |}.

(** An expense with nobody involved. *)
Definition nobody : Expense.t :=
  {| Expense.amount := of_Z 10; Expense.payer := "A"%string; Expense.involved := Some [] |}.

(** One expense of 10 that A pays for A, B and C. *)
Definition tenner : Expense.t :=
  {| Expense.amount := of_Z 10; Expense.payer := "A"%string;
     Expense.involved := Some ["A"; "B"; "C"]%string |}.

(** The number nearest to [n / 100]. *)
Definition of_cents (n : Z) : number := div (of_Z n) hundred.

(** Three coffees of 0.02 on the roster of the application: Theo, Noreen
    and Casper pay one each for Lillian and Ruben. *)
Definition coffee (payer : string) : Expense.t :=
  {| Expense.amount := of_cents 2; Expense.payer := payer;
     Expense.involved := Some ["Lillian"; "Ruben"]%string |}.

Definition coffees : list Expense.t := [coffee "Theo"; coffee "Noreen"; coffee "Casper"].

(** The balances after the coffees: Theo, Noreen and Casper are owed 0.02
    each, Lillian and Ruben owe 0.03 each. *)
Definition cents : object :=
  [("Theo"%string, of_cents 2); ("Lillian"%string, of_cents (- 3));
   ("Ruben"%string, of_cents (- 3)); ("Noreen"%string, of_cents 2);
   ("Casper"%string, of_cents 2); ("Swenne"%string, zero); ("Anneke"%string, zero);
   ("Michael"%string, zero); ("Marten"%string, zero)].

(** What [calculateSettlements] returns on them. *)
Definition two_paid : list Transaction.t :=
  [Transaction.Build_t "Lillian" "Theo" "0.02"; Transaction.Build_t "Ruben" "Noreen" "0.02"].

(** B owes A 10. *)
Definition couple : object := [("A"%string, of_Z 10); ("B"%string, of_Z (- 10))].

(** A is owed 10 and nobody owes anything. *)
Definition lone_creditor : object := [("A"%string, of_Z 10); ("B"%string, zero)].

(** Everybody is even, to the tolerance. *)
Definition balanced : object := [("A"%string, cent); ("B"%string, neg cent); ("C"%string, zero)].

(** B owes A 10^22. *)
Definition huge : object := [("A"%string, of_Z (10 ^ 22)); ("B"%string, of_Z (- 10 ^ 22))].

(** B owes A 10^307: a hundred times as much is beyond the largest number. *)
Definition overflowing : object := [("A"%string, of_Z (10 ^ 307)); ("B"%string, of_Z (- 10 ^ 307))].

(** A is owed 10 and B owes 4. *)
Definition uneven : object := [("A"%string, of_Z 10); ("B"%string, of_Z (- 4))].

(** Z, who is not on the roster, pays 30 for A and B. *)
Definition stranger : list Expense.t :=
  [ {| Expense.amount := of_Z 30; Expense.payer := "Z"%string;
       Expense.involved := Some ["A"; "B"]%string |} ].

(** A roster with the name [__proto__] on it, which pays 30 for A. *)
Definition haunted : list string := [proto; "A"%string].

Definition rent : Expense.t :=
  {| Expense.amount := of_Z 30; Expense.payer := proto; Expense.involved := Some ["A"%string] |}.

(** A roster with an array index on it. *)
Definition numbered_roster : list string := ["B"; "7"; "A"]%string.

(** One expense of 30 that B pays for B, 7 and A. *)
Definition supper : Expense.t :=
  {| Expense.amount := of_Z 30; Expense.payer := "B"%string;
     Expense.involved := Some ["B"; "7"; "A"]%string |}.

(** The name constructor, which is not on the roster, pays 30 for A and B. *)
Definition builder : list Expense.t :=
  [ {| Expense.amount := of_Z 30; Expense.payer := "constructor"%string;
       Expense.involved := Some ["A"; "B"]%string |} ].

(** A is owed 10 and B is owed 5, C owes 8 and D owes 7. *)
Definition square : object :=
  [("A"%string, of_Z 10); ("B"%string, of_Z 5); ("C"%string, of_Z (- 8));
   ("D"%string, of_Z (- 7))].

(** A [Date.parse] that knows one date, the second day of 2026. *)
Definition calendar (s : string) : option Z :=
  if String.eqb s "2026-01-02T00:00:00.000Z" then Some 1767312000000%Z else None.

(** Four expenses of A: two stamped by the server, one that waits for its
    stamp, one with a date that does not parse. *)
Definition receipt (id : string) (amount : Z) (date : string) (createdAt : option number) :
    Doc.t :=
  {| Doc.id := id;
     Doc.expense := {| Expense.amount := of_Z amount; Expense.payer := "A"%string;
                       Expense.involved := Some ["A"; "B"; "C"]%string |};
     Doc.description := "Lift pass"; Doc.date := date; Doc.createdAt := createdAt |}.

Definition history : list Doc.t :=
  [ receipt "d1" 30 "2026-01-01T00:00:00.000Z" (Some (of_Z 1767225600));
    receipt "d2" 60 "2026-01-02T00:00:00.000Z" None;
    receipt "d3" 90 "yesterday" None;
    receipt "d4" 12 "2026-01-03T00:00:00.000Z" (Some (of_Z 1767398400)) ].

(** Three expenses of one second and one of the second before. *)
Definition same_second : list Doc.t :=
  [ receipt "e1" 30 "2026-01-01T00:00:00.000Z" (Some (of_Z 1767225600));
    receipt "e2" 60 "2026-01-01T00:00:00.000Z" (Some (of_Z 1767225599));
    receipt "e3" 90 "2026-01-01T00:00:00.000Z" (Some (of_Z 1767225600));
    receipt "e4" 12 "2026-01-01T00:00:00.000Z" (Some (of_Z 1767225600)) ].

(** An expense of A for A and B whose amount is not a number. *)
Definition unreadable : Doc.t :=
  {| Doc.id := "d5";
     Doc.expense := {| Expense.amount := NaN; Expense.payer := "A"%string;
                       Expense.involved := Some ["A"; "B"]%string |};
     Doc.description := "Taxi"; Doc.date := "2026-01-04T00:00:00.000Z";
     Doc.createdAt := None |}.

(** A lift pass of 30 and the taxi without an amount. *)
Definition bills : list Doc.t :=
  [receipt "d1" 30 "2026-01-01T00:00:00.000Z" None; unreadable].

(** The form is filled in for a lunch of Theo and Ruben. *)
Definition lunch : list Page.event :=
  [ Page.SetAmount "12.50"; Page.SetDescription "Lunch"; Page.ToggleInvolved "Theo";
    Page.ToggleInvolved "Ruben" ].

End Examples.

(** * Binary64 arithmetic

    Facts about the operations of [SpecFloat] at precision 53: what
    [binary_round_aux] returns, that its result is a value of the format,
    that it never passes a value of the format, and that it is exact on
    whole numbers. *)

Module Binary64.
Import Js Format.
Local Open Scope Z_scope.

Lemma digits2_pos_bounds (m : positive) :
  2 ^ (Zpos (digits2_pos m) - 1) <= Zpos m < 2 ^ Zpos (digits2_pos m).
Proof.
  induction m as [m IH | m IH |]; cbn [digits2_pos].
  - rewrite Pos2Z.inj_succ.
    replace (Z.succ (Zpos (digits2_pos m)) - 1) with (Z.succ (Zpos (digits2_pos m) - 1)) by lia.
    rewrite !Z.pow_succ_r by lia. lia.
  - rewrite Pos2Z.inj_succ.
    replace (Z.succ (Zpos (digits2_pos m)) - 1) with (Z.succ (Zpos (digits2_pos m) - 1)) by lia.
    rewrite !Z.pow_succ_r by lia. lia.
  - cbn. lia.
Qed.

Lemma pow2_pos (k : Z) : 0 <= k -> 0 < 2 ^ k.
Proof. intros. apply Z.pow_pos_nonneg; lia. Qed.

Lemma pow2_le (a b : Z) : 0 <= a <= b -> 2 ^ a <= 2 ^ b.
Proof. intros. apply Z.pow_le_mono_r; lia. Qed.

Lemma pow2_lt (a b : Z) : 0 <= a < b -> 2 ^ a < 2 ^ b.
Proof. intros. apply Z.pow_lt_mono_r; lia. Qed.

(** The number of bits is determined by the power-of-two bracket. *)
Lemma digits2_pos_unique (m : positive) (d : Z) :
  2 ^ (d - 1) <= Zpos m < 2 ^ d -> 1 <= d -> Zpos (digits2_pos m) = d.
Proof.
  intros [Hlo Hhi] Hd.
  pose proof (digits2_pos_bounds m) as [Hlo' Hhi'].
  destruct (Z.lt_trichotomy (Zpos (digits2_pos m)) d) as [Hlt | [Heq | Hgt]]; [| exact Heq |].
  - pose proof (pow2_le (Zpos (digits2_pos m)) (d - 1) ltac:(lia)). lia.
  - pose proof (pow2_le d (Zpos (digits2_pos m) - 1) ltac:(lia)). lia.
Qed.

Lemma digits2_pos_le (m : positive) (d : Z) :
  0 <= d -> Zpos m < 2 ^ d -> Zpos (digits2_pos m) <= d.
Proof.
  intros Hd Hm. pose proof (digits2_pos_bounds m) as [Hlo _].
  destruct (Z_le_gt_dec (Zpos (digits2_pos m)) d) as [|Hgt]; [assumption|].
  pose proof (pow2_le d (Zpos (digits2_pos m) - 1) ltac:(lia)). lia.
Qed.

Lemma digits2_pos_ge (m : positive) (d : Z) :
  2 ^ d <= Zpos m -> d < Zpos (digits2_pos m).
Proof.
  intros Hm. pose proof (digits2_pos_bounds m) as [_ Hhi].
  destruct (Z_lt_le_dec d (Zpos (digits2_pos m))) as [|Hle]; [assumption|].
  pose proof (pow2_le (Zpos (digits2_pos m)) d ltac:(lia)). lia.
Qed.

Lemma iter_xO (m d : positive) : Zpos (Pos.iter xO m d) = Zpos m * 2 ^ Zpos d.
Proof.
  induction d as [|d IH] using Pos.peano_ind.
  - cbn. lia.
  - rewrite Pos.iter_succ, Pos2Z.inj_succ, Z.pow_succ_r by lia.
    rewrite Pos2Z.inj_xO, IH. ring.
Qed.

Lemma shl_align_spec (mx : positive) (ex ex' : Z) :
  let '(m, e) := shl_align mx ex ex' in
  e = Z.min ex ex' /\ Zpos m = Zpos mx * 2 ^ (ex - e).
Proof.
  unfold shl_align.
  destruct (ex' - ex) as [|d|d] eqn:Hd.
  - split; [lia|]. replace (ex - ex) with 0 by lia. cbn. lia.
  - split; [lia|]. replace (ex - ex) with 0 by lia. cbn. lia.
  - split; [lia|]. rewrite iter_xO. f_equal. f_equal. lia.
Qed.

Lemma shr_1_spec (m : Z) (r s : bool) :
  0 <= m ->
  shr_1 (Build_shr_record m r s) = Build_shr_record (m / 2) (Z.odd m) (orb r s).
Proof.
  intros Hm. destruct m as [|p|p]; [reflexivity| |lia].
  destruct p as [p|p|]; cbn [shr_1 Z.odd].
  - f_equal. rewrite Pos2Z.inj_xI. apply Z.div_unique with (r := 1); lia.
  - f_equal. rewrite Pos2Z.inj_xO. apply Z.div_unique with (r := 0); lia.
  - reflexivity.
Qed.

Lemma shifted_step (M : Z) (b : bool) (k : Z) (r : shr_record) :
  0 <= M -> 0 <= k -> shifted M b k r -> shifted M b (k + 1) (shr_1 r).
Proof.
  intros HM Hk [Hm Hrs]. destruct r as [m r s]; cbn [shr_m shr_r shr_s] in *.
  assert (H2k : 0 < 2 ^ k) by (apply pow2_pos; lia).
  assert (Hm0 : 0 <= m) by (subst m; apply Z.div_pos; lia).
  rewrite shr_1_spec by assumption. unfold shifted; cbn [shr_m shr_r shr_s].
  rewrite Z.pow_add_r, Z.pow_1_r by lia.
  split.
  - subst m. rewrite Z.div_div by lia. reflexivity.
  - rewrite Hrs. subst m.
    rewrite Z.rem_mul_r by lia.
    pose proof (Z.mod_pos_bound M (2 ^ k) H2k).
    pose proof (Zmod_odd (M / 2 ^ k)) as Hodd.
    destruct b; cbn [orb]; [apply orb_true_r|].
    destruct (Z.odd (M / 2 ^ k)); rewrite Hodd; cbn [orb].
    + symmetry. apply negb_true_iff, Z.eqb_neq. lia.
    + f_equal. f_equal. lia.
Qed.

Lemma shifted_iter (M : Z) (b : bool) (p : positive) :
  0 <= M -> forall (k : Z) (r : shr_record),
  0 <= k -> shifted M b k r -> shifted M b (k + Zpos p) (SpecFloat.iter_pos shr_1 p r).
Proof.
  intros HM. induction p as [p IH | p IH |]; intros k r Hk H; cbn [SpecFloat.iter_pos].
  - replace (k + Zpos p~1) with (k + 1 + Zpos p + Zpos p) by lia.
    apply IH; [lia|]. apply IH; [lia|]. apply shifted_step; assumption.
  - replace (k + Zpos p~0) with (k + Zpos p + Zpos p) by lia.
    apply IH; [lia|]. apply IH; assumption.
  - apply shifted_step; assumption.
Qed.

Lemma shifted_init (M : Z) (l : location) :
  shifted M (inexact l) 0 (shr_record_of_loc M l).
Proof.
  unfold shifted. rewrite Z.pow_0_r, Z.div_1_r, Z.mod_1_r.
  destruct l as [|[| |]]; cbn; split; reflexivity.
Qed.

(** Rounding a shifted record moves the mantissa up by at most one, and
    not at all when nothing was lost. *)
Lemma round_shifted (M : Z) (b : bool) (k : Z) (r : shr_record) :
  shifted M b k r ->
  let m' := round_nearest_even (shr_m r) (loc_of_shr_record r) in
  (m' = M / 2 ^ k \/ m' = M / 2 ^ k + 1) /\
  (b = false -> M mod 2 ^ k = 0 -> m' = M / 2 ^ k).
Proof.
  intros [Hm Hrs]. destruct r as [m r s]; cbn [shr_m shr_r shr_s] in *. subst m.
  destruct r, s; cbn [loc_of_shr_record round_nearest_even]; cbn zeta.
  all: try destruct (Z.even (M / 2 ^ k)).
  all: split; [ auto | intros -> E; rewrite E in Hrs; cbn in Hrs; try discriminate; reflexivity ].
Qed.

Lemma fexp_eq (e : Z) : fexp e = Z.max (e - 53) (-1074).
Proof. reflexivity. Qed.

Lemma canonical_iff (m : positive) (e : Z) :
  canonical m e = true <-> fexp (Zpos (digits2_pos m) + e) = e.
Proof. unfold canonical_mantissa. apply Z.eqb_eq. Qed.

Lemma bounded_iff (m : positive) (e : Z) :
  bounded m e = true <-> fexp (Zpos (digits2_pos m) + e) = e /\ e <= 971.
Proof.
  unfold SpecFloat.bounded. rewrite andb_true_iff, canonical_iff, Z.leb_le. reflexivity.
Qed.

(** What a bounded mantissa and exponent look like. *)
Lemma bounded_inv (m : positive) (e : Z) :
  bounded m e = true ->
  -1074 <= e <= 971 /\ Zpos m < 2 ^ 53 /\ (-1074 < e -> 2 ^ 52 <= Zpos m).
Proof.
  rewrite bounded_iff, fexp_eq. intros [Hc He].
  pose proof (digits2_pos_bounds m) as [Hlo Hhi].
  assert (Hd : Zpos (digits2_pos m) <= 53) by lia.
  split; [lia|]. split.
  - pose proof (pow2_le (Zpos (digits2_pos m)) 53 ltac:(lia)). lia.
  - intros Hn. assert (Zpos (digits2_pos m) = 53) as E by lia.
    rewrite E in Hlo. exact Hlo.
Qed.

Lemma shr_fexp_spec (mx ex : Z) (lx : location) :
  0 <= mx -> ex <= fexp (Zdigits2 mx + ex) ->
  exists r, shr_fexp 53 1024 mx ex lx = (r, fexp (Zdigits2 mx + ex)) /\
            shifted mx (inexact lx) (fexp (Zdigits2 mx + ex) - ex) r.
Proof.
  intros Hm He. unfold shr_fexp, shr.
  destruct (fexp (Zdigits2 mx + ex) - ex) as [|p|p] eqn:Hn; [| |lia].
  - exists (shr_record_of_loc mx lx). split; [f_equal; lia|]. apply shifted_init.
  - exists (SpecFloat.iter_pos shr_1 p (shr_record_of_loc mx lx)). split; [f_equal; lia|].
    apply (shifted_iter mx (inexact lx) p Hm 0); [lia|]. apply shifted_init.
Qed.

(** After the shift the mantissa sits at its exponent, unless it vanished. *)
Lemma shifted_slot (mx ex : Z) :
  0 <= mx -> ex <= fexp (Zdigits2 mx + ex) ->
  let e1 := fexp (Zdigits2 mx + ex) in
  let m1 := mx / 2 ^ (e1 - ex) in
  (m1 = 0 /\ e1 = -1074) \/ (0 < m1 /\ fexp (Zdigits2 m1 + e1) = e1).
Proof.
  intros Hm He e1 m1. subst e1 m1.
  set (e1 := fexp (Zdigits2 mx + ex)) in *.
  assert (Hp : 0 < 2 ^ (e1 - ex)) by (apply pow2_pos; lia).
  destruct mx as [|p|p]; [| |lia].
  - left. rewrite Z.div_0_l by lia. split; [reflexivity|].
    subst e1. cbn [Zdigits2] in *. rewrite fexp_eq in *. lia.
  - cbn [Zdigits2] in *. pose proof (digits2_pos_bounds p) as [Hlo Hhi].
    assert (Hq : 0 <= Zpos p / 2 ^ (e1 - ex)) by (apply Z.div_pos; lia).
    destruct (Z.eq_dec (Zpos p / 2 ^ (e1 - ex)) 0) as [E|E].
    + left. split; [exact E|].
      apply Z.div_small_iff in E; [|lia]. destruct E as [E|E]; [|lia].
      pose proof (digits2_pos_le p (e1 - ex) ltac:(lia) ltac:(lia)).
      subst e1. rewrite fexp_eq in *. lia.
    + right. split; [lia|].
      destruct (Zpos p / 2 ^ (e1 - ex)) as [|q|q] eqn:Hq'; [lia| |lia].
      cbn [Zdigits2].
      assert (Hge : 2 ^ (e1 - ex) <= Zpos p).
      { destruct (Z_le_gt_dec (2 ^ (e1 - ex)) (Zpos p)); [assumption|].
        rewrite Z.div_small in Hq' by lia. discriminate. }
      pose proof (digits2_pos_ge p (e1 - ex) Hge) as Hd.
      assert (Zpos (digits2_pos q) = Zpos (digits2_pos p) - (e1 - ex)) as ->.
      { apply digits2_pos_unique; [|lia]. rewrite <- Hq'. split.
        - apply Z.div_le_lower_bound; [lia|]. rewrite <- Z.pow_add_r by lia.
          replace (e1 - ex + (Zpos (digits2_pos p) - (e1 - ex) - 1))
            with (Zpos (digits2_pos p) - 1) by lia. exact Hlo.
        - apply Z.div_lt_upper_bound; [lia|]. rewrite <- Z.pow_add_r by lia.
          replace (e1 - ex + (Zpos (digits2_pos p) - (e1 - ex)))
            with (Zpos (digits2_pos p)) by lia. exact Hhi. }
      replace (Zpos (digits2_pos p) - (e1 - ex) + e1) with (Zpos (digits2_pos p) + ex) by lia.
      reflexivity.
Qed.

Lemma binary_round_aux_finish (sx : bool) (mx ex : Z) (lx : location) :
  binary_round_aux 53 1024 sx mx ex lx =
  let '(mrs, e1) := shr_fexp 53 1024 mx ex lx in
  finish sx (round_nearest_even (shr_m mrs) (loc_of_shr_record mrs)) e1.
Proof. unfold binary_round_aux, finish. destruct (shr_fexp 53 1024 mx ex lx). reflexivity. Qed.

Lemma Zdigits2_mono (a b : Z) : 0 < a <= b -> Zdigits2 a <= Zdigits2 b.
Proof.
  intros [Ha Hab]. destruct a as [|p|p]; [lia| |lia]. destruct b as [|q|q]; [lia| |lia].
  cbn [Zdigits2]. pose proof (digits2_pos_bounds p) as [Hlo _].
  pose proof (digits2_pos_bounds q) as [_ Hhi].
  destruct (Z_le_gt_dec (Zpos (digits2_pos p)) (Zpos (digits2_pos q))); [assumption|].
  pose proof (pow2_le (Zpos (digits2_pos q)) (Zpos (digits2_pos p) - 1) ltac:(lia)). lia.
Qed.

Lemma finish_spec (sx : bool) (m1 m2 e1 : Z) :
  (m1 = 0 /\ e1 = -1074) \/ (0 < m1 /\ fexp (Zdigits2 m1 + e1) = e1) ->
  m2 = m1 \/ m2 = m1 + 1 ->
  (m2 = 0 /\ finish sx m2 e1 = S754_zero sx) \/
  exists (m3 : positive) (e3 : Z),
    canonical m3 e3 = true /\ e3 = fexp (Zdigits2 m2 + e1) /\ e1 <= e3 /\
    Zpos m3 * 2 ^ (e3 - e1) = m2 /\
    finish sx m2 e1 = if e3 <=? 971 then S754_finite sx m3 e3 else S754_infinity sx.
Proof.
  intros Hslot Hm2.
  assert (H0 : 0 <= m2) by lia.
  assert (Hpre : e1 <= fexp (Zdigits2 m2 + e1)).
  { destruct Hslot as [[-> ->]|[Hpos Hc]].
    - destruct Hm2 as [->| ->]; rewrite fexp_eq; simpl; lia.
    - rewrite <- Hc at 1. rewrite !fexp_eq.
      pose proof (Zdigits2_mono m1 m2 ltac:(lia)). lia. }
  destruct (shr_fexp_spec m2 e1 loc_Exact H0 Hpre) as (r & Hr & Hm & _).
  pose proof (shifted_slot m2 e1 H0 Hpre) as Hslot2. cbn zeta in Hslot2.
  unfold finish. rewrite Hr. rewrite Hm.
  set (e3 := fexp (Zdigits2 m2 + e1)) in *.
  assert (Hp : 0 < 2 ^ (e3 - e1)) by (apply pow2_pos; lia).
  (* the exponent moves by at most one, and only for a power of two *)
  assert (Hval : m2 / 2 ^ (e3 - e1) * 2 ^ (e3 - e1) = m2).
  { destruct Hslot as [[-> ->]|[Hpos Hc]].
    - assert (e3 = -1074) as -> by (subst e3; destruct Hm2 as [->| ->]; rewrite fexp_eq; simpl; lia).
      replace (-1074 - -1074) with 0 by lia. rewrite Z.pow_0_r, Z.div_1_r. lia.
    - destruct m1 as [|p1|p1]; [lia| |lia].
      destruct m2 as [|p2|p2]; [lia| |lia]. cbn [Zdigits2] in *.
      pose proof (digits2_pos_bounds p1) as [Hlo1 Hhi1].
      pose proof (digits2_pos_bounds p2) as [Hlo2 Hhi2].
      assert (Hd : Zpos (digits2_pos p2) <= Zpos (digits2_pos p1) + 1).
      { apply digits2_pos_le; [lia|]. rewrite Z.pow_add_r, Z.pow_1_r by lia. lia. }
      assert (He3 : e3 = e1 \/ (e3 = e1 + 1 /\ Zpos (digits2_pos p2) = Zpos (digits2_pos p1) + 1)).
      { subst e3. rewrite fexp_eq in *. lia. }
      destruct He3 as [->|[-> Hd2]].
      + replace (e1 - e1) with 0 by lia. rewrite Z.pow_0_r, Z.div_1_r. lia.
      + replace (e1 + 1 - e1) with 1 by lia. rewrite Z.pow_1_r.
        rewrite Hd2 in Hlo2.
        replace (Zpos (digits2_pos p1) + 1 - 1) with (Zpos (digits2_pos p1)) in Hlo2 by lia.
        assert (E : Zpos p2 = 2 ^ Zpos (digits2_pos p1)) by lia.
        rewrite E.
        assert (E2 : 2 ^ Zpos (digits2_pos p1) = 2 ^ (Zpos (digits2_pos p1) - 1) * 2).
        { rewrite <- (Z.pow_1_r 2) at 3. rewrite <- Z.pow_add_r by lia. f_equal. lia. }
        rewrite E2 at 1. rewrite Z.div_mul by lia. symmetry. exact E2. }
  destruct Hslot2 as [[Hz _]|[Hpos Hc]].
  - left. rewrite Hz in *. split; [lia|reflexivity].
  - right. destruct (m2 / 2 ^ (e3 - e1)) as [|m3|m3] eqn:Hm3; [lia| |lia].
    exists m3, e3. cbn [Zdigits2] in Hc.
    split; [apply canonical_iff; exact Hc|].
    split; [reflexivity|]. split; [lia|]. split; [exact Hval|]. reflexivity.
Qed.

Lemma round_aux_spec (sx : bool) (mx ex : Z) (lx : location) :
  0 <= mx -> ex <= fexp (Zdigits2 mx + ex) ->
  let e1 := fexp (Zdigits2 mx + ex) in
  let m1 := mx / 2 ^ (e1 - ex) in
  exists m2 : Z,
    (m2 = m1 \/ m2 = m1 + 1) /\
    (inexact lx = false -> mx mod 2 ^ (e1 - ex) = 0 -> m2 = m1) /\
    ((m2 = 0 /\ binary_round_aux 53 1024 sx mx ex lx = S754_zero sx) \/
     exists (m3 : positive) (e3 : Z),
       canonical m3 e3 = true /\ e3 = fexp (Zdigits2 m2 + e1) /\ e1 <= e3 /\
       Zpos m3 * 2 ^ (e3 - e1) = m2 /\
       binary_round_aux 53 1024 sx mx ex lx =
         if e3 <=? 971 then S754_finite sx m3 e3 else S754_infinity sx).
Proof.
  intros Hm He e1 m1.
  destruct (shr_fexp_spec mx ex lx Hm He) as (r & Hr & Hsh).
  pose proof (round_shifted _ _ _ _ Hsh) as [Hcases Hex]. cbn zeta in Hcases, Hex.
  rewrite binary_round_aux_finish, Hr.
  exists (round_nearest_even (shr_m r) (loc_of_shr_record r)).
  split; [exact Hcases|]. split; [exact Hex|].
  apply (finish_spec sx m1); [apply shifted_slot; assumption | exact Hcases].
Qed.

Lemma round_aux_good (sx : bool) (mx ex : Z) (lx : location) :
  0 <= mx -> ex <= fexp (Zdigits2 mx + ex) ->
  good sx (binary_round_aux 53 1024 sx mx ex lx).
Proof.
  intros Hm He.
  destruct (round_aux_spec sx mx ex lx Hm He) as (m2 & _ & _ & [[_ ->]|(m3 & e3 & Hc & _ & _ & _ & ->)]).
  - left. reflexivity.
  - destruct (Z.leb_spec e3 971).
    + right. right. exists m3, e3. split; [reflexivity|].
      apply bounded_iff. split; [apply canonical_iff; assumption | assumption].
    + right. left. reflexivity.
Qed.

(** Rounding never passes a value of the format: a mantissa below
    [B * 2^(E - ex)] rounds to at most [(B, E)]. *)
Lemma round_aux_le (sx : bool) (mx ex : Z) (B : positive) (E : Z) :
  0 <= mx -> ex <= fexp (Zdigits2 mx + ex) ->
  bounded B E = true -> ex <= E -> mx <= Zpos B * 2 ^ (E - ex) ->
  binary_round_aux 53 1024 sx mx ex loc_Exact = S754_zero sx \/
  exists m e, binary_round_aux 53 1024 sx mx ex loc_Exact = S754_finite sx m e /\
              bounded m e = true /\ (e < E \/ (e = E /\ Zpos m <= Zpos B)).
Proof.
  intros Hm He HB HE Hle.
  destruct (round_aux_spec sx mx ex loc_Exact Hm He)
    as (m2 & Hcases & Hex & [[_ ->]|(m3 & e3 & Hc & He3 & Hle3 & Hval & ->)]); [left; reflexivity|].
  right. cbn zeta in *.
  set (e1 := fexp (Zdigits2 mx + ex)) in *.
  apply bounded_iff in HB. destruct HB as [HBc HBe].
  apply canonical_iff in Hc.
  pose proof (digits2_pos_bounds B) as [HBlo HBhi].
  pose proof (digits2_pos_bounds m3) as [H3lo H3hi].
  assert (Hp : 0 < 2 ^ (e1 - ex)) by (apply pow2_pos; lia).
  assert (HpE : 0 < 2 ^ (E - ex)) by (apply pow2_pos; lia).
  assert (Hmx : 0 < mx).
  { destruct (Z.eq_dec mx 0) as [->|]; [|lia].
    pose proof (pow2_pos (e3 - e1) ltac:(lia)).
    assert (E0 : 0 / 2 ^ (e1 - ex) = 0) by (apply Z.div_0_l; lia).
    assert (E1 : 0 mod 2 ^ (e1 - ex) = 0) by (apply Z.mod_0_l; lia).
    assert (m2 = 0) by (rewrite (Hex eq_refl E1); exact E0).
    nia. }
  (* the exponent of the shift is at most E *)
  assert (He1 : e1 <= E).
  { destruct mx as [|p|p]; [lia| |lia]. cbn [Zdigits2] in *.
    pose proof (digits2_pos_bounds p) as [Hplo Hphi].
    assert (Zpos (digits2_pos p) + ex <= Zpos (digits2_pos B) + E).
    { assert (Zpos p < 2 ^ (Zpos (digits2_pos B) + E - ex)).
      { replace (Zpos (digits2_pos B) + E - ex) with (Zpos (digits2_pos B) + (E - ex)) by lia.
        rewrite Z.pow_add_r by lia. nia. }
      pose proof (digits2_pos_le p (Zpos (digits2_pos B) + E - ex) ltac:(lia) ltac:(assumption)).
      lia. }
    subst e1. rewrite fexp_eq in *. lia. }
  (* the rounded mantissa stays below the bound, at exponent e1 *)
  assert (Hm2 : m2 <= Zpos B * 2 ^ (E - e1)).
  { assert (Hsplit : 2 ^ (E - ex) = 2 ^ (E - e1) * 2 ^ (e1 - ex)).
    { rewrite <- Z.pow_add_r by lia. f_equal. lia. }
    assert (HpE1 : 0 < 2 ^ (E - e1)) by (apply pow2_pos; lia).
    pose proof (Z.div_mod mx (2 ^ (e1 - ex)) ltac:(lia)) as Hdm.
    pose proof (Z.mod_pos_bound mx (2 ^ (e1 - ex)) Hp) as Hmb.
    destruct (Z.eq_dec (mx mod 2 ^ (e1 - ex)) 0) as [E0|E0].
    - rewrite (Hex eq_refl E0). nia.
    - assert (mx / 2 ^ (e1 - ex) < Zpos B * 2 ^ (E - e1)) by nia. lia. }
  assert (Hp3 : 0 < 2 ^ (e3 - e1)) by (apply pow2_pos; lia).
  assert (Hord : e3 < E \/ (e3 = E /\ Zpos m3 <= Zpos B)).
  { destruct (Z.lt_trichotomy e3 E) as [Hlt|[Heq|Hgt]]; [left; assumption | right | exfalso].
    - split; [assumption|]. subst e3. rewrite Heq in *. nia.
    - (* a larger exponent would need more bits than the bound has *)
      assert (Hsplit : 2 ^ (e3 - e1) = 2 ^ (e3 - E) * 2 ^ (E - e1)).
      { rewrite <- Z.pow_add_r by lia. f_equal. lia. }
      assert (HpE1 : 0 < 2 ^ (E - e1)) by (apply pow2_pos; lia).
      assert (Hp3E : 0 < 2 ^ (e3 - E)) by (apply pow2_pos; lia).
      assert (Hb : Zpos m3 * 2 ^ (e3 - E) <= Zpos B) by nia.
      assert (Hd : Zpos (digits2_pos B) + E < Zpos (digits2_pos m3) + e3).
      { rewrite fexp_eq in HBc, Hc. lia. }
      assert (2 ^ Zpos (digits2_pos B) <= 2 ^ (Zpos (digits2_pos m3) - 1) * 2 ^ (e3 - E)).
      { rewrite <- Z.pow_add_r by lia. apply pow2_le. lia. }
      nia. }
  exists m3, e3. destruct (Z.leb_spec e3 971); [|lia].
  split; [reflexivity|]. split; [|exact Hord].
  apply bounded_iff. split; [exact Hc|]. lia.
Qed.

(** When no bit is lost the result is the shifted mantissa itself. *)
Lemma round_aux_exact (sx : bool) (mx : positive) (ex : Z) :
  let e1 := fexp (Zpos (digits2_pos mx) + ex) in
  ex <= e1 -> e1 <= 971 -> Zpos mx mod 2 ^ (e1 - ex) = 0 ->
  exists m : positive,
    Zpos m = Zpos mx / 2 ^ (e1 - ex) /\
    binary_round_aux 53 1024 sx (Zpos mx) ex loc_Exact = S754_finite sx m e1.
Proof.
  intros e1 He He1 Hmod.
  pose proof (round_aux_spec sx (Zpos mx) ex loc_Exact ltac:(lia) He) as (m2 & _ & Hex & Hres).
  pose proof (shifted_slot (Zpos mx) ex ltac:(lia) He) as Hslot.
  cbn zeta in Hex, Hres, Hslot. cbn [Zdigits2] in Hex, Hres, Hslot.
  change (fexp (Zpos (digits2_pos mx) + ex)) with e1 in Hex, Hres, Hslot.
  specialize (Hex eq_refl Hmod).
  assert (Hp : 0 < 2 ^ (e1 - ex)) by (apply pow2_pos; lia).
  assert (Hpos : 0 < Zpos mx / 2 ^ (e1 - ex)).
  { pose proof (Z.div_mod (Zpos mx) (2 ^ (e1 - ex)) ltac:(lia)).
    pose proof (Z.div_pos (Zpos mx) (2 ^ (e1 - ex)) ltac:(lia) Hp).
    destruct (Z.eq_dec (Zpos mx / 2 ^ (e1 - ex)) 0) as [E|E]; [nia|lia]. }
  destruct Hslot as [[Hz _]|[_ Hc]]; [lia|].
  destruct Hres as [[Hz _]|(m3 & e3 & _ & He3 & _ & Hval & ->)]; [lia|].
  rewrite Hex, Hc in He3. subst e3.
  replace (e1 - e1) with 0 in Hval by lia. rewrite Z.pow_0_r, Z.mul_1_r in Hval.
  exists m3. split; [lia|].
  destruct (Z.leb_spec e1 971); [reflexivity|lia].
Qed.

Lemma digits2_pos_shift (m mz : positive) (k : Z) :
  0 <= k -> Zpos mz = Zpos m * 2 ^ k ->
  Zpos (digits2_pos mz) = Zpos (digits2_pos m) + k.
Proof.
  intros Hk E. pose proof (digits2_pos_bounds m) as [Hlo Hhi].
  pose proof (pow2_pos k Hk).
  apply digits2_pos_unique; [|lia]. rewrite E.
  replace (Zpos (digits2_pos m) + k - 1) with (Zpos (digits2_pos m) - 1 + k) by lia.
  rewrite !Z.pow_add_r by lia. nia.
Qed.

Lemma binary_round_aux_eq (sx : bool) (mx : positive) (ex : Z) :
  exists (mz : positive) (ez : Z),
    binary_round 53 1024 sx mx ex = binary_round_aux 53 1024 sx (Zpos mz) ez loc_Exact /\
    ez <= ex /\ Zpos mz = Zpos mx * 2 ^ (ex - ez) /\
    fexp (Zpos (digits2_pos mz) + ez) = fexp (Zpos (digits2_pos mx) + ex) /\
    ez <= fexp (Zpos (digits2_pos mz) + ez).
Proof.
  unfold binary_round.
  pose proof (shl_align_spec mx ex (fexp (Zpos (digits2_pos mx) + ex))) as H.
  destruct (shl_align mx ex (fexp (Zpos (digits2_pos mx) + ex))) as [mz ez].
  destruct H as [He Hm].
  exists mz, ez. split; [reflexivity|]. split; [lia|]. split; [exact Hm|].
  rewrite (digits2_pos_shift mx mz (ex - ez)) by (assumption || lia).
  replace (Zpos (digits2_pos mx) + (ex - ez) + ez) with (Zpos (digits2_pos mx) + ex) by lia.
  split; [reflexivity | lia].
Qed.

Lemma binary_round_good (sx : bool) (mx : positive) (ex : Z) :
  good sx (binary_round 53 1024 sx mx ex).
Proof.
  destruct (binary_round_aux_eq sx mx ex) as (mz & ez & -> & _ & _ & _ & Hpre).
  apply round_aux_good; [lia | exact Hpre].
Qed.

Lemma binary_round_le (sx : bool) (mx : positive) (ex : Z) (B : positive) (E : Z) :
  bounded B E = true -> ex <= E -> Zpos mx <= Zpos B * 2 ^ (E - ex) ->
  binary_round 53 1024 sx mx ex = S754_zero sx \/
  exists m e, binary_round 53 1024 sx mx ex = S754_finite sx m e /\
              bounded m e = true /\ (e < E \/ (e = E /\ Zpos m <= Zpos B)).
Proof.
  intros HB HE Hle.
  destruct (binary_round_aux_eq sx mx ex) as (mz & ez & -> & Hez & Hmz & _ & Hpre).
  apply round_aux_le; [lia | exact Hpre | exact HB | lia |].
  rewrite Hmz.
  replace (E - ez) with (E - ex + (ex - ez)) by lia.
  rewrite Z.pow_add_r by lia.
  pose proof (pow2_pos (ex - ez) ltac:(lia)). nia.
Qed.

(** The sign with which [binary_normalize] rounds a non-zero integer. *)
Lemma binary_normalize_nonzero (z e : Z) :
  z <> 0 ->
  binary_normalize 53 1024 z e false = binary_round 53 1024 (z <? 0) (Z.to_pos (Z.abs z)) e.
Proof. intros Hz. destruct z as [|p|p]; [congruence| |]; reflexivity. Qed.

Lemma binary_normalize_good (z e : Z) :
  good (z <? 0) (binary_normalize 53 1024 z e false).
Proof.
  destruct (Z.eq_dec z 0) as [->|Hz]; [left; reflexivity|].
  rewrite binary_normalize_nonzero by assumption. apply binary_round_good.
Qed.

Lemma binary_normalize_le (z e : Z) (B : positive) (E : Z) :
  z <> 0 -> bounded B E = true -> e <= E -> Z.abs z <= Zpos B * 2 ^ (E - e) ->
  binary_normalize 53 1024 z e false = S754_zero (z <? 0) \/
  exists m e', binary_normalize 53 1024 z e false = S754_finite (z <? 0) m e' /\
               bounded m e' = true /\ (e' < E \/ (e' = E /\ Zpos m <= Zpos B)).
Proof.
  intros Hz HB HE Hle. rewrite binary_normalize_nonzero by assumption.
  apply binary_round_le; [assumption | assumption |].
  rewrite Z2Pos.id by lia. exact Hle.
Qed.

(** The order [SFcompare] puts on two positive values of the format agrees
    with the order of the values. *)
Lemma bounded_lt_value (m1 : positive) (e1 : Z) (m2 : positive) (e2 : Z) (e : Z) :
  bounded m1 e1 = true -> bounded m2 e2 = true ->
  e1 < e2 \/ (e1 = e2 /\ Zpos m1 < Zpos m2) ->
  e <= e1 -> e <= e2 ->
  Zpos m1 * 2 ^ (e1 - e) < Zpos m2 * 2 ^ (e2 - e).
Proof.
  intros H1 H2 Hlt He1 He2.
  apply bounded_inv in H1. apply bounded_inv in H2.
  destruct H1 as (Hr1 & Hm1 & _). destruct H2 as (Hr2 & _ & Hn2).
  pose proof (pow2_pos (e1 - e) ltac:(lia)).
  destruct Hlt as [Hlt|[-> Hlt]]; [|nia].
  specialize (Hn2 ltac:(lia)).
  replace (e2 - e) with (e2 - e1 + (e1 - e)) by lia. rewrite Z.pow_add_r by lia.
  assert (Hb : 2 ^ 1 <= 2 ^ (e2 - e1)) by (apply pow2_le; lia).
  rewrite Z.pow_1_r in Hb.
  assert (Hm : Zpos m1 < 2 * Zpos m2) by lia.
  apply Z.lt_le_trans with (2 * Zpos m2 * 2 ^ (e1 - e)); [nia|].
  rewrite Z.mul_assoc. apply Z.mul_le_mono_nonneg_r; [lia|]. nia.
Qed.

Lemma compare_finite_pos (m1 : positive) (e1 : Z) (m2 : positive) (e2 : Z) :
  SFcompare (S754_finite false m1 e1) (S754_finite false m2 e2) =
  Some (match e1 ?= e2 with Lt => Lt | Gt => Gt | Eq => Pos.compare m1 m2 end).
Proof. reflexivity. Qed.

Lemma compare_finite_pos_Lt (m1 : positive) (e1 : Z) (m2 : positive) (e2 : Z) :
  SFcompare (S754_finite false m1 e1) (S754_finite false m2 e2) = Some Lt <->
  e1 < e2 \/ (e1 = e2 /\ Zpos m1 < Zpos m2).
Proof.
  rewrite compare_finite_pos.
  destruct (Z.compare_spec e1 e2) as [E|E|E].
  - subst. destruct (Pos.compare_spec m1 m2) as [E|E|E].
    + subst. split; [discriminate | lia].
    + split; [intros _; right; split; [reflexivity | lia] | reflexivity].
    + split; [discriminate | lia].
  - split; [intros _; left; assumption | reflexivity].
  - split; [discriminate | lia].
Qed.

Lemma add_finite (sx : bool) (mx : positive) (ex : Z) (sy : bool) (my : positive) (ey : Z) :
  add (S754_finite sx mx ex) (S754_finite sy my ey) =
  binary_normalize 53 1024
    (cond_Zopp sx (Zpos mx * 2 ^ (ex - Z.min ex ey)) +
     cond_Zopp sy (Zpos my * 2 ^ (ey - Z.min ex ey))) (Z.min ex ey) false.
Proof.
  unfold add, SFadd, prec, emax.
  pose proof (shl_align_spec mx ex (Z.min ex ey)) as Hx.
  pose proof (shl_align_spec my ey (Z.min ex ey)) as Hy.
  destruct (shl_align mx ex (Z.min ex ey)) as [mx' ex'].
  destruct (shl_align my ey (Z.min ex ey)) as [my' ey'].
  destruct Hx as [Hex Hmx], Hy as [Hey Hmy]. cbn [fst].
  replace ex' with (Z.min ex ey) in Hmx by lia.
  replace ey' with (Z.min ex ey) in Hmy by lia.
  rewrite Hmx, Hmy. reflexivity.
Qed.

Lemma sub_finite (sx : bool) (mx : positive) (ex : Z) (sy : bool) (my : positive) (ey : Z) :
  sub (S754_finite sx mx ex) (S754_finite sy my ey) =
  binary_normalize 53 1024
    (cond_Zopp sx (Zpos mx * 2 ^ (ex - Z.min ex ey)) -
     cond_Zopp sy (Zpos my * 2 ^ (ey - Z.min ex ey))) (Z.min ex ey) false.
Proof.
  unfold sub, SFsub, prec, emax.
  pose proof (shl_align_spec mx ex (Z.min ex ey)) as Hx.
  pose proof (shl_align_spec my ey (Z.min ex ey)) as Hy.
  destruct (shl_align mx ex (Z.min ex ey)) as [mx' ex'].
  destruct (shl_align my ey (Z.min ex ey)) as [my' ey'].
  destruct Hx as [Hex Hmx], Hy as [Hey Hmy]. cbn [fst].
  replace ex' with (Z.min ex ey) in Hmx by lia.
  replace ey' with (Z.min ex ey) in Hmy by lia.
  rewrite Hmx, Hmy. reflexivity.
Qed.

Lemma leb_finite_pos (m1 : positive) (e1 : Z) (m2 : positive) (e2 : Z) :
  e1 < e2 \/ (e1 = e2 /\ Zpos m1 <= Zpos m2) ->
  le (S754_finite false m1 e1) (S754_finite false m2 e2) = true.
Proof.
  intros H. unfold le, SFleb. rewrite compare_finite_pos.
  destruct (Z.compare_spec e1 e2) as [E|E|E]; [|reflexivity|lia].
  destruct (Pos.compare_spec m1 m2) as [E'|E'|E']; [reflexivity|reflexivity|lia].
Qed.

(** One matching of a debtor with a creditor: the amount settled is one of
    the two remainders, that side drops to zero, and the other side stays a
    debt (a credit) no larger than before, unless it drops to zero too. *)
Lemma settle_step (d c : number) :
  debt d -> credit c ->
  let a := Math_min (Math_abs d) c in
  (a = Math_abs d \/ a = c) /\
  (is_zero (add d a) \/ (debt (add d a) /\ le (Math_abs (add d a)) (Math_abs d) = true)) /\
  (is_zero (sub c a) \/ (credit (sub c a) /\ le (sub c a) c = true)) /\
  (is_zero (add d a) \/ is_zero (sub c a)).
Proof.
  intros (md & ed & -> & Hd) (mc & ec & -> & Hc). cbn [Math_abs SFabs].
  assert (Hdd : add (S754_finite true md ed) (S754_finite false md ed) = S754_zero false).
  { rewrite add_finite. cbn [cond_Zopp]. rewrite Z.add_opp_diag_l. reflexivity. }
  assert (Hcc : sub (S754_finite false mc ec) (S754_finite false mc ec) = S754_zero false).
  { rewrite sub_finite. cbn [cond_Zopp]. rewrite Z.sub_diag. reflexivity. }
  unfold Math_min. rewrite compare_finite_pos.
  pose proof (pow2_pos (ed - Z.min ed ec) ltac:(lia)) as Hpd.
  pose proof (pow2_pos (ec - Z.min ed ec) ltac:(lia)) as Hpc.
  assert (Hlt : match ed ?= ec with Lt => Lt | Gt => Gt | Eq => Pos.compare md mc end = Lt ->
                Zpos md * 2 ^ (ed - Z.min ed ec) < Zpos mc * 2 ^ (ec - Z.min ed ec)).
  { intros H. apply bounded_lt_value; [assumption|assumption| |lia|lia].
    apply compare_finite_pos_Lt. rewrite compare_finite_pos, H. reflexivity. }
  assert (Hgt : match ed ?= ec with Lt => Lt | Gt => Gt | Eq => Pos.compare md mc end = Gt ->
                Zpos mc * 2 ^ (ec - Z.min ed ec) < Zpos md * 2 ^ (ed - Z.min ed ec)).
  { intros H. apply bounded_lt_value; [assumption|assumption| |lia|lia].
    destruct (Z.compare_spec ed ec) as [E|E|E]; [|discriminate|left; lia].
    right. split; [congruence|]. apply Pos.compare_gt_iff in H. lia. }
  destruct (match ed ?= ec with Lt => Lt | Gt => Gt | Eq => Pos.compare md mc end) eqn:Hcmp.
  - (* both remainders are equal *)
    assert (ed = ec /\ md = mc) as [-> ->].
    { destruct (Z.compare_spec ed ec) as [E|E|E]; try discriminate.
      split; [assumption|]. apply Pos.compare_eq. assumption. }
    rewrite Hdd, Hcc.
    split; [left; reflexivity|]. repeat split; left; exists false; reflexivity.
  - (* the debtor owes less than the creditor is due *)
    specialize (Hlt eq_refl). rewrite Hdd.
    split; [left; reflexivity|]. split; [left; exists false; reflexivity|].
    split; [|left; exists false; reflexivity].
    rewrite sub_finite. cbn [cond_Zopp]. rewrite (Z.min_comm ec ed).
    set (z := Zpos mc * 2 ^ (ec - Z.min ed ec) - Zpos md * 2 ^ (ed - Z.min ed ec)) in *.
    assert (Hz : z <> 0) by lia.
    assert (Hmin : Z.min ed ec <= ec) by lia.
    assert (Hza : Z.abs z <= Zpos mc * 2 ^ (ec - Z.min ed ec)) by lia.
    destruct (binary_normalize_le z (Z.min ed ec) mc ec Hz Hc Hmin Hza)
      as [->|(m & e & -> & Hb & Hord)].
    + left. eexists. reflexivity.
    + right. assert ((z <? 0) = false) as -> by lia.
      split; [exists m, e; split; [reflexivity|assumption]|].
      apply leb_finite_pos. exact Hord.
  - (* the creditor is due less than the debtor owes *)
    specialize (Hgt eq_refl). rewrite Hcc.
    split; [right; reflexivity|].
    split; [|split; [left|right]; exists false; reflexivity].
    rewrite add_finite. cbn [cond_Zopp].
    set (z := - (Zpos md * 2 ^ (ed - Z.min ed ec)) + Zpos mc * 2 ^ (ec - Z.min ed ec)) in *.
    assert (Hz : z <> 0) by lia.
    assert (Hmin : Z.min ed ec <= ed) by lia.
    assert (Hza : Z.abs z <= Zpos md * 2 ^ (ed - Z.min ed ec)) by lia.
    destruct (binary_normalize_le z (Z.min ed ec) md ed Hz Hd Hmin Hza)
      as [->|(m & e & -> & Hb & Hord)].
    + left. eexists. reflexivity.
    + right. assert ((z <? 0) = true) as -> by lia. cbn [Math_abs SFabs].
      split; [exists m, e; split; [reflexivity|assumption]|].
      apply leb_finite_pos. exact Hord.
Qed.

Lemma hundred_eq : hundred = S754_finite false 7036874417766400 (-46).
Proof. reflexivity. Qed.

Lemma cent_eq : cent = S754_finite false 5764607523034235 (-59).
Proof. reflexivity. Qed.

Lemma valid_good (s : bool) (x : number) : good s x -> valid x = true.
Proof.
  intros [->|[->|(m & e & -> & H)]]; [reflexivity|reflexivity|exact H].
Qed.

Lemma div_core_pre (m1 : positive) (e1 : Z) (m2 : positive) (e2 : Z) :
  let '(q, e', _) := SFdiv_core_binary 53 1024 (Zpos m1) e1 (Zpos m2) e2 in
  0 <= q /\ e' <= fexp (Zdigits2 q + e').
Proof.
  unfold SFdiv_core_binary. cbn [Zdigits2].
  set (X := Zpos (digits2_pos m1) + e1 - (Zpos (digits2_pos m2) + e2)).
  set (e' := Z.min (fexp X) (e1 - e2)).
  set (s := e1 - e2 - e').
  assert (Hs : 0 <= s) by (subst s e'; lia).
  set (m' := match s with Zpos _ => Z.shiftl (Zpos m1) s | Z0 => Zpos m1 | Zneg _ => 0 end).
  assert (Hm' : m' = Zpos m1 * 2 ^ s).
  { subst m'. destruct s as [|p|p]; [rewrite Z.pow_0_r; lia | | lia].
    rewrite Z.shiftl_mul_pow2 by lia. reflexivity. }
  pose proof (Z_div_mod m' (Zpos m2) ltac:(lia)) as Hdm.
  destruct (Z.div_eucl m' (Zpos m2)) as [q r]. destruct Hdm as [Hdm Hr].
  pose proof (pow2_pos s Hs) as Hps.
  pose proof (digits2_pos_bounds m1) as [Hlo1 Hhi1].
  pose proof (digits2_pos_bounds m2) as [Hlo2 Hhi2].
  assert (Hq : 0 <= q) by nia.
  split; [exact Hq|].
  assert (He' : e' <= fexp X) by (subst e'; lia).
  destruct q as [|q|q]; [| |lia].
  - (* the quotient vanished: the exponent is the least one *)
    cbn [Zdigits2]. rewrite Z.add_0_l.
    assert (Hlt : 2 ^ (Zpos (digits2_pos m1) - 1 + s) < 2 ^ Zpos (digits2_pos m2)).
    { rewrite Z.pow_add_r by lia. nia. }
    assert (Zpos (digits2_pos m1) - 1 + s < Zpos (digits2_pos m2)).
    { destruct (Z_lt_le_dec (Zpos (digits2_pos m1) - 1 + s) (Zpos (digits2_pos m2))); [assumption|].
      pose proof (pow2_le (Zpos (digits2_pos m2)) (Zpos (digits2_pos m1) - 1 + s) ltac:(lia)). lia. }
    rewrite fexp_eq in *. subst s X. lia.
  - cbn [Zdigits2].
    assert (Hd : Zpos (digits2_pos m1) + s - Zpos (digits2_pos m2) <= Zpos (digits2_pos q)).
    { destruct (Z_le_gt_dec (Zpos (digits2_pos m1) + s - Zpos (digits2_pos m2)) 1) as [|Hbig]; [lia|].
      assert (2 ^ (Zpos (digits2_pos m1) - 1 + s - Zpos (digits2_pos m2)) <= Zpos q).
      { assert (Hsplit : 2 ^ (Zpos (digits2_pos m1) - 1 + s) =
                         2 ^ (Zpos (digits2_pos m1) - 1 + s - Zpos (digits2_pos m2)) *
                         2 ^ Zpos (digits2_pos m2)).
        { rewrite <- Z.pow_add_r by lia. f_equal. lia. }
        assert (Hle : 2 ^ (Zpos (digits2_pos m1) - 1 + s) <= m').
        { rewrite Hm', Z.pow_add_r by lia. nia. }
        pose proof (pow2_pos (Zpos (digits2_pos m1) - 1 + s - Zpos (digits2_pos m2)) ltac:(lia)).
        destruct (Z_le_gt_dec (2 ^ (Zpos (digits2_pos m1) - 1 + s - Zpos (digits2_pos m2))) (Zpos q));
          [assumption|]. nia. }
      pose proof (digits2_pos_ge q _ H). lia. }
    rewrite fexp_eq in *. subst s X. lia.
Qed.

Lemma div_good (x : number) (my : positive) (ey : Z) :
  valid x = true -> valid (div x (S754_finite false my ey)) = true.
Proof.
  intros Hx. destruct x as [s|s| |s m e]; try reflexivity.
  unfold div, SFdiv, prec, emax.
  pose proof (div_core_pre m e my ey) as H.
  destruct (SFdiv_core_binary 53 1024 (Zpos m) e (Zpos my) ey) as [[q e'] l].
  destruct H as [Hq He]. apply (valid_good (xorb s false)). apply round_aux_good; assumption.
Qed.

Lemma mul_hundred_good (x : number) : valid (mul x hundred) = true.
Proof.
  rewrite hundred_eq. destruct x as [s|s| |s m e]; try reflexivity.
  unfold mul, SFmul, prec, emax.
  apply (valid_good (xorb s false)). apply round_aux_good; [lia|].
  cbn [Zdigits2].
  pose proof (digits2_pos_bounds m) as [Hlo Hhi].
  assert (Hge : 2 ^ (Zpos (digits2_pos m) + 51) <= Zpos (m * 7036874417766400)).
  { replace (Zpos (digits2_pos m) + 51) with (Zpos (digits2_pos m) - 1 + 52) by lia.
    rewrite Z.pow_add_r by lia. rewrite Pos2Z.inj_mul. change (2 ^ 52) with 4503599627370496. nia. }
  pose proof (digits2_pos_ge _ _ Hge). rewrite fexp_eq. lia.
Qed.

Lemma of_Z_good (z : Z) : valid (of_Z z) = true.
Proof. apply (valid_good (z <? 0)). apply binary_normalize_good. Qed.

Lemma Math_round_valid (x : number) : valid x = true -> valid (Math_round x) = true.
Proof.
  intros Hx. destruct x as [s|s| |s m e]; try reflexivity. cbn [Math_round].
  destruct (0 <=? e); [exact Hx|].
  destruct (_ =? 0); [reflexivity | apply of_Z_good].
Qed.

(** Whatever the balance, its rounding is a value of the format. *)
Lemma rounded_valid (amount : number) : valid (App.rounded amount) = true.
Proof.
  unfold App.rounded. rewrite hundred_eq at 2.
  apply div_good, Math_round_valid, mul_hundred_good.
Qed.

Lemma lt_neg_cent_debt (x : number) :
  valid x = true -> infinite x = false -> lt x (neg cent) = true -> debt x.
Proof.
  rewrite cent_eq. intros Hv Hi Hlt.
  destruct x as [s|s| |[|] m e]; try discriminate.
  exists m, e. split; [reflexivity|exact Hv].
Qed.

Lemma lt_cent_credit (x : number) :
  valid x = true -> infinite x = false -> lt cent x = true -> credit x.
Proof.
  rewrite cent_eq. intros Hv Hi Hlt.
  destruct x as [s|s| |[|] m e]; try discriminate.
  exists m, e. split; [reflexivity|exact Hv].
Qed.

Lemma is_zero_lt_cent (x : number) : is_zero x -> lt x cent = true.
Proof. intros [s ->]. reflexivity. Qed.

Lemma is_zero_abs_lt_cent (x : number) : is_zero x -> lt (Math_abs x) cent = true.
Proof. intros [s ->]. reflexivity. Qed.

(** ** Whole numbers below 2^53: exact arithmetic *)

Lemma Zdigits2_shift (v k : Z) :
  0 < v -> 0 <= k -> Zdigits2 (v * 2 ^ k) = Zdigits2 v + k.
Proof.
  intros Hv Hk. pose proof (pow2_pos k Hk).
  destruct v as [|p|p]; [lia| |lia].
  destruct (Zpos p * 2 ^ k) as [|q|q] eqn:E; [nia| |nia].
  cbn [Zdigits2]. apply digits2_pos_shift; [assumption|]. lia.
Qed.

(** Rounding a mantissa that denotes a whole number below 2^53. *)
Lemma round_aux_whole (s : bool) (mx : positive) (ex v : Z) :
  0 < v < 2 ^ 53 -> ex <= 0 -> Zpos mx = v * 2 ^ (- ex) ->
  ex <= Zdigits2 v - 53 ->
  whole (binary_round_aux 53 1024 s (Zpos mx) ex loc_Exact) (cond_Zopp s v).
Proof.
  intros [Hv0 Hv] Hex Hmx Hpre.
  assert (Hd : Zpos (digits2_pos mx) = Zdigits2 v - ex).
  { change (Zpos (digits2_pos mx)) with (Zdigits2 (Zpos mx)).
    rewrite Hmx, Zdigits2_shift by lia. lia. }
  assert (Hdv : 1 <= Zdigits2 v <= 53).
  { destruct v as [|p|p]; [lia| |lia]. cbn [Zdigits2].
    pose proof (digits2_pos_le p 53 ltac:(lia) Hv). lia. }
  assert (He1 : fexp (Zpos (digits2_pos mx) + ex) = Zdigits2 v - 53).
  { rewrite Hd, fexp_eq. lia. }
  pose proof (round_aux_exact s mx ex) as H. cbn zeta in H. rewrite He1 in H.
  assert (Hsplit : 2 ^ (- ex) = 2 ^ (53 - Zdigits2 v) * 2 ^ (Zdigits2 v - 53 - ex)).
  { rewrite <- Z.pow_add_r by lia. f_equal. lia. }
  pose proof (pow2_pos (Zdigits2 v - 53 - ex) ltac:(lia)) as Hp.
  destruct H as (m & Hm & ->); [lia | lia | |].
  { rewrite Hmx, Hsplit, Z.mul_assoc. apply Z.mod_mul. lia. }
  right. split; [destruct s; cbn; lia|].
  exists m, (Zdigits2 v - 53).
  assert (Hmv : Zpos m = v * 2 ^ (53 - Zdigits2 v)).
  { rewrite Hm, Hmx, Hsplit, Z.mul_assoc, Z.div_mul by lia. reflexivity. }
  split; [f_equal; destruct s; cbn; lia|].
  split.
  - apply bounded_iff. split; [|lia].
    change (Zpos (digits2_pos m)) with (Zdigits2 (Zpos m)).
    rewrite Hmv, Zdigits2_shift by lia. rewrite fexp_eq. lia.
  - split; [lia|]. rewrite Hmv. replace (Z.abs (cond_Zopp s v)) with v by (destruct s; cbn; lia).
    f_equal. f_equal. lia.
Qed.

Lemma round_whole (s : bool) (mx : positive) (ex v : Z) :
  0 < v < 2 ^ 53 -> ex <= 0 -> Zpos mx = v * 2 ^ (- ex) ->
  whole (binary_round 53 1024 s mx ex) (cond_Zopp s v).
Proof.
  intros Hv Hex Hmx.
  destruct (binary_round_aux_eq s mx ex) as (mz & ez & -> & Hez & Hmz & Hf & Hpre).
  assert (Hmz' : Zpos mz = v * 2 ^ (- ez)).
  { rewrite Hmz, Hmx, <- Z.mul_assoc, <- Z.pow_add_r by lia. f_equal. f_equal. lia. }
  apply round_aux_whole; [assumption | lia | assumption |].
  change (Zpos (digits2_pos mz)) with (Zdigits2 (Zpos mz)) in Hpre.
  rewrite Hmz', Zdigits2_shift, fexp_eq in Hpre by lia.
  assert (1 <= Zdigits2 v).
  { destruct v as [|p|p]; [lia| |lia]. cbn [Zdigits2]. lia. }
  lia.
Qed.

Lemma normalize_whole (z e v : Z) :
  Z.abs v < 2 ^ 53 -> e <= 0 -> z = v * 2 ^ (- e) ->
  whole (binary_normalize 53 1024 z e false) v.
Proof.
  intros Hv He Hz. pose proof (pow2_pos (- e) ltac:(lia)) as Hp.
  destruct (Z.eq_dec v 0) as [->|Hv0].
  - left. rewrite Hz. split; reflexivity.
  - assert (z <> 0) by nia.
    rewrite binary_normalize_nonzero by assumption.
    assert (Hs : (z <? 0) = (v <? 0)).
    { destruct (Z.ltb_spec z 0), (Z.ltb_spec v 0); try reflexivity; nia. }
    assert (Hc : cond_Zopp (z <? 0) (Z.abs v) = v).
    { rewrite Hs. destruct (Z.ltb_spec v 0); cbn; lia. }
    rewrite <- Hc at 1. apply round_whole; [lia | assumption |].
    rewrite Z2Pos.id by lia. rewrite Hz, Z.abs_mul. f_equal. lia.
Qed.

Lemma of_Z_whole (n : Z) : Z.abs n < 2 ^ 53 -> whole (of_Z n) n.
Proof.
  intros Hn. apply normalize_whole; [assumption | lia |]. rewrite Z.pow_0_r. lia.
Qed.

(** A whole number has one representation. *)
Lemma whole_inj (x y : number) (n : Z) : whole x n -> whole y n -> x = y.
Proof.
  intros [[Hn ->]|[Hn (m & e & -> & Hb & He & Hm)]] [[Hn' ->]|[Hn' (m' & e' & -> & Hb' & He' & Hm')]];
    try lia; [reflexivity|].
  apply bounded_iff in Hb, Hb'. destruct Hb as [Hc _], Hb' as [Hc' _].
  assert (Hd : forall (m : positive) (e : Z), e <= 0 -> Zpos m = Z.abs n * 2 ^ (- e) ->
               Zpos (digits2_pos m) + e = Zdigits2 (Z.abs n)).
  { intros m0 e0 He0 Hm0. change (Zpos (digits2_pos m0)) with (Zdigits2 (Zpos m0)).
    rewrite Hm0, Zdigits2_shift by lia. lia. }
  rewrite (Hd m e He Hm) in Hc. rewrite (Hd m' e' He' Hm') in Hc'.
  assert (Heq : e' = e) by congruence. rewrite Heq in Hm' |- *.
  assert (Zpos m = Zpos m') as [= ->] by congruence. reflexivity.
Qed.

Lemma whole_of_Z (x : number) (n : Z) : Z.abs n < 2 ^ 53 -> whole x n -> x = of_Z n.
Proof. intros Hn Hx. apply (whole_inj _ _ n Hx). apply of_Z_whole. assumption. Qed.

Lemma whole_bound (x : number) (n : Z) : whole x n -> Z.abs n < 2 ^ 53.
Proof.
  intros [[-> _]|[_ (m & e & _ & Hb & He & Hm)]]; [reflexivity|].
  apply bounded_inv in Hb. destruct Hb as (_ & Hm53 & _).
  pose proof (pow2_pos (- e) ltac:(lia)). nia.
Qed.

Lemma whole_exponent (n : Z) (m : positive) (e : Z) :
  n <> 0 -> bounded m e = true -> e <= 0 -> Zpos m = Z.abs n * 2 ^ (- e) ->
  e = Zdigits2 (Z.abs n) - 53 /\ Zpos (digits2_pos m) = 53 /\ 1 <= Zdigits2 (Z.abs n).
Proof.
  intros Hn Hb He Hm. apply bounded_iff in Hb. destruct Hb as [Hc _].
  assert (Hd : Zpos (digits2_pos m) + e = Zdigits2 (Z.abs n)).
  { change (Zpos (digits2_pos m)) with (Zdigits2 (Zpos m)).
    rewrite Hm, Zdigits2_shift by lia. lia. }
  assert (1 <= Zdigits2 (Z.abs n)).
  { destruct (Z.abs n) as [|p|p] eqn:E; [lia| |lia]. cbn [Zdigits2]. lia. }
  rewrite Hd, fexp_eq in Hc. lia.
Qed.

Lemma aligned_whole (n : Z) (m : positive) (e ez : Z) :
  e <= 0 -> ez <= e -> Zpos m = Z.abs n * 2 ^ (- e) ->
  cond_Zopp (n <? 0) (Zpos m * 2 ^ (e - ez)) = n * 2 ^ (- ez).
Proof.
  intros He Hez Hm.
  replace (- ez) with (- e + (e - ez)) by lia. rewrite Z.pow_add_r by lia.
  rewrite Hm. destruct (Z.ltb_spec n 0); cbn [cond_Zopp]; nia.
Qed.

Lemma add_whole (x y : number) (a b : Z) :
  whole x a -> whole y b -> Z.abs (a + b) < 2 ^ 53 -> whole (add x y) (a + b).
Proof.
  intros Hx Hy Hab.
  destruct Hx as [[-> ->]|[Ha (ma & ea & -> & Hba & Hea & Hma)]].
  - destruct Hy as [[-> ->]|[Hb (mb & eb & -> & Hbb & Heb & Hmb)]].
    + left. split; reflexivity.
    + right. split; [lia|]. exists mb, eb. rewrite Z.add_0_l. repeat split; assumption.
  - destruct Hy as [[-> ->]|[Hb (mb & eb & -> & Hbb & Heb & Hmb)]].
    + right. split; [lia|]. exists ma, ea. rewrite Z.add_0_r. repeat split; assumption.
    + rewrite add_finite. apply normalize_whole; [assumption | lia |].
      rewrite (aligned_whole a ma ea) by (assumption || lia).
      rewrite (aligned_whole b mb eb) by (assumption || lia). ring.
Qed.

Lemma sub_whole (x y : number) (a b : Z) :
  whole x a -> whole y b -> Z.abs (a - b) < 2 ^ 53 -> whole (sub x y) (a - b).
Proof.
  intros Hx Hy Hab.
  destruct Hx as [[-> ->]|[Ha (ma & ea & -> & Hba & Hea & Hma)]].
  - destruct Hy as [[-> ->]|[Hb (mb & eb & -> & Hbb & Heb & Hmb)]].
    + left. split; reflexivity.
    + right. split; [lia|]. exists mb, eb. cbn [sub SFsub].
      replace (0 - b <? 0) with (negb (b <? 0))
        by (destruct (Z.ltb_spec b 0), (Z.ltb_spec (0 - b) 0); cbn; lia || reflexivity).
      split; [reflexivity|]. split; [assumption|]. split; [assumption|].
      rewrite Hmb. f_equal. lia.
  - destruct Hy as [[-> ->]|[Hb (mb & eb & -> & Hbb & Heb & Hmb)]].
    + right. split; [lia|]. exists ma, ea. rewrite Z.sub_0_r. repeat split; assumption.
    + rewrite sub_finite. apply normalize_whole; [assumption | lia |].
      rewrite (aligned_whole a ma ea) by (assumption || lia).
      rewrite (aligned_whole b mb eb) by (assumption || lia). ring.
Qed.

Lemma whole_hundred : whole hundred 100.
Proof. apply of_Z_whole. reflexivity. Qed.

Lemma mul_hundred_whole (x : number) (a : Z) :
  whole x a -> Z.abs a < 2 ^ 46 -> whole (mul x hundred) (100 * a).
Proof.
  intros Hx Ha. rewrite hundred_eq.
  destruct Hx as [[-> ->]|[Hn (m & e & -> & Hb & He & Hm)]]; [left; split; reflexivity|].
  cbn [mul SFmul]. rewrite xorb_false_r.
  destruct (whole_exponent a m e Hn Hb He Hm) as (Hexp & _ & _).
  replace (100 * a) with (cond_Zopp (a <? 0) (100 * Z.abs a))
    by (destruct (Z.ltb_spec a 0); cbn; lia).
  apply round_aux_whole.
  - change (2 ^ 46) with 70368744177664 in Ha. change (2 ^ 53) with 9007199254740992. lia.
  - lia.
  - rewrite Pos2Z.inj_mul, Hm.
    replace (- (e + -46)) with (- e + 46) by lia. rewrite Z.pow_add_r by lia.
    change (2 ^ 46) with 70368744177664. lia.
  - pose proof (Zdigits2_mono (Z.abs a) (100 * Z.abs a) ltac:(lia)). lia.
Qed.

Lemma div_whole (x y : number) (a k v : Z) :
  whole x a -> whole y k -> 0 < k -> a = k * v -> whole (div x y) v.
Proof.
  intros Hx Hy Hk Hv.
  destruct Hy as [[-> _]|[_ (m2 & e2 & -> & Hb2 & He2 & Hm2)]]; [lia|].
  replace (k <? 0) with false by (symmetry; apply Z.ltb_ge; lia).
  destruct Hx as [[-> ->]|[Hn (m1 & e1 & -> & Hb1 & He1 & Hm1)]].
  - left. split; [nia|reflexivity].
  - assert (Hv0 : v <> 0) by nia.
    destruct (whole_exponent a m1 e1 Hn Hb1 He1 Hm1) as (Hexp1 & Hd1 & Hda1).
    assert (Hk0 : k <> 0) by lia.
    destruct (whole_exponent k m2 e2 Hk0 Hb2 He2 Hm2) as (Hexp2 & Hd2 & Hdk1).
    assert (Hdk : 1 <= Zdigits2 (Z.abs k) <= 53) by lia.
    assert (Hda : 1 <= Zdigits2 (Z.abs a) <= 53) by lia.
    unfold div, SFdiv, prec, emax, SFdiv_core_binary. cbn [Zdigits2].
    rewrite Hd1, Hd2. rewrite xorb_false_r.
    replace (53 + e1 - (53 + e2)) with (e1 - e2) by lia.
    assert (He' : Z.min (fexp (e1 - e2)) (e1 - e2) = e1 - e2 - 53) by (rewrite fexp_eq; lia).
    rewrite He'. replace (e1 - e2 - (e1 - e2 - 53)) with 53 by lia.
    rewrite Z.shiftl_mul_pow2 by lia.
    pose proof (pow2_pos (- e1) ltac:(lia)) as Hp1.
    pose proof (pow2_pos (- e2) ltac:(lia)) as Hp2.
    pose proof (pow2_pos (53 - e1 + e2) ltac:(lia)) as Hp3.
    assert (Hq : Zpos m1 * 2 ^ 53 = Zpos m2 * (Z.abs v * 2 ^ (53 - e1 + e2)) + 0).
    { rewrite Hm1, Hm2, Hv, Z.abs_mul.
      replace (2 ^ 53) with (2 ^ e1 * 0 + 2 ^ 53) by lia.
      assert (Hs : 2 ^ (- e1) * 2 ^ 53 = 2 ^ (- e2) * 2 ^ (53 - e1 + e2)).
      { rewrite <- !Z.pow_add_r by lia. f_equal. lia. }
      replace (2 ^ e1 * 0 + 2 ^ 53) with (2 ^ 53) by lia. nia. }
    pose proof (Z_div_mod (Zpos m1 * 2 ^ 53) (Zpos m2) ltac:(lia)) as Hdm.
    destruct (Z.div_eucl (Zpos m1 * 2 ^ 53) (Zpos m2)) as [q r]. destruct Hdm as [Hdm Hr].
    assert (q = Z.abs v * 2 ^ (53 - e1 + e2) /\ r = 0) as [-> ->].
    { assert (Hqq : q = Z.abs v * 2 ^ (53 - e1 + e2)) by nia. split; [exact Hqq|]. nia. }
    assert (Hloc : new_location (Zpos m2) 0 = loc_Exact).
    { unfold new_location, new_location_even, new_location_odd.
      destruct (Z.even (Zpos m2)); reflexivity. }
    rewrite Hloc.
    destruct (Z.abs v * 2 ^ (53 - e1 + e2)) as [|q|q] eqn:Eq; [nia| |nia].
    assert (Hc : cond_Zopp (a <? 0) (Z.abs v) = v).
    { destruct (Z.ltb_spec a 0); cbn [cond_Zopp]; nia. }
    rewrite <- Hc at 1. apply round_aux_whole.
    + pose proof (whole_bound _ a ltac:(right; split; [exact Hn|]; exists m1, e1; repeat split; assumption)).
      nia.
    + lia.
    + rewrite <- Eq. f_equal. f_equal. lia.
    + (* the quotient has at least as many bits as the operands differ by *)
      assert (Zdigits2 (Z.abs a) <= Zdigits2 (Z.abs k) + Zdigits2 (Z.abs v)).
      { destruct (Z.abs a) as [|pa|pa] eqn:Ea; [lia| |lia].
        destruct (Z.abs k) as [|pk|pk] eqn:Ek; [lia| |lia].
        destruct (Z.abs v) as [|pv|pv] eqn:Ev; [lia| |lia]. cbn [Zdigits2].
        pose proof (digits2_pos_bounds pk) as [_ Hhk].
        pose proof (digits2_pos_bounds pv) as [_ Hhv].
        apply digits2_pos_le; [lia|]. rewrite Z.pow_add_r by lia.
        assert (Zpos pa = Zpos pk * Zpos pv) by (rewrite <- Ea, <- Ek, <- Ev, Hv, Z.abs_mul; reflexivity).
        nia. }
      lia.
Qed.

Lemma Math_round_whole (x : number) (a : Z) : whole x a -> Math_round x = x.
Proof.
  intros [[_ ->]|[Hn (m & e & -> & Hb & He & Hm)]]; [reflexivity|].
  cbn [Math_round]. destruct (Z.leb_spec 0 e); [reflexivity|].
  pose proof (pow2_pos (- e) ltac:(lia)) as Hp.
  assert (Hn' : (2 * cond_Zopp (a <? 0) (Zpos m) + 2 ^ (- e)) / 2 ^ (- e + 1) = a).
  { symmetry. apply Z.div_unique with (r := 2 ^ (- e)).
    - left. rewrite Z.pow_add_r, Z.pow_1_r by lia. lia.
    - rewrite Z.pow_add_r, Z.pow_1_r by lia. rewrite Hm.
      destruct (Z.ltb_spec a 0); cbn [cond_Zopp]; nia. }
  rewrite Hn'. destruct (Z.eqb_spec a 0); [contradiction|].
  symmetry. apply whole_of_Z.
  - apply (whole_bound (S754_finite (a <? 0) m e)). right. split; [assumption|].
    exists m, e. repeat split; assumption.
  - right. split; [assumption|]. exists m, e. repeat split; assumption.
Qed.

(** A whole balance is its own rounding. *)
Lemma rounded_whole (x : number) (a : Z) :
  whole x a -> Z.abs a < 2 ^ 46 -> App.rounded x = x.
Proof.
  intros Hx Ha. unfold App.rounded.
  pose proof (mul_hundred_whole x a Hx Ha) as Hm.
  rewrite (Math_round_whole _ _ Hm).
  apply (whole_inj _ _ a); [|exact Hx].
  apply (div_whole _ _ (100 * a) 100 a Hm whole_hundred); lia.
Qed.

Lemma abs_whole (x : number) (a : Z) : whole x a -> whole (Math_abs x) (Z.abs a).
Proof.
  intros [[-> ->]|[Hn (m & e & -> & Hb & He & Hm)]]; [left; split; reflexivity|].
  right. split; [lia|]. exists m, e. cbn [Math_abs SFabs].
  replace (Z.abs a <? 0) with false by (symmetry; apply Z.ltb_ge; lia).
  rewrite Z.abs_idemp. repeat split; assumption.
Qed.

Lemma whole_pos_inv (x : number) (a : Z) :
  whole x a -> 0 < a ->
  exists m e, x = S754_finite false m e /\ bounded m e = true /\ e <= 0 /\
              Zpos m = a * 2 ^ (- e) /\ e = Zdigits2 a - 53.
Proof.
  intros [[-> _]|[Hn (m & e & -> & Hb & He & Hm)]] Ha; [lia|].
  exists m, e. replace (a <? 0) with false by (symmetry; apply Z.ltb_ge; lia).
  destruct (whole_exponent a m e Hn Hb He Hm) as (Hexp & _ & _).
  rewrite Z.abs_eq in * by lia. repeat split; assumption.
Qed.

Lemma compare_whole (x y : number) (a b : Z) :
  whole x a -> whole y b -> 0 < a -> 0 < b -> SFcompare x y = Some (a ?= b).
Proof.
  intros Hx Hy Ha Hb.
  destruct (whole_pos_inv x a Hx Ha) as (ma & ea & -> & Hba & Hea & Hma & Hda).
  destruct (whole_pos_inv y b Hy Hb) as (mb & eb & -> & Hbb & Heb & Hmb & Hdb).
  rewrite compare_finite_pos. f_equal.
  pose proof (pow2_pos (- ea) ltac:(lia)) as Hpa.
  pose proof (pow2_pos (- eb) ltac:(lia)) as Hpb.
  destruct a as [|pa|pa]; [lia| |lia]. destruct b as [|pb|pb]; [lia| |lia].
  cbn [Zdigits2] in *.
  pose proof (digits2_pos_bounds pa) as [Hla Hha].
  pose proof (digits2_pos_bounds pb) as [Hlb Hhb].
  destruct (Z.compare_spec ea eb) as [E|E|E].
  - change (Pos.compare ma mb) with (Z.compare (Zpos ma) (Zpos mb)).
    rewrite Hma, Hmb, E.
    destruct (Z.compare_spec (Zpos pa) (Zpos pb)) as [E'|E'|E'].
    + rewrite E'. apply Z.compare_refl.
    + apply Z.compare_lt_iff. nia.
    + apply Z.compare_gt_iff. nia.
  - symmetry. apply Z.compare_lt_iff.
    pose proof (pow2_le (Zpos (digits2_pos pa)) (Zpos (digits2_pos pb) - 1) ltac:(lia)). lia.
  - symmetry. apply Z.compare_gt_iff.
    pose proof (pow2_le (Zpos (digits2_pos pb)) (Zpos (digits2_pos pa) - 1) ltac:(lia)). lia.
Qed.

Lemma min_whole (x y : number) (a b : Z) :
  whole x a -> whole y b -> 0 < a -> 0 < b -> whole (Math_min x y) (Z.min a b).
Proof.
  intros Hx Hy Ha Hb. unfold Math_min. rewrite (compare_whole x y a b) by assumption.
  destruct (Z.compare_spec a b) as [E|E|E].
  - subst b. rewrite Z.min_id.
    destruct (whole_pos_inv x a Hx Ha) as (ma & ea & -> & _).
    destruct (whole_pos_inv y a Hy Ha) as (mb & eb & -> & _). exact Hx.
  - rewrite Z.min_l by lia. exact Hx.
  - rewrite Z.min_r by lia. exact Hy.
Qed.

Lemma lt_cent_whole (x : number) (a : Z) : whole x a -> lt x cent = (a <? 1).
Proof.
  intros [[-> ->]|[Hn (m & e & -> & Hb & He & Hm)]]; [reflexivity|].
  destruct (whole_exponent a m e Hn Hb He Hm) as (Hexp & _ & Hd).
  rewrite cent_eq. destruct (Z.ltb_spec a 0) as [Hlt|Hge].
  - symmetry. apply Z.ltb_lt. lia.
  - replace (a <? 1) with false by (symmetry; apply Z.ltb_ge; lia).
    unfold lt, SFltb. rewrite compare_finite_pos.
    destruct (Z.compare_spec e (-59)); [lia|lia|reflexivity].
Qed.

Lemma lt_whole_cent (x : number) (a : Z) : whole x a -> lt cent x = (0 <? a).
Proof.
  intros [[-> ->]|[Hn (m & e & -> & Hb & He & Hm)]]; [reflexivity|].
  destruct (whole_exponent a m e Hn Hb He Hm) as (Hexp & _ & Hd).
  rewrite cent_eq. destruct (Z.ltb_spec a 0) as [Hlt|Hge].
  - symmetry. apply Z.ltb_ge. lia.
  - replace (0 <? a) with true by (symmetry; apply Z.ltb_lt; lia).
    unfold lt, SFltb. rewrite compare_finite_pos.
    destruct (Z.compare_spec (-59) e); [lia|reflexivity|lia].
Qed.

Lemma lt_whole_neg_cent (x : number) (a : Z) : whole x a -> lt x (neg cent) = (a <? 0).
Proof.
  intros [[-> ->]|[Hn (m & e & -> & Hb & He & Hm)]]; [reflexivity|].
  destruct (whole_exponent a m e Hn Hb He Hm) as (Hexp & _ & Hd).
  rewrite cent_eq. destruct (Z.ltb_spec a 0) as [Hlt|Hge]; [|reflexivity].
  unfold lt, SFltb, neg. cbn [SFopp negb SFcompare].
  destruct (Z.compare_spec e (-59)); [lia|lia|reflexivity].
Qed.

Lemma append_cons (c : ascii) (s r : string) : String c s +:+ r = String c (s +:+ r).
Proof. reflexivity. Qed.

Lemma append_empty_l (r : string) : "" +:+ r = r.
Proof. reflexivity. Qed.

Lemma append_empty_r (s : string) : s +:+ "" = s.
Proof. induction s as [|c s IH]; [reflexivity|]. rewrite append_cons, IH. reflexivity. Qed.

Lemma split_fraction_cons (c : ascii) (s : string) :
  Ascii.eqb c "." = false ->
  split_fraction (String c s) =
  match split_fraction s with
  | Some (w, d1, d2) => Some (String c w, d1, d2)
  | None => None
  end.
Proof. intros H. cbn [split_fraction]. rewrite H. reflexivity. Qed.

Lemma split_fraction_digits (d : Decimal.uint) (rest : string) :
  split_fraction (NilEmpty.string_of_uint d +:+ rest) =
  match split_fraction rest with
  | Some (w, d1, d2) => Some (NilEmpty.string_of_uint d +:+ w, d1, d2)
  | None => None
  end.
Proof.
  induction d as [|d IH|d IH|d IH|d IH|d IH|d IH|d IH|d IH|d IH|d IH];
    cbn [NilEmpty.string_of_uint]; rewrite ?append_cons, ?append_empty_l;
    [destruct (split_fraction rest) as [[[w d1] d2]|]; reflexivity | ..];
    rewrite split_fraction_cons, IH by reflexivity;
    destruct (split_fraction rest) as [[[w d1] d2]|]; reflexivity.
Qed.

Lemma to_uint_nonnil (n : N) : N.to_uint n <> Decimal.Nil.
Proof. destruct n as [|p]; [discriminate|]. apply DecimalPos.Unsigned.to_uint_nonnil. Qed.

Lemma digits_eq (n : N) : digits n = NilEmpty.string_of_uint (N.to_uint n).
Proof.
  unfold digits, NilZero.string_of_uint. pose proof (to_uint_nonnil n).
  destruct (N.to_uint n); [contradiction|reflexivity..].
Qed.

Lemma digit_value_digit (n : N) : digit_value (digit n) = Some (n mod 10)%N.
Proof.
  unfold digit. pose proof (N.mod_upper_bound n 10 ltac:(discriminate)) as H.
  set (r := (n mod 10)%N) in *.
  destruct r as [|p]; [reflexivity|].
  do 4 (try (destruct p as [p|p|]; try reflexivity; try lia)).
Qed.

(** Reading back what [toFixed(2)] prints below 10^21. *)
Lemma hundredths_fixed (n : N) : hundredths (fixed n) = Some n.
Proof.
  unfold hundredths, fixed. rewrite digits_eq, split_fraction_digits.
  cbn [split_fraction]. change (Ascii.eqb "." ".") with true. cbn iota.
  rewrite append_empty_r, <- digits_eq. unfold digits.
  rewrite NilZero.usu by apply to_uint_nonnil.
  rewrite !digit_value_digit, DecimalN.Unsigned.of_to. f_equal.
  pose proof (N.div_mod n 10 ltac:(discriminate)) as H1.
  pose proof (N.div_mod (n / 10) 10 ltac:(discriminate)) as H2.
  rewrite N.Div0.div_div in H2. change (10 * 10)%N with 100%N in H2. lia.
Qed.

Lemma sextillion_eq : sextillion = S754_finite false 7629394531250000 17.
Proof. reflexivity. Qed.

Lemma leb_finite_pos_inv (m1 : positive) (e1 : Z) (m2 : positive) (e2 : Z) :
  le (S754_finite false m1 e1) (S754_finite false m2 e2) = true ->
  e1 < e2 \/ (e1 = e2 /\ Zpos m1 <= Zpos m2).
Proof.
  unfold le, SFleb. rewrite compare_finite_pos.
  destruct (Z.compare_spec e1 e2) as [E|E|E]; [|lia|discriminate].
  destruct (Pos.compare_spec m1 m2) as [E'|E'|E']; [subst; lia|lia|discriminate].
Qed.

Lemma ltb_finite_pos_inv (m1 : positive) (e1 : Z) (m2 : positive) (e2 : Z) :
  lt (S754_finite false m1 e1) (S754_finite false m2 e2) = true ->
  e1 < e2 \/ (e1 = e2 /\ Zpos m1 < Zpos m2).
Proof.
  intros H. apply compare_finite_pos_Lt. unfold lt, SFltb in H.
  destruct (SFcompare _ _) as [[| |]|]; try discriminate. reflexivity.
Qed.

(** An amount of at least 0.01 and below 10^21 prints in fixed notation, as
    a positive number of hundredths. *)
Lemma toFixed2_credit (x : number) :
  credit x -> le cent x = true -> lt x sextillion = true ->
  exists n : N, toFixed2 x = fixed n /\ (0 < n)%N.
Proof.
  intros (m & e & -> & Hb) Hlo Hhi. rewrite cent_eq in Hlo. rewrite sextillion_eq in Hhi.
  apply leb_finite_pos_inv in Hlo. apply ltb_finite_pos_inv in Hhi.
  apply bounded_inv in Hb. destruct Hb as (He & Hm & Hnorm).
  cbn [toFixed2].
  assert (Htest : (0 <=? e) && (10 ^ 21 <=? Zpos m * 2 ^ e) = false).
  { destruct (Z.leb_spec 0 e) as [He0|He0]; [|reflexivity]. cbn [andb].
    apply Z.leb_gt. destruct Hhi as [Hlt|[-> Hlt]].
    - assert (2 ^ e <= 2 ^ 16) by (apply pow2_le; lia).
      pose proof (pow2_pos e He0).
      apply Z.lt_le_trans with (2 ^ 53 * 2 ^ 16); [nia|]. vm_compute. discriminate.
    - change (2 ^ 17) with 131072. lia. }
  rewrite Htest. cbn [String.append].
  eexists. split; [reflexivity|].
  destruct (Z.leb_spec 0 e) as [He0|He0].
  - pose proof (pow2_pos e He0). apply N2Z.inj_lt. rewrite Z2N.id by nia. cbn. nia.
  - pose proof (pow2_pos (- e) ltac:(lia)) as Hp.
    assert (Hge : 2 ^ (- e) <= 200 * Zpos m).
    { destruct Hlo as [Hlt|[<- Hlt]].
      - specialize (Hnorm ltac:(lia)).
        assert (2 ^ (- e) <= 2 ^ 58) by (apply pow2_le; lia).
        change (2 ^ 52) with 4503599627370496 in Hnorm.
        change (2 ^ 58) with 288230376151711744 in *. lia.
      - change (2 ^ (- -59)) with 576460752303423488. lia. }
    assert (1 <= (200 * Zpos m + 2 ^ (- e)) / 2 ^ (- e + 1)).
    { apply Z.div_le_lower_bound; [apply pow2_pos; lia|].
      rewrite Z.pow_add_r, Z.pow_1_r by lia. lia. }
    apply N2Z.inj_lt. rewrite Z2N.id by lia. cbn. lia.
Qed.

Lemma toFixed2_whole (x : number) (a : Z) :
  whole x a -> 0 < a < 2 ^ 46 -> toFixed2 x = fixed (Z.to_N (100 * a)).
Proof.
  intros Hx [Ha0 Ha].
  destruct (whole_pos_inv x a Hx Ha0) as (m & e & -> & Hb & He & Hm & Hd).
  cbn [toFixed2].
  pose proof (pow2_pos (- e) ltac:(lia)) as Hp.
  assert (Htest : (0 <=? e) && (10 ^ 21 <=? Zpos m * 2 ^ e) = false).
  { destruct (Z.leb_spec 0 e) as [He0|He0]; [|reflexivity]. cbn [andb].
    apply Z.leb_gt. assert (e = 0) as -> by lia.
    simpl (- 0) in Hm. rewrite Z.pow_0_r, Z.mul_1_r in *.
    rewrite Hm. apply Z.lt_trans with (2 ^ 46); [exact Ha | reflexivity]. }
  rewrite Htest, append_empty_l. f_equal. f_equal.
  destruct (Z.leb_spec 0 e) as [He0|He0].
  - assert (e = 0) as -> by lia.
    simpl (- 0) in Hm. rewrite Z.pow_0_r, Z.mul_1_r in *. lia.
  - symmetry. apply Z.div_unique with (r := 2 ^ (- e)).
    + left. rewrite Z.pow_add_r, Z.pow_1_r by lia. lia.
    + rewrite Z.pow_add_r, Z.pow_1_r by lia. rewrite Hm. ring.
Qed.

(** A hundred times a balance within 0.01 of zero rounds to 0, 1 or -1. *)
Lemma round_small_cases (s : bool) (m : positive) (e : Z) :
  bounded m e = true -> le (S754_finite false m e) cent = true ->
  let r := Math_round (mul (S754_finite s m e) hundred) in
  r = S754_zero s \/ r = of_Z 1 \/ r = of_Z (-1).
Proof.
  intros Hv Hle. rewrite cent_eq in Hle.
  apply leb_finite_pos_inv in Hle.
  pose proof (bounded_inv m e Hv) as (He & Hm & _).
  rewrite hundred_eq.
  change (mul (S754_finite s m e) (S754_finite false 7036874417766400 (-46)))
    with (binary_round_aux 53 1024 (xorb s false) (Zpos (m * 7036874417766400)) (e + -46) loc_Exact).
  rewrite xorb_false_r.
  (* the product is at most 1 + 2^-52 *)
  assert (Hpre : e + -46 <= fexp (Zdigits2 (Zpos (m * 7036874417766400)) + (e + -46))).
  { cbn [Zdigits2].
    pose proof (digits2_pos_bounds m) as [Hlo Hhi].
    assert (Hge : 2 ^ (Zpos (digits2_pos m) + 51) <= Zpos (m * 7036874417766400)).
    { replace (Zpos (digits2_pos m) + 51) with (Zpos (digits2_pos m) - 1 + 52) by lia.
      rewrite Z.pow_add_r by lia. rewrite Pos2Z.inj_mul.
      change (2 ^ 52) with 4503599627370496. nia. }
    pose proof (digits2_pos_ge _ _ Hge). rewrite fexp_eq. lia. }
  assert (HB : bounded 4503599627370497 (-52) = true) by reflexivity.
  assert (Hval : Zpos (m * 7036874417766400) <= 4503599627370497 * 2 ^ (-52 - (e + -46))).
  { rewrite Pos2Z.inj_mul. destruct Hle as [Hlt|[-> Hle]].
    - assert (2 ^ 54 <= 2 ^ (-52 - (e + -46))) by (apply pow2_le; lia).
      change (2 ^ 53) with 9007199254740992 in Hm.
      change (2 ^ 54) with 18014398509481984 in *. nia.
    - change (2 ^ (-52 - (-59 + -46))) with 9007199254740992. lia. }
  assert (H0m : 0 <= Zpos (m * 7036874417766400)) by lia.
  assert (Hex : e + -46 <= -52) by lia.
  destruct (round_aux_le s (Zpos (m * 7036874417766400)) (e + -46)
              4503599627370497 (-52) H0m Hpre HB Hex Hval)
    as [->|(m' & e' & -> & Hb' & Hord)]; [left; reflexivity|].
  pose proof (bounded_inv m' e' Hb') as (He' & Hm' & _).
  cbn [Math_round]. destruct (Z.leb_spec 0 e') as [H0|H0]; [lia|].
  pose proof (pow2_pos (- e') ltac:(lia)) as Hp.
  assert (Hmag : 2 * Zpos m' < 3 * 2 ^ (- e')).
  { destruct Hord as [Hlt|[-> Hle']].
    - assert (2 ^ 53 <= 2 ^ (- e')) by (apply pow2_le; lia). lia.
    - change (2 ^ (- -52)) with 4503599627370496. lia. }
  set (n := (2 * cond_Zopp s (Zpos m') + 2 ^ (- e')) / 2 ^ (- e' + 1)).
  assert (Hn : -1 <= n <= 1).
  { subst n. rewrite Z.pow_add_r, Z.pow_1_r by lia. split.
    - apply Z.div_le_lower_bound; [lia|]. destruct s; cbn [cond_Zopp]; lia.
    - apply Z.lt_succ_r. apply Z.div_lt_upper_bound; [lia|].
      destruct s; cbn [cond_Zopp]; lia. }
  assert (Hc : n = -1 \/ n = 0 \/ n = 1) by lia.
  destruct Hc as [-> | [-> | ->]]; [right; right|left|right; left]; reflexivity.
Qed.

(** A balance within 0.01 of zero rounds to a zero or to 0.01 in magnitude. *)
Lemma rounded_small_cases (b : number) :
  valid b = true -> le (Math_abs b) cent = true ->
  is_zero (App.rounded b) \/ App.rounded b = cent \/ App.rounded b = neg cent.
Proof.
  intros Hv Hle. destruct b as [s|s| |s m e]; try discriminate.
  - left. exists s. destruct s; reflexivity.
  - unfold App.rounded.
    destruct (round_small_cases s m e Hv Hle) as [-> | [-> | ->]].
    + left. exists s. destruct s; reflexivity.
    + right. left. reflexivity.
    + right. right. reflexivity.
Qed.

Lemma rounded_small (b : number) :
  valid b = true -> le (Math_abs b) cent = true ->
  lt (App.rounded b) (neg cent) = false /\ lt cent (App.rounded b) = false.
Proof.
  intros Hv Hle.
  destruct (rounded_small_cases b Hv Hle) as [[s ->] | [-> | ->]]; split; reflexivity.
Qed.

End Binary64.

(** * The matching loop *)

Module Matching.
Import Js App Entries Format Loop Binary64.
Local Close Scope Z_scope.

Lemma running_true (st : state) :
  running st = true <-> i st < length (debtors st) /\ j st < length (creditors st).
Proof.
  unfold running. rewrite andb_true_iff, !bool_decide_eq_true. reflexivity.
Qed.

Lemma running_false (st : state) :
  running st = false <-> length (debtors st) <= i st \/ length (creditors st) <= j st.
Proof.
  unfold running. rewrite andb_false_iff, !bool_decide_eq_false. lia.
Qed.

Lemma step_eq (st : state) :
  running st = true ->
  exists debtor creditor,
    debtors st !! i st = Some debtor /\ creditors st !! j st = Some creditor /\
    let a := Math_min (Math_abs (Entry.amount debtor)) (Entry.amount creditor) in
    let d' := add (Entry.amount debtor) a in
    let c' := sub (Entry.amount creditor) a in
    step st =
      {| debtors := <[i st := Entry.Build_t (Entry.person debtor) d']> (debtors st);
         creditors := <[j st := Entry.Build_t (Entry.person creditor) c']> (creditors st);
         i := if lt (Math_abs d') cent then S (i st) else i st;
         j := if lt c' cent then S (j st) else j st;
         transactions :=
           transactions st ++
             [Transaction.Build_t (Entry.person debtor) (Entry.person creditor) (toFixed2 a)] |}.
Proof.
  intros [Hi Hj]%running_true.
  destruct (lookup_lt_is_Some_2 _ _ Hi) as [debtor Hd].
  destruct (lookup_lt_is_Some_2 _ _ Hj) as [creditor Hc].
  exists debtor, creditor. split; [exact Hd|]. split; [exact Hc|].
  unfold step. rewrite Hd, Hc. reflexivity.
Qed.

Lemma loop_not_running (fuel : nat) (st : state) :
  running st = false -> loop fuel st = st.
Proof. intros H. destruct fuel; [reflexivity|]. cbn [loop]. rewrite H. reflexivity. Qed.

Lemma loop_running (fuel : nat) (st : state) :
  running st = true -> loop (S fuel) st = loop fuel (step st).
Proof. intros H. cbn [loop]. rewrite H. reflexivity. Qed.

Section Matching.

Variables Pd Pc : number -> Prop.

Local Abbreviation ahead := (Loop.ahead Pd Pc).

(** What one matching must preserve: a side that is not passed keeps its
    property, and at least one side is passed. *)
Hypothesis matching :
  forall d c, Pd d -> Pc c ->
    let a := Math_min (Math_abs d) c in
    (lt (Math_abs (add d a)) cent = false -> Pd (add d a)) /\
    (lt (sub c a) cent = false -> Pc (sub c a)) /\
    (lt (Math_abs (add d a)) cent = true \/ lt (sub c a) cent = true).

Lemma Forall_drop_insert {A} (P : A -> Prop) (l : list A) (k : nat) (x : A) (b : bool) :
  k < length l -> Forall P (drop k l) -> (b = false -> P x) ->
  Forall P (drop (if b then S k else k) (<[k:=x]> l)).
Proof.
  intros Hk Hall Hx.
  destruct (lookup_lt_is_Some_2 _ _ Hk) as [y Hy].
  rewrite <- (take_drop_middle l k y Hy) in Hall |- *.
  assert (Hlen : length (take k l) = k) by (rewrite length_take; lia).
  rewrite drop_app_length' in Hall by lia.
  rewrite insert_app_r_alt by lia.
  replace (k - length (take k l)) with 0 by lia. change (<[0:=x]> (y :: drop (S k) l)) with (x :: drop (S k) l).
  apply Forall_cons in Hall as [_ Hall].
  destruct b.
  - replace (take k l ++ x :: drop (S k) l) with ((take k l ++ [x]) ++ drop (S k) l)
      by (rewrite <- app_assoc; reflexivity).
    rewrite drop_app_length'; [exact Hall|]. rewrite length_app. cbn. lia.
  - rewrite drop_app_length' by lia. apply Forall_cons. split; [apply Hx; reflexivity|exact Hall].
Qed.

Lemma step_ahead (st : state) :
  ahead st -> running st = true ->
  ahead (step st) /\ remaining (step st) < remaining st /\
  length (transactions (step st)) = S (length (transactions st)).
Proof.
  intros [Hd Hc] Hrun.
  destruct (step_eq st Hrun) as (debtor & creditor & Hld & Hlc & ->). cbn zeta.
  apply running_true in Hrun as [Hi Hj].
  assert (HPd : Pd (Entry.amount debtor)).
  { rewrite Forall_lookup in Hd. apply (Hd 0). rewrite lookup_drop, Nat.add_0_r. exact Hld. }
  assert (HPc : Pc (Entry.amount creditor)).
  { rewrite Forall_lookup in Hc. apply (Hc 0). rewrite lookup_drop, Nat.add_0_r. exact Hlc. }
  destruct (matching _ _ HPd HPc) as (Hd' & Hc' & Hprog).
  unfold ahead, remaining. cbn [debtors creditors i j transactions].
  rewrite !length_insert, length_app. cbn [length].
  split; [split|split].
  - apply Forall_drop_insert; [exact Hi | exact Hd | exact Hd'].
  - apply Forall_drop_insert; [exact Hj | exact Hc | exact Hc'].
  - destruct (lt (Math_abs _) cent), (lt (sub _ _) cent);
      destruct Hprog as [?|?]; try discriminate; lia.
  - lia.
Qed.

Lemma loop_ahead (fuel : nat) (st : state) : ahead st -> ahead (loop fuel st).
Proof.
  revert st. induction fuel as [|fuel IH]; intros st H; [exact H|].
  cbn [loop]. destruct (running st) eqn:Hrun; [|exact H].
  apply IH. apply step_ahead; assumption.
Qed.

(** The loop is over after at most [remaining st - 1] executions of its
    body, each of which pushes one transaction. *)
Lemma loop_bound (fuel : nat) (st : state) :
  ahead st -> running st = true ->
  length (transactions (loop fuel st)) + 1 <= length (transactions st) + remaining st /\
  (remaining st <= S fuel -> running (loop fuel st) = false).
Proof.
  revert st. induction fuel as [|fuel IH]; intros st H Hrun.
  - cbn [loop]. pose proof (proj1 (running_true st) Hrun). unfold remaining. split; [lia|]. lia.
  - rewrite loop_running by assumption.
    destruct (step_ahead st H Hrun) as (H' & Hlt & Hlen).
    pose proof (proj1 (running_true st) Hrun) as [Hi Hj].
    destruct (running (step st)) eqn:Hrun'.
    + destruct (IH (step st) H' Hrun') as [IH1 IH2]. split; [lia|]. intros Hf. apply IH2. lia.
    + rewrite loop_not_running by assumption. split; [|intros _; assumption].
      unfold remaining in *. lia.
Qed.

End Matching.

End Matching.

(** * Settlements

    What [calculateSettlements] returns: how the two arrays are filled, that
    the loop ends, who pays whom, and how the amounts are printed. *)

Module Settlement.
Import Js App Entries Format Loop Spec Examples Binary64 Matching.
Local Close Scope Z_scope.

(** ** The two lists and their order *)

Lemma separate_omap (balances : object) :
  separate balances = (omap listed_debtor balances, omap listed_creditor balances).
Proof.
  unfold separate.
  enough (H : forall ds cs,
    fold_left
      (fun '(debtors, creditors) '(person, amount) =>
         let val := rounded amount in
         let debtors :=
           if lt val (neg cent) then debtors ++ [Entry.Build_t person val] else debtors in
         let creditors :=
           if lt cent val then creditors ++ [Entry.Build_t person val] else creditors in
         (debtors, creditors)) balances (ds, cs) =
    (ds ++ omap listed_debtor balances, cs ++ omap listed_creditor balances)) by apply (H [] []).
  induction balances as [|[p b] bs IH]; intros ds cs; cbn [fold_left].
  - rewrite !app_nil_r. reflexivity.
  - rewrite IH.
    change (omap listed_debtor ((p, b) :: bs))
      with (match listed_debtor (p, b) with
            | Some y => y :: omap listed_debtor bs
            | None => omap listed_debtor bs
            end).
    change (omap listed_creditor ((p, b) :: bs))
      with (match listed_creditor (p, b) with
            | Some y => y :: omap listed_creditor bs
            | None => omap listed_creditor bs
            end).
    unfold listed_debtor at 2, listed_creditor at 2. cbn [fst snd].
    destruct (lt (rounded b) (neg cent)), (lt cent (rounded b));
      rewrite <- ?app_assoc; reflexivity.
Qed.

Lemma insert_perm (compare : Entry.t -> Entry.t -> number) (x : Entry.t) (l : list Entry.t) :
  insert compare x l ≡ₚ x :: l.
Proof.
  induction l as [|y l IH]; cbn [insert]; [reflexivity|].
  destruct (lt zero (compare x y)); [|reflexivity].
  rewrite IH. apply Permutation_swap.
Qed.

Lemma sort_perm (compare : Entry.t -> Entry.t -> number) (l : list Entry.t) :
  sort compare l ≡ₚ l.
Proof.
  induction l as [|x l IH]; [reflexivity|]. cbn [sort foldr].
  rewrite insert_perm. fold (sort compare l). rewrite IH. reflexivity.
Qed.

Lemma start_eq (balances : object) :
  start balances =
  {| debtors := sort ascending (omap listed_debtor balances);
     creditors := sort descending (omap listed_creditor balances);
     i := 0; j := 0; transactions := [] |}.
Proof. unfold start. rewrite separate_omap. reflexivity. Qed.

Lemma matching_finite (d c : number) :
  debt d -> credit c ->
  let a := Math_min (Math_abs d) c in
  (lt (Math_abs (add d a)) cent = false -> debt (add d a)) /\
  (lt (sub c a) cent = false -> credit (sub c a)) /\
  (lt (Math_abs (add d a)) cent = true \/ lt (sub c a) cent = true).
Proof.
  intros Hd Hc. destruct (settle_step d c Hd Hc) as (_ & Hd' & Hc' & Hz). cbn zeta.
  split; [|split].
  - intros Hlt. destruct Hd' as [Hz'|[H _]]; [|exact H].
    rewrite (is_zero_abs_lt_cent _ Hz') in Hlt. discriminate.
  - intros Hlt. destruct Hc' as [Hz'|[H _]]; [|exact H].
    rewrite (is_zero_lt_cent _ Hz') in Hlt. discriminate.
  - destruct Hz as [Hz|Hz]; [left; apply is_zero_abs_lt_cent | right; apply is_zero_lt_cent]; exact Hz.
Qed.

Lemma listed_debtor_debt (entry : string * number) (e : Entry.t) :
  infinite (rounded entry.2) = false -> listed_debtor entry = Some e -> debt (Entry.amount e).
Proof.
  unfold listed_debtor. intros Hi H.
  destruct (lt (rounded entry.2) (neg cent)) eqn:Hlt; [|discriminate].
  injection H as <-. cbn [Entry.amount].
  apply lt_neg_cent_debt; [apply rounded_valid | exact Hi | exact Hlt].
Qed.

Lemma listed_creditor_credit (entry : string * number) (e : Entry.t) :
  infinite (rounded entry.2) = false -> listed_creditor entry = Some e -> credit (Entry.amount e).
Proof.
  unfold listed_creditor. intros Hi H.
  destruct (lt cent (rounded entry.2)) eqn:Hlt; [|discriminate].
  injection H as <-. cbn [Entry.amount].
  apply lt_cent_credit; [apply rounded_valid | exact Hi | exact Hlt].
Qed.

Lemma Forall_omap_listed {A B} (P : A -> Prop) (Q : B -> Prop) (f : A -> option B) (l : list A) :
  (forall a b, P a -> f a = Some b -> Q b) -> Forall P l -> Forall Q (omap f l).
Proof.
  intros Hf Hl. induction Hl as [|a l Ha Hl IH]; [constructor|].
  change (omap f (a :: l)) with (match f a with Some y => y :: omap f l | None => omap f l end).
  destruct (f a) as [b|] eqn:E; [|exact IH]. constructor; [|exact IH]. exact (Hf a b Ha E).
Qed.

Lemma start_ahead (balances : object) :
  Forall (fun entry => infinite (rounded entry.2) = false) balances ->
  ahead debt credit (start balances).
Proof.
  intros H. rewrite start_eq. unfold ahead. cbn [debtors creditors i j drop].
  split.
  - rewrite sort_perm. apply (Forall_omap_listed _ _ _ _ listed_debtor_debt H).
  - rewrite sort_perm. apply (Forall_omap_listed _ _ _ _ listed_creditor_credit H).
Qed.

Lemma start_lengths (balances : object) :
  length (debtors (start balances)) = length (separate balances).1 /\
  length (creditors (start balances)) = length (separate balances).2 /\
  i (start balances) = 0 /\ j (start balances) = 0 /\ transactions (start balances) = [].
Proof.
  rewrite start_eq, separate_omap. cbn [debtors creditors i j transactions fst snd].
  rewrite !sort_perm. repeat split; reflexivity.
Qed.

(** With rounded balances that are not infinite, the loop is over after at
    most [|debtors| + |creditors| - 1] executions of its body, each of which
    pushes one transaction. *)
Lemma loop_finished (balances : object) (fuel : nat) :
  Forall (fun entry => infinite (rounded entry.2) = false) balances ->
  (length (separate balances).1 + length (separate balances).2 <= S fuel ->
   running (loop fuel (start balances)) = false) /\
  length (transactions (loop fuel (start balances))) <=
    length (separate balances).1 + length (separate balances).2 - 1.
Proof.
  intros Hfin.
  pose proof (start_ahead balances Hfin) as Hahead.
  destruct (start_lengths balances) as (Hd & Hc & Hi & Hj & Htx).
  destruct (running (start balances)) eqn:Hrun.
  - destruct (loop_bound debt credit matching_finite fuel (start balances) Hahead Hrun) as [Hlen Hend].
    assert (Hrem : remaining (start balances) =
                   length (separate balances).1 + length (separate balances).2).
    { unfold remaining. rewrite Hd, Hc, Hi, Hj. lia. }
    rewrite Hrem in Hend, Hlen. split; [exact Hend|].
    rewrite Htx in Hlen. cbn [length] in Hlen. lia.
  - rewrite loop_not_running by assumption. split; [intros _; exact Hrun|].
    rewrite Htx. cbn [length]. lia.
Qed.

Lemma loop_on_NaN (fuel : nat) (txs : list Transaction.t) :
  running
    (loop fuel
       {| debtors := [Entry.Build_t "B" NaN]; creditors := [Entry.Build_t "A" NaN];
          i := 0; j := 0; transactions := txs |}) = true.
Proof.
  revert txs. induction fuel as [|fuel IH]; intros txs; [reflexivity|].
  rewrite loop_running by reflexivity. apply IH.
Qed.

Lemma overflowing_loops (fuel : nat) : calculateSettlements fuel overflowing = None.
Proof.
  unfold calculateSettlements.
  assert (Hstart : start overflowing =
    {| debtors := [Entry.Build_t "B" (S754_infinity true)];
       creditors := [Entry.Build_t "A" (S754_infinity false)];
       i := 0; j := 0; transactions := [] |}) by (vm_compute; reflexivity).
  rewrite Hstart. destruct fuel as [|fuel]; [reflexivity|].
  rewrite loop_running by reflexivity.
  change (step _) with
    {| debtors := [Entry.Build_t "B" NaN]; creditors := [Entry.Build_t "A" NaN];
       i := 0; j := 0;
       transactions := [Transaction.Build_t "B" "A" "Infinity"] |}.
  rewrite loop_on_NaN. reflexivity.
Qed.

(** ** Who pays whom *)

Lemma persons_insert (l : list Entry.t) (k : nat) (e : Entry.t) (x : number) :
  l !! k = Some e -> persons (<[k := Entry.Build_t (Entry.person e) x]> l) = persons l.
Proof.
  intros H. unfold persons. change (map Entry.person) with (fmap (M:=list) Entry.person).
  rewrite list_fmap_insert. cbn [Entry.person].
  apply list_insert_id. rewrite list_lookup_fmap, H. reflexivity.
Qed.

Lemma step_persons (st : state) :
  running st = true ->
  persons (debtors (step st)) = persons (debtors st) /\
  persons (creditors (step st)) = persons (creditors st) /\
  exists tx, transactions (step st) = transactions st ++ [tx] /\
             Transaction.from tx ∈ persons (debtors st) /\
             Transaction.to tx ∈ persons (creditors st).
Proof.
  intros Hrun. destruct (step_eq st Hrun) as (debtor & creditor & Hd & Hc & ->). cbn zeta.
  cbn [debtors creditors transactions].
  rewrite (persons_insert _ _ _ _ Hd), (persons_insert _ _ _ _ Hc).
  split; [reflexivity|]. split; [reflexivity|].
  eexists. split; [reflexivity|]. cbn [Transaction.from Transaction.to].
  split; apply list_elem_of_fmap; eexists; (split; [reflexivity|]);
    eapply list_elem_of_lookup_2; eassumption.
Qed.

Lemma loop_persons (fuel : nat) (st : state) :
  Forall (fun tx => Transaction.from tx ∈ persons (debtors st) /\
                    Transaction.to tx ∈ persons (creditors st)) (transactions st) ->
  Forall (fun tx => Transaction.from tx ∈ persons (debtors st) /\
                    Transaction.to tx ∈ persons (creditors st)) (transactions (loop fuel st)).
Proof.
  revert st. induction fuel as [|fuel IH]; intros st H; [exact H|].
  cbn [loop]. destruct (running st) eqn:Hrun; [|exact H].
  destruct (step_persons st Hrun) as (Hd & Hc & tx & Htx & Hfrom & Hto).
  rewrite <- Hd, <- Hc. apply IH. rewrite Hd, Hc, Htx.
  apply Forall_app. split; [exact H|]. constructor; [split; assumption | constructor].
Qed.

Lemma lt_exclusive (x : number) : lt x (neg cent) = true -> lt cent x = false.
Proof. rewrite cent_eq. destruct x as [[|]|[|]| |[|] m e]; try discriminate; reflexivity. Qed.

Lemma elem_of_omap_listed_debtor (balances : object) (p : string) :
  p ∈ persons (omap listed_debtor balances) ->
  exists b, (p, b) ∈ balances /\ lt (rounded b) (neg cent) = true.
Proof.
  unfold persons. intros H. apply list_elem_of_fmap in H as (e & -> & He).
  apply list_elem_of_omap in He as ([q b] & Hin & Hl).
  unfold listed_debtor in Hl. cbn [fst snd] in Hl.
  destruct (lt (rounded b) (neg cent)) eqn:E; [|discriminate].
  injection Hl as <-. exists b. split; assumption.
Qed.

Lemma elem_of_omap_listed_creditor (balances : object) (p : string) :
  p ∈ persons (omap listed_creditor balances) ->
  exists b, (p, b) ∈ balances /\ lt cent (rounded b) = true.
Proof.
  unfold persons. intros H. apply list_elem_of_fmap in H as (e & -> & He).
  apply list_elem_of_omap in He as ([q b] & Hin & Hl).
  unfold listed_creditor in Hl. cbn [fst snd] in Hl.
  destruct (lt cent (rounded b)) eqn:E; [|discriminate].
  injection Hl as <-. exists b. split; assumption.
Qed.

Lemma NoDup_fst_agree (balances : object) (p : string) (b b' : number) :
  NoDup (map fst balances) -> (p, b) ∈ balances -> (p, b') ∈ balances -> b = b'.
Proof.
  intros Hnd H H'. induction balances as [|[q c] bs IH]; [inversion H|].
  cbn [map fst] in Hnd. apply NoDup_cons in Hnd as [Hq Hnd].
  apply elem_of_cons in H as [[= -> ->]|H]; apply elem_of_cons in H' as [[= ->]|H'].
  - reflexivity.
  - exfalso. apply Hq. apply (list_elem_of_fmap_2 (A:=string * number) fst _ (q, b')). exact H'.
  - exfalso. subst. apply Hq. apply (list_elem_of_fmap_2 (A:=string * number) fst _ (q, b)). exact H.
  - apply IH; assumption.
Qed.

(** ** Balanced input *)

Lemma separate_settled (balances : object) :
  Forall (fun entry => valid entry.2 = true /\ le (Math_abs entry.2) cent = true) balances ->
  separate balances = ([], []).
Proof.
  intros H. rewrite separate_omap. induction H as [|[p b] bs [Hv Hle] _ IH]; [reflexivity|].
  injection IH as IHd IHc.
  destruct (rounded_small b Hv Hle) as [Hd Hc].
  change (omap listed_debtor ((p, b) :: bs))
    with (match listed_debtor (p, b) with
          | Some y => y :: omap listed_debtor bs
          | None => omap listed_debtor bs
          end).
  change (omap listed_creditor ((p, b) :: bs))
    with (match listed_creditor (p, b) with
          | Some y => y :: omap listed_creditor bs
          | None => omap listed_creditor bs
          end).
  unfold listed_debtor at 1, listed_creditor at 1. cbn [fst snd].
  rewrite Hd, Hc, IHd, IHc. reflexivity.
Qed.

Section Emitted.

Variables Pd Pc : number -> Prop.
Variable Q : Transaction.t -> Prop.

Hypothesis matching :
  forall d c, Pd d -> Pc c ->
    let a := Math_min (Math_abs d) c in
    (lt (Math_abs (add d a)) cent = false -> Pd (add d a)) /\
    (lt (sub c a) cent = false -> Pc (sub c a)) /\
    (lt (Math_abs (add d a)) cent = true \/ lt (sub c a) cent = true).

Hypothesis emitted :
  forall from to d c, Pd d -> Pc c ->
    Q (Transaction.Build_t from to (toFixed2 (Math_min (Math_abs d) c))).

Lemma loop_emitted (fuel : nat) (st : state) :
  ahead Pd Pc st -> Forall Q (transactions st) -> Forall Q (transactions (loop fuel st)).
Proof.
  revert st. induction fuel as [|fuel IH]; intros st Ha HQ; [exact HQ|].
  cbn [loop]. destruct (running st) eqn:Hrun; [|exact HQ].
  destruct (step_ahead Pd Pc matching st Ha Hrun) as (Ha' & _ & _).
  apply IH; [exact Ha'|].
  destruct (step_eq st Hrun) as (debtor & creditor & Hd & Hc & ->). cbn zeta.
  cbn [transactions]. apply Forall_app. split; [exact HQ|].
  constructor; [|constructor]. destruct Ha as [Had Hac].
  rewrite Forall_lookup in Had, Hac.
  apply emitted.
  - apply (Had 0). rewrite lookup_drop, Nat.add_0_r. exact Hd.
  - apply (Hac 0). rewrite lookup_drop, Nat.add_0_r. exact Hc.
Qed.

End Emitted.

(** ** The amounts printed *)

Lemma not_lt_cent_le (m : positive) (e : Z) :
  lt (S754_finite false m e) cent = false -> le cent (S754_finite false m e) = true.
Proof.
  rewrite cent_eq. unfold lt, le, SFltb, SFleb. rewrite !compare_finite_pos.
  rewrite (Z.compare_antisym e (-59)), (Pos.compare_antisym m 5764607523034235).
  destruct (e ?= -59)%Z; cbn [CompOpp]; try discriminate; try reflexivity.
  destruct (m ?= 5764607523034235)%positive; cbn [CompOpp]; try discriminate; reflexivity.
Qed.

Lemma le_lt_trans_pos (m1 : positive) (e1 : Z) (m2 : positive) (e2 : Z) (y : number) :
  le (S754_finite false m1 e1) (S754_finite false m2 e2) = true ->
  lt (S754_finite false m2 e2) y = true -> lt (S754_finite false m1 e1) y = true.
Proof.
  intros H1 H2. apply leb_finite_pos_inv in H1.
  destruct y as [s|[|]| |[|] m3 e3]; try discriminate; [reflexivity|].
  apply ltb_finite_pos_inv in H2.
  unfold lt, SFltb. rewrite (proj2 (compare_finite_pos_Lt m1 e1 m3 e3)); [reflexivity|]. lia.
Qed.

Lemma matching_small (d c : number) :
  small_debt d -> small_credit c ->
  let a := Math_min (Math_abs d) c in
  (lt (Math_abs (add d a)) cent = false -> small_debt (add d a)) /\
  (lt (sub c a) cent = false -> small_credit (sub c a)) /\
  (lt (Math_abs (add d a)) cent = true \/ lt (sub c a) cent = true).
Proof.
  intros (Hd & Hdlo & Hdhi) (Hc & Hclo & Hchi).
  destruct (settle_step d c Hd Hc) as (_ & Hd' & Hc' & Hz). cbn zeta.
  split; [|split].
  - intros Hlt. destruct Hd' as [Hz'|[H Hle]].
    { rewrite (is_zero_abs_lt_cent _ Hz') in Hlt. discriminate. }
    split; [exact H|]. destruct H as (m' & e' & E & Hb'). rewrite E in *.
    destruct Hd as (m & e & -> & Hb). cbn [Math_abs SFabs] in *.
    split; [apply not_lt_cent_le; exact Hlt | eapply le_lt_trans_pos; eassumption].
  - intros Hlt. destruct Hc' as [Hz'|[H Hle]].
    { rewrite (is_zero_lt_cent _ Hz') in Hlt. discriminate. }
    split; [exact H|]. destruct H as (m' & e' & E & Hb'). rewrite E in *.
    destruct Hc as (m & e & -> & Hb).
    split; [apply not_lt_cent_le; exact Hlt | eapply le_lt_trans_pos; eassumption].
  - destruct Hz as [Hz|Hz]; [left; apply is_zero_abs_lt_cent | right; apply is_zero_lt_cent]; exact Hz.
Qed.

Lemma emitted_small (from to : string) (d c : number) :
  small_debt d -> small_credit c ->
  exists n : N,
    hundredths (Transaction.amount
                  (Transaction.Build_t from to (toFixed2 (Math_min (Math_abs d) c)))) = Some n /\
    (0 < n)%N.
Proof.
  intros (Hd & Hdlo & Hdhi) (Hc & Hclo & Hchi). cbn [Transaction.amount].
  destruct (settle_step d c Hd Hc) as (Ha & _). cbn zeta in Ha.
  assert (H : exists n : N, toFixed2 (Math_min (Math_abs d) c) = fixed n /\ (0 < n)%N).
  { destruct Ha as [-> | ->].
    - apply toFixed2_credit; [|assumption|assumption].
      destruct Hd as (m & e & -> & Hb). exists m, e. split; [reflexivity|exact Hb].
    - apply toFixed2_credit; assumption. }
  destruct H as (n & -> & Hn). exists n. split; [apply hundredths_fixed | exact Hn].
Qed.

Lemma lt_cent_le (x : number) : lt cent x = true -> le cent x = true.
Proof.
  unfold lt, le, SFltb, SFleb. destruct (SFcompare cent x) as [[| |]|]; try discriminate; reflexivity.
Qed.

Lemma lt_neg_cent_le (m : positive) (e : Z) :
  lt (S754_finite true m e) (neg cent) = true -> le cent (S754_finite false m e) = true.
Proof.
  intros H. apply lt_cent_le. revert H. rewrite cent_eq.
  unfold lt, SFltb, neg. cbn [SFopp negb SFcompare].
  rewrite (Z.compare_antisym e (-59)).
  destruct (e ?= -59)%Z; cbn [CompOpp]; try discriminate; try reflexivity.
  rewrite (Pos.compare_cont_antisym m 5764607523034235 Eq). cbn [CompOpp].
  unfold Pos.compare.
  destruct (Pos.compare_cont Eq 5764607523034235 m); cbn [CompOpp]; try discriminate; reflexivity.
Qed.

Lemma listed_debtor_small (entry : string * number) (e : Entry.t) :
  lt (Math_abs (rounded entry.2)) sextillion = true ->
  listed_debtor entry = Some e -> small_debt (Entry.amount e).
Proof.
  intros Hs Hl.
  unfold listed_debtor in Hl. destruct (lt (rounded entry.2) (neg cent)) eqn:Hlt; [|discriminate].
  injection Hl as <-. cbn [Entry.amount].
  pose proof (rounded_valid entry.2) as Hv.
  destruct (rounded entry.2) as [s|s| |[|] m e].
  - rewrite cent_eq in Hlt. discriminate.
  - rewrite sextillion_eq in Hs. discriminate.
  - rewrite cent_eq in Hlt. discriminate.
  - split; [exists m, e; split; [reflexivity|exact Hv]|].
    split; [apply lt_neg_cent_le; exact Hlt | exact Hs].
  - rewrite cent_eq in Hlt. discriminate.
Qed.

Lemma listed_creditor_small (entry : string * number) (e : Entry.t) :
  lt (Math_abs (rounded entry.2)) sextillion = true ->
  listed_creditor entry = Some e -> small_credit (Entry.amount e).
Proof.
  intros Hs Hl.
  unfold listed_creditor in Hl. destruct (lt cent (rounded entry.2)) eqn:Hlt; [|discriminate].
  injection Hl as <-. cbn [Entry.amount].
  pose proof (rounded_valid entry.2) as Hv.
  destruct (rounded entry.2) as [s|s| |[|] m e].
  - rewrite cent_eq in Hlt. discriminate.
  - rewrite sextillion_eq in Hs. discriminate.
  - rewrite cent_eq in Hlt. discriminate.
  - rewrite cent_eq in Hlt. discriminate.
  - split; [exists m, e; split; [reflexivity|exact Hv]|].
    split; [apply lt_cent_le; exact Hlt | exact Hs].
Qed.

Lemma start_small (balances : object) :
  Forall (fun entry => lt (Math_abs (rounded entry.2)) sextillion = true) balances ->
  ahead small_debt small_credit (start balances).
Proof.
  intros H. rewrite start_eq. unfold ahead. cbn [debtors creditors i j drop].
  split; rewrite sort_perm.
  - apply (Forall_omap_listed _ _ _ _ listed_debtor_small H).
  - apply (Forall_omap_listed _ _ _ _ listed_creditor_small H).
Qed.

(** With rounded balances below 10^21 in magnitude, every amount is a
    positive number of hundredths printed with two decimal places. *)
Lemma amounts_fixed (balances : object) (fuel : nat) (tx : Transaction.t) :
  Forall (fun entry => lt (Math_abs (rounded entry.2)) sextillion = true) balances ->
  tx ∈ transactions (loop fuel (start balances)) ->
  exists n : N, hundredths (Transaction.amount tx) = Some n /\ (0 < n)%N.
Proof.
  intros H Htx.
  pose proof (loop_emitted small_debt small_credit
                (fun tx => exists n : N, hundredths (Transaction.amount tx) = Some n /\ (0 < n)%N)
                matching_small emitted_small fuel
                (start balances) (start_small balances H)) as HQ.
  assert (H0 : Forall (fun tx => exists n : N, hundredths (Transaction.amount tx) = Some n /\ (0 < n)%N)
                 (transactions (start balances))).
  { rewrite start_eq. constructor. }
  specialize (HQ H0). rewrite Forall_forall in HQ. exact (HQ tx Htx).
Qed.

End Settlement.

(** * Balances *)

Module Balances.
Import Js App Entries Format Loop Spec Terms Examples Binary64 Matching Page.
Local Close Scope Z_scope.

(** ** Entries as dictionaries *)

Lemma get_set_eq (o : object) (k : string) (v : number) : get (set o k v) k = Some v.
Proof.
  induction o as [|[k' v'] o IH]; cbn [set get].
  - rewrite decide_True by reflexivity. reflexivity.
  - destruct (decide (k' = k)) as [E|E]; cbn [get].
    + rewrite decide_True by exact E. reflexivity.
    + rewrite decide_False by exact E. exact IH.
Qed.

Lemma get_set_ne (o : object) (k k' : string) (v : number) :
  k <> k' -> get (set o k v) k' = get o k'.
Proof.
  intros Hne. induction o as [|[k0 v0] o IH]; cbn [set get].
  - rewrite decide_False by exact Hne. reflexivity.
  - destruct (decide (k0 = k)) as [E|E]; cbn [get].
    + subst k0. rewrite !decide_False by exact Hne. reflexivity.
    + destruct (decide (k0 = k')); [reflexivity | exact IH].
Qed.

Lemma get_set_is_Some (o : object) (k q : string) (v : number) :
  is_Some (get o q) -> is_Some (get (set o k v) q).
Proof.
  intros H. destruct (decide (k = q)) as [->|Hne].
  - rewrite get_set_eq. eexists; reflexivity.
  - rewrite get_set_ne by exact Hne. exact H.
Qed.

Lemma add_zero_parseFloat (x : number) : add zero (parseFloat x) = parseFloat x.
Proof. destruct x as [s|s| |s m e]; reflexivity. Qed.

(** ** The properties of an object *)

Lemma own_keys (bal : properties) (k : string) : is_Some (own bal k) <-> k ∈ keys bal.
Proof.
  unfold keys. induction bal as [|[k' v'] bal IH]; cbn [own map fst].
  - split; [intros [? [=]] | intros H; inversion H].
  - destruct (decide (k' = k)) as [->|Hne].
    + split; [intros _; left | intros _; eexists; reflexivity].
    + rewrite IH, elem_of_cons. split; [tauto | intros [->|H]; [congruence | exact H]].
Qed.

Lemma own_None (bal : properties) (k : string) : own bal k = None <-> k ∉ keys bal.
Proof.
  rewrite <- own_keys. destruct (own bal k) as [v|]; split.
  - discriminate.
  - intros H. exfalso. apply H. eexists; reflexivity.
  - intros _ [? [=]].
  - reflexivity.
Qed.

Lemma own_elem (bal : properties) (k : string) (v : value) :
  NoDup (keys bal) -> (k, v) ∈ bal -> own bal k = Some v.
Proof.
  unfold keys. induction bal as [|[k' v'] bal IH]; cbn [own map fst]; intros Hnd Hin.
  - inversion Hin.
  - apply NoDup_cons in Hnd as [Hk Hnd]. apply elem_of_cons in Hin as [[= <- <-]|Hin].
    + rewrite decide_True by reflexivity. reflexivity.
    + destruct (decide (k' = k)) as [->|Hne]; [|exact (IH Hnd Hin)].
      exfalso. apply Hk. apply list_elem_of_fmap. exists (k, v). split; [reflexivity | exact Hin].
Qed.

Lemma own_overwrite_eq (bal : properties) (k : string) (v : value) :
  is_Some (own bal k) -> own (overwrite bal k v) k = Some v.
Proof.
  induction bal as [|[k' v'] bal IH]; cbn [own overwrite]; [intros [? [=]]|].
  destruct (decide (k' = k)) as [E|E]; cbn [own].
  - intros _. rewrite decide_True by exact E. reflexivity.
  - intros H. rewrite decide_False by exact E. exact (IH H).
Qed.

Lemma own_overwrite_ne (bal : properties) (k k' : string) (v : value) :
  k <> k' -> own (overwrite bal k v) k' = own bal k'.
Proof.
  intros Hne. induction bal as [|[k0 v0] bal IH]; cbn [own overwrite]; [reflexivity|].
  destruct (decide (k0 = k)) as [E|E]; cbn [own].
  - subst k0. rewrite !decide_False by exact Hne. reflexivity.
  - destruct (decide (k0 = k')); [reflexivity | exact IH].
Qed.

Lemma keys_overwrite (bal : properties) (k : string) (v : value) :
  keys (overwrite bal k v) = keys bal.
Proof.
  unfold keys. induction bal as [|[k' v'] bal IH]; cbn [overwrite map fst]; [reflexivity|].
  destruct (decide (k' = k)); cbn [map fst]; [reflexivity | rewrite IH; reflexivity].
Qed.

Lemma own_enter_eq (n : N) (bal : properties) (k : string) (v : value) :
  own bal k = None -> own (enter n k v bal) k = Some v.
Proof.
  induction bal as [|[k' v'] bal IH]; cbn [own enter]; intros H.
  - rewrite decide_True by reflexivity. reflexivity.
  - destruct (decide (k' = k)) as [E|E]; [discriminate|].
    destruct (array_index k') as [n'|]; [destruct (n' <? n)%N|]; cbn [own].
    + rewrite decide_False by exact E. exact (IH H).
    + rewrite decide_True by reflexivity. reflexivity.
    + rewrite decide_True by reflexivity. reflexivity.
Qed.

Lemma own_enter_ne (n : N) (bal : properties) (k k' : string) (v : value) :
  k <> k' -> own (enter n k v bal) k' = own bal k'.
Proof.
  intros Hne. induction bal as [|[k0 v0] bal IH]; cbn [own enter].
  - rewrite decide_False by exact Hne. reflexivity.
  - destruct (array_index k0) as [n'|]; [destruct (n' <? n)%N|]; cbn [own].
    + destruct (decide (k0 = k')); [reflexivity | exact IH].
    + rewrite decide_False by exact Hne. reflexivity.
    + rewrite decide_False by exact Hne. reflexivity.
Qed.

Lemma own_last (bal : properties) (k k' : string) (v : value) :
  own (bal ++ [(k, v)]) k' =
  match own bal k' with
  | Some x => Some x
  | None => if decide (k = k') then Some v else None
  end.
Proof.
  induction bal as [|[k0 v0] bal IH]; cbn [own app]; [reflexivity|].
  destruct (decide (k0 = k')); [reflexivity | exact IH].
Qed.

(** An assignment is read back, unless it was to [__proto__]. *)
Lemma own_assign_eq (bal : properties) (k : string) (v : value) :
  k <> proto \/ is_Some (own bal k) -> own (assign bal k v) k = Some v.
Proof.
  intros H. unfold assign. destruct (own bal k) as [x|] eqn:E.
  - apply own_overwrite_eq. rewrite E. eexists; reflexivity.
  - destruct H as [H|[? [=]]]. rewrite decide_False by exact H.
    destruct (array_index k) as [ix|].
    + apply own_enter_eq, E.
    + rewrite own_last, E, decide_True by reflexivity. reflexivity.
Qed.

(** An assignment leaves the other properties as they are. *)
Lemma own_assign_ne (bal : properties) (k k' : string) (v : value) :
  k <> k' -> own (assign bal k v) k' = own bal k'.
Proof.
  intros Hne. unfold assign. destruct (own bal k) as [x|] eqn:E.
  - apply own_overwrite_ne, Hne.
  - destruct (decide (k = proto)); [reflexivity|].
    destruct (array_index k) as [ix|].
    + apply own_enter_ne, Hne.
    + rewrite own_last, decide_False by exact Hne. destruct (own bal k'); reflexivity.
Qed.

Lemma read_assign_eq (bal : properties) (k : string) (v : value) :
  k <> proto \/ is_Some (own bal k) -> read (assign bal k v) k = v.
Proof. intros H. unfold read. rewrite (own_assign_eq bal k v H). reflexivity. Qed.

Lemma read_assign_ne (bal : properties) (k k' : string) (v : value) :
  k <> k' -> read (assign bal k v) k' = read bal k'.
Proof. intros H. unfold read. rewrite (own_assign_ne bal k k' v H). reflexivity. Qed.

(** An assignment to [__proto__] does nothing to an object that has no
    property of its own under that name. *)
Lemma assign_proto (bal : properties) (v : value) :
  own bal proto = None -> assign bal proto v = bal.
Proof. intros H. unfold assign. rewrite H, decide_True by reflexivity. reflexivity. Qed.

Lemma read_own (bal : properties) (k : string) (v : value) :
  own bal k = Some v -> read bal k = v.
Proof. intros H. unfold read. rewrite H. reflexivity. Qed.

(** ** Balances that are numbers *)

Lemma numbers_values (o : object) : numbers (values o) = o.
Proof.
  unfold numbers, values. induction o as [|[k x] o IH]; cbn [map fst snd ToNumber];
    [reflexivity | rewrite IH; reflexivity].
Qed.

Lemma values_numbers (bal : properties) : numeric bal -> values (numbers bal) = bal.
Proof.
  unfold numbers, values. induction 1 as [|[k v] bal [x Hx] Hbal IH]; cbn [map fst snd];
    [reflexivity|].
  cbn [snd] in Hx. subst v. cbn [ToNumber]. rewrite IH. reflexivity.
Qed.

Lemma numeric_values (o : object) : numeric (values o).
Proof.
  unfold numeric, values. induction o as [|[k x] o IH]; cbn [map]; constructor; [|exact IH].
  exists x. reflexivity.
Qed.

Lemma own_values (o : object) (k : string) : own (values o) k = Num <$> get o k.
Proof.
  unfold values. induction o as [|[k' x] o IH]; cbn [map own get fst snd]; [reflexivity|].
  destruct (decide (k' = k)); [reflexivity | exact IH].
Qed.

Lemma read_values (o : object) (k : string) (x : number) :
  get o k = Some x -> read (values o) k = Num x.
Proof. intros H. apply read_own. rewrite own_values, H. reflexivity. Qed.

Lemma overwrite_values (o : object) (k : string) (x y : number) :
  get o k = Some x -> overwrite (values o) k (Num y) = values (set o k y).
Proof.
  unfold values. induction o as [|[k' x'] o IH]; cbn [map overwrite get set fst snd];
    [discriminate|].
  destruct (decide (k' = k)); cbn [map fst snd]; [reflexivity|].
  intros H. rewrite (IH H). reflexivity.
Qed.

(** On entries that hold a number for the name, an assignment of a number
    is the update of the entry. *)
Lemma assign_values (o : object) (k : string) (x y : number) :
  get o k = Some x -> assign (values o) k (Num y) = values (set o k y).
Proof.
  intros H. unfold assign. rewrite own_values, H. cbn [fmap option_fmap option_map].
  exact (overwrite_values o k x y H).
Qed.

Lemma debits_values (involved : list string) (share : number) (o : object) :
  Forall (fun person => is_Some (get o person)) involved ->
  fold_left (fun bal person => assign bal person (subtraction (read bal person) share))
    involved (values o) =
  values (fold_left (fun o person => set o person (sub (to_number (get o person)) share))
            involved o).
Proof.
  revert o. induction involved as [|p l IH]; intros o Hin; cbn [fold_left]; [reflexivity|].
  apply Forall_cons in Hin as [[x Hx] Hl].
  rewrite (read_values o p x Hx). unfold subtraction. cbn [ToNumber].
  rewrite (assign_values o p x _ Hx), Hx. cbn [to_number].
  apply IH. eapply Forall_impl; [exact Hl|]. cbn beta. intros q Hq. apply get_set_is_Some, Hq.
Qed.

(** On entries that hold a number for the payer and for everybody involved,
    [add_expense] updates the entries. *)
Lemma add_expense_values (o : object) (exp : Expense.t) :
  Forall (fun person => is_Some (get o person)) (touched exp) ->
  add_expense (values o) exp = values (post o exp).
Proof.
  unfold add_expense, post, touched. destruct (Expense.involved exp) as [[|p l]|];
    try reflexivity.
  intros H. apply Forall_cons in H as [[x Hx] Hl].
  rewrite (read_values o _ x Hx). cbn [addition].
  rewrite (assign_values o _ x _ Hx), Hx. cbn [to_number].
  apply debits_values. eapply Forall_impl; [exact Hl|]. cbn beta.
  intros q Hq. apply get_set_is_Some, Hq.
Qed.

Lemma debits_keep (involved : list string) (share : number) (o : object) (q : string) :
  is_Some (get o q) ->
  is_Some (get (fold_left (fun o person => set o person (sub (to_number (get o person)) share))
                  involved o) q).
Proof.
  revert o. induction involved as [|p l IH]; intros o H; cbn [fold_left]; [exact H|].
  apply IH, get_set_is_Some, H.
Qed.

Lemma post_keeps (o : object) (exp : Expense.t) (q : string) :
  is_Some (get o q) -> is_Some (get (post o exp) q).
Proof.
  intros H. unfold post. destruct (Expense.involved exp) as [[|p l]|]; try exact H.
  apply debits_keep, get_set_is_Some, H.
Qed.

Lemma touched_drawn (participants : list string) (exp : Expense.t) :
  drawn participants exp -> Forall (fun person => person ∈ participants) (touched exp).
Proof.
  intros [Hp Hi]. unfold touched.
  destruct (Expense.involved exp) as [[|p inv]|] eqn:He; try constructor.
  - exact Hp.
  - exact (Hi _ eq_refl).
Qed.

(** Expenses between participants who all have a number are the updates of
    the entries. *)
Lemma expenses_values (participants : list string) (expenses : list Expense.t) (o : object) :
  (forall q, q ∈ participants -> is_Some (get o q)) ->
  Forall (drawn participants) expenses ->
  fold_left add_expense expenses (values o) = values (fold_left post expenses o).
Proof.
  intros Ho Hd. revert o Ho. induction Hd as [|exp l Hexp Hl IH]; intros o Ho; cbn [fold_left];
    [reflexivity|].
  rewrite add_expense_values.
  - apply IH. intros q Hq. apply post_keeps, Ho, Hq.
  - eapply Forall_impl; [exact (touched_drawn _ _ Hexp)|]. cbn beta. intros q Hq. apply Ho, Hq.
Qed.

(** ** The roster *)

Lemma roster_own (participants : list string) (bal : properties) (q : string) :
  q <> proto ->
  own (fold_left (fun bal p => assign bal p (Num zero)) participants bal) q =
  if decide (q ∈ participants) then Some (Num zero) else own bal q.
Proof.
  intros Hq. revert bal. induction participants as [|p ps IH]; intros bal; cbn [fold_left].
  - rewrite decide_False by apply not_elem_of_nil. reflexivity.
  - rewrite IH. destruct (decide (q ∈ ps)) as [Hin|Hin].
    + rewrite decide_True by (right; exact Hin). reflexivity.
    + destruct (decide (p = q)) as [->|Hne].
      * rewrite decide_True by left. apply own_assign_eq. left. exact Hq.
      * rewrite decide_False by (rewrite elem_of_cons; intros [->|?]; tauto).
        apply own_assign_ne. exact Hne.
Qed.

Lemma assign_zero (bal : properties) (k : string) :
  Forall (fun entry => entry.2 = Num zero) bal ->
  Forall (fun entry => entry.2 = Num zero) (assign bal k (Num zero)).
Proof.
  intros H. unfold assign. destruct (own bal k) as [x|].
  - induction H as [|[k' v'] bal Hv Hbal IH]; cbn [overwrite]; [constructor|].
    destruct (decide (k' = k)); constructor; try assumption. reflexivity.
  - destruct (decide (k = proto)); [exact H|]. destruct (array_index k) as [ix|].
    + induction H as [|[k' v'] bal Hv Hbal IH]; cbn [enter].
      * constructor; [reflexivity | constructor].
      * destruct (array_index k') as [n'|]; [destruct (n' <? ix)%N|];
          repeat (constructor; try assumption); reflexivity.
    + apply Forall_app. split; [exact H|]. constructor; [reflexivity | constructor].
Qed.

Lemma roster_zero (participants : list string) (bal : properties) :
  Forall (fun entry => entry.2 = Num zero) bal ->
  Forall (fun entry => entry.2 = Num zero)
    (fold_left (fun bal p => assign bal p (Num zero)) participants bal).
Proof.
  revert bal. induction participants as [|p ps IH]; intros bal H; cbn [fold_left]; [exact H|].
  apply IH, assign_zero, H.
Qed.

Lemma length_enter (n : N) (k : string) (v : value) (bal : properties) :
  length (enter n k v bal) = S (length bal).
Proof.
  induction bal as [|[k' v'] bal IH]; cbn [enter length]; [reflexivity|].
  destruct (array_index k') as [n'|]; [destruct (n' <? n)%N|]; cbn [length];
    [rewrite IH|..]; reflexivity.
Qed.

Lemma length_assign (bal : properties) (k : string) (v : value) :
  length (assign bal k v) <= S (length bal).
Proof.
  unfold assign. destruct (own bal k).
  - pose proof (f_equal (@length string) (keys_overwrite bal k v)) as H.
    unfold keys in H. rewrite !length_map in H. lia.
  - destruct (decide (k = proto)); [lia|]. destruct (array_index k).
    + rewrite length_enter. lia.
    + rewrite length_app. cbn [length]. lia.
Qed.

Lemma roster_length (participants : list string) (bal : properties) :
  length (fold_left (fun bal p => assign bal p (Num zero)) participants bal) <=
  length bal + length participants.
Proof.
  revert bal. induction participants as [|p ps IH]; intros bal; cbn [fold_left length]; [lia|].
  specialize (IH (assign bal p (Num zero))). pose proof (length_assign bal p (Num zero)). lia.
Qed.

(** The entries the roster makes: every participant has one, all are
    zero, and there is at most one for each name of the roster. *)
Lemma roster_entries (participants : list string) :
  proto ∉ participants ->
  exists o,
    fold_left (fun bal p => assign bal p (Num zero)) participants [] = values o /\
    (forall q, q ∈ participants -> get o q = Some zero) /\
    Forall (fun entry => entry.2 = zero) o /\
    length o <= length participants.
Proof.
  intros Hp. set (bal := fold_left (fun bal p => assign bal p (Num zero)) participants []).
  assert (Hz : Forall (fun entry => entry.2 = Num zero) bal)
    by (apply roster_zero; constructor).
  assert (Hn : numeric bal).
  { eapply Forall_impl; [exact Hz|]. intros [k v] Hv. exists zero. exact Hv. }
  exists (numbers bal). split; [symmetry; exact (values_numbers bal Hn)|]. split; [|split].
  - intros q Hq. assert (Hne : q <> proto) by (intros ->; exact (Hp Hq)).
    pose proof (roster_own participants [] q Hne) as Ho. fold bal in Ho.
    rewrite decide_True in Ho by exact Hq.
    rewrite <- (values_numbers bal Hn), own_values in Ho.
    destruct (get (numbers bal) q) as [x|]; [|discriminate]. injection Ho as ->. reflexivity.
  - unfold numbers. apply Forall_fmap. eapply Forall_impl; [exact Hz|].
    intros [k v] Hv. cbn in *. subst v. reflexivity.
  - unfold numbers. rewrite length_map. pose proof (roster_length participants []) as H.
    cbn [length] in H. exact H.
Qed.

(** For a roster without [__proto__] and expenses between its
    participants, the balances are numbers: the entries of the roster with
    the updates of the expenses. *)
Lemma balances_values (participants : list string) (expenses : list Expense.t) :
  proto ∉ participants -> Forall (drawn participants) expenses ->
  exists o,
    balances participants expenses = values (fold_left post expenses o) /\
    (forall q, q ∈ participants -> get o q = Some zero) /\
    Forall (fun entry => entry.2 = zero) o /\
    length o <= length participants.
Proof.
  intros Hp Hd. destruct (roster_entries participants Hp) as (o & Ho & Hk & Hz & Hl).
  exists o. split; [|split; [exact Hk | split; [exact Hz | exact Hl]]].
  unfold balances. rewrite Ho. apply (expenses_values participants); [|exact Hd].
  intros q Hq. rewrite (Hk q Hq). eexists; reflexivity.
Qed.

Lemma read_debits (involved : list string) (share : number) (bal : properties) (q : string) :
  NoDup involved -> q <> proto ->
  read (fold_left (fun bal person => assign bal person (subtraction (read bal person) share))
          involved bal) q =
  if decide (q ∈ involved) then subtraction (read bal q) share else read bal q.
Proof.
  intros Hnd Hq. revert bal. induction Hnd as [|p inv Hp Hnd IH]; intros bal; cbn [fold_left].
  - rewrite decide_False by apply not_elem_of_nil. reflexivity.
  - rewrite IH. destruct (decide (p = q)) as [->|Hne].
    + rewrite decide_False by exact Hp. rewrite decide_True by left.
      apply read_assign_eq. left. exact Hq.
    + rewrite (read_assign_ne _ _ _ _ Hne).
      destruct (decide (q ∈ inv)) as [Hin|Hin].
      * rewrite decide_True by (right; exact Hin). reflexivity.
      * rewrite decide_False by (rewrite elem_of_cons; intros [->|?]; tauto). reflexivity.
Qed.

Lemma add_expense_skipped (bal : properties) (exp : Expense.t) :
  Expense.involved exp = Some [] -> add_expense bal exp = bal.
Proof. intros H. unfold add_expense. rewrite H. reflexivity. Qed.

Lemma balances_app (participants : list string) (l1 l2 : list Expense.t) :
  balances participants (l1 ++ l2) = fold_left add_expense l2 (balances participants l1).
Proof. unfold balances. apply fold_left_app. Qed.

End Balances.

(** * Whole-number amounts

    On whole numbers of moderate size every operation of the two functions
    is exact, and the balances and settlements are those of integer
    arithmetic. *)

Module Exact.
Import Js App Entries Format Loop Spec Examples Binary64 Matching Settlement Balances.
Local Open Scope Z_scope.

(** ** Whole-number balances *)

Lemma whole_to_Z (x : number) (n : Z) : whole x n -> to_Z x = n.
Proof.
  intros [[-> ->]|(Hn & m & e & -> & Hb & He & Hm)]; [reflexivity|].
  unfold to_Z. rewrite Hm, Z.div_mul by (apply Z.pow_nonzero; lia).
  destruct (Z.ltb_spec n 0); cbn [cond_Zopp]; lia.
Qed.

Lemma whole_integral (x : number) (n : Z) : whole x n -> integral x.
Proof. intros H. unfold integral. rewrite (whole_to_Z x n H). exact H. Qed.

Lemma integral_zero : integral zero.
Proof. left. split; reflexivity. Qed.

Lemma zabs_nonneg (o : object) : 0 <= zabs o.
Proof. induction o as [|[k v] o IH]; cbn [zabs foldr] in *; [lia|]. fold (zabs o). lia. Qed.

Lemma zsum_le_zabs (o : object) : Z.abs (zsum o) <= zabs o.
Proof.
  induction o as [|[k v] o IH]; cbn [zsum zabs foldr] in *; [lia|].
  fold (zsum o) (zabs o). lia.
Qed.

Lemma fold_add_whole (o : object) (acc : number) (a : Z) :
  Forall (fun entry => integral entry.2) o -> whole acc a -> Z.abs a + zabs o < 2 ^ 53 ->
  whole (fold_left add (map snd o) acc) (a + zsum o).
Proof.
  intros Ho. revert acc a. induction Ho as [|[k v] o Hv Ho IH]; intros acc a Hacc Hb.
  - cbn [map fold_left zsum foldr]. rewrite Z.add_0_r. exact Hacc.
  - cbn [map fold_left zsum zabs foldr snd] in *. fold (zsum o). fold (zabs o) in Hb.
    pose proof (zabs_nonneg o) as Hz.
    replace (a + (to_Z v + zsum o)) with ((a + to_Z v) + zsum o) by lia.
    apply IH; [|lia]. apply add_whole; [exact Hacc | exact Hv | lia].
Qed.

(** The sum of whole numbers is computed exactly. *)
Lemma total_whole (o : object) :
  Forall (fun entry => integral entry.2) o -> zabs o < 2 ^ 53 -> whole (total o) (zsum o).
Proof.
  intros Ho Hb. unfold total. change (zsum o) with (0 + zsum o).
  apply fold_add_whole; [exact Ho | left; split; reflexivity | lia].
Qed.

(** The effect of an assignment to an existing property. *)
Lemma set_existing (o : object) (k : string) (v v' : number) :
  get o k = Some v ->
  zsum (set o k v') = zsum o - to_Z v + to_Z v' /\
  zabs (set o k v') = zabs o - Z.abs (to_Z v) + Z.abs (to_Z v') /\
  Z.abs (to_Z v) <= zabs o /\
  (Forall (fun entry => integral entry.2) o -> integral v' ->
   Forall (fun entry => integral entry.2) (set o k v')) /\
  (Forall (fun entry => integral entry.2) o -> integral v).
Proof.
  induction o as [|[k0 v0] o IH]; cbn [get set]; [discriminate|].
  destruct (decide (k0 = k)) as [E|E].
  - intros [= ->]. cbn [zsum zabs foldr snd]. fold (zsum o) (zabs o).
    pose proof (zabs_nonneg o). repeat split; try lia.
    + intros Ho Hv'. inversion Ho; subst. constructor; assumption.
    + intros Ho. inversion Ho; subst. assumption.
  - intros Hget. destruct (IH Hget) as (H1 & H2 & H3 & H4 & H5).
    cbn [zsum zabs foldr snd]. fold (zsum o) (zabs o) (zsum (set o k v')) (zabs (set o k v')).
    repeat split; try lia.
    + intros Ho Hv'. inversion Ho; subst. constructor; [assumption | apply H4; assumption].
    + intros Ho. inversion Ho; subst. apply H5; assumption.
Qed.

Lemma parseFloat_whole (x : number) (a : Z) : whole x a -> parseFloat x = x.
Proof. intros [[_ ->]|(_ & m & e & -> & _)]; reflexivity. Qed.

Section Books.

Variable participants : list string.

Local Abbreviation books := (Spec.books participants).

Lemma books_assign (S B : Z) (o : object) (q : string) (v v' : number) (d : Z) :
  books S B o -> get o q = Some v -> whole v' (to_Z v + d) ->
  books (S + d) (B + Z.abs d) (set o q v').
Proof.
  intros (Hk & Hi & Hs & Hb) Hget Hv'.
  destruct (set_existing o q v v' Hget) as (H1 & H2 & H3 & H4 & H5).
  pose proof (whole_to_Z _ _ Hv') as E.
  split; [|split; [|split]].
  - intros p Hp. apply get_set_is_Some, Hk, Hp.
  - apply H4; [exact Hi | exact (whole_integral _ _ Hv')].
  - lia.
  - lia.
Qed.

Lemma books_credit (S B : Z) (o : object) (p : string) (x : number) (a : Z) :
  books S B o -> p ∈ participants -> whole x a -> B + Z.abs a < 2 ^ 53 ->
  books (S + a) (B + Z.abs a) (set o p (add (to_number (get o p)) (parseFloat x))).
Proof.
  intros Hbk Hp Hx Hlt. pose proof Hbk as (Hk & Hi & Hs & Hb).
  destruct (Hk p Hp) as [v Hget].
  apply (books_assign S B o p v _ a Hbk Hget).
  rewrite Hget. cbn [to_number]. rewrite (parseFloat_whole x a Hx).
  destruct (set_existing o p v v Hget) as (_ & _ & H3 & _ & H5).
  apply add_whole; [exact (H5 Hi) | exact Hx | lia].
Qed.

Lemma books_debit (S B : Z) (o : object) (q : string) (x : number) (s : Z) :
  books S B o -> q ∈ participants -> whole x s -> B + Z.abs s < 2 ^ 53 ->
  books (S - s) (B + Z.abs s) (set o q (sub (to_number (get o q)) x)).
Proof.
  intros Hbk Hq Hx Hlt. pose proof Hbk as (Hk & Hi & Hs & Hb).
  destruct (Hk q Hq) as [v Hget].
  replace (S - s) with (S + - s) by lia. replace (Z.abs s) with (Z.abs (- s)) by lia.
  apply (books_assign S B o q v _ (- s) Hbk Hget).
  rewrite Hget. cbn [to_number].
  destruct (set_existing o q v v Hget) as (_ & _ & H3 & _ & H5).
  replace (to_Z v + - s) with (to_Z v - s) by lia.
  apply sub_whole; [exact (H5 Hi) | exact Hx | lia].
Qed.

Lemma books_debits (involved : list string) (x : number) (s : Z) (S B : Z) (o : object) :
  Forall (fun person => person ∈ participants) involved -> whole x s ->
  B + Z.of_nat (length involved) * Z.abs s < 2 ^ 53 -> books S B o ->
  books (S - Z.of_nat (length involved) * s) (B + Z.of_nat (length involved) * Z.abs s)
    (fold_left (fun bal person => set bal person (sub (to_number (get bal person)) x))
       involved o).
Proof.
  intros Hin Hx. revert S B o.
  induction Hin as [|q inv Hq Hin IH]; intros S B o Hlt Hbk.
  - cbn [fold_left length]. replace (S - Z.of_nat 0 * s) with S by lia.
    replace (B + Z.of_nat 0 * Z.abs s) with B by lia. exact Hbk.
  - cbn [fold_left]. rewrite length_cons, Nat2Z.inj_succ in *.
    replace (S - Z.succ (Z.of_nat (length inv)) * s)
      with (S - s - Z.of_nat (length inv) * s) by lia.
    replace (B + Z.succ (Z.of_nat (length inv)) * Z.abs s)
      with (B + Z.abs s + Z.of_nat (length inv) * Z.abs s) by lia.
    apply IH; [lia|]. apply books_debit; [exact Hbk | exact Hq | exact Hx | nia].
Qed.

Lemma books_weaken (S B B' : Z) (o : object) : B <= B' -> books S B o -> books S B' o.
Proof. intros Hle (Hk & Hi & Hs & Hb). repeat split; try assumption. lia. Qed.

Lemma books_post (B : Z) (o : object) (exp : Expense.t) :
  books 0 B o -> drawn participants exp -> even_split exp ->
  B + 2 * to_Z (Expense.amount exp) < 2 ^ 53 ->
  books 0 (B + 2 * to_Z (Expense.amount exp)) (post o exp).
Proof.
  intros Hbk [Hp Hin] (Ha & Hpos & Hdiv) Hlt. unfold post.
  destruct (Expense.involved exp) as [[|q inv]|] eqn:E;
    try (apply (books_weaken 0 B); [lia | exact Hbk]).
  cbn zeta. set (involved := q :: inv) in *.
  destruct (Hdiv involved eq_refl) as [s Hs].
  assert (Hk : 0 < Z.of_nat (length involved)) by (unfold involved; rewrite length_cons; lia).
  assert (Hs0 : 0 < s) by nia.
  assert (HB : 0 <= B).
  { destruct Hbk as (_ & _ & _ & Hb). pose proof (zabs_nonneg o). lia. }
  assert (Hka : Z.of_nat (length involved) <= to_Z (Expense.amount exp)) by nia.
  assert (Hwk : whole (of_Z (Z.of_nat (length involved))) (Z.of_nat (length involved))).
  { apply of_Z_whole. lia. }
  assert (Hsh : whole (div (Expense.amount exp) (of_Z (Z.of_nat (length involved)))) s).
  { apply (div_whole _ _ (to_Z (Expense.amount exp)) (Z.of_nat (length involved)) s);
      [exact Ha | exact Hwk | exact Hk | lia]. }
  pose proof (books_credit 0 B o (Expense.payer exp) (Expense.amount exp) _ Hbk Hp Ha) as Hc.
  assert (Habs : Z.abs (to_Z (Expense.amount exp)) = to_Z (Expense.amount exp)) by lia.
  rewrite Habs in Hc. specialize (Hc ltac:(lia)).
  assert (Hss : Z.abs s = s) by lia.
  assert (Hroom : B + to_Z (Expense.amount exp) + Z.of_nat (length involved) * Z.abs s < 2 ^ 53)
    by (rewrite Hss; lia).
  pose proof (books_debits involved _ s _ _ _ (Hin involved eq_refl) Hsh Hroom Hc) as Hd.
  rewrite Hss in Hd.
  replace (0 + to_Z (Expense.amount exp) - Z.of_nat (length involved) * s) with 0 in Hd by lia.
  replace (B + to_Z (Expense.amount exp) + Z.of_nat (length involved) * s)
    with (B + 2 * to_Z (Expense.amount exp)) in Hd by lia.
  exact Hd.
Qed.

Lemma volume_nonneg (expenses : list Expense.t) :
  Forall even_split expenses -> 0 <= volume expenses.
Proof.
  induction 1 as [|exp l (_ & Hpos & _) Hl IH]; cbn [volume foldr]; [lia|].
  fold (volume l). lia.
Qed.

Lemma books_expenses (expenses : list Expense.t) (B : Z) (o : object) :
  books 0 B o -> Forall (drawn participants) expenses -> Forall even_split expenses ->
  B + 2 * volume expenses < 2 ^ 53 ->
  books 0 (B + 2 * volume expenses) (fold_left post expenses o).
Proof.
  intros Hbk Hd He. revert B o Hbk Hd.
  induction He as [|exp l He Hl IH]; intros B o Hbk Hd Hlt.
  - cbn [fold_left volume foldr]. replace (B + 2 * 0) with B by lia. exact Hbk.
  - inversion Hd as [|? ? Hd1 Hd2]; subst. cbn [fold_left volume foldr] in *.
    fold (volume l) in *. pose proof (volume_nonneg l Hl) as Hv.
    replace (B + 2 * (to_Z (Expense.amount exp) + volume l))
      with (B + 2 * to_Z (Expense.amount exp) + 2 * volume l) by lia.
    apply IH; [|exact Hd2|lia].
    apply books_post; [exact Hbk | exact Hd1 | exact He | lia].
Qed.

End Books.

Lemma books_zero (participants : list string) (o : object) :
  (forall q, q ∈ participants -> get o q = Some zero) ->
  Forall (fun entry => entry.2 = zero) o -> books participants 0 0 o.
Proof.
  intros Hk Hz. split; [|split; [|split]].
  - intros q Hq. rewrite (Hk q Hq). eexists; reflexivity.
  - eapply Forall_impl; [exact Hz|]. intros [k v] Hv. cbn in Hv. subst v. exact integral_zero.
  - clear Hk. induction Hz as [|[k v] o Hv Ho IH]; cbn [zsum foldr]; [reflexivity|].
    fold (zsum o). cbn in Hv. subst v. rewrite IH. reflexivity.
  - clear Hk. induction Hz as [|[k v] o Hv Ho IH]; cbn [zabs foldr]; [reflexivity|].
    fold (zabs o). cbn in Hv. subst v. cbn [snd to_Z zero]. cbn. lia.
Qed.

Lemma within_cent_zero : within_cent zero = true.
Proof. unfold within_cent. rewrite cent_eq. reflexivity. Qed.

Lemma three_way_total :
  total (numbers (balances ["A"; "B"; "C"]%string three_way)) =
  S754_finite false 4503599627370496 (-55).
Proof. vm_compute. reflexivity. Qed.

(** ** One matching on whole numbers *)

Lemma amount_value_whole (a : number) (za : Z) :
  whole a za -> 0 < za < 2 ^ 46 -> amount_value (toFixed2 a) = a.
Proof.
  intros Ha Hz. rewrite (toFixed2_whole a za Ha Hz). unfold amount_value.
  rewrite hundredths_fixed, Z2N.id by lia.
  apply (whole_inj _ _ za); [|exact Ha].
  apply (div_whole _ _ (100 * za) 100 za); [|exact whole_hundred|lia|reflexivity].
  apply of_Z_whole. change (2 ^ 53) with (128 * 2 ^ 46). lia.
Qed.

Lemma settle_whole (d c : number) (zd zc : Z) :
  whole d zd -> whole c zc -> - 2 ^ 46 < zd < 0 -> 0 < zc < 2 ^ 46 ->
  let a := Math_min (Math_abs d) c in
  let za := Z.min (- zd) zc in
  whole a za /\ whole (add d a) (zd + za) /\ whole (sub c a) (zc - za) /\
  lt (Math_abs (add d a)) cent = (zd + za =? 0) /\
  lt (sub c a) cent = (zc - za =? 0).
Proof.
  intros Hd Hc Hzd Hzc. cbn zeta.
  assert (H53 : 2 ^ 53 = 128 * 2 ^ 46) by reflexivity.
  pose proof (abs_whole d zd Hd) as Habs. replace (Z.abs zd) with (- zd) in Habs by lia.
  pose proof (min_whole _ _ _ _ Habs Hc ltac:(lia) ltac:(lia)) as Ha.
  assert (Hd' : whole (add d (Math_min (Math_abs d) c)) (zd + Z.min (- zd) zc)).
  { apply add_whole; [exact Hd | exact Ha | lia]. }
  assert (Hc' : whole (sub c (Math_min (Math_abs d) c)) (zc - Z.min (- zd) zc)).
  { apply sub_whole; [exact Hc | exact Ha | lia]. }
  split; [exact Ha|]. split; [exact Hd'|]. split; [exact Hc'|].
  rewrite (lt_cent_whole _ _ (abs_whole _ _ Hd')), (lt_cent_whole _ _ Hc').
  split.
  - destruct (Z.ltb_spec (Z.abs (zd + Z.min (- zd) zc)) 1),
      (Z.eqb_spec (zd + Z.min (- zd) zc) 0); try reflexivity; lia.
  - destruct (Z.ltb_spec (zc - Z.min (- zd) zc) 1),
      (Z.eqb_spec (zc - Z.min (- zd) zc) 0); try reflexivity; lia.
Qed.

Lemma matching_whole (d c : number) :
  whole_debt d -> whole_credit c ->
  let a := Math_min (Math_abs d) c in
  (lt (Math_abs (add d a)) cent = false -> whole_debt (add d a)) /\
  (lt (sub c a) cent = false -> whole_credit (sub c a)) /\
  (lt (Math_abs (add d a)) cent = true \/ lt (sub c a) cent = true).
Proof.
  intros (zd & Hd & Hzd) (zc & Hc & Hzc).
  destruct (settle_whole d c zd zc Hd Hc Hzd Hzc) as (Ha & Hd' & Hc' & Hi & Hj). cbn zeta.
  rewrite Hi, Hj. split; [|split].
  - intros E%Z.eqb_neq. exists (zd + Z.min (- zd) zc). split; [exact Hd'|lia].
  - intros E%Z.eqb_neq. exists (zc - Z.min (- zd) zc). split; [exact Hc'|lia].
  - destruct (Z.eqb_spec (zd + Z.min (- zd) zc) 0); [left; reflexivity|].
    right. apply Z.eqb_eq. lia.
Qed.

(** ** Lists under a cursor *)

Lemma cursor_insert {A} (l : list A) (k : nat) (x y : A) (b : bool) :
  l !! k = Some y ->
  drop (if b then S k else k) (<[k:=x]> l) = (if b then [] else [x]) ++ drop (S k) l /\
  take (if b then S k else k) (<[k:=x]> l) = take k l ++ (if b then [x] else []).
Proof.
  intros Hy. pose proof (lookup_lt_Some _ _ _ Hy) as Hk.
  assert (Hlen : length (take k l) = k) by (rewrite length_take; lia).
  rewrite insert_take_drop by exact Hk. destruct b.
  - split.
    + replace (take k l ++ x :: drop (S k) l) with ((take k l ++ [x]) ++ drop (S k) l)
        by (rewrite <- app_assoc; reflexivity).
      rewrite drop_app_length'; [reflexivity|]. rewrite length_app. cbn. lia.
    + replace (take k l ++ x :: drop (S k) l) with ((take k l ++ [x]) ++ drop (S k) l)
        by (rewrite <- app_assoc; reflexivity).
      rewrite take_app_length'; [reflexivity|]. rewrite length_app. cbn. lia.
  - split.
    + rewrite drop_app_length' by lia. reflexivity.
    + rewrite take_app_length' by lia. rewrite app_nil_r. reflexivity.
Qed.

Lemma esum_app (l1 l2 : list Entry.t) : esum (l1 ++ l2) = esum l1 + esum l2.
Proof.
  induction l1 as [|e l1 IH]; cbn [app esum foldr]; [reflexivity|].
  fold (esum (l1 ++ l2)) (esum l1). lia.
Qed.

Lemma esum_whole_credit (l : list Entry.t) :
  Forall (fun e => whole_credit (Entry.amount e)) l -> 0 <= esum l /\ (l <> [] -> 0 < esum l).
Proof.
  induction 1 as [|e l (z & Hw & Hz) Hl [IH1 IH2]]; cbn [esum foldr]; [split; [lia|congruence]|].
  fold (esum l). rewrite (whole_to_Z _ _ Hw). split; [lia|]. intros _. lia.
Qed.

Lemma esum_whole_debt (l : list Entry.t) :
  Forall (fun e => whole_debt (Entry.amount e)) l -> esum l <= 0 /\ (l <> [] -> esum l < 0).
Proof.
  induction 1 as [|e l (z & Hw & Hz) Hl [IH1 IH2]]; cbn [esum foldr]; [split; [lia|congruence]|].
  fold (esum l). rewrite (whole_to_Z _ _ Hw). split; [lia|]. intros _. lia.
Qed.

Lemma esum_perm (l1 l2 : list Entry.t) : l1 ≡ₚ l2 -> esum l1 = esum l2.
Proof.
  induction 1 as [|e l1 l2 _ IH|e1 e2 l|l1 l2 l3 _ IH1 _ IH2]; cbn [esum foldr] in *;
    try fold (esum l1) in *; try fold (esum l2) in *; try fold (esum l) in *; lia.
Qed.

Lemma loop_invariant (I : state -> Prop) :
  (forall st, I st -> running st = true -> I (step st)) ->
  forall fuel st, I st -> I (loop fuel st).
Proof.
  intros Hstep fuel. induction fuel as [|fuel IH]; intros st H; [exact H|].
  cbn [loop]. destruct (running st) eqn:Hrun; [|exact H].
  apply IH, Hstep; assumption.
Qed.

Lemma whole_zero_inv (x : number) : whole x 0 -> x = zero.
Proof. intros [[_ ->]|[H _]]; [reflexivity | lia]. Qed.

Lemma set_keys (o : object) (k : string) (v : number) :
  is_Some (get o k) -> map fst (set o k v) = map fst o.
Proof.
  induction o as [|[k0 v0] o IH]; cbn [get set]; [intros [? [=]]|].
  destruct (decide (k0 = k)); [reflexivity|]. intros H. cbn [map fst]. rewrite IH by exact H.
  reflexivity.
Qed.

(** One execution of the loop body, on whole numbers. *)
Lemma step_exact (st : state) :
  ahead whole_debt whole_credit st -> running st = true ->
  exists debtor creditor zd zc a d' c',
    debtors st !! i st = Some debtor /\ creditors st !! j st = Some creditor /\
    whole (Entry.amount debtor) zd /\ whole (Entry.amount creditor) zc /\
    - 2 ^ 46 < zd < 0 /\ 0 < zc < 2 ^ 46 /\
    whole a (Z.min (- zd) zc) /\ whole d' (zd + Z.min (- zd) zc) /\
    whole c' (zc - Z.min (- zd) zc) /\
    amount_value (toFixed2 a) = a /\
    d' = add (Entry.amount debtor) a /\ c' = sub (Entry.amount creditor) a /\
    step st =
      {| debtors := <[i st := Entry.Build_t (Entry.person debtor) d']> (debtors st);
         creditors := <[j st := Entry.Build_t (Entry.person creditor) c']> (creditors st);
         i := if zd + Z.min (- zd) zc =? 0 then S (i st) else i st;
         j := if zc - Z.min (- zd) zc =? 0 then S (j st) else j st;
         transactions :=
           transactions st ++
             [Transaction.Build_t (Entry.person debtor) (Entry.person creditor) (toFixed2 a)] |}.
Proof.
  intros [Had Hac] Hrun.
  destruct (step_eq st Hrun) as (debtor & creditor & Hd & Hc & Hstep). cbn zeta in Hstep.
  assert (HPd : whole_debt (Entry.amount debtor)).
  { rewrite Forall_lookup in Had. apply (Had 0%nat). rewrite lookup_drop, Nat.add_0_r. exact Hd. }
  assert (HPc : whole_credit (Entry.amount creditor)).
  { rewrite Forall_lookup in Hac. apply (Hac 0%nat). rewrite lookup_drop, Nat.add_0_r. exact Hc. }
  destruct HPd as (zd & Hwd & Hzd). destruct HPc as (zc & Hwc & Hzc).
  destruct (settle_whole _ _ zd zc Hwd Hwc Hzd Hzc) as (Ha & Hd' & Hc' & Hi & Hj).
  cbn zeta in Ha, Hd', Hc', Hi, Hj.
  exists debtor, creditor, zd, zc.
  exists (Math_min (Math_abs (Entry.amount debtor)) (Entry.amount creditor)).
  exists (add (Entry.amount debtor) (Math_min (Math_abs (Entry.amount debtor)) (Entry.amount creditor))).
  exists (sub (Entry.amount creditor) (Math_min (Math_abs (Entry.amount debtor)) (Entry.amount creditor))).
  repeat (split; [assumption|]).
  split; [apply (amount_value_whole _ _ Ha); lia|].
  split; [reflexivity|]. split; [reflexivity|].
  rewrite Hstep, Hi, Hj. reflexivity.
Qed.

Lemma pay_agrees (S : object) (pd pc : string) (a d c : number) :
  pd <> pc -> get S pd = Some d -> get S pc = Some c -> amount_value (toFixed2 a) = a ->
  pay S (Transaction.Build_t pd pc (toFixed2 a)) = set (set S pd (add d a)) pc (sub c a).
Proof.
  intros Hne Hd Hc Ha. unfold pay. cbn [Transaction.from Transaction.to Transaction.amount].
  cbn zeta. rewrite Ha, Hd. cbn [to_number].
  rewrite (get_set_ne _ _ _ _ Hne), Hc. reflexivity.
Qed.

Lemma persons_lookup (l : list Entry.t) (k : nat) (e : Entry.t) :
  l !! k = Some e -> persons l !! k = Some (Entry.person e).
Proof.
  intros H. unfold persons. change (map Entry.person) with (fmap (M:=list) Entry.person).
  rewrite list_lookup_fmap, H. reflexivity.
Qed.

Lemma elem_of_persons (l : list Entry.t) (e : Entry.t) : e ∈ l -> Entry.person e ∈ persons l.
Proof.
  intros H. unfold persons. change (map Entry.person) with (fmap (M:=list) Entry.person).
  apply list_elem_of_fmap. exists e. split; [reflexivity|exact H].
Qed.

(** An entry of the array after the assignment is the new one, or an old
    one of another person. *)
Lemma elem_of_insert_entry (l : list Entry.t) (k : nat) (old : Entry.t) (x : number) (e : Entry.t) :
  NoDup (persons l) -> l !! k = Some old ->
  e ∈ <[k := Entry.Build_t (Entry.person old) x]> l ->
  e = Entry.Build_t (Entry.person old) x \/ (e ∈ l /\ Entry.person e <> Entry.person old).
Proof.
  intros Hnd Hold [n Hn]%list_elem_of_lookup.
  apply list_lookup_insert_Some in Hn as [(_ & <- & _)|[Hne Hn]]; [left; reflexivity|].
  right. split; [apply (list_elem_of_lookup_2 _ _ _ Hn)|].
  intros E. apply Hne. apply (NoDup_lookup _ _ _ (Entry.person old) Hnd).
  - apply persons_lookup, Hold.
  - rewrite <- E. apply persons_lookup, Hn.
Qed.

Lemma sum_amounts_snoc (txs : list Transaction.t) (tx : Transaction.t) :
  sum_amounts (txs ++ [tx]) = add (sum_amounts txs) (amount_value (Transaction.amount tx)).
Proof. unfold sum_amounts. rewrite fold_left_app. reflexivity. Qed.

Lemma settle_all_snoc (o : object) (txs : list Transaction.t) (tx : Transaction.t) :
  settle_all o (txs ++ [tx]) = pay (settle_all o txs) tx.
Proof. unfold settle_all. rewrite fold_left_app. reflexivity. Qed.

Lemma exact_matching_step (o : object) (S0 C0 : Z) (st : state) :
  exact_matching o S0 C0 st -> running st = true -> exact_matching o S0 C0 (step st).
Proof.
  intros (Hahead & [Hpd Hpc] & Hnd & Hsum & Hpaid & Hkeys & Hag) Hrun.
  pose proof (step_ahead _ _ matching_whole st Hahead Hrun) as (Hahead' & _ & _).
  destruct (step_exact st Hahead Hrun)
    as (debtor & creditor & zd & zc & a & d' & c' & Hd & Hc & Hwd & Hwc & Hzd & Hzc &
        Ha & Hd' & Hc' & Hval & Ed' & Ec' & Hstep).
  set (za := Z.min (- zd) zc) in *.
  apply NoDup_app in Hnd as (Hndd & Hdisj & Hndc).
  assert (Hin_d : debtor ∈ debtors st) by exact (list_elem_of_lookup_2 _ _ _ Hd).
  assert (Hin_c : creditor ∈ creditors st) by exact (list_elem_of_lookup_2 _ _ _ Hc).
  assert (Hne : Entry.person debtor <> Entry.person creditor).
  { intros E. apply (Hdisj (Entry.person debtor)); [apply elem_of_persons, Hin_d|].
    rewrite E. apply elem_of_persons, Hin_c. }
  destruct Hag as (Hagd & Hagc & Hago).
  (* the entries ahead, before and after *)
  destruct (cursor_insert (debtors st) (i st) (Entry.Build_t (Entry.person debtor) d') debtor
              (zd + za =? 0) Hd) as [Hdrop_d Htake_d].
  destruct (cursor_insert (creditors st) (j st) (Entry.Build_t (Entry.person creditor) c') creditor
              (zc - za =? 0) Hc) as [Hdrop_c Htake_c].
  pose proof (drop_S _ _ _ Hd) as Hcur_d. pose proof (drop_S _ _ _ Hc) as Hcur_c.
  assert (Hesum_d : esum (drop (if zd + za =? 0 then S (i st) else i st)
                            (<[i st := Entry.Build_t (Entry.person debtor) d']> (debtors st))) =
                    esum (drop (i st) (debtors st)) + za).
  { rewrite Hdrop_d, Hcur_d, esum_app. cbn [esum foldr]. fold (esum (drop (S (i st)) (debtors st))).
    rewrite (whole_to_Z _ _ Hwd).
    destruct (Z.eqb_spec (zd + za) 0); cbn [esum foldr Entry.amount];
      [|rewrite (whole_to_Z _ _ Hd')]; lia. }
  assert (Hesum_c : esum (drop (if zc - za =? 0 then S (j st) else j st)
                            (<[j st := Entry.Build_t (Entry.person creditor) c']> (creditors st))) =
                    esum (drop (j st) (creditors st)) - za).
  { rewrite Hdrop_c, Hcur_c, esum_app. cbn [esum foldr]. fold (esum (drop (S (j st)) (creditors st))).
    rewrite (whole_to_Z _ _ Hwc).
    destruct (Z.eqb_spec (zc - za) 0); cbn [esum foldr Entry.amount];
      [|rewrite (whole_to_Z _ _ Hc')]; lia. }
  assert (Htail : 0 <= esum (drop (S (j st)) (creditors st))).
  { destruct Hahead as [_ Hac]. rewrite Hcur_c in Hac. apply Forall_cons in Hac as [_ Hac].
    apply (esum_whole_credit _ Hac). }
  assert (Hhead : esum (drop (j st) (creditors st)) = zc + esum (drop (S (j st)) (creditors st))).
  { rewrite Hcur_c. cbn [esum foldr]. rewrite (whole_to_Z _ _ Hwc). reflexivity. }
  (* the payment on the balances *)
  assert (Hpay : settle_all o (transactions st ++
                   [Transaction.Build_t (Entry.person debtor) (Entry.person creditor) (toFixed2 a)]) =
                 set (set (settle_all o (transactions st)) (Entry.person debtor) d')
                   (Entry.person creditor) c').
  { rewrite settle_all_snoc, Ed', Ec'.
    apply pay_agrees; [exact Hne | apply Hagd, Hin_d | apply Hagc, Hin_c | exact Hval]. }
  rewrite Hstep. unfold exact_matching, passed, agrees.
  rewrite Hstep in Hahead'.
  cbn [debtors creditors i j transactions] in *.
  split; [exact Hahead'|].
  split; [split|].
  { rewrite Htake_d. apply Forall_app. split; [exact Hpd|].
    destruct (Z.eqb_spec (zd + za) 0) as [E|E]; [|constructor].
    constructor; [|constructor]. cbn [Entry.amount]. apply whole_zero_inv. rewrite <- E. exact Hd'. }
  { rewrite Htake_c. apply Forall_app. split; [exact Hpc|].
    destruct (Z.eqb_spec (zc - za) 0) as [E|E]; [|constructor].
    constructor; [|constructor]. cbn [Entry.amount]. apply whole_zero_inv. rewrite <- E. exact Hc'. }
  rewrite (persons_insert _ _ _ _ Hd), (persons_insert _ _ _ _ Hc).
  split; [apply NoDup_app; repeat split; assumption|].
  split; [rewrite Hesum_d, Hesum_c; lia|].
  split.
  { intros HC0. destruct (Hpaid HC0) as (P & HP & HP0 & HPC).
    exists (P + za). rewrite sum_amounts_snoc. cbn [Transaction.amount]. rewrite Hval, Hesum_c.
    split; [|lia]. apply add_whole; [exact HP | exact Ha | lia]. }
  rewrite Hpay. split.
  { rewrite !set_keys; [exact Hkeys | |].
    - rewrite (Hagd _ Hin_d). eexists; reflexivity.
    - rewrite get_set_ne by exact Hne. rewrite (Hagc _ Hin_c). eexists; reflexivity. }
  split; [|split].
  - intros e He.
    destruct (elem_of_insert_entry _ _ _ _ _ Hndd Hd He) as [->|[Hin Hp]]; cbn [Entry.person Entry.amount].
    + rewrite get_set_ne by congruence. apply get_set_eq.
    + rewrite !get_set_ne; [apply Hagd, Hin | congruence |].
      intros E. apply (Hdisj (Entry.person e)); [apply elem_of_persons, Hin|].
      rewrite <- E. apply elem_of_persons, Hin_c.
  - intros e He.
    destruct (elem_of_insert_entry _ _ _ _ _ Hndc Hc He) as [->|[Hin Hp]]; cbn [Entry.person Entry.amount].
    + apply get_set_eq.
    + rewrite !get_set_ne; [apply Hagc, Hin | | congruence].
      intros E. apply (Hdisj (Entry.person debtor)); [apply elem_of_persons, Hin_d|].
      rewrite E. apply elem_of_persons, Hin.
  - intros p v Hget Hnd_p Hnc_p.
    assert (Hp1 : Entry.person debtor <> p).
    { intros <-. apply Hnd_p, elem_of_persons, Hin_d. }
    assert (Hp2 : Entry.person creditor <> p).
    { intros <-. apply Hnc_p, elem_of_persons, Hin_c. }
    rewrite !get_set_ne in Hget by assumption.
    exact (Hago p v Hget Hnd_p Hnc_p).
Qed.

Lemma exact_matching_loop (o : object) (S0 C0 : Z) (fuel : nat) (st : state) :
  exact_matching o S0 C0 st -> exact_matching o S0 C0 (loop fuel st).
Proof.
  apply (loop_invariant (exact_matching o S0 C0)).
  intros st' H Hrun. apply exact_matching_step; assumption.
Qed.

Lemma listed_whole (p : string) (v : number) :
  whole_balance v ->
  listed_debtor (p, v) = (if to_Z v <? 0 then Some (Entry.Build_t p v) else None) /\
  listed_creditor (p, v) = (if 0 <? to_Z v then Some (Entry.Build_t p v) else None).
Proof.
  intros [Hw Hb]. unfold listed_debtor, listed_creditor. cbn [fst snd]. cbn zeta.
  rewrite (rounded_whole v _ Hw Hb), (lt_whole_neg_cent v _ Hw), (lt_whole_cent v _ Hw).
  split; reflexivity.
Qed.

Lemma get_elem_of (o : object) (p : string) (v : number) : get o p = Some v -> (p, v) ∈ o.
Proof.
  induction o as [|[k w] o IH]; cbn [get]; [discriminate|].
  destruct (decide (k = p)) as [->|Hne].
  - intros [= ->]. left.
  - intros H. right. apply IH, H.
Qed.

Lemma elem_of_get (o : object) (p : string) (v : number) :
  NoDup (map fst o) -> (p, v) ∈ o -> get o p = Some v.
Proof.
  intros Hnd Hin. destruct (get o p) as [w|] eqn:E.
  - f_equal. apply (NoDup_fst_agree o p w v Hnd); [apply get_elem_of, E | exact Hin].
  - exfalso. clear Hnd. induction o as [|[k w] o IH]; [inversion Hin|].
    cbn [get] in E. destruct (decide (k = p)) as [->|Hne]; [discriminate|].
    apply elem_of_cons in Hin as [[= -> ->]|Hin]; [congruence | exact (IH Hin E)].
Qed.

Lemma elem_of_listed_debtor (o : object) (e : Entry.t) :
  Forall (fun entry => whole_balance entry.2) o -> e ∈ omap listed_debtor o ->
  (Entry.person e, Entry.amount e) ∈ o /\ to_Z (Entry.amount e) < 0 /\
  whole_balance (Entry.amount e).
Proof.
  intros Ho He. apply list_elem_of_omap in He as ([p v] & Hin & Hl).
  rewrite Forall_forall in Ho. pose proof (Ho _ Hin) as Hv. cbn [snd] in Hv.
  rewrite (proj1 (listed_whole p v Hv)) in Hl.
  destruct (Z.ltb_spec (to_Z v) 0); [|discriminate]. injection Hl as <-.
  cbn [Entry.person Entry.amount]. repeat split; try assumption; apply Hv.
Qed.

Lemma elem_of_listed_creditor (o : object) (e : Entry.t) :
  Forall (fun entry => whole_balance entry.2) o -> e ∈ omap listed_creditor o ->
  (Entry.person e, Entry.amount e) ∈ o /\ 0 < to_Z (Entry.amount e) /\
  whole_balance (Entry.amount e).
Proof.
  intros Ho He. apply list_elem_of_omap in He as ([p v] & Hin & Hl).
  rewrite Forall_forall in Ho. pose proof (Ho _ Hin) as Hv. cbn [snd] in Hv.
  rewrite (proj2 (listed_whole p v Hv)) in Hl.
  destruct (Z.ltb_spec 0 (to_Z v)); [|discriminate]. injection Hl as <-.
  cbn [Entry.person Entry.amount]. repeat split; try assumption; apply Hv.
Qed.

Lemma omap_cons {A B} (f : A -> option B) (x : A) (l : list A) :
  omap f (x :: l) = match f x with Some y => y :: omap f l | None => omap f l end.
Proof. reflexivity. Qed.

(** What the two arrays hold at the start, in whole numbers. *)
Lemma listed_sums (o : object) :
  Forall (fun entry => whole_balance entry.2) o ->
  esum (omap listed_debtor o) + esum (omap listed_creditor o) = zsum o /\
  esum (omap listed_creditor o) = zcredit o /\
  (length (omap listed_debtor o) + length (omap listed_creditor o) <= length o)%nat.
Proof.
  induction 1 as [|[p v] o Hv Ho (IH1 & IH2 & IH3)]; [repeat split; reflexivity|].
  cbn [snd] in Hv. destruct (listed_whole p v Hv) as [Ed Ec].
  rewrite !omap_cons, Ed, Ec. cbn [zsum zcredit foldr snd length].
  fold (zsum o) (zcredit o).
  destruct (Z.ltb_spec (to_Z v) 0), (Z.ltb_spec 0 (to_Z v));
    cbn [esum foldr Entry.amount length];
    fold (esum (omap listed_debtor o)) (esum (omap listed_creditor o));
    repeat split; lia.
Qed.

Lemma listed_persons (o : object) :
  Forall (fun entry => whole_balance entry.2) o -> NoDup (map fst o) ->
  NoDup (persons (omap listed_debtor o) ++ persons (omap listed_creditor o)).
Proof.
  intros Ho Hnd. induction Ho as [|[p v] o Hv Ho IH]; [constructor|].
  cbn [map fst] in Hnd. apply NoDup_cons in Hnd as [Hp Hnd]. specialize (IH Hnd).
  assert (Hfresh : p ∉ persons (omap listed_debtor o) ++ persons (omap listed_creditor o)).
  { intros Hin. apply Hp. apply elem_of_app in Hin as [Hin|Hin].
    - apply elem_of_omap_listed_debtor in Hin as (b & Hb & _).
      change (map fst o) with (fmap (M:=list) fst o). apply list_elem_of_fmap. exists (p, b). split; [reflexivity|exact Hb].
    - apply elem_of_omap_listed_creditor in Hin as (b & Hb & _).
      change (map fst o) with (fmap (M:=list) fst o). apply list_elem_of_fmap. exists (p, b). split; [reflexivity|exact Hb]. }
  cbn [snd] in Hv. destruct (listed_whole p v Hv) as [Ed Ec].
  rewrite !omap_cons, Ed, Ec.
  destruct (Z.ltb_spec (to_Z v) 0), (Z.ltb_spec 0 (to_Z v)); try lia.
  - cbn [persons map Entry.person app]. fold (persons (omap listed_debtor o)).
    apply NoDup_cons. split; assumption.
  - cbn [persons map Entry.person]. fold (persons (omap listed_creditor o)).
    rewrite <- Permutation_middle. apply NoDup_cons. split; assumption.
  - exact IH.
Qed.

Lemma persons_perm (l1 l2 : list Entry.t) : l1 ≡ₚ l2 -> persons l1 ≡ₚ persons l2.
Proof. intros H. unfold persons. apply Permutation_map, H. Qed.

Lemma exact_matching_start (o : object) :
  NoDup (map fst o) -> Forall (fun entry => whole_balance entry.2) o ->
  exact_matching o (zsum o) (zcredit o) (start o).
Proof.
  intros Hnd Ho. destruct (listed_sums o Ho) as (Hs & Hc & _).
  rewrite start_eq. unfold exact_matching, passed, agrees, ahead.
  cbn [debtors creditors i j transactions]. rewrite !drop_0, !take_0.
  split; [split|].
  { rewrite sort_perm. apply Forall_forall. intros e He.
    destruct (elem_of_listed_debtor o e Ho He) as (_ & Hz & [Hw Hb]).
    exists (to_Z (Entry.amount e)). split; [exact Hw | lia]. }
  { rewrite sort_perm. apply Forall_forall. intros e He.
    destruct (elem_of_listed_creditor o e Ho He) as (_ & Hz & [Hw Hb]).
    exists (to_Z (Entry.amount e)). split; [exact Hw | lia]. }
  split; [split; constructor|].
  split.
  { rewrite (persons_perm _ _ (sort_perm ascending _)), (persons_perm _ _ (sort_perm descending _)).
    apply listed_persons; assumption. }
  split.
  { rewrite (esum_perm _ _ (sort_perm ascending _)), (esum_perm _ _ (sort_perm descending _)).
    exact Hs. }
  split.
  { intros _. exists 0. split; [left; split; reflexivity|]. split; [lia|].
    rewrite (esum_perm _ _ (sort_perm descending _)). lia. }
  split; [reflexivity|].
  cbn [settle_all fold_left].
  split; [|split].
  - intros e He. rewrite sort_perm in He.
    destruct (elem_of_listed_debtor o e Ho He) as (Hin & _). apply elem_of_get; assumption.
  - intros e He. rewrite sort_perm in He.
    destruct (elem_of_listed_creditor o e Ho He) as (Hin & _). apply elem_of_get; assumption.
  - intros p v Hget Hnd_p Hnc_p.
    rewrite (persons_perm _ _ (sort_perm ascending _)) in Hnd_p.
    rewrite (persons_perm _ _ (sort_perm descending _)) in Hnc_p.
    apply get_elem_of in Hget. rewrite Forall_forall in Ho. pose proof (Ho _ Hget) as Hv.
    cbn [snd] in Hv. destruct (listed_whole p v Hv) as [Ed Ec]. destruct Hv as [Hw Hb].
    destruct (Z.ltb_spec (to_Z v) 0) as [Hneg|Hnn].
    { exfalso. apply Hnd_p.
      apply (elem_of_persons _ (Entry.Build_t p v)).
      apply list_elem_of_omap. exists (p, v). split; assumption. }
    destruct (Z.ltb_spec 0 (to_Z v)) as [Hpos|Hnp].
    { exfalso. apply Hnc_p.
      apply (elem_of_persons _ (Entry.Build_t p v)).
      apply list_elem_of_omap. exists (p, v). split; assumption. }
    apply whole_zero_inv. replace 0 with (to_Z v) by lia. exact Hw.
Qed.

Lemma whole_finite (x : number) (z : Z) : whole x z -> infinite x = false.
Proof. intros [[_ ->]|(_ & m & e & -> & _)]; reflexivity. Qed.

(** On whole balances the loop is over within as many executions of its
    body as there are balances. *)
Lemma whole_returns (o : object) (fuel : nat) :
  Forall (fun entry => whole_balance entry.2) o -> (length o <= fuel)%nat ->
  running (loop fuel (start o)) = false /\
  calculateSettlements fuel o = Some (transactions (loop fuel (start o))).
Proof.
  intros Ho Hfuel.
  assert (Hfin : Forall (fun entry => infinite (rounded entry.2) = false) o).
  { eapply Forall_impl; [exact Ho|]. intros [p v] [Hw Hb]. cbn [snd] in *.
    rewrite (rounded_whole v _ Hw Hb). exact (whole_finite v _ Hw). }
  destruct (listed_sums o Ho) as (_ & _ & Hlen).
  destruct (loop_finished o fuel Hfin) as [Hrun _].
  rewrite separate_omap in Hrun. cbn [fst snd] in Hrun. specialize (Hrun ltac:(lia)).
  unfold calculateSettlements. cbn zeta. rewrite Hrun. split; reflexivity.
Qed.

(** When the loop is over and no debt was left uncovered, no credit is
    left; with debts and credits in balance, no debt is left either. *)
Lemma exact_matching_final (o : object) (S0 C0 : Z) (st : state) :
  exact_matching o S0 C0 st -> running st = false -> S0 <= 0 ->
  drop (j st) (creditors st) = [] /\ (S0 = 0 -> drop (i st) (debtors st) = []).
Proof.
  intros ([Had Hac] & _ & _ & Hsum & _) Hrun HS0.
  pose proof (esum_whole_debt _ Had) as [Hd1 Hd2].
  pose proof (esum_whole_credit _ Hac) as [Hc1 Hc2].
  apply running_false in Hrun.
  assert (Hc : drop (j st) (creditors st) = []).
  { destruct (drop (j st) (creditors st)) as [|c l] eqn:E; [reflexivity|].
    exfalso. specialize (Hc2 ltac:(discriminate)).
    destruct Hrun as [Hi|Hj].
    - rewrite (drop_ge _ _ Hi) in Hsum. change (esum []) with 0 in Hsum. lia.
    - rewrite (drop_ge _ _ Hj) in E. discriminate. }
  split; [exact Hc|]. intros ->.
  destruct (drop (i st) (debtors st)) as [|d l] eqn:E; [reflexivity|].
  exfalso. specialize (Hd2 ltac:(discriminate)). rewrite Hc in Hsum.
  change (esum []) with 0 in Hsum. lia.
Qed.

Lemma drop_nil_take {A} (l : list A) (k : nat) : drop k l = [] -> take k l = l.
Proof.
  intros H. rewrite <- (take_drop k l) at 2. rewrite H, app_nil_r. reflexivity.
Qed.

Lemma elem_of_persons_inv (l : list Entry.t) (p : string) :
  p ∈ persons l -> exists e, e ∈ l /\ Entry.person e = p.
Proof.
  unfold persons. change (map Entry.person) with (fmap (M:=list) Entry.person).
  intros (e & -> & He)%list_elem_of_fmap. exists e. split; [exact He|reflexivity].
Qed.

Lemma exact_matching_settled (o : object) (C0 : Z) (st : state) :
  NoDup (map fst o) -> exact_matching o 0 C0 st -> running st = false ->
  Forall (fun entry => entry.2 = zero) (settle_all o (transactions st)).
Proof.
  intros Hnd Hex Hrun.
  destruct (exact_matching_final o 0 C0 st Hex Hrun ltac:(lia)) as [Hc Hd].
  specialize (Hd eq_refl).
  destruct Hex as (_ & [Hpd Hpc] & _ & _ & _ & Hkeys & Hagd & Hagc & Hago).
  rewrite (drop_nil_take _ _ Hd) in Hpd. rewrite (drop_nil_take _ _ Hc) in Hpc.
  rewrite Forall_forall in Hpd, Hpc.
  apply Forall_forall. intros [p v] Hin. cbn [snd].
  assert (Hget : get (settle_all o (transactions st)) p = Some v).
  { apply elem_of_get; [rewrite Hkeys; exact Hnd | exact Hin]. }
  destruct (decide (p ∈ persons (debtors st))) as [Hp|Hp].
  { apply elem_of_persons_inv in Hp as (e & He & <-).
    rewrite (Hagd e He) in Hget. injection Hget as <-. apply Hpd, He. }
  destruct (decide (p ∈ persons (creditors st))) as [Hq|Hq].
  { apply elem_of_persons_inv in Hq as (e & He & <-).
    rewrite (Hagc e He) in Hget. injection Hget as <-. apply Hpc, He. }
  exact (Hago p v Hget Hp Hq).
Qed.

Lemma max_zero_whole (v : number) (z : Z) : whole v z -> whole (Math_max v zero) (Z.max z 0).
Proof.
  intros [[-> ->]|(Hn & m & e & -> & Hb & He & Hm)]; [left; split; reflexivity|].
  destruct (Z.ltb_spec z 0) as [Hneg|Hpos].
  - replace (Z.max z 0) with 0 by lia. left. split; reflexivity.
  - replace (Z.max z 0) with z by lia. right. split; [exact Hn|].
    exists m, e. cbn [Math_max SFcompare zero]. destruct (Z.ltb_spec z 0); [lia|].
    repeat split; assumption.
Qed.

Lemma zcredit_nonneg (o : object) : 0 <= zcredit o.
Proof. induction o as [|[k v] o IH]; cbn [zcredit foldr] in *; [lia|]. fold (zcredit o). lia. Qed.

Lemma total_credit_whole (o : object) :
  Forall (fun entry => whole_balance entry.2) o -> zcredit o < 2 ^ 53 ->
  whole (total_credit o) (zcredit o).
Proof.
  intros Ho Hb. unfold total_credit.
  enough (H : forall acc a, whole acc a -> 0 <= a -> a + zcredit o < 2 ^ 53 ->
            whole (fold_left (fun acc entry => add acc (Math_max entry.2 zero)) o acc)
              (a + zcredit o)).
  { apply (H zero 0); [left; split; reflexivity | lia | lia]. }
  clear Hb. induction Ho as [|[p v] o [Hv _] Ho IH]; intros acc a Hacc Ha Hb.
  - cbn [fold_left zcredit foldr]. rewrite Z.add_0_r. exact Hacc.
  - cbn [fold_left zcredit foldr snd] in *. fold (zcredit o) in *.
    pose proof (zcredit_nonneg o).
    replace (a + (Z.max (to_Z v) 0 + zcredit o)) with ((a + Z.max (to_Z v) 0) + zcredit o) by lia.
    apply IH; [|lia|lia]. apply add_whole; [exact Hacc | apply max_zero_whole, Hv | lia].
Qed.

Lemma lone_creditor_returns (fuel : nat) : calculateSettlements fuel lone_creditor = Some [].
Proof. destruct fuel; vm_compute; reflexivity. Qed.

End Exact.

(** * Rounding

    Off whole numbers the operations round.  Each result is within one unit
    in the last place of the exact one, and the sum of the balances stays
    within as many units of zero as there were operations. *)

Module Rounding.
Import Js App Entries Format Loop Spec Examples Binary64 Matching Settlement Balances Exact.
Local Open Scope Z_scope.

(** ** Rounding errors *)

Lemma cond_Zopp_0 (s : bool) : cond_Zopp s 0 = 0.
Proof. destruct s; reflexivity. Qed.

Lemma abs_cond_Zopp (s : bool) (z : Z) : Z.abs (cond_Zopp s z) = Z.abs z.
Proof. destruct s; cbn [cond_Zopp]; lia. Qed.

(** [binary_round_aux] returns one of the two neighbours of its argument at
    the exponent the format prescribes. *)
Lemma round_aux_value (sx : bool) (mx ex : Z) (lx : location) :
  0 <= mx -> ex <= fexp (Zdigits2 mx + ex) -> Zdigits2 mx + ex <= 1000 ->
  let e1 := fexp (Zdigits2 mx + ex) in
  let m1 := mx / 2 ^ (e1 - ex) in
  exists m2 : Z,
    (m2 = m1 \/ m2 = m1 + 1) /\
    fin (binary_round_aux 53 1024 sx mx ex lx) /\
    sv (binary_round_aux 53 1024 sx mx ex lx) = cond_Zopp sx (m2 * 2 ^ (e1 + 1074)).
Proof.
  intros Hm He Hd e1 m1.
  destruct (round_aux_spec sx mx ex lx Hm He) as (m2 & Hcases & _ & Hres).
  fold e1 in Hres, Hcases. fold m1 in Hcases |- *.
  exists m2. split; [exact Hcases|].
  destruct Hres as [[-> ->]|(m3 & e3 & Hc & He3 & Hle & Hm3 & ->)].
  - split; [exact I|]. cbn [sv]. rewrite Z.mul_0_l, cond_Zopp_0. reflexivity.
  - assert (He1 : - 1074 <= e1 <= 947) by (subst e1; rewrite fexp_eq; lia).
    assert (HK : 0 <= e1 - ex) by lia.
    assert (Hm1 : 0 <= m1 < 2 ^ 53).
    { subst m1. pose proof (pow2_pos (e1 - ex) HK) as Hp. split; [apply Z.div_pos; lia|].
      apply Z.div_lt_upper_bound; [lia|].
      destruct mx as [|p|p]; [nia| |lia].
      pose proof (digits2_pos_bounds p) as [_ Hhi]. cbn [Zdigits2] in *.
      rewrite <- Z.pow_add_r by lia.
      assert (Zpos (digits2_pos p) <= e1 - ex + 53) by (subst e1; rewrite fexp_eq; lia).
      pose proof (pow2_le (Zpos (digits2_pos p)) (e1 - ex + 53) ltac:(lia)). lia. }
    assert (Hm2 : 0 < m2 <= 2 ^ 53).
    { pose proof (pow2_pos (e3 - e1) ltac:(lia)). split; [nia|lia]. }
    assert (Hd2 : Zdigits2 m2 <= 54).
    { destruct m2 as [|p|p]; [lia| |lia]. cbn [Zdigits2].
      apply digits2_pos_le; [lia|]. change (2 ^ 54) with (2 * 2 ^ 53). lia. }
    assert (He3' : e3 <= 971) by (rewrite He3, fexp_eq; lia).
    destruct (Z.leb_spec e3 971); [|lia].
    split.
    + cbn [fin]. apply bounded_iff. split; [apply canonical_iff; exact Hc | exact He3'].
    + cbn [sv]. f_equal. rewrite <- Hm3.
      replace (e3 + 1074) with ((e3 - e1) + (e1 + 1074)) by lia.
      rewrite Z.pow_add_r by lia. lia.
Qed.

(** The error of [binary_normalize] on a value below [2^E]: less than one
    unit in the last place. *)
Lemma normalize_error (z e E : Z) :
  - 1074 <= e -> - 1021 <= E <= 1000 -> Z.abs z * 2 ^ (e + 1074) < 2 ^ (E + 1074) ->
  fin (binary_normalize 53 1024 z e false) /\
  Z.abs (sv (binary_normalize 53 1024 z e false) - z * 2 ^ (e + 1074)) <= 2 ^ (E + 1021).
Proof.
  intros He HE Hlt.
  destruct (Z.eq_dec z 0) as [->|Hz].
  { cbn. split; [exact I|]. pose proof (pow2_pos (E + 1021) ltac:(lia)). lia. }
  rewrite binary_normalize_nonzero by exact Hz.
  set (mx := Z.to_pos (Z.abs z)).
  assert (Hmx : Zpos mx = Z.abs z) by (subst mx; rewrite Z2Pos.id; lia).
  unfold binary_round.
  pose proof (shl_align_spec mx e (fexp (Zpos (digits2_pos mx) + e))) as Hal.
  destruct (shl_align mx e (fexp (Zpos (digits2_pos mx) + e))) as [mz ez].
  destruct Hal as [Hez Hmz].
  pose proof (pow2_pos (e + 1074) ltac:(lia)) as Hpe.
  assert (HeE : e < E).
  { destruct (Z_lt_le_dec e E); [assumption|].
    pose proof (pow2_le (E + 1074) (e + 1074) ltac:(lia)). nia. }
  assert (Hdx : Zpos (digits2_pos mx) + e <= E).
  { assert (Zpos mx < 2 ^ (E - e)).
    { replace (E + 1074) with ((E - e) + (e + 1074)) in Hlt by lia.
      rewrite (Z.pow_add_r 2 (E - e) (e + 1074)) in Hlt by lia. rewrite Hmx.
      apply (Z.mul_lt_mono_pos_r (2 ^ (e + 1074))); [exact Hpe | exact Hlt]. }
    pose proof (digits2_pos_le mx (E - e) ltac:(lia) H). lia. }
  assert (Hez' : - 1074 <= ez <= e) by (rewrite Hez, fexp_eq; lia).
  assert (Hdz : Zpos (digits2_pos mz) + ez = Zpos (digits2_pos mx) + e).
  { rewrite (digits2_pos_shift mx mz (e - ez)) by (assumption || lia). lia. }
  assert (Hpre : ez <= fexp (Zdigits2 (Zpos mz) + ez)).
  { cbn [Zdigits2]. rewrite Hdz, Hez. lia. }
  destruct (round_aux_value (z <? 0) (Zpos mz) ez loc_Exact ltac:(lia) Hpre
              ltac:(cbn [Zdigits2]; lia)) as (m2 & Hcases & Hfin & Hsv).
  cbn zeta in Hcases, Hsv. cbn [Zdigits2] in Hcases, Hsv. rewrite Hdz in Hcases, Hsv.
  set (e1 := fexp (Zpos (digits2_pos mx) + e)) in *.
  split; [exact Hfin|]. rewrite Hsv.
  assert (He1 : ez <= e1 <= E - 53 /\ - 1074 <= e1) by (subst e1; rewrite fexp_eq; rewrite fexp_eq in Hez; lia).
  pose proof (pow2_pos (e1 - ez) ltac:(lia)) as HpK.
  pose proof (pow2_pos (ez + 1074) ltac:(lia)) as Hpz.
  assert (Hdiv : Zpos mz / 2 ^ (e1 - ez) * 2 ^ (e1 - ez) <= Zpos mz <
                 (Zpos mz / 2 ^ (e1 - ez) + 1) * 2 ^ (e1 - ez)).
  { pose proof (Z.mul_div_le (Zpos mz) (2 ^ (e1 - ez)) HpK).
    pose proof (Z.mul_succ_div_gt (Zpos mz) (2 ^ (e1 - ez)) HpK). lia. }
  set (m1 := Zpos mz / 2 ^ (e1 - ez)) in *.
  assert (Hexact : Z.abs z * 2 ^ (e + 1074) = Zpos mz * 2 ^ (ez + 1074)).
  { rewrite Hmz, Hmx. replace (e + 1074) with ((e - ez) + (ez + 1074)) by lia.
    rewrite Z.pow_add_r by lia. lia. }
  assert (Hunit : 2 ^ (e1 + 1074) = 2 ^ (e1 - ez) * 2 ^ (ez + 1074)).
  { rewrite <- Z.pow_add_r by lia. f_equal. lia. }
  assert (Hulp : 2 ^ (e1 + 1074) <= 2 ^ (E + 1021)) by (apply pow2_le; lia).
  assert (Hbox : m1 * 2 ^ (e1 + 1074) <= Z.abs z * 2 ^ (e + 1074) < (m1 + 1) * 2 ^ (e1 + 1074)).
  { rewrite Hexact, Hunit. nia. }
  assert (Hm2 : m2 * 2 ^ (e1 + 1074) = m1 * 2 ^ (e1 + 1074) \/
                m2 * 2 ^ (e1 + 1074) = m1 * 2 ^ (e1 + 1074) + 2 ^ (e1 + 1074)).
  { destruct Hcases as [->| ->]; [left; reflexivity | right; lia]. }
  destruct (Z.ltb_spec z 0); cbn [cond_Zopp]; lia.
Qed.

Lemma sv_finite (s : bool) (m : positive) (e : Z) (emin : Z) :
  - 1074 <= emin <= e ->
  cond_Zopp s (Zpos m * 2 ^ (e - emin)) * 2 ^ (emin + 1074) = sv (S754_finite s m e).
Proof.
  intros He. cbn [sv]. replace (e + 1074) with ((e - emin) + (emin + 1074)) by lia.
  rewrite (Z.pow_add_r 2 (e - emin) (emin + 1074)) by lia. destruct s; cbn [cond_Zopp]; lia.
Qed.

Lemma fin_exponent (s : bool) (m : positive) (e : Z) :
  fin (S754_finite s m e) -> - 1074 <= e <= 971.
Proof. cbn [fin]. intros H. apply bounded_inv in H. lia. Qed.

(** The sum of two numbers, below [2^E] in magnitude, is computed with an
    error of at most a unit in the last place of [2^E]. *)
Lemma add_error (x y : number) (E : Z) :
  fin x -> fin y -> - 1021 <= E <= 1000 -> Z.abs (sv x + sv y) < 2 ^ (E + 1074) ->
  fin (add x y) /\ Z.abs (sv (add x y) - (sv x + sv y)) <= 2 ^ (E + 1021).
Proof.
  intros Hx Hy HE Hlt. pose proof (pow2_pos (E + 1021) ltac:(lia)) as Hp.
  destruct x as [sx|sx| |sx mx ex]; try contradiction;
    destruct y as [sy|sy| |sy my ey]; try contradiction.
  - destruct sx, sy; cbn; (split; [exact I | lia]).
  - change (add (S754_zero sx) (S754_finite sy my ey)) with (S754_finite sy my ey).
    split; [exact Hy|]. cbn [sv]. lia.
  - change (add (S754_finite sx mx ex) (S754_zero sy)) with (S754_finite sx mx ex).
    split; [exact Hx|]. cbn [sv]. lia.
  - pose proof (fin_exponent _ _ _ Hx) as Hex. pose proof (fin_exponent _ _ _ Hy) as Hey.
    rewrite add_finite.
    set (emin := Z.min ex ey).
    set (z := cond_Zopp sx (Zpos mx * 2 ^ (ex - emin)) + cond_Zopp sy (Zpos my * 2 ^ (ey - emin))).
    assert (Hz : z * 2 ^ (emin + 1074) = sv (S754_finite sx mx ex) + sv (S754_finite sy my ey)).
    { subst z. rewrite Z.mul_add_distr_r, !sv_finite by (subst emin; lia). reflexivity. }
    pose proof (pow2_pos (emin + 1074) ltac:(subst emin; lia)) as Hpe.
    destruct (normalize_error z emin E ltac:(subst emin; lia) HE) as [Hfin Herr].
    { rewrite <- (Z.abs_eq (2 ^ (emin + 1074))) by lia. rewrite <- Z.abs_mul, Hz. exact Hlt. }
    split; [exact Hfin|]. rewrite Hz in Herr. exact Herr.
Qed.

Lemma sub_error (x y : number) (E : Z) :
  fin x -> fin y -> - 1021 <= E <= 1000 -> Z.abs (sv x - sv y) < 2 ^ (E + 1074) ->
  fin (sub x y) /\ Z.abs (sv (sub x y) - (sv x - sv y)) <= 2 ^ (E + 1021).
Proof.
  intros Hx Hy HE Hlt. pose proof (pow2_pos (E + 1021) ltac:(lia)) as Hp.
  destruct x as [sx|sx| |sx mx ex]; try contradiction;
    destruct y as [sy|sy| |sy my ey]; try contradiction.
  - destruct sx, sy; cbn; (split; [exact I | lia]).
  - change (sub (S754_zero sx) (S754_finite sy my ey)) with (S754_finite (negb sy) my ey).
    split; [exact Hy|]. cbn [sv]. destruct sy; cbn [negb cond_Zopp]; lia.
  - change (sub (S754_finite sx mx ex) (S754_zero sy)) with (S754_finite sx mx ex).
    split; [exact Hx|]. cbn [sv]. lia.
  - pose proof (fin_exponent _ _ _ Hx) as Hex. pose proof (fin_exponent _ _ _ Hy) as Hey.
    rewrite sub_finite.
    set (emin := Z.min ex ey).
    set (z := cond_Zopp sx (Zpos mx * 2 ^ (ex - emin)) - cond_Zopp sy (Zpos my * 2 ^ (ey - emin))).
    assert (Hz : z * 2 ^ (emin + 1074) = sv (S754_finite sx mx ex) - sv (S754_finite sy my ey)).
    { subst z. rewrite Z.mul_sub_distr_r, !sv_finite by (subst emin; lia). reflexivity. }
    pose proof (pow2_pos (emin + 1074) ltac:(subst emin; lia)) as Hpe.
    destruct (normalize_error z emin E ltac:(subst emin; lia) HE) as [Hfin Herr].
    { rewrite <- (Z.abs_eq (2 ^ (emin + 1074))) by lia. rewrite <- Z.abs_mul, Hz. exact Hlt. }
    split; [exact Hfin|]. rewrite Hz in Herr. exact Herr.
Qed.

(** A number that is at most 2^-7 in magnitude is within 0.01 of zero. *)
Lemma within_cent_small (x : number) :
  fin x -> Z.abs (sv x) <= 2 ^ 1067 -> within_cent x = true.
Proof.
  unfold within_cent. rewrite cent_eq.
  destruct x as [s|s| |s m e]; try contradiction; intros Hx Hb; [reflexivity|].
  cbn [Math_abs SFabs]. apply leb_finite_pos.
  cbn [fin] in Hx. pose proof (bounded_inv _ _ Hx) as (He & Hm & Hn).
  cbn [sv] in Hb. rewrite abs_cond_Zopp in Hb.
  destruct (Z.eq_dec e (- 1074)) as [->|Hne]; [left; lia|].
  specialize (Hn ltac:(lia)). rewrite Z.abs_eq in Hb by lia.
  assert (H67 : 2 ^ 1067 = 2 ^ 52 * 2 ^ 1015) by reflexivity.
  destruct (Z_lt_le_dec e (- 59)) as [Hlt|Hge]; [left; exact Hlt|].
  right.
  assert (He59 : e = - 59).
  { destruct (Z.eq_dec e (- 59)) as [|Hne']; [assumption|exfalso].
    pose proof (pow2_le (1016) (e + 1074) ltac:(lia)) as Hp.
    change (2 ^ 1016) with (2 * 2 ^ 1015) in Hp.
    pose proof (pow2_pos 1015 ltac:(lia)). nia. }
  subst e. split; [reflexivity|]. change (- 59 + 1074) with 1015 in Hb.
  pose proof (pow2_pos 1015 ltac:(lia)).
  assert (Z.pos m <= 2 ^ 52) by nia.
  change (2 ^ 52) with 4503599627370496 in *. lia.
Qed.

(** The quotient of a number below [2^E] in magnitude by a whole number [k]:
    [k] times the result is off by at most [k] units in the last place of
    [2^E]. *)
Lemma div_error (x y : number) (k E : Z) :
  fin x -> whole y k -> 0 < k -> - 1021 <= E <= 1000 -> Z.abs (sv x) < 2 ^ (E + 1074) ->
  fin (div x y) /\ Z.abs (sv x - k * sv (div x y)) <= k * 2 ^ (E + 1021).
Proof.
  intros Hx Hy Hk HE Hlt. pose proof (pow2_pos (E + 1021) ltac:(lia)) as Hp.
  destruct Hy as [[-> _]|[Hk0 (my & ey & -> & Hby & Hey & Hmy)]]; [lia|].
  replace (k <? 0) with false by (symmetry; apply Z.ltb_ge; lia).
  rewrite Z.abs_eq in Hmy by lia.
  destruct x as [sx|sx| |sx mx ex]; try contradiction.
  { destruct sx; cbn; (split; [exact I | nia]). }
  pose proof (fin_exponent _ _ _ Hx) as Hex.
  pose proof (bounded_inv _ _ Hby) as (Hey' & _ & _).
  cbn [sv] in Hlt. rewrite abs_cond_Zopp in Hlt.
  pose proof (pow2_pos (ex + 1074) ltac:(lia)) as Hpx.
  rewrite Z.abs_eq in Hlt by lia.
  pose proof (pow2_pos (- ey) ltac:(lia)) as HP.
  (* the digits of the operands *)
  pose proof (digits2_pos_bounds mx) as [Hlox Hhix].
  pose proof (digits2_pos_bounds my) as [Hloy Hhiy].
  assert (Hdx : Zpos (digits2_pos mx) + ex <= E).
  { assert (Hlt' : Zpos mx < 2 ^ (E - ex)).
    { destruct (Z_lt_le_dec ex E) as [HexE|HexE].
      - replace (E + 1074) with ((E - ex) + (ex + 1074)) in Hlt by lia.
        rewrite (Z.pow_add_r 2 (E - ex) (ex + 1074)) in Hlt by lia.
        apply (Z.mul_lt_mono_pos_r (2 ^ (ex + 1074))); [exact Hpx | exact Hlt].
      - pose proof (pow2_le (E + 1074) (ex + 1074) ltac:(lia)). nia. }
    assert (0 <= E - ex).
    { destruct (Z_le_gt_dec 0 (E - ex)); [assumption|].
      rewrite Z.pow_neg_r in Hlt' by lia. lia. }
    pose proof (digits2_pos_le mx (E - ex) ltac:(lia) Hlt'). lia. }
  assert (Hdy : 1 <= Zpos (digits2_pos my) + ey).
  { assert (2 ^ (- ey) <= Zpos my) by nia.
    pose proof (digits2_pos_ge my (- ey) H). lia. }
  unfold div, SFdiv, prec, emax. rewrite xorb_false_r.
  pose proof (div_core_pre mx ex my ey) as Hpre.
  unfold SFdiv_core_binary in *. cbn [Zdigits2] in *.
  set (X := Zpos (digits2_pos mx) + ex - (Zpos (digits2_pos my) + ey)) in *.
  set (e' := Z.min (fexp X) (ex - ey)) in *.
  set (s := ex - ey - e') in *.
  assert (He' : - 1074 <= e' <= E - 53).
  { subst e'. rewrite fexp_eq. subst X. lia. }
  assert (Hs : 0 <= s) by (subst s e'; lia).
  set (m' := match s with Zpos _ => Z.shiftl (Zpos mx) s | Z0 => Zpos mx | Zneg _ => 0 end) in *.
  assert (Hm' : m' = Zpos mx * 2 ^ s).
  { subst m'. destruct s as [|p|p]; [rewrite Z.pow_0_r; lia | | lia].
    rewrite Z.shiftl_mul_pow2 by lia. reflexivity. }
  pose proof (Z_div_mod m' (Zpos my) ltac:(lia)) as Hdm.
  destruct (Z.div_eucl m' (Zpos my)) as [q r]. destruct Hdm as [Hdm Hr].
  destruct Hpre as [Hq Hpre].
  pose proof (pow2_pos s Hs) as Hps.
  pose proof (pow2_pos (e' + 1074) ltac:(lia)) as Hpe'.
  (* the exact quotient lies between q and q + 1 at the exponent e' *)
  assert (Hscale : 2 ^ s * 2 ^ (e' + 1074) = 2 ^ (ex + 1074) * 2 ^ (- ey)).
  { rewrite <- !Z.pow_add_r by lia. f_equal. subst s. lia. }
  assert (Hbox : q * 2 ^ (e' + 1074) * k <= Zpos mx * 2 ^ (ex + 1074) <
                 (q + 1) * 2 ^ (e' + 1074) * k).
  { assert (H1 : q * Zpos my <= m' < (q + 1) * Zpos my) by lia.
    rewrite Hm', Hmy in H1. destruct H1 as [H1l H1r].
    assert (Hx' : Zpos mx * 2 ^ s * 2 ^ (e' + 1074) = Zpos mx * 2 ^ (ex + 1074) * 2 ^ (- ey)).
    { rewrite <- !Z.mul_assoc, Hscale. reflexivity. }
    split.
    - apply (Z.mul_le_mono_pos_r _ _ (2 ^ (- ey)) HP). rewrite <- Hx'.
      replace (q * 2 ^ (e' + 1074) * k * 2 ^ (- ey))
        with (q * (k * 2 ^ (- ey)) * 2 ^ (e' + 1074)) by ring.
      apply Z.mul_le_mono_nonneg_r; [lia | exact H1l].
    - apply (Z.mul_lt_mono_pos_r (2 ^ (- ey)) _ _ HP). rewrite <- Hx'.
      replace ((q + 1) * 2 ^ (e' + 1074) * k * 2 ^ (- ey))
        with ((q + 1) * (k * 2 ^ (- ey)) * 2 ^ (e' + 1074)) by ring.
      apply Z.mul_lt_mono_pos_r; [exact Hpe' | exact H1r]. }
  assert (Hdq : Zdigits2 q + e' <= E).
  { destruct q as [|q|q]; [cbn [Zdigits2]; lia| |lia]. cbn [Zdigits2].
    assert (Hq1 : Zpos q * 2 ^ (e' + 1074) < 2 ^ (E + 1074)).
    { apply Z.le_lt_trans with (Zpos q * 2 ^ (e' + 1074) * k); [|lia].
      assert (HW : 0 <= Zpos q * 2 ^ (e' + 1074)) by (apply Z.mul_nonneg_nonneg; lia).
      clear - HW Hk. nia. }
    replace (E + 1074) with ((E - e') + (e' + 1074)) in Hq1 by lia.
    rewrite (Z.pow_add_r 2 (E - e') (e' + 1074)) in Hq1 by lia.
    assert (Hq2 : Zpos q < 2 ^ (E - e')).
    { apply (Z.mul_lt_mono_pos_r (2 ^ (e' + 1074))); [exact Hpe' | exact Hq1]. }
    pose proof (digits2_pos_le q (E - e') ltac:(lia) Hq2). lia. }
  destruct (round_aux_value sx q e' (new_location (Zpos my) r) Hq Hpre ltac:(lia))
    as (m2 & Hcases & Hfin & Hsv).
  cbn zeta in Hcases, Hsv.
  set (e1 := fexp (Zdigits2 q + e')) in *.
  split; [exact Hfin|]. rewrite Hsv. cbn [sv].
  assert (He1 : e' <= e1 <= E - 53 /\ - 1074 <= e1).
  { split; [split; [exact Hpre|]|]; subst e1; rewrite fexp_eq; lia. }
  pose proof (pow2_pos (e1 - e') ltac:(lia)) as HpK.
  assert (Hunit : 2 ^ (e1 + 1074) = 2 ^ (e1 - e') * 2 ^ (e' + 1074)).
  { rewrite <- Z.pow_add_r by lia. f_equal. lia. }
  assert (Hulp : 2 ^ (e1 + 1074) <= 2 ^ (E + 1021)) by (apply pow2_le; lia).
  pose proof (pow2_pos (e1 + 1074) ltac:(lia)) as Hp1.
  assert (Hdiv : q / 2 ^ (e1 - e') * 2 ^ (e1 - e') <= q <
                 (q / 2 ^ (e1 - e') + 1) * 2 ^ (e1 - e')).
  { pose proof (Z.mul_div_le q (2 ^ (e1 - e')) HpK).
    pose proof (Z.mul_succ_div_gt q (2 ^ (e1 - e')) HpK). lia. }
  set (m1 := q / 2 ^ (e1 - e')) in *.
  assert (Hbox1 : m1 * 2 ^ (e1 + 1074) * k <= Zpos mx * 2 ^ (ex + 1074) <
                  (m1 + 1) * 2 ^ (e1 + 1074) * k).
  { rewrite Hunit.
    assert (m1 * 2 ^ (e1 - e') <= q) by lia.
    assert (q + 1 <= (m1 + 1) * 2 ^ (e1 - e')) by lia.
    split.
    - apply Z.le_trans with (q * 2 ^ (e' + 1074) * k); [|lia].
      apply Z.mul_le_mono_nonneg_r; [lia|]. rewrite Z.mul_assoc.
      apply Z.mul_le_mono_nonneg_r; lia.
    - apply Z.lt_le_trans with ((q + 1) * 2 ^ (e' + 1074) * k); [lia|].
      apply Z.mul_le_mono_nonneg_r; [lia|]. rewrite Z.mul_assoc.
      apply Z.mul_le_mono_nonneg_r; lia. }
  assert (Hm2 : m2 * 2 ^ (e1 + 1074) = m1 * 2 ^ (e1 + 1074) \/
                m2 * 2 ^ (e1 + 1074) = m1 * 2 ^ (e1 + 1074) + 2 ^ (e1 + 1074)).
  { destruct Hcases as [->| ->]; [left; reflexivity | right; lia]. }
  assert (Hgoal : Z.abs (Zpos mx * 2 ^ (ex + 1074) - k * (m2 * 2 ^ (e1 + 1074))) <=
                  k * 2 ^ (E + 1021)).
  { assert (HkB : k * 2 ^ (e1 + 1074) <= k * 2 ^ (E + 1021))
      by (apply Z.mul_le_mono_nonneg_l; lia).
    assert (Hk2 : k * (m2 * 2 ^ (e1 + 1074)) = k * (m1 * 2 ^ (e1 + 1074)) \/
                  k * (m2 * 2 ^ (e1 + 1074)) =
                    k * (m1 * 2 ^ (e1 + 1074)) + k * 2 ^ (e1 + 1074)).
    { destruct Hm2 as [-> | ->]; [left; reflexivity | right; ring]. }
    replace (m1 * 2 ^ (e1 + 1074) * k) with (k * (m1 * 2 ^ (e1 + 1074))) in Hbox1 by ring.
    replace ((m1 + 1) * 2 ^ (e1 + 1074) * k)
      with (k * (m1 * 2 ^ (e1 + 1074)) + k * 2 ^ (e1 + 1074)) in Hbox1 by ring.
    clear - Hbox1 Hk2 HkB.
    generalize dependent (k * (m1 * 2 ^ (e1 + 1074))). intros A.
    generalize dependent (k * (m2 * 2 ^ (e1 + 1074))). intros Bv.
    generalize dependent (k * 2 ^ (e1 + 1074)). intros Cv.
    generalize dependent (k * 2 ^ (E + 1021)). intros Dv.
    generalize dependent (Zpos mx * 2 ^ (ex + 1074)). intros Xv. lia. }
  destruct sx; cbn [cond_Zopp]; lia.
Qed.

Lemma eps_pos : 0 < eps.
Proof. reflexivity. Qed.

Lemma add32 (x y : number) :
  fin x -> fin y -> Z.abs (sv x + sv y) < lim ->
  fin (add x y) /\ Z.abs (sv (add x y) - (sv x + sv y)) <= eps.
Proof. intros Hx Hy H. exact (add_error x y 32 Hx Hy ltac:(lia) H). Qed.

Lemma sub32 (x y : number) :
  fin x -> fin y -> Z.abs (sv x - sv y) < lim ->
  fin (sub x y) /\ Z.abs (sv (sub x y) - (sv x - sv y)) <= eps.
Proof. intros Hx Hy H. exact (sub_error x y 32 Hx Hy ltac:(lia) H). Qed.

Lemma div32 (x y : number) (k : Z) :
  fin x -> whole y k -> 0 < k -> Z.abs (sv x) < lim ->
  fin (div x y) /\ Z.abs (sv x - k * sv (div x y)) <= k * eps.
Proof. intros Hx Hy Hk H. exact (div_error x y k 32 Hx Hy Hk ltac:(lia) H). Qed.

Lemma fabs_nonneg (o : object) : 0 <= fabs o.
Proof. induction o as [|[k v] o IH]; cbn [fabs foldr] in *; [lia|]. fold (fabs o). lia. Qed.

Lemma fset_existing (o : object) (k : string) (v v' : number) :
  get o k = Some v ->
  fsum (set o k v') = fsum o - sv v + sv v' /\
  fabs (set o k v') = fabs o - Z.abs (sv v) + Z.abs (sv v') /\
  Z.abs (sv v) <= fabs o /\
  (Forall (fun entry => fin entry.2) o -> fin v' ->
   Forall (fun entry => fin entry.2) (set o k v')) /\
  (Forall (fun entry => fin entry.2) o -> fin v) /\
  length (set o k v') = length o.
Proof.
  induction o as [|[k0 v0] o IH]; cbn [get set]; [discriminate|].
  destruct (decide (k0 = k)) as [E|E].
  - intros [= ->]. cbn [fsum fabs foldr snd length]. fold (fsum o) (fabs o).
    pose proof (fabs_nonneg o). repeat split; try lia.
    + intros Ho Hv'. inversion Ho; subst. constructor; assumption.
    + intros Ho. inversion Ho; subst. assumption.
  - intros Hget. destruct (IH Hget) as (H1 & H2 & H3 & H4 & H5 & H6).
    cbn [fsum fabs foldr snd length]. fold (fsum o) (fabs o) (fsum (set o k v')) (fabs (set o k v')).
    repeat split; try lia.
    + intros Ho Hv'. inversion Ho; subst. constructor; [assumption | apply H4; assumption].
    + intros Ho. inversion Ho; subst. apply H5; assumption.
Qed.

Lemma parseFloat_fin (x : number) : fin x -> fin (parseFloat x) /\ sv (parseFloat x) = sv x.
Proof. destruct x as [s|s| |s m e]; try contradiction; intros H; split; try exact H; reflexivity. Qed.

Section Ledger.

Variable participants : list string.

Local Abbreviation ledger := (Spec.ledger participants).

Lemma ledger_assign (S M : Z) (o : object) (q : string) (v v' : number) (d : Z) :
  ledger S M o -> get o q = Some v -> fin v' -> Z.abs (sv v' - (sv v + d)) <= eps ->
  exists delta, Z.abs delta <= eps /\ ledger (S + d + delta) (M + Z.abs d + eps) (set o q v').
Proof.
  intros (Hk & Hf & Hs & Hm & Hl) Hget Hv' Herr.
  destruct (fset_existing o q v v' Hget) as (H1 & H2 & H3 & H4 & H5 & H6).
  exists (sv v' - (sv v + d)). split; [exact Herr|].
  split; [|split; [|split; [|split]]].
  - intros p Hp. apply get_set_is_Some, Hk, Hp.
  - apply H4; assumption.
  - lia.
  - lia.
  - rewrite H6. exact Hl.
Qed.

Lemma ledger_credit (S M : Z) (o : object) (p : string) (x : number) :
  ledger S M o -> p ∈ participants -> fin x -> M + Z.abs (sv x) < lim ->
  exists delta, Z.abs delta <= eps /\
    ledger (S + sv x + delta) (M + Z.abs (sv x) + eps)
      (set o p (add (to_number (get o p)) (parseFloat x))).
Proof.
  intros Hled Hp Hx Hlt. pose proof Hled as (Hk & Hf & Hs & Hm & Hl).
  destruct (Hk p Hp) as [v Hget].
  destruct (fset_existing o p v v Hget) as (_ & _ & H3 & _ & H5 & _).
  destruct (parseFloat_fin x Hx) as [Hpx Hsx].
  rewrite Hget. cbn [to_number].
  destruct (add32 v (parseFloat x) (H5 Hf) Hpx ltac:(rewrite Hsx; lia)) as [Hfin Herr].
  rewrite Hsx in Herr.
  exact (ledger_assign S M o p v _ (sv x) Hled Hget Hfin Herr).
Qed.

Lemma ledger_debit (S M : Z) (o : object) (q : string) (x : number) :
  ledger S M o -> q ∈ participants -> fin x -> M + Z.abs (sv x) < lim ->
  exists delta, Z.abs delta <= eps /\
    ledger (S - sv x + delta) (M + Z.abs (sv x) + eps)
      (set o q (sub (to_number (get o q)) x)).
Proof.
  intros Hled Hq Hx Hlt. pose proof Hled as (Hk & Hf & Hs & Hm & Hl).
  destruct (Hk q Hq) as [v Hget].
  destruct (fset_existing o q v v Hget) as (_ & _ & H3 & _ & H5 & _).
  rewrite Hget. cbn [to_number].
  destruct (sub32 v x (H5 Hf) Hx ltac:(lia)) as [Hfin Herr].
  destruct (ledger_assign S M o q v _ (- sv x) Hled Hget Hfin ltac:(replace (sv v + - sv x) with (sv v - sv x) by lia; exact Herr))
    as (delta & Hd & Hled').
  exists delta. split; [exact Hd|].
  replace (S - sv x + delta) with (S + - sv x + delta) by lia.
  replace (Z.abs (sv x)) with (Z.abs (- sv x)) by lia. exact Hled'.
Qed.

Lemma ledger_debits (involved : list string) (x : number) (S M : Z) (o : object) :
  Forall (fun person => person ∈ participants) involved -> fin x ->
  M + Z.of_nat (length involved) * (Z.abs (sv x) + eps) < lim -> ledger S M o ->
  exists delta, Z.abs delta <= Z.of_nat (length involved) * eps /\
    ledger (S - Z.of_nat (length involved) * sv x + delta)
      (M + Z.of_nat (length involved) * (Z.abs (sv x) + eps))
      (fold_left (fun bal person => set bal person (sub (to_number (get bal person)) x))
         involved o).
Proof.
  intros Hin Hx. revert S M o. pose proof eps_pos as He.
  induction Hin as [|q inv Hq Hin IH]; intros S M o Hlt Hled.
  - cbn [fold_left length]. exists 0. split; [lia|].
    replace (S - Z.of_nat 0 * sv x + 0) with S by lia.
    replace (M + Z.of_nat 0 * (Z.abs (sv x) + eps)) with M by lia. exact Hled.
  - cbn [fold_left]. rewrite length_cons, Nat2Z.inj_succ in *.
    assert (Hk : 0 <= Z.of_nat (length inv)) by lia.
    assert (Hroom1 : M + Z.abs (sv x) < lim) by nia.
    assert (Hroom2 : M + Z.abs (sv x) + eps +
                     Z.of_nat (length inv) * (Z.abs (sv x) + eps) < lim) by lia.
    destruct (ledger_debit S M o q x Hled Hq Hx Hroom1) as (d1 & Hd1 & Hled1).
    destruct (IH _ _ _ Hroom2 Hled1) as (d2 & Hd2 & Hled2).
    exists (d1 + d2). split; [lia|].
    replace (S - Z.succ (Z.of_nat (length inv)) * sv x + (d1 + d2))
      with (S - sv x + d1 - Z.of_nat (length inv) * sv x + d2) by lia.
    replace (M + Z.succ (Z.of_nat (length inv)) * (Z.abs (sv x) + eps))
      with (M + Z.abs (sv x) + eps + Z.of_nat (length inv) * (Z.abs (sv x) + eps)) by lia.
    exact Hled2.
Qed.

Lemma ledger_weaken (S M M' : Z) (o : object) : M <= M' -> ledger S M o -> ledger S M' o.
Proof. intros Hle (Hk & Hf & Hs & Hm & Hl). repeat split; try assumption. lia. Qed.

End Ledger.

Lemma updates_nonneg (exp : Expense.t) : 0 <= updates exp.
Proof. unfold updates. destruct (Expense.involved exp); lia. Qed.

Lemma all_updates_nonneg (expenses : list Expense.t) : 0 <= all_updates expenses.
Proof.
  induction expenses as [|exp l IH]; cbn [all_updates foldr]; [lia|].
  fold (all_updates l). pose proof (updates_nonneg exp). lia.
Qed.

Lemma fvolume_nonneg (expenses : list Expense.t) : 0 <= fvolume expenses.
Proof.
  induction expenses as [|exp l IH]; cbn [fvolume foldr]; [lia|]. fold (fvolume l). lia.
Qed.

(** An expense moves the sum of the balances by at most one unit in the
    last place for each of its assignments. *)
Lemma ledger_post (participants : list string) (S M : Z) (o : object) (exp : Expense.t) :
  ledger participants S M o -> drawn participants exp -> fin (Expense.amount exp) ->
  updates exp < 2 ^ 53 ->
  M + 2 * Z.abs (sv (Expense.amount exp)) + updates exp * eps < lim ->
  exists S', Z.abs (S' - S) <= updates exp * eps /\
    ledger participants S' (M + 2 * Z.abs (sv (Expense.amount exp)) + updates exp * eps)
      (post o exp).
Proof.
  intros Hled [Hp Hin] Hx Hk53 Hlt. pose proof eps_pos as He.
  pose proof (updates_nonneg exp) as Hu.
  unfold post. unfold updates in *.
  destruct (Expense.involved exp) as [[|q inv]|] eqn:E.
  - exists S. split; [lia|]. apply (ledger_weaken participants S M); [lia | exact Hled].
  - cbn zeta. set (involved := q :: inv) in *.
    set (k := Z.of_nat (length involved)) in *.
    set (a := Z.abs (sv (Expense.amount exp))) in *.
    assert (Hk : 0 < k) by (subst k involved; rewrite length_cons; lia).
    assert (HM : 0 <= M).
    { destruct Hled as (_ & _ & _ & Hm & _). pose proof (fabs_nonneg o). lia. }
    assert (Hwk : whole (of_Z k) k) by (apply of_Z_whole; lia).
    destruct (div32 (Expense.amount exp) (of_Z k) k Hx Hwk Hk ltac:(fold a; nia)) as [Hsf Hserr].
    set (share := div (Expense.amount exp) (of_Z k)) in *.
    assert (Hsh : k * Z.abs (sv share) <= a + k * eps).
    { subst a. rewrite <- (Z.abs_eq k) at 1 by lia. rewrite <- Z.abs_mul. lia. }
    assert (Hsh1 : Z.abs (sv share) <= a + eps) by nia.
    destruct (ledger_credit participants S M o (Expense.payer exp) (Expense.amount exp)
                Hled Hp Hx ltac:(fold a; nia)) as (d0 & Hd0 & Hled0).
    fold a in Hled0.
    assert (Hroom : M + a + eps + k * (Z.abs (sv share) + eps) < lim) by nia.
    destruct (ledger_debits participants involved share _ _ _ (Hin involved eq_refl) Hsf
                Hroom Hled0) as (d1 & Hd1 & Hled1).
    fold k in Hd1, Hled1.
    exists (S + sv (Expense.amount exp) + d0 - k * sv share + d1).
    split; [lia|].
    apply (ledger_weaken participants _ (M + a + eps + k * (Z.abs (sv share) + eps)));
      [nia | exact Hled1].
  - exists S. split; [lia|]. apply (ledger_weaken participants S M); [lia | exact Hled].
Qed.

Lemma ledger_expenses (participants : list string) (expenses : list Expense.t) (S M : Z)
    (o : object) :
  ledger participants S M o -> Forall (drawn participants) expenses ->
  Forall (fun exp => fin (Expense.amount exp)) expenses ->
  all_updates expenses < 2 ^ 53 ->
  M + 2 * fvolume expenses + all_updates expenses * eps < lim ->
  exists S', Z.abs (S' - S) <= all_updates expenses * eps /\
    ledger participants S' (M + 2 * fvolume expenses + all_updates expenses * eps)
      (fold_left post expenses o).
Proof.
  intros Hled Hd Hf. revert S M o Hled Hd. pose proof eps_pos as He.
  induction Hf as [|exp l Hx Hl IH]; intros S M o Hled Hd Hk Hlt.
  - cbn [fold_left all_updates fvolume foldr] in *. exists S. split; [lia|].
    apply (ledger_weaken participants S M); [lia | exact Hled].
  - inversion Hd as [|? ? Hd1 Hd2]; subst. cbn [fold_left all_updates fvolume foldr] in *.
    fold (all_updates l) (fvolume l) in *.
    pose proof (all_updates_nonneg l) as Hul. pose proof (updates_nonneg exp) as Hue.
    pose proof (fvolume_nonneg l) as Hvl.
    destruct (ledger_post participants S M o exp Hled Hd1 Hx ltac:(lia) ltac:(nia))
      as (S1 & HS1 & Hled1).
    destruct (IH _ _ _ Hled1 Hd2 ltac:(lia) ltac:(nia)) as (S2 & HS2 & Hled2).
    exists S2. split; [nia|].
    apply (ledger_weaken participants S2
             (M + 2 * Z.abs (sv (Expense.amount exp)) + updates exp * eps +
              2 * fvolume l + all_updates l * eps)); [nia | exact Hled2].
Qed.

Lemma ledger_zero (participants : list string) (o : object) :
  (forall q, q ∈ participants -> get o q = Some zero) ->
  Forall (fun entry => entry.2 = zero) o -> (length o <= length participants)%nat ->
  ledger participants 0 0 o.
Proof.
  intros Hk Hz Hl. split; [|split; [|split; [|split]]].
  - intros q Hq. rewrite (Hk q Hq). eexists; reflexivity.
  - eapply Forall_impl; [exact Hz|]. intros [k v] Hv. cbn in Hv. subst v. exact I.
  - clear Hk Hl. induction Hz as [|[k v] o Hv Ho IH]; cbn [fsum foldr]; [reflexivity|].
    fold (fsum o). cbn in Hv. subst v. rewrite IH. reflexivity.
  - clear Hk Hl. induction Hz as [|[k v] o Hv Ho IH]; cbn [fabs foldr]; [reflexivity|].
    fold (fabs o). cbn in Hv. subst v. cbn [snd sv zero]. cbn. lia.
  - exact Hl.
Qed.

(** The sum of the balances is computed with an error of at most one unit
    in the last place for each balance. *)
Lemma total_error (o : object) :
  Forall (fun entry => fin entry.2) o -> fabs o + Z.of_nat (length o) * eps < lim ->
  fin (total o) /\ Z.abs (sv (total o) - fsum o) <= Z.of_nat (length o) * eps.
Proof.
  intros Ho Hlt. unfold total. pose proof eps_pos as He.
  enough (H : forall acc a, fin acc -> Z.abs (sv acc) <= a ->
            a + fabs o + Z.of_nat (length o) * eps < lim ->
            fin (fold_left add (map snd o) acc) /\
            Z.abs (sv (fold_left add (map snd o) acc) - (sv acc + fsum o)) <=
              Z.of_nat (length o) * eps).
  { destruct (H zero 0 I ltac:(cbn; lia) ltac:(lia)) as [H1 H2]. split; [exact H1|].
    cbn [sv zero] in H2. rewrite Z.add_0_l in H2. exact H2. }
  clear Hlt. induction Ho as [|[p v] o Hv Ho IH]; intros acc a Hacc Ha Hlt.
  - cbn [map fold_left fsum foldr length]. split; [exact Hacc|]. lia.
  - cbn [map fold_left fsum fabs foldr length snd] in *. fold (fsum o). fold (fabs o) in Hlt.
    rewrite Nat2Z.inj_succ in *. pose proof (fabs_nonneg o) as Hfo.
    destruct (add32 acc v Hacc Hv ltac:(nia)) as [Hfin Herr].
    destruct (IH (add acc v) (a + Z.abs (sv v) + eps) Hfin ltac:(lia) ltac:(nia)) as [H1 H2].
    split; [exact H1|]. lia.
Qed.

(** With amounts that add up to 2^30 at most in magnitude, and at most
    2^14 participants and assignments, the balances add up to 2^-7 at most
    in magnitude. *)
Lemma balances_total_small (participants : list string) (expenses : list Expense.t) :
  proto ∉ participants ->
  Forall (drawn participants) expenses ->
  Forall (fun exp => fin (Expense.amount exp)) expenses ->
  fvolume expenses <= 2 ^ 30 * 2 ^ 1074 ->
  Z.of_nat (length participants) + all_updates expenses <= 2 ^ 14 ->
  numeric (balances participants expenses) /\
  fin (total (numbers (balances participants expenses))) /\
  Z.abs (sv (total (numbers (balances participants expenses)))) <= 2 ^ 1067.
Proof.
  intros Hp Hd Hf Hv Hn. pose proof eps_pos as He.
  pose proof (all_updates_nonneg expenses) as Hu. pose proof (fvolume_nonneg expenses) as Hv0.
  assert (H14 : 2 ^ 14 * eps = 2 ^ 1067) by reflexivity.
  assert (Hlim : 2 * (2 ^ 30 * 2 ^ 1074) + 2 * (2 ^ 14 * eps) < lim) by reflexivity.
  assert (Hk53 : all_updates expenses < 2 ^ 53).
  { apply Z.le_lt_trans with (2 ^ 14); [lia | reflexivity]. }
  assert (HU : all_updates expenses * eps <= 2 ^ 14 * eps).
  { apply Z.mul_le_mono_nonneg_r; lia. }
  assert (HL : Z.of_nat (length participants) * eps + all_updates expenses * eps <= 2 ^ 14 * eps).
  { rewrite <- Z.mul_add_distr_r. apply Z.mul_le_mono_nonneg_r; lia. }
  generalize dependent (2 ^ 14 * eps). intros N14 H14 Hlim HU HL.
  generalize dependent (2 ^ 30 * 2 ^ 1074). intros V Hv Hlim.
  destruct (balances_values participants expenses Hp Hd) as (o & Hbal & Hk & Hz & Hl).
  rewrite Hbal, numbers_values. split; [apply numeric_values|].
  destruct (ledger_expenses participants expenses 0 0 _ (ledger_zero participants o Hk Hz Hl)
              Hd Hf Hk53 ltac:(lia)) as (S' & HS' & (_ & Hfin & Hsum & Hmag & Hlen)).
  assert (Hlen' : Z.of_nat (length (fold_left post expenses o)) * eps <=
                  Z.of_nat (length participants) * eps).
  { apply Z.mul_le_mono_nonneg_r; lia. }
  destruct (total_error _ Hfin ltac:(lia)) as [H1 H2].
  split; [exact H1|]. rewrite Hsum in H2. lia.
Qed.

End Rounding.

(** * The claims of the specification *)

Module Claims.
Import Js App Entries Format Loop Spec Examples Binary64 Matching Settlement Balances Exact Rounding.
Local Close Scope Z_scope.

(** Membership in a list that is written out. *)
Ltac in_list := solve [repeat constructor].

Lemma integral_of_Z (n : Z) : (Z.abs n < 2 ^ 53)%Z -> integral (of_Z n).
Proof. intros H. exact (whole_integral _ _ (of_Z_whole n H)). Qed.

Lemma whole_balance_of_Z (n : Z) : (Z.abs n < 2 ^ 46)%Z -> whole_balance (of_Z n).
Proof.
  intros H. assert (H53 : (Z.abs n < 2 ^ 53)%Z).
  { change (2 ^ 53)%Z with (128 * 2 ^ 46)%Z. lia. }
  split; [exact (integral_of_Z n H53)|].
  rewrite (whole_to_Z _ _ (of_Z_whole n H53)). exact H.
Qed.

Lemma roster_drawn (exp : Expense.t) (involved : list string) :
  Expense.payer exp ∈ roster -> Expense.involved exp = Some involved ->
  Forall (fun person => person ∈ roster) involved -> drawn roster exp.
Proof. intros Hp Hi Hall. split; [exact Hp|]. intros inv Hinv. congruence. Qed.

(** ** Zero-sum balances *)

(** One expense of 10^15 that A pays for A, B and C gives balances that add
    up to 0.125, which is not within 0.01 of zero. *)
Lemma three_way_adrift :
  Forall (drawn roster) three_way /\
  total (numbers (balances roster three_way)) = S754_finite false 4503599627370496 (-55) /\
  within_cent (total (numbers (balances roster three_way))) = false.
Proof.
  split; [|split].
  - constructor; [|constructor].
    apply (roster_drawn _ ["A"; "B"; "C"]%string); [in_list | reflexivity|].
    repeat constructor.
  - exact three_way_total.
  - unfold roster. rewrite three_way_total. vm_compute. reflexivity.
Qed.

Lemma rent_drawn : drawn haunted rent.
Proof.
  split; [in_list|]. intros involved [= <-]. repeat constructor.
Qed.

(** On a roster with the name [__proto__] the object gets no property of
    its own under that name, so the 30 that [__proto__] pays for A are taken
    off the balance of A and added to nothing. *)
Lemma haunted_adrift :
  Forall (drawn haunted) [rent] /\
  balances haunted [rent] = [("A"%string, Num (of_Z (- 30)))] /\
  within_cent (total (numbers (balances haunted [rent]))) = false.
Proof.
  split; [constructor; [exact rent_drawn | constructor]|].
  split; vm_compute; reflexivity.
Qed.

(** C1 as stated fails, in two ways.  With one expense of 10^15 that A pays
    for A, B and C the balances add up to 0.125; and on the roster of
    [__proto__] and A, with one expense of 30 that [__proto__] pays for A,
    the balances are the one of A, which is -30.  Neither sum is within
    0.01 of zero. *)
Lemma zero_sum_fails :
  (Forall (drawn roster) three_way /\
   total (numbers (balances roster three_way)) = S754_finite false 4503599627370496 (-55) /\
   within_cent (total (numbers (balances roster three_way))) = false) /\
  (Forall (drawn haunted) [rent] /\
   balances haunted [rent] = [("A"%string, Num (of_Z (- 30)))] /\
   within_cent (total (numbers (balances haunted [rent]))) = false).
Proof. split; [exact three_way_adrift | exact haunted_adrift]. Qed.

(** C1 (amended): for every roster without the name [__proto__] and every
    list of expenses drawn from it whose amounts are finite and add up to
    2^30 at most in magnitude, with at most 2^14 for the number of
    participants plus, for each expense, one plus twice the number of
    participants it is split between, the balances are numbers that add up
    to a number within 0.01 of zero. *)
Theorem zero_sum_within_tolerance (participants : list string) (expenses : list Expense.t) :
  proto ∉ participants ->
  Forall (drawn participants) expenses ->
  Forall (fun exp => fin (Expense.amount exp)) expenses ->
  (fvolume expenses <= 2 ^ 30 * 2 ^ 1074)%Z ->
  (Z.of_nat (length participants) + all_updates expenses <= 2 ^ 14)%Z ->
  numeric (balances participants expenses) /\
  within_cent (total (numbers (balances participants expenses))) = true.
Proof.
  intros Hp Hd Hf Hv Hn.
  destruct (balances_total_small participants expenses Hp Hd Hf Hv Hn) as (Hnum & Hfin & Hsmall).
  split; [exact Hnum | exact (within_cent_small _ Hfin Hsmall)].
Qed.

Lemma roster_plain : proto ∉ roster.
Proof. apply (bool_decide_unpack _). vm_compute. exact I. Qed.

Lemma tenner_drawn : drawn roster tenner.
Proof.
  apply (roster_drawn _ ["A"; "B"; "C"]%string); [in_list | reflexivity|].
  repeat constructor.
Qed.

Lemma zero_sum_within_tolerance_witness :
  (proto ∉ roster) /\
  Forall (drawn roster) [tenner] /\
  Forall (fun exp => fin (Expense.amount exp)) [tenner] /\
  (fvolume [tenner] <= 2 ^ 30 * 2 ^ 1074)%Z /\
  (Z.of_nat (length roster) + all_updates [tenner] <= 2 ^ 14)%Z /\
  numeric (balances roster [tenner]) /\
  within_cent (total (numbers (balances roster [tenner]))) = true.
Proof.
  assert (Hd : Forall (drawn roster) [tenner]) by (constructor; [exact tenner_drawn | constructor]).
  assert (Hf : Forall (fun exp => fin (Expense.amount exp)) [tenner]).
  { constructor; [vm_compute; reflexivity | constructor]. }
  assert (Hv : (fvolume [tenner] <= 2 ^ 30 * 2 ^ 1074)%Z) by (vm_compute; discriminate).
  assert (Hn : (Z.of_nat (length roster) + all_updates [tenner] <= 2 ^ 14)%Z)
    by (vm_compute; discriminate).
  split; [exact roster_plain|]. split; [exact Hd|]. split; [exact Hf|]. split; [exact Hv|].
  split; [exact Hn|].
  exact (zero_sum_within_tolerance roster [tenner] roster_plain Hd Hf Hv Hn).
Defined.

(** X1: on a roster without the name [__proto__], with expenses drawn from
    it whose amounts are positive whole numbers, each a multiple of the
    number of participants it is split between, and add up to less than
    2^52, the balances are numbers that add up to exactly zero. *)
Theorem zero_sum_whole_shares (participants : list string) (expenses : list Expense.t) :
  proto ∉ participants ->
  Forall (drawn participants) expenses -> Forall even_split expenses ->
  (2 * volume expenses < 2 ^ 53)%Z ->
  numeric (balances participants expenses) /\
  total (numbers (balances participants expenses)) = zero.
Proof.
  intros Hp Hd He Hlt.
  destruct (balances_values participants expenses Hp Hd) as (o & Hbal & Hk & Hz & _).
  rewrite Hbal, numbers_values. split; [apply numeric_values|].
  pose proof (books_expenses participants expenses 0 _ (books_zero participants o Hk Hz) Hd He
                ltac:(lia)) as (_ & Hi & Hs & Hb).
  pose proof (total_whole _ Hi ltac:(lia)) as Hw. rewrite Hs in Hw.
  destruct Hw as [[_ ->]|[Hn _]]; [reflexivity | lia].
Qed.

Lemma dinner_even_split : even_split dinner.
Proof.
  split; [apply integral_of_Z; vm_compute; reflexivity|].
  split; [vm_compute; reflexivity|].
  intros involved [= <-]. exists 10%Z. vm_compute. reflexivity.
Qed.

Lemma dinner_drawn : drawn roster dinner.
Proof.
  apply (roster_drawn _ ["A"; "B"; "C"]%string); [in_list | reflexivity|].
  repeat constructor.
Qed.

Lemma zero_sum_whole_shares_witness :
  (proto ∉ roster) /\
  Forall (drawn roster) [dinner] /\ Forall even_split [dinner] /\
  (2 * volume [dinner] < 2 ^ 53)%Z /\
  numeric (balances roster [dinner]) /\
  total (numbers (balances roster [dinner])) = zero.
Proof.
  assert (Hd : Forall (drawn roster) [dinner]) by (constructor; [exact dinner_drawn | constructor]).
  assert (He : Forall even_split [dinner]) by (constructor; [exact dinner_even_split | constructor]).
  assert (Hv : (2 * volume [dinner] < 2 ^ 53)%Z) by (vm_compute; reflexivity).
  split; [exact roster_plain|]. split; [exact Hd|]. split; [exact He|]. split; [exact Hv|].
  exact (zero_sum_whole_shares roster [dinner] roster_plain Hd He Hv).
Defined.

(** ** Paying the transactions back *)

(** The loop ends when one of the two arrays is exhausted, so what is left
    on the other side stays: when A is owed 10 and nobody owes anything, no
    transaction is returned, and the balance of A stays 10. *)
Lemma lone_creditor_stays :
  calculateSettlements 2 lone_creditor = Some [] /\
  ~ Forall (fun entry => within_cent entry.2 = true) (settle_all lone_creditor []).
Proof.
  split; [apply lone_creditor_returns|].
  intros H. apply Forall_cons in H as [H _]. vm_compute in H. discriminate.
Qed.

Lemma coffees_drawn : Forall (drawn Page.DEFAULT_PARTICIPANTS) coffees.
Proof.
  repeat (apply Forall_cons_2;
          [split; [in_list | intros involved [= <-]; repeat (constructor; [in_list|]);
                             constructor]|]).
  apply Forall_nil_2.
Qed.

(** C2 fails on balances that add up to zero, to the tolerance: on the
    roster of the application, Theo, Noreen and Casper each pay 0.02 for
    Lillian and Ruben, so that the three are owed 0.02 each and Lillian and
    Ruben owe 0.03 each.  When Lillian has paid 0.02 to Theo, line 206
    leaves her with -0.03 + 0.02, which is -0.009999999999999998 and not
    -0.01, and the test of line 210 passes her; Ruben is passed in the same
    way after paying Noreen.  Two transactions of 0.02 are returned, and
    paying them leaves Casper with his 0.02, which is not within 0.01 of
    zero. *)
Theorem cents_left_unpaid :
  Forall (drawn Page.DEFAULT_PARTICIPANTS) coffees /\
  numbers (balances Page.DEFAULT_PARTICIPANTS coffees) = cents /\
  within_cent (total cents) = true /\
  lt (Math_abs (add (of_cents (- 3)) (of_cents 2))) cent = true /\
  calculateSettlements 9 cents = Some two_paid /\
  get (settle_all cents two_paid) "Casper"%string = Some (of_cents 2) /\
  within_cent (of_cents 2) = false.
Proof. split; [exact coffees_drawn|]. repeat split; vm_compute; reflexivity. Qed.

(** X26: for every balance map with distinct keys whose balances are whole
    numbers below 2^46 in magnitude that add up to zero,
    [calculateSettlements] returns within as many executions of the loop
    body as there are balances, and paying all the transactions returned
    (each amount added to the balance of [from] and taken off the balance
    of [to]) leaves every balance at exactly zero, which is within 0.01 of
    zero. *)
Theorem settlement_clears_whole_balances (o : object) (fuel : nat) :
  NoDup (map fst o) -> Forall (fun entry => whole_balance entry.2) o -> zsum o = 0%Z ->
  length o <= fuel ->
  exists txs, calculateSettlements fuel o = Some txs /\
    Forall (fun entry => entry.2 = zero /\ within_cent entry.2 = true) (settle_all o txs).
Proof.
  intros Hnd Ho Hz Hfuel. destruct (whole_returns o fuel Ho Hfuel) as [Hrun Hret].
  exists (transactions (loop fuel (start o))). split; [exact Hret|].
  pose proof (exact_matching_loop o _ _ fuel _ (exact_matching_start o Hnd Ho)) as Hex.
  rewrite Hz in Hex.
  eapply Forall_impl; [exact (exact_matching_settled o _ _ Hnd Hex Hrun)|].
  intros [p v] Hv. cbn [snd] in *. subst v. split; [reflexivity | exact within_cent_zero].
Qed.

Lemma couple_keys : NoDup (map fst couple).
Proof. apply (bool_decide_unpack _). vm_compute. exact I. Qed.

Lemma couple_whole : Forall (fun entry => whole_balance entry.2) couple.
Proof.
  apply Forall_cons_2; [apply whole_balance_of_Z; vm_compute; reflexivity|].
  apply Forall_cons_2; [apply whole_balance_of_Z; vm_compute; reflexivity|].
  apply Forall_nil_2.
Qed.

Lemma square_keys : NoDup (map fst square).
Proof. apply (bool_decide_unpack _). vm_compute. exact I. Qed.

Lemma square_whole : Forall (fun entry => whole_balance entry.2) square.
Proof.
  repeat (apply Forall_cons_2; [apply whole_balance_of_Z; vm_compute; reflexivity|]).
  apply Forall_nil_2.
Qed.

Lemma settlement_clears_whole_balances_witness :
  NoDup (map fst square) /\ Forall (fun entry => whole_balance entry.2) square /\
  zsum square = 0%Z /\ length square <= 4 /\
  exists txs, calculateSettlements 4 square = Some txs /\
    Forall (fun entry => entry.2 = zero /\ within_cent entry.2 = true) (settle_all square txs).
Proof.
  assert (Hz : zsum square = 0%Z) by (vm_compute; reflexivity).
  assert (Hf : length square <= 4) by (cbn; lia).
  split; [exact square_keys|]. split; [exact square_whole|]. split; [exact Hz|].
  split; [exact Hf|].
  exact (settlement_clears_whole_balances square 4 square_keys square_whole Hz Hf).
Defined.

(** ** Share conservation *)

(** C3 as stated fails: on a roster with the name [__proto__], which pays
    30 for A, the balance of A is decreased by 30 but the payer gets no
    balance: the assignment of line 99 reaches the setter of
    [Object.prototype], and reading the balance of the payer gives
    [Object.prototype] and not 30. *)
Lemma share_haunted :
  Expense.payer rent ∈ haunted /\
  balances haunted [rent] = [("A"%string, Num (of_Z (- 30)))] /\
  read (balances haunted [rent]) (Expense.payer rent) = Member proto /\
  read (balances haunted [rent]) (Expense.payer rent) <> Num (parseFloat (Expense.amount rent)).
Proof.
  split; [in_list|]. split; [vm_compute; reflexivity|]. split; [vm_compute; reflexivity|].
  vm_compute. discriminate.
Qed.

(** C3 (amended): after a single expense of amount [A] split between the
    [k] members of its involved set, a participant of the roster other
    than [__proto__] has the balance 0, increased by [A] if they are the
    payer, and then decreased by [A / k] if they are involved ([parseFloat]
    returns a number as it is, -0 as 0). *)
Theorem share_conservation (participants : list string) (exp : Expense.t)
    (involved : list string) (q : string) :
  Expense.involved exp = Some involved -> involved <> [] -> NoDup involved ->
  q ∈ participants -> q <> proto ->
  let share := div (Expense.amount exp) (of_Z (Z.of_nat (length involved))) in
  let credited :=
    if decide (q = Expense.payer exp) then parseFloat (Expense.amount exp) else zero in
  read (balances participants [exp]) q =
  Num (if decide (q ∈ involved) then sub credited share else credited).
Proof.
  intros Hinv Hne Hnd Hq Hqp. cbn zeta. unfold balances. cbn [fold_left]. unfold add_expense.
  rewrite Hinv. destruct involved as [|p0 inv0] eqn:E; [congruence|]. rewrite <- E in *.
  cbn zeta. rewrite read_debits by assumption.
  set (bal := fold_left (fun bal p => assign bal p (Num zero)) participants []).
  assert (Hown : read bal q = Num zero).
  { apply read_own. unfold bal. rewrite roster_own by exact Hqp.
    rewrite decide_True by exact Hq. reflexivity. }
  assert (Hpay : read (assign bal (Expense.payer exp)
                         (addition (read bal (Expense.payer exp))
                            (parseFloat (Expense.amount exp)))) q =
                 Num (if decide (q = Expense.payer exp) then parseFloat (Expense.amount exp)
                      else zero)).
  { destruct (decide (q = Expense.payer exp)) as [Hqe|Hqe].
    - rewrite <- Hqe. rewrite read_assign_eq by (left; exact Hqp). rewrite Hown.
      cbn [addition]. rewrite add_zero_parseFloat. reflexivity.
    - rewrite read_assign_ne by congruence. exact Hown. }
  rewrite Hpay. unfold subtraction. cbn [ToNumber].
  destruct (decide (q ∈ involved)); reflexivity.
Qed.

Lemma share_conservation_witness :
  Expense.involved dinner = Some roster /\ roster <> [] /\ NoDup roster /\
  "A"%string ∈ roster /\ "A"%string <> proto /\
  read (balances roster [dinner]) "A"%string = Num (sub (of_Z 30) (of_Z 10)).
Proof.
  assert (Hne : roster <> []) by discriminate.
  assert (Hnd : NoDup roster).
  { apply (bool_decide_unpack _). vm_compute. exact I. }
  assert (Hq : "A"%string ∈ roster) by in_list.
  assert (Hp : "A"%string <> proto) by discriminate.
  split; [reflexivity|]. split; [exact Hne|]. split; [exact Hnd|]. split; [exact Hq|].
  split; [exact Hp|].
  rewrite (share_conservation roster dinner roster "A"%string eq_refl Hne Hnd Hq Hp).
  vm_compute. reflexivity.
Defined.

(** ** Settlement conservation *)

(** When A is owed 10 and nobody owes anything, no transaction is
    returned, so the amounts add up to 0 while the total credit is 10. *)
Lemma lone_creditor_unpaid :
  calculateSettlements 2 lone_creditor = Some [] /\
  within_cent (sub (sum_amounts []) (total_credit lone_creditor)) = false.
Proof. split; [apply lone_creditor_returns | vm_compute; reflexivity]. Qed.

(** C4 fails on balances in which the debts cover the credits: with the
    balances of the three coffees of 0.02 above, which add up to zero to the
    tolerance, the test of line 210 passes Lillian and Ruben when each
    still owes 0.01, so the two transactions returned add up to 0.04 while
    the total credit is 0.06. *)
Theorem cents_underpaid :
  numbers (balances Page.DEFAULT_PARTICIPANTS coffees) = cents /\
  calculateSettlements 9 cents = Some two_paid /\
  sum_amounts two_paid = of_cents 4 /\
  total_credit cents = of_cents 6 /\
  within_cent (sub (of_cents 4) (of_cents 6)) = false.
Proof. repeat split; vm_compute; reflexivity. Qed.

(** ** The number of transactions *)

(** C5 as stated fails: with balances of 10^307 and -10^307 there is one
    debtor and one creditor, so at most one transaction is promised; after
    two executions of the loop body two transactions have been pushed and
    the loop is still running. *)
Lemma overflowing_exceeds_bound :
  length (separate overflowing).1 + length (separate overflowing).2 - 1 <
    length (transactions (loop 2 (start overflowing))) /\
  running (loop 2 (start overflowing)) = true.
Proof. split; vm_compute; [lia | reflexivity]. Qed.

(** C5 (amended): for every balance map whose rounded balances are all
    finite, settle returns at most |debtors| + |creditors| - 1 transactions
    (none when both lists are empty), the debtors being the participants
    whose rounded balance is below -0.01 and the creditors those whose
    rounded balance is above 0.01. *)
Theorem transactions_bounded (balances : object) (fuel : nat) :
  Forall (fun entry => infinite (rounded entry.2) = false) balances ->
  length (separate balances).1 + length (separate balances).2 <= S fuel ->
  exists txs,
    calculateSettlements fuel balances = Some txs /\
    length txs <= length (separate balances).1 + length (separate balances).2 - 1.
Proof.
  intros Hfin Hfuel. destruct (loop_finished balances fuel Hfin) as [Hrun Hlen].
  unfold calculateSettlements. cbn zeta. rewrite (Hrun Hfuel).
  eexists. split; [reflexivity | exact Hlen].
Qed.

Lemma couple_finite : Forall (fun entry => infinite (rounded entry.2) = false) couple.
Proof. repeat (apply Forall_cons_2; [vm_compute; reflexivity|]). apply Forall_nil_2. Qed.

Lemma transactions_bounded_witness :
  Forall (fun entry => infinite (rounded entry.2) = false) couple /\
  length (separate couple).1 + length (separate couple).2 <= 2 /\
  exists txs,
    calculateSettlements 1 couple = Some txs /\
    length txs <= length (separate couple).1 + length (separate couple).2 - 1.
Proof.
  assert (Hf : length (separate couple).1 + length (separate couple).2 <= 2)
    by (vm_compute; lia).
  split; [exact couple_finite|]. split; [exact Hf|].
  exact (transactions_bounded couple 1 couple_finite Hf).
Defined.

(** ** Termination *)

(** C6 as stated fails: with balances of 10^307 and -10^307 the rounded
    balances are Infinity and -Infinity, the first matching leaves NaN in
    both entries, no cursor ever moves, and the loop never ends. *)
Lemma overflowing_never_returns : never_returns overflowing.
Proof. intros fuel. apply overflowing_loops. Qed.

Lemma loop_stable (n fuel : nat) (st : state) :
  running (loop n st) = false -> n <= fuel -> loop fuel st = loop n st.
Proof.
  revert fuel st. induction n as [|n IH]; intros fuel st Hrun Hle.
  - cbn [loop] in *. apply loop_not_running, Hrun.
  - destruct fuel as [|fuel]; [lia|]. cbn [loop] in *.
    destruct (running st); [apply IH; [exact Hrun | lia] | reflexivity].
Qed.

(** C6 (amended): for every balance map whose rounded balances are all
    finite, the matching loop ends after at most |debtors| + |creditors| - 1
    executions of its body, with a cursor at the end of its list. *)
Theorem loop_terminates (balances : object) :
  Forall (fun entry => infinite (rounded entry.2) = false) balances ->
  exists n,
    n <= length (separate balances).1 + length (separate balances).2 - 1 /\
    running (loop n (start balances)) = false /\
    (length (debtors (loop n (start balances))) <= i (loop n (start balances)) \/
     length (creditors (loop n (start balances))) <= j (loop n (start balances))) /\
    forall fuel, n <= fuel -> loop fuel (start balances) = loop n (start balances).
Proof.
  intros Hfin.
  exists (length (separate balances).1 + length (separate balances).2 - 1).
  assert (Hrun : running (loop (length (separate balances).1 + length (separate balances).2 - 1)
                            (start balances)) = false).
  { destruct (running (start balances)) eqn:Hrun; [|rewrite loop_not_running; assumption].
    destruct (start_lengths balances) as (Hd & Hc & Hi & Hj & _).
    pose proof (proj1 (running_true _) Hrun) as [Hid Hjc].
    apply (loop_bound debt credit matching_finite _ _ (start_ahead balances Hfin) Hrun).
    unfold remaining. lia. }
  split; [lia|]. split; [exact Hrun|]. split; [apply running_false, Hrun|].
  intros fuel Hle. apply loop_stable; assumption.
Qed.

Lemma loop_terminates_witness :
  Forall (fun entry => infinite (rounded entry.2) = false) couple /\
  exists n,
    n <= length (separate couple).1 + length (separate couple).2 - 1 /\
    running (loop n (start couple)) = false /\
    (length (debtors (loop n (start couple))) <= i (loop n (start couple)) \/
     length (creditors (loop n (start couple))) <= j (loop n (start couple))) /\
    forall fuel, n <= fuel -> loop fuel (start couple) = loop n (start couple).
Proof. split; [exact couple_finite | exact (loop_terminates couple couple_finite)]. Defined.

(** ** Balanced input *)

(** C7: if every balance is within 0.01 of zero, settle returns the empty
    list, without entering the loop ([valid] holds of every number the
    program can compute). *)
Theorem balanced_no_transactions (balances : object) (fuel : nat) :
  Forall (fun entry => valid entry.2 = true /\ within_cent entry.2 = true) balances ->
  calculateSettlements fuel balances = Some [].
Proof.
  intros H. unfold calculateSettlements, start. rewrite (separate_settled balances H).
  cbn [sort foldr]. rewrite loop_not_running by reflexivity. reflexivity.
Qed.

Lemma balanced_no_transactions_witness :
  Forall (fun entry => valid entry.2 = true /\ within_cent entry.2 = true) balanced /\
  calculateSettlements 0 balanced = Some [].
Proof.
  assert (H : Forall (fun entry => valid entry.2 = true /\ within_cent entry.2 = true) balanced).
  { repeat (apply Forall_cons_2; [split; vm_compute; reflexivity|]). apply Forall_nil_2. }
  split; [exact H | exact (balanced_no_transactions balanced 0 H)].
Defined.

(** ** Expenses with nobody involved *)

(** C8: an expense whose involved set is empty contributes nothing: the
    balances over a list that contains it are those over the list without
    it. *)
Theorem empty_involved_skipped (participants : list string) (l1 l2 : list Expense.t)
    (exp : Expense.t) :
  Expense.involved exp = Some [] ->
  balances participants (l1 ++ exp :: l2) = balances participants (l1 ++ l2).
Proof.
  intros H. rewrite !balances_app. cbn [fold_left].
  rewrite (add_expense_skipped _ _ H). reflexivity.
Qed.

Lemma empty_involved_skipped_witness :
  Expense.involved nobody = Some [] /\
  balances roster ([dinner] ++ nobody :: []) = balances roster ([dinner] ++ []).
Proof. split; [reflexivity | exact (empty_involved_skipped roster [dinner] [] nobody eq_refl)]. Defined.

(** ** The amounts printed *)

(** C9 as stated fails: with balances of 10^22 and -10^22 the one transaction
    has the amount "1e+22", which is not a decimal with two decimal
    places. *)
Lemma huge_amount_in_exponent_notation :
  calculateSettlements 1 huge = Some [Transaction.Build_t "B" "A" "1e+22"] /\
  hundredths "1e+22" = None.
Proof. split; vm_compute; reflexivity. Qed.

(** C9 (amended): for every balance map whose rounded balances are below
    10^21 in magnitude, every transaction returned has an amount that is a
    positive number of hundredths printed as a decimal with exactly two
    decimal places. *)
Theorem amounts_two_decimals (balances : object) (fuel : nat) :
  Forall (fun entry => lt (Math_abs (rounded entry.2)) sextillion = true) balances ->
  length (separate balances).1 + length (separate balances).2 <= S fuel ->
  exists txs,
    calculateSettlements fuel balances = Some txs /\
    Forall (fun tx => exists n : N, hundredths (Transaction.amount tx) = Some n /\ (0 < n)%N)
      txs.
Proof.
  intros Hsmall Hfuel.
  assert (Hfin : Forall (fun entry => infinite (rounded entry.2) = false) balances).
  { eapply Forall_impl; [exact Hsmall|]. intros [p v] Hv. cbn [snd] in *.
    destruct (rounded v) as [s|s| |s m e]; try reflexivity.
    rewrite sextillion_eq in Hv. discriminate. }
  destruct (loop_finished balances fuel Hfin) as [Hrun _].
  unfold calculateSettlements. cbn zeta. rewrite (Hrun Hfuel).
  eexists. split; [reflexivity|].
  apply Forall_forall. intros tx Htx. exact (amounts_fixed balances fuel tx Hsmall Htx).
Qed.

Lemma amounts_two_decimals_witness :
  Forall (fun entry => lt (Math_abs (rounded entry.2)) sextillion = true) couple /\
  length (separate couple).1 + length (separate couple).2 <= 2 /\
  exists txs,
    calculateSettlements 1 couple = Some txs /\
    Forall (fun tx => exists n : N, hundredths (Transaction.amount tx) = Some n /\ (0 < n)%N)
      txs.
Proof.
  assert (Hs : Forall (fun entry => lt (Math_abs (rounded entry.2)) sextillion = true) couple).
  { repeat (apply Forall_cons_2; [vm_compute; reflexivity|]). apply Forall_nil_2. }
  assert (Hf : length (separate couple).1 + length (separate couple).2 <= 2)
    by (vm_compute; lia).
  split; [exact Hs|]. split; [exact Hf|]. exact (amounts_two_decimals couple 1 Hs Hf).
Defined.

(** ** Who pays whom *)

(** C10: no rounded balance is both below -0.01 and above 0.01, so nobody
    is both in the debtor and in the creditor array, and in every transaction
    the loop pushes [from] is distinct from [to]. *)
Theorem from_distinct_from_to (balances : object) :
  NoDup (map fst balances) ->
  (forall x, lt x (neg cent) = true -> lt cent x = false) /\
  (forall p, p ∈ persons (separate balances).1 -> p ∉ persons (separate balances).2) /\
  forall fuel tx, tx ∈ transactions (loop fuel (start balances)) ->
    Transaction.from tx <> Transaction.to tx.
Proof.
  intros Hnd. split; [exact lt_exclusive|]. split.
  - rewrite separate_omap. cbn [fst snd]. intros p Hd Hc.
    apply elem_of_omap_listed_debtor in Hd as (b & Hb & Hlt).
    apply elem_of_omap_listed_creditor in Hc as (b' & Hb' & Hlt').
    rewrite (NoDup_fst_agree balances _ b b' Hnd Hb Hb') in Hlt.
    rewrite (lt_exclusive _ Hlt) in Hlt'. discriminate.
  - intros fuel tx Htx.
    pose proof (loop_persons fuel (start balances)) as H.
    rewrite start_eq in H, Htx. cbn [debtors creditors transactions] in H.
    specialize (H (Forall_nil_2 _)). rewrite Forall_forall in H.
    destruct (H tx Htx) as [Hfrom Hto].
    unfold persons in Hfrom, Hto.
    rewrite sort_perm in Hfrom. rewrite sort_perm in Hto.
    apply elem_of_omap_listed_debtor in Hfrom as (b & Hb & Hlt).
    apply elem_of_omap_listed_creditor in Hto as (b' & Hb' & Hlt').
    intros Heq. rewrite Heq in Hb.
    rewrite (NoDup_fst_agree balances _ b b' Hnd Hb Hb') in Hlt.
    rewrite (lt_exclusive _ Hlt) in Hlt'. discriminate.
Qed.

Lemma from_distinct_from_to_witness :
  NoDup (map fst couple) /\
  (forall x, lt x (neg cent) = true -> lt cent x = false) /\
  (forall p, p ∈ persons (separate couple).1 -> p ∉ persons (separate couple).2) /\
  forall fuel tx, tx ∈ transactions (loop fuel (start couple)) ->
    Transaction.from tx <> Transaction.to tx.
Proof. split; [exact couple_keys | exact (from_distinct_from_to couple couple_keys)]. Defined.

End Claims.

(** * The order of the numbers

    Comparing two numbers other than NaN is comparing their ranks, and a
    difference is positive exactly when it is a difference of a larger and
    a smaller number. *)

Module Order.
Import Js App Entries Format Terms Binary64 Rounding.
Local Open Scope Z_scope.

Lemma sv_finite_bound (m : positive) (e : Z) :
  bounded m e = true -> 0 < Zpos m * 2 ^ (e + 1074) < 2 ^ 2100.
Proof.
  intros Hb. destruct (bounded_inv _ _ Hb) as [[He1 He2] [Hm _]].
  pose proof (pow2_pos (e + 1074) ltac:(lia)) as Hp.
  split; [lia|].
  apply Z.lt_le_trans with (2 ^ 53 * 2 ^ (e + 1074)).
  - apply Z.mul_lt_mono_pos_r; lia.
  - rewrite <- Z.pow_add_r by lia. apply pow2_le. lia.
Qed.

Lemma compare_cont_Eq (m1 m2 : positive) : Pos.compare_cont Eq m1 m2 = (Zpos m1 ?= Zpos m2).
Proof. reflexivity. Qed.

Lemma value_compare (m1 : positive) (e1 : Z) (m2 : positive) (e2 : Z) :
  bounded m1 e1 = true -> bounded m2 e2 = true ->
  (Zpos m1 * 2 ^ (e1 + 1074) ?= Zpos m2 * 2 ^ (e2 + 1074)) =
  match e1 ?= e2 with Lt => Lt | Gt => Gt | Eq => (Zpos m1 ?= Zpos m2) end.
Proof.
  intros H1 H2.
  destruct (bounded_inv _ _ H1) as [[Ha1 _] _], (bounded_inv _ _ H2) as [[Ha2 _] _].
  destruct (Z.compare_spec e1 e2) as [He|He|He].
  - subst e2. pose proof (pow2_pos (e1 + 1074) ltac:(lia)) as Hp.
    destruct (Z.compare_spec (Zpos m1) (Zpos m2)) as [Hm|Hm|Hm].
    + rewrite Hm. apply Z.compare_refl.
    + apply Z.compare_lt_iff. apply Z.mul_lt_mono_pos_r; assumption.
    + apply Z.compare_gt_iff. apply Z.mul_lt_mono_pos_r; assumption.
  - apply Z.compare_lt_iff.
    pose proof (bounded_lt_value m1 e1 m2 e2 (-1074) H1 H2 (or_introl He) Ha1 Ha2) as H.
    replace (e1 - -1074) with (e1 + 1074) in H by lia.
    replace (e2 - -1074) with (e2 + 1074) in H by lia. exact H.
  - apply Z.compare_gt_iff.
    pose proof (bounded_lt_value m2 e2 m1 e1 (-1074) H2 H1 (or_introl He) Ha2 Ha1) as H.
    replace (e1 - -1074) with (e1 + 1074) in H by lia.
    replace (e2 - -1074) with (e2 + 1074) in H by lia. exact H.
Qed.

(** Comparing two numbers is comparing their ranks. *)
Lemma compare_rank (x y : number) :
  valid x = true -> valid y = true -> x <> NaN -> y <> NaN ->
  SFcompare x y = Some (rank x ?= rank y).
Proof.
  intros Hx Hy Nx Ny.
  destruct x as [sx|sx| |sx mx ex]; [| | exfalso; apply Nx; reflexivity |];
    (destruct y as [sy|sy| |sy my ey]; [| | exfalso; apply Ny; reflexivity |]).
  - reflexivity.
  - destruct sy; reflexivity.
  - pose proof (sv_finite_bound _ _ Hy) as Hb.
    cbn [SFcompare rank sv]. f_equal. symmetry.
    destruct sy; cbn [cond_Zopp]; [apply Z.compare_gt_iff | apply Z.compare_lt_iff]; lia.
  - destruct sx; reflexivity.
  - destruct sx, sy; reflexivity.
  - pose proof (sv_finite_bound _ _ Hy) as Hb.
    cbn [SFcompare rank sv]. f_equal. symmetry.
    destruct sx, sy; cbn [cond_Zopp];
      try (apply Z.compare_gt_iff; lia); apply Z.compare_lt_iff; lia.
  - pose proof (sv_finite_bound _ _ Hx) as Hb.
    cbn [SFcompare rank sv]. f_equal. symmetry.
    destruct sx; cbn [cond_Zopp]; [apply Z.compare_lt_iff | apply Z.compare_gt_iff]; lia.
  - pose proof (sv_finite_bound _ _ Hx) as Hb.
    cbn [SFcompare rank sv]. f_equal. symmetry.
    destruct sx, sy; cbn [cond_Zopp];
      try (apply Z.compare_gt_iff; lia); apply Z.compare_lt_iff; lia.
  - pose proof (sv_finite_bound _ _ Hx) as Hbx. pose proof (sv_finite_bound _ _ Hy) as Hby.
    cbn [SFcompare rank sv]. f_equal.
    destruct sx, sy; cbn [cond_Zopp].
    + rewrite Z.compare_opp, (value_compare my ey mx ex Hy Hx), compare_cont_Eq.
      rewrite (Z.compare_antisym ex ey), (Z.compare_antisym (Zpos mx) (Zpos my)).
      destruct (ex ?= ey); reflexivity.
    + symmetry. apply Z.compare_lt_iff. lia.
    + symmetry. apply Z.compare_gt_iff. lia.
    + rewrite (value_compare mx ex my ey Hx Hy), compare_cont_Eq. reflexivity.
Qed.

Lemma lt_rank (x y : number) :
  valid x = true -> valid y = true -> x <> NaN -> y <> NaN ->
  lt x y = (rank x <? rank y).
Proof.
  intros Hx Hy Nx Ny. unfold lt, SFltb. rewrite (compare_rank x y Hx Hy Nx Ny).
  unfold Z.ltb. destruct (rank x ?= rank y); reflexivity.
Qed.

Lemma le_rank (x y : number) :
  valid x = true -> valid y = true -> x <> NaN -> y <> NaN ->
  le x y = (rank x <=? rank y).
Proof.
  intros Hx Hy Nx Ny. unfold le, SFleb. rewrite (compare_rank x y Hx Hy Nx Ny).
  unfold Z.leb. destruct (rank x ?= rank y); reflexivity.
Qed.

(** Numbers that are equal have one rank. *)
Lemma strict_eq_rank (x y : number) : strict_eq x y = true -> rank x = rank y.
Proof.
  unfold strict_eq, SFeqb.
  destruct x as [sx|sx| |sx mx ex], y as [sy|sy| |sy my ey]; cbn [SFcompare]; intros H;
    try discriminate H; try reflexivity.
  - destruct sy; discriminate H.
  - destruct sy; discriminate H.
  - destruct sx; discriminate H.
  - destruct sx, sy; try discriminate H; reflexivity.
  - destruct sx; discriminate H.
  - destruct sx; discriminate H.
  - destruct sy; discriminate H.
  - destruct sx, sy; try discriminate H.
    + destruct (Z.compare_spec ex ey) as [->|?|?]; try discriminate H.
      rewrite compare_cont_Eq in H.
      destruct (Z.compare_spec (Zpos mx) (Zpos my)) as [Hm|?|?]; try discriminate H.
      injection Hm as ->. reflexivity.
    + destruct (Z.compare_spec ex ey) as [->|?|?]; try discriminate H.
      rewrite compare_cont_Eq in H.
      destruct (Z.compare_spec (Zpos mx) (Zpos my)) as [Hm|?|?]; try discriminate H.
      injection Hm as ->. reflexivity.
Qed.

(** Rounding never takes a value other than zero to zero: the least
    positive number is a value of the format. *)
Lemma binary_round_nonzero (s : bool) (mx : positive) (ex : Z) :
  - 1074 <= ex -> binary_round 53 1024 s mx ex <> S754_zero s.
Proof.
  intros Hex.
  destruct (binary_round_aux_eq s mx ex) as (mz & ez & Heq & Hle & Hmz & Hfexp & Hpre).
  rewrite Heq.
  destruct (round_aux_spec s (Zpos mz) ez loc_Exact) as (m2 & Hm2 & _ & Hres);
    [lia | exact Hpre |].
  destruct Hres as [[Hz _]|(m3 & e3 & _ & _ & _ & _ & ->)];
    [|destruct (e3 <=? 971); discriminate].
  exfalso.
  pose proof (shifted_slot (Zpos mz) ez ltac:(lia) Hpre) as Hslot. cbn zeta in Hslot.
  cbn [Zdigits2] in *.
  set (e1 := fexp (Zpos (digits2_pos mz) + ez)) in *.
  assert (Hq : 0 <= Zpos mz / 2 ^ (e1 - ez)) by (apply Z.div_pos; [lia | apply pow2_pos; lia]).
  destruct Hslot as [[Hm1 He1]|[Hm1 _]]; [|lia].
  assert (Hlt : Zpos mz < 2 ^ (e1 - ez)).
  { apply Z.div_small_iff in Hm1; [|pose proof (pow2_pos (e1 - ez) ltac:(lia)); lia].
    destruct Hm1 as [Hm1|Hm1]; [lia|]. pose proof (pow2_pos (e1 - ez) ltac:(lia)). lia. }
  assert (Hge : 2 ^ (e1 - ez) <= Zpos mz).
  { rewrite Hmz. apply Z.le_trans with (1 * 2 ^ (ex - ez)).
    - rewrite Z.mul_1_l. apply pow2_le. lia.
    - apply Z.mul_le_mono_nonneg_r; [|lia]. pose proof (pow2_pos (ex - ez) ltac:(lia)). lia. }
  lia.
Qed.

(** The sign of a normalised integer is the sign of the integer. *)
Lemma normalize_positive (z e : Z) :
  - 1074 <= e -> lt zero (binary_normalize 53 1024 z e false) = (0 <? z).
Proof.
  intros He. destruct (Z.eq_dec z 0) as [->|Hz]; [reflexivity|].
  pose proof (binary_normalize_good z e) as Hg.
  pose proof (binary_round_nonzero (z <? 0) (Z.to_pos (Z.abs z)) e He) as Hnz.
  rewrite <- (binary_normalize_nonzero z e Hz) in Hnz.
  destruct Hg as [Hg|[Hg|(m & e' & Hg & _)]]; [contradiction| |]; rewrite Hg.
  - destruct (Z.ltb_spec z 0), (Z.ltb_spec 0 z); try reflexivity; lia.
  - destruct (Z.ltb_spec z 0), (Z.ltb_spec 0 z); try reflexivity; lia.
Qed.

(** [x - y > 0] exactly when [x > y]; the difference of two infinities of
    one sign, which is NaN, is not positive. *)
Lemma sub_positive (x y : number) :
  valid x = true -> valid y = true -> x <> NaN -> y <> NaN ->
  lt zero (sub x y) = lt y x.
Proof.
  intros Hx Hy Nx Ny. rewrite (lt_rank y x Hy Hx Ny Nx).
  destruct x as [sx|sx| |sx mx ex]; [| | exfalso; apply Nx; reflexivity |];
    (destruct y as [sy|sy| |sy my ey]; [| | exfalso; apply Ny; reflexivity |]).
  - destruct sx, sy; reflexivity.
  - destruct sx, sy; reflexivity.
  - pose proof (sv_finite_bound _ _ Hy) as Hb. cbn [sub SFsub rank sv].
    destruct sy; cbn [cond_Zopp negb]; symmetry;
      [apply Z.ltb_lt | apply Z.ltb_ge]; cbn; lia.
  - destruct sx, sy; reflexivity.
  - destruct sx, sy; reflexivity.
  - pose proof (sv_finite_bound _ _ Hy) as Hb. cbn [sub SFsub rank sv].
    destruct sx, sy; cbn [cond_Zopp]; symmetry;
      try (apply Z.ltb_lt; lia); apply Z.ltb_ge; lia.
  - pose proof (sv_finite_bound _ _ Hx) as Hb. cbn [sub SFsub rank sv].
    destruct sx; cbn [cond_Zopp]; symmetry; [apply Z.ltb_ge | apply Z.ltb_lt]; cbn; lia.
  - pose proof (sv_finite_bound _ _ Hx) as Hb. cbn [sub SFsub rank sv].
    destruct sx, sy; cbn [cond_Zopp]; symmetry;
      try (apply Z.ltb_lt; lia); apply Z.ltb_ge; lia.
  - rewrite sub_finite.
    destruct (bounded_inv _ _ Hx) as [[Hex _] _], (bounded_inv _ _ Hy) as [[Hey _] _].
    rewrite normalize_positive by lia.
    cbn [rank].
    rewrite <- (sv_finite sx mx ex (Z.min ex ey)) by lia.
    rewrite <- (sv_finite sy my ey (Z.min ex ey)) by lia.
    pose proof (pow2_pos (Z.min ex ey + 1074) ltac:(lia)) as Hp.
    set (a := cond_Zopp sx (Zpos mx * 2 ^ (ex - Z.min ex ey))).
    set (b := cond_Zopp sy (Zpos my * 2 ^ (ey - Z.min ex ey))).
    destruct (Z.ltb_spec 0 (a - b)),
      (Z.ltb_spec (b * 2 ^ (Z.min ex ey + 1074)) (a * 2 ^ (Z.min ex ey + 1074)));
      try reflexivity; exfalso.
    + assert (b < a) by lia.
      pose proof (Z.mul_lt_mono_pos_r (2 ^ (Z.min ex ey + 1074)) b a Hp). lia.
    + assert (a <= b) by lia.
      pose proof (Z.mul_le_mono_nonneg_r a b (2 ^ (Z.min ex ey + 1074)) ltac:(lia)). lia.
Qed.

End Order.

(** * Sorting

    [Array_sort] rearranges its argument, puts it in the order of the
    comparison function and keeps elements that compare equal in their
    order. *)

Module Sorting.
Import Js App Entries Format Loop Terms Binary64 Settlement Order.
Local Close Scope Z_scope.

Lemma sort_Array_sort (compare : Entry.t -> Entry.t -> number) (l : list Entry.t) :
  sort compare l = Array_sort compare l.
Proof.
  unfold sort, Array_sort. induction l as [|x l IH]; [reflexivity|]. cbn [foldr]. rewrite IH.
  generalize (foldr (Array_insert compare) [] l). intros s.
  induction s as [|y s IHs]; [reflexivity|]. cbn [insert Array_insert]. rewrite IHs. reflexivity.
Qed.

Lemma StronglySorted_weaken {A} (R R' : A -> A -> Prop) (l : list A) :
  (forall a b, a ∈ l -> b ∈ l -> R a b -> R' a b) ->
  StronglySorted R l -> StronglySorted R' l.
Proof.
  intros HR Hs. induction Hs as [|x l Hs IH Hx]; constructor.
  - apply IH. intros a b Ha Hb. apply HR; right; assumption.
  - rewrite Forall_forall in Hx |- *. intros y Hy.
    apply HR; [left | right; exact Hy | exact (Hx y Hy)].
Qed.

Section Sorting.
Context {A : Type}.
Variable compare : A -> A -> number.
Variable place : A -> Z.

Local Abbreviation ordered_by := (Terms.ordered_by compare place).

Lemma ordered_by_cons (x : A) (l : list A) : ordered_by (x :: l) -> ordered_by l.
Proof. intros H a b Ha Hb. apply H; right; assumption. Qed.

Lemma Array_insert_perm (x : A) (l : list A) : Array_insert compare x l ≡ₚ x :: l.
Proof.
  induction l as [|y l IH]; [reflexivity|]. cbn [Array_insert].
  destruct (lt zero (compare x y)); [|reflexivity].
  rewrite IH. apply Permutation_swap.
Qed.

Lemma Array_sort_perm (l : list A) : Array_sort compare l ≡ₚ l.
Proof.
  induction l as [|x l IH]; [reflexivity|].
  unfold Array_sort. cbn [foldr]. fold (Array_sort compare l).
  rewrite Array_insert_perm, IH. reflexivity.
Qed.

Lemma ordered_by_sorted (x : A) (l : list A) :
  ordered_by (x :: l) -> ordered_by (x :: Array_sort compare l).
Proof.
  intros H a b Ha Hb. apply H.
  - apply elem_of_cons in Ha as [->|Ha]; [left | right; rewrite <- (Array_sort_perm l); exact Ha].
  - apply elem_of_cons in Hb as [->|Hb]; [left | right; rewrite <- (Array_sort_perm l); exact Hb].
Qed.

Lemma Array_insert_sorted (x : A) (l : list A) :
  ordered_by (x :: l) ->
  StronglySorted (fun a b => (place a <= place b)%Z) l ->
  StronglySorted (fun a b => (place a <= place b)%Z) (Array_insert compare x l).
Proof.
  intros Hord Hs. induction Hs as [|y l Hs IH Hy].
  - repeat constructor.
  - cbn [Array_insert].
    assert (Hxy : lt zero (compare x y) = (place y <? place x)%Z).
    { apply Hord; [left | right; left]. }
    rewrite Hxy. destruct (Z.ltb_spec (place y) (place x)) as [Hlt|Hge].
    + constructor.
      * apply IH. intros a b Ha Hb. apply Hord.
        -- apply elem_of_cons in Ha as [->|Ha]; [left | right; right; exact Ha].
        -- apply elem_of_cons in Hb as [->|Hb]; [left | right; right; exact Hb].
      * rewrite Forall_forall. intros z Hz.
        rewrite (Array_insert_perm x l) in Hz.
        apply elem_of_cons in Hz as [->|Hz]; [lia|].
        rewrite Forall_forall in Hy. apply Hy. exact Hz.
    + constructor; [constructor; assumption|].
      constructor; [exact Hge|].
      rewrite Forall_forall in Hy |- *. intros z Hz. specialize (Hy z Hz). lia.
Qed.

(** The sorted array is in the order of the places. *)
Lemma Array_sort_sorted (l : list A) :
  ordered_by l -> StronglySorted (fun a b => (place a <= place b)%Z) (Array_sort compare l).
Proof.
  induction l as [|x l IH]; intros Hord; [constructor|].
  unfold Array_sort. cbn [foldr]. fold (Array_sort compare l).
  apply Array_insert_sorted; [apply ordered_by_sorted, Hord | apply IH, (ordered_by_cons x), Hord].
Qed.

Lemma Array_insert_filter (P : A -> bool) (x : A) (l : list A) :
  ordered_by (x :: l) ->
  (forall a b, P a = true -> P b = true -> place a = place b) ->
  List.filter P (Array_insert compare x l) = List.filter P (x :: l).
Proof.
  intros Hord HP. induction l as [|y l IH]; [reflexivity|].
  cbn [Array_insert].
  assert (Hxy : lt zero (compare x y) = (place y <? place x)%Z).
  { apply Hord; [left | right; left]. }
  rewrite Hxy. destruct (Z.ltb_spec (place y) (place x)) as [Hlt|Hge]; [|reflexivity].
  cbn [List.filter]. rewrite IH.
  - cbn [List.filter]. destruct (P x) eqn:Hx, (P y) eqn:Hy; try reflexivity.
    pose proof (HP x y Hx Hy). lia.
  - intros a b Ha Hb. apply Hord.
    + apply elem_of_cons in Ha as [->|Ha]; [left | right; right; exact Ha].
    + apply elem_of_cons in Hb as [->|Hb]; [left | right; right; exact Hb].
Qed.

(** The sort is stable: elements of one place keep their order. *)
Lemma Array_sort_stable (P : A -> bool) (l : list A) :
  ordered_by l ->
  (forall a b, P a = true -> P b = true -> place a = place b) ->
  List.filter P (Array_sort compare l) = List.filter P l.
Proof.
  intros Hord HP. induction l as [|x l IH]; [reflexivity|].
  unfold Array_sort. cbn [foldr]. fold (Array_sort compare l).
  rewrite Array_insert_filter; [|apply ordered_by_sorted, Hord | exact HP].
  cbn [List.filter]. rewrite IH; [reflexivity|]. apply (ordered_by_cons x), Hord.
Qed.

End Sorting.

(** ** The two arrays of [calculateSettlements] *)

Lemma listed_debtor_numbered (entry : string * number) (e : Entry.t) :
  listed_debtor entry = Some e -> numbered e.
Proof.
  unfold listed_debtor. destruct (lt (rounded entry.2) (neg cent)) eqn:Hlt; [|discriminate].
  intros [= <-]. split; cbn [Entry.amount]; [apply rounded_valid|].
  intros Hn. rewrite Hn in Hlt. discriminate.
Qed.

Lemma listed_creditor_numbered (entry : string * number) (e : Entry.t) :
  listed_creditor entry = Some e -> numbered e.
Proof.
  unfold listed_creditor. destruct (lt cent (rounded entry.2)) eqn:Hlt; [|discriminate].
  intros [= <-]. split; cbn [Entry.amount]; [apply rounded_valid|].
  intros Hn. rewrite Hn in Hlt. rewrite cent_eq in Hlt. discriminate.
Qed.

Lemma separate_numbered (balances : object) :
  Forall numbered (omap listed_debtor balances) /\
  Forall numbered (omap listed_creditor balances).
Proof.
  split; rewrite Forall_forall; intros e He;
    apply list_elem_of_omap in He as (entry & _ & He).
  - exact (listed_debtor_numbered entry e He).
  - exact (listed_creditor_numbered entry e He).
Qed.

Lemma ascending_ordered (l : list Entry.t) :
  Forall numbered l -> Terms.ordered_by ascending (fun e => rank (Entry.amount e)) l.
Proof.
  rewrite Forall_forall. intros Hl x y Hx Hy.
  destruct (Hl x Hx) as [Vx Nx], (Hl y Hy) as [Vy Ny].
  unfold ascending. rewrite sub_positive by assumption. apply lt_rank; assumption.
Qed.

Lemma descending_ordered (l : list Entry.t) :
  Forall numbered l -> Terms.ordered_by descending (fun e => (- rank (Entry.amount e))%Z) l.
Proof.
  rewrite Forall_forall. intros Hl x y Hx Hy.
  destruct (Hl x Hx) as [Vx Nx], (Hl y Hy) as [Vy Ny].
  unfold descending. rewrite sub_positive by assumption.
  rewrite lt_rank by assumption.
  destruct (Z.ltb_spec (rank (Entry.amount x)) (rank (Entry.amount y))),
    (Z.ltb_spec (- rank (Entry.amount y)) (- rank (Entry.amount x))); try reflexivity; lia.
Qed.

Lemma sorted_ascending (l : list Entry.t) :
  Forall numbered l ->
  StronglySorted (fun a b => le (Entry.amount a) (Entry.amount b) = true) (sort ascending l).
Proof.
  intros Hl. rewrite sort_Array_sort.
  apply (StronglySorted_weaken (fun a b => (rank (Entry.amount a) <= rank (Entry.amount b))%Z)).
  - intros a b Ha Hb Hab. rewrite Array_sort_perm in Ha, Hb.
    rewrite Forall_forall in Hl. destruct (Hl a Ha) as [Va Na], (Hl b Hb) as [Vb Nb].
    rewrite le_rank by assumption. apply Z.leb_le. exact Hab.
  - apply Array_sort_sorted, ascending_ordered, Hl.
Qed.

Lemma sorted_descending (l : list Entry.t) :
  Forall numbered l ->
  StronglySorted (fun a b => le (Entry.amount b) (Entry.amount a) = true) (sort descending l).
Proof.
  intros Hl. rewrite sort_Array_sort.
  apply (StronglySorted_weaken
           (fun a b => (- rank (Entry.amount a) <= - rank (Entry.amount b))%Z)).
  - intros a b Ha Hb Hab. rewrite Array_sort_perm in Ha, Hb.
    rewrite Forall_forall in Hl. destruct (Hl a Ha) as [Va Na], (Hl b Hb) as [Vb Nb].
    rewrite le_rank by assumption. apply Z.leb_le. lia.
  - apply Array_sort_sorted, descending_ordered, Hl.
Qed.

Lemma stable_ascending (l : list Entry.t) (v : number) :
  Forall numbered l ->
  List.filter (fun e => strict_eq (Entry.amount e) v) (sort ascending l) =
  List.filter (fun e => strict_eq (Entry.amount e) v) l.
Proof.
  intros Hl. rewrite sort_Array_sort.
  apply (Array_sort_stable ascending (fun e => rank (Entry.amount e))).
  - apply ascending_ordered, Hl.
  - intros a b Ha Hb. rewrite (strict_eq_rank _ _ Ha), (strict_eq_rank _ _ Hb). reflexivity.
Qed.

Lemma stable_descending (l : list Entry.t) (v : number) :
  Forall numbered l ->
  List.filter (fun e => strict_eq (Entry.amount e) v) (sort descending l) =
  List.filter (fun e => strict_eq (Entry.amount e) v) l.
Proof.
  intros Hl. rewrite sort_Array_sort.
  apply (Array_sort_stable descending (fun e => (- rank (Entry.amount e))%Z)).
  - apply descending_ordered, Hl.
  - intros a b Ha Hb. rewrite (strict_eq_rank _ _ Ha), (strict_eq_rank _ _ Hb). reflexivity.
Qed.

End Sorting.

(** * Who pays whom

    What the matching loop keeps: the lengths of the two arrays, cursors
    that only move forward, one transaction for each execution of the body,
    and no two transactions between the same two participants. *)

Module Pairs.
Import Js App Entries Format Loop Spec Terms Binary64 Matching Settlement.
Local Close Scope Z_scope.

Lemma transactions_listed (balances : object) (fuel : nat) :
  Forall (fun tx =>
            (exists b, (Transaction.from tx, b) ∈ balances /\ lt (rounded b) (neg cent) = true) /\
            (exists b, (Transaction.to tx, b) ∈ balances /\ lt cent (rounded b) = true))
    (transactions (loop fuel (start balances))).
Proof.
  pose proof (loop_persons fuel (start balances)) as H.
  rewrite start_eq in H |- *. cbn [debtors creditors transactions] in H.
  specialize (H (Forall_nil_2 _)).
  eapply Forall_impl; [exact H|]. cbn beta. intros tx [Hfrom Hto].
  unfold persons in Hfrom, Hto. rewrite sort_perm in Hfrom. rewrite sort_perm in Hto.
  split.
  - exact (elem_of_omap_listed_debtor balances _ Hfrom).
  - exact (elem_of_omap_listed_creditor balances _ Hto).
Qed.

Lemma step_counts (st : state) :
  running st = true ->
  length (debtors (step st)) = length (debtors st) /\
  length (creditors (step st)) = length (creditors st) /\
  i st <= i (step st) <= S (i st) /\ j st <= j (step st) <= S (j st) /\
  length (transactions (step st)) = S (length (transactions st)).
Proof.
  intros Hrun. destruct (step_eq st Hrun) as (d & c & _ & _ & ->).
  cbn [debtors creditors i j transactions].
  rewrite !length_insert, length_app. cbn [length].
  repeat split; try lia.
  - destruct (lt (Math_abs _) cent); lia.
  - destruct (lt (Math_abs _) cent); lia.
  - destruct (lt (sub _ _) cent); lia.
  - destruct (lt (sub _ _) cent); lia.
Qed.

Lemma loop_grows (fuel : nat) (st : state) :
  length (transactions st) <= length (transactions (loop fuel st)).
Proof.
  revert st. induction fuel as [|fuel IH]; intros st; cbn [loop]; [lia|].
  destruct (running st) eqn:Hrun; [|lia].
  destruct (step_counts st Hrun) as (_ & _ & _ & _ & Ht). specialize (IH (step st)). lia.
Qed.

Lemma loop_counts (fuel : nat) (st : state) :
  i st <= length (transactions st) -> j st <= length (transactions st) ->
  length (debtors (loop fuel st)) = length (debtors st) /\
  length (creditors (loop fuel st)) = length (creditors st) /\
  i (loop fuel st) <= length (transactions (loop fuel st)) /\
  j (loop fuel st) <= length (transactions (loop fuel st)).
Proof.
  revert st. induction fuel as [|fuel IH]; intros st Hi Hj.
  - cbn [loop]. repeat split; assumption.
  - cbn [loop]. destruct (running st) eqn:Hrun; [|repeat split; assumption].
    destruct (step_counts st Hrun) as (Hd & Hc & Hi' & Hj' & Ht).
    destruct (IH (step st)) as (Hd2 & Hc2 & Hi2 & Hj2); [lia | lia |].
    rewrite Hd2, Hc2. repeat split; assumption.
Qed.

(** No transaction is returned exactly when one of the two arrays is
    empty. *)
Lemma returns_nothing (fuel : nat) (balances : object) :
  calculateSettlements fuel balances = Some [] <->
  (separate balances).1 = [] \/ (separate balances).2 = [].
Proof.
  destruct (start_lengths balances) as (Hd & Hc & Hi & Hj & Ht). split.
  - intros H. unfold calculateSettlements in H.
    destruct (running (loop fuel (start balances))) eqn:Hend; [discriminate|].
    injection H as H.
    destruct (running (start balances)) eqn:Hrun.
    + destruct fuel as [|fuel]; [cbn [loop] in Hend; congruence|].
      rewrite (loop_running fuel _ Hrun) in H.
      pose proof (loop_grows fuel (step (start balances))) as Hg.
      destruct (step_counts _ Hrun) as (_ & _ & _ & _ & Hs).
      rewrite H in Hg. cbn [length] in Hg. lia.
    + apply running_false in Hrun. rewrite Hd, Hc, Hi, Hj in Hrun.
      destruct Hrun as [Hrun|Hrun]; [left | right]; apply length_zero_iff_nil; lia.
  - intros H. unfold calculateSettlements.
    assert (Hrun : running (start balances) = false).
    { apply running_false. rewrite Hd, Hc, Hi, Hj. destruct H as [-> | ->]; cbn [length]; lia. }
    rewrite loop_not_running by exact Hrun. rewrite Hrun, Ht. reflexivity.
Qed.

Lemma step_paired (st : state) :
  ahead debt credit st -> running st = true -> paired st -> paired (step st).
Proof.
  intros Hah Hrun (Hnd & Hnc & Hall & Hpairs).
  destruct (step_ahead debt credit matching_finite st Hah Hrun) as (_ & Hrem & _).
  destruct (step_persons st Hrun) as (Hpd & Hpc & _).
  destruct (step_counts st Hrun) as (Hld & Hlc & Hi & Hj & _).
  unfold paired. rewrite Hpd, Hpc.
  destruct (step_eq st Hrun) as (d & c & Hd & Hc & Hstep). cbn zeta in Hstep.
  assert (Hprog : i st < i (step st) \/ j st < j (step st)).
  { unfold remaining in Hrem. rewrite Hld, Hlc in Hrem.
    apply running_true in Hrun. lia. }
  assert (Htx : transactions (step st) =
                transactions st ++
                  [Transaction.Build_t (Entry.person d) (Entry.person c)
                     (toFixed2 (Math_min (Math_abs (Entry.amount d)) (Entry.amount c)))])
    by (rewrite Hstep; reflexivity).
  assert (Hpd' : persons (debtors st) !! i st = Some (Entry.person d))
    by (unfold persons; rewrite list_lookup_fmap, Hd; reflexivity).
  assert (Hpc' : persons (creditors st) !! j st = Some (Entry.person c))
    by (unfold persons; rewrite list_lookup_fmap, Hc; reflexivity).
  split; [exact Hnd|]. split; [exact Hnc|]. rewrite Htx. split.
  - apply Forall_app. split.
    + eapply Forall_impl; [exact Hall|]. cbn beta. intros tx (i' & j' & H1 & H2 & H3).
      exists i', j'. split; [exact H1|]. split; [exact H2|]. lia.
    + apply Forall_cons_2; [|apply Forall_nil_2].
      exists (i st), (j st). cbn [Transaction.from Transaction.to].
      split; [exact Hpd'|]. split; [exact Hpc'|]. exact Hprog.
  - rewrite map_app. cbn [map parties Transaction.from Transaction.to].
    apply NoDup_app. split; [exact Hpairs|]. split; [|apply NoDup_singleton].
    intros pr Hpr Hpr'. apply list_elem_of_singleton in Hpr'. subst pr.
    apply list_elem_of_fmap in Hpr as (tx & Heq & Htxin).
    rewrite Forall_forall in Hall. destruct (Hall tx Htxin) as (i' & j' & H1 & H2 & H3).
    unfold parties in Heq. injection Heq as Hf Ht. rewrite <- Hf in H1. rewrite <- Ht in H2.
    pose proof (NoDup_lookup _ _ _ _ Hnd H1 Hpd').
    pose proof (NoDup_lookup _ _ _ _ Hnc H2 Hpc'). lia.
Qed.

Lemma loop_paired (fuel : nat) (st : state) :
  ahead debt credit st -> paired st -> paired (loop fuel st).
Proof.
  revert st. induction fuel as [|fuel IH]; intros st Hah Hp; [exact Hp|].
  cbn [loop]. destruct (running st) eqn:Hrun; [|exact Hp].
  apply IH; [apply (step_ahead debt credit matching_finite st Hah Hrun)
            | apply step_paired; assumption].
Qed.

Lemma persons_listed_debtor (balances : object) :
  NoDup (map fst balances) -> NoDup (persons (omap listed_debtor balances)).
Proof.
  induction balances as [|[k v] o IH]; intros Hnd; [constructor|].
  cbn [map fst] in Hnd. apply NoDup_cons in Hnd as [Hk Hnd].
  change (omap listed_debtor ((k, v) :: o))
    with (match listed_debtor (k, v) with
          | Some e => e :: omap listed_debtor o
          | None => omap listed_debtor o
          end).
  destruct (listed_debtor (k, v)) as [e|] eqn:He; [|exact (IH Hnd)].
  assert (Hp : Entry.person e = k).
  { unfold listed_debtor in He. cbn [fst snd] in He.
    destruct (lt (rounded v) (neg cent)); [|discriminate]. injection He as <-. reflexivity. }
  cbn [persons map]. rewrite Hp. apply NoDup_cons. split; [|exact (IH Hnd)].
  intros Hin. apply elem_of_omap_listed_debtor in Hin as (b & Hb & _).
  apply Hk. apply (list_elem_of_fmap_2 fst _ _ Hb).
Qed.

Lemma persons_listed_creditor (balances : object) :
  NoDup (map fst balances) -> NoDup (persons (omap listed_creditor balances)).
Proof.
  induction balances as [|[k v] o IH]; intros Hnd; [constructor|].
  cbn [map fst] in Hnd. apply NoDup_cons in Hnd as [Hk Hnd].
  change (omap listed_creditor ((k, v) :: o))
    with (match listed_creditor (k, v) with
          | Some e => e :: omap listed_creditor o
          | None => omap listed_creditor o
          end).
  destruct (listed_creditor (k, v)) as [e|] eqn:He; [|exact (IH Hnd)].
  assert (Hp : Entry.person e = k).
  { unfold listed_creditor in He. cbn [fst snd] in He.
    destruct (lt cent (rounded v)); [|discriminate]. injection He as <-. reflexivity. }
  cbn [persons map]. rewrite Hp. apply NoDup_cons. split; [|exact (IH Hnd)].
  intros Hin. apply elem_of_omap_listed_creditor in Hin as (b & Hb & _).
  apply Hk. apply (list_elem_of_fmap_2 fst _ _ Hb).
Qed.

Lemma start_paired (balances : object) :
  NoDup (map fst balances) -> paired (start balances).
Proof.
  intros Hnd. rewrite start_eq. unfold paired. cbn [debtors creditors i j transactions].
  unfold persons. rewrite !sort_perm. fold (persons (omap listed_debtor balances)).
  fold (persons (omap listed_creditor balances)).
  split; [apply persons_listed_debtor, Hnd|]. split; [apply persons_listed_creditor, Hnd|].
  split; constructor.
Qed.

End Pairs.

(** * The keys of the balances

    Which properties [balances] creates, in which order [Object.entries]
    lists them, and what a name that is not on the roster reads as. *)

Module Keys.
Import Js App Entries Format Loop Spec Terms Binary64 Settlement Balances Exact Rounding Page.
Local Close Scope Z_scope.

(** ** Which names are keys *)

Lemma keys_enter (n : N) (k : string) (v : value) (bal : properties) :
  keys (enter n k v bal) ≡ₚ k :: keys bal.
Proof.
  unfold keys. induction bal as [|[k' v'] bal IH]; cbn [enter map fst]; [reflexivity|].
  destruct (array_index k') as [n'|]; [destruct (n' <? n)%N|]; cbn [map fst]; try reflexivity.
  rewrite IH. apply Permutation_swap.
Qed.

Lemma keys_assign (bal : properties) (k : string) (v : value) :
  keys (assign bal k v) ≡ₚ if decide (k ∈ keys bal \/ k = proto) then keys bal else k :: keys bal.
Proof.
  unfold assign. destruct (own bal k) as [x|] eqn:E.
  - rewrite decide_True by (left; apply own_keys; rewrite E; eexists; reflexivity).
    rewrite keys_overwrite. reflexivity.
  - apply own_None in E. destruct (decide (k = proto)) as [Hp|Hp].
    + rewrite decide_True by (right; exact Hp). reflexivity.
    + rewrite decide_False by tauto. destruct (array_index k) as [n|].
      * apply keys_enter.
      * unfold keys. rewrite map_app. cbn [map fst]. symmetry. apply Permutation_cons_append.
Qed.

Lemma keys_assign_elem (bal : properties) (k : string) (v : value) (q : string) :
  q ∈ keys (assign bal k v) <-> (q = k /\ k <> proto) \/ q ∈ keys bal.
Proof.
  rewrite keys_assign. destruct (decide (k ∈ keys bal \/ k = proto)) as [H|H].
  - split; [intros Hq; right; exact Hq|]. intros [[-> Hp]|Hq]; [|exact Hq].
    destruct H as [H|H]; [exact H | contradiction].
  - rewrite elem_of_cons. split; [|tauto]. intros [->|Hq]; [left|right; exact Hq].
    split; [reflexivity | tauto].
Qed.

Lemma keys_assign_NoDup (bal : properties) (k : string) (v : value) :
  NoDup (keys bal) -> NoDup (keys (assign bal k v)).
Proof.
  intros Hnd. rewrite keys_assign. destruct (decide (k ∈ keys bal \/ k = proto)) as [H|H];
    [exact Hnd|]. apply NoDup_cons. split; [tauto | exact Hnd].
Qed.

Lemma keys_assign_known (bal : properties) (k : string) (v : value) :
  k ∈ keys bal -> keys (assign bal k v) = keys bal.
Proof.
  intros H. apply own_keys in H as [x Hx]. unfold assign. rewrite Hx. apply keys_overwrite.
Qed.

Lemma keys_debits (involved : list string) (share : number) (bal : properties) (q : string) :
  q ∈ keys (fold_left (fun bal person => assign bal person (subtraction (read bal person) share))
              involved bal) <-> (q ∈ involved /\ q <> proto) \/ q ∈ keys bal.
Proof.
  revert bal. induction involved as [|p l IH]; intros bal; cbn [fold_left].
  - split; [intros H; right; exact H | intros [[H _]|H]; [inversion H | exact H]].
  - rewrite IH, keys_assign_elem, elem_of_cons. split.
    + intros [H|[[-> H]|H]]; tauto.
    + intros [[[->|H] Hp]|H]; tauto.
Qed.

Lemma keys_debits_NoDup (involved : list string) (share : number) (bal : properties) :
  NoDup (keys bal) ->
  NoDup (keys (fold_left
                 (fun bal person => assign bal person (subtraction (read bal person) share))
                 involved bal)).
Proof.
  revert bal. induction involved as [|p l IH]; intros bal Hnd; cbn [fold_left]; [exact Hnd|].
  apply IH, keys_assign_NoDup, Hnd.
Qed.

Lemma keys_debits_known (involved : list string) (share : number) (bal : properties) :
  Forall (fun person => person ∈ keys bal) involved ->
  keys (fold_left (fun bal person => assign bal person (subtraction (read bal person) share))
          involved bal) = keys bal.
Proof.
  revert bal. induction involved as [|p l IH]; intros bal Hin; cbn [fold_left]; [reflexivity|].
  apply Forall_cons in Hin as [Hp Hl].
  pose proof (keys_assign_known bal p (subtraction (read bal p) share) Hp) as Hk.
  rewrite IH; [exact Hk|]. rewrite Hk. exact Hl.
Qed.

Lemma keys_add_expense_elem (bal : properties) (exp : Expense.t) (q : string) :
  q ∈ keys (add_expense bal exp) <-> (q ∈ touched exp /\ q <> proto) \/ q ∈ keys bal.
Proof.
  unfold add_expense, touched. destruct (Expense.involved exp) as [[|p l]|].
  - split; [intros H; right; exact H | intros [[H _]|H]; [inversion H | exact H]].
  - rewrite keys_debits, keys_assign_elem. rewrite (elem_of_cons (p :: l)). split.
    + intros [H|[[-> H]|H]]; tauto.
    + intros [[[->|H] Hp]|H]; tauto.
  - split; [intros H; right; exact H | intros [[H _]|H]; [inversion H | exact H]].
Qed.

Lemma keys_add_expense_NoDup (bal : properties) (exp : Expense.t) :
  NoDup (keys bal) -> NoDup (keys (add_expense bal exp)).
Proof.
  intros Hnd. unfold add_expense. destruct (Expense.involved exp) as [[|p l]|]; try exact Hnd.
  apply keys_debits_NoDup, keys_assign_NoDup, Hnd.
Qed.

Lemma keys_add_expense_known (bal : properties) (exp : Expense.t) :
  Forall (fun person => person ∈ keys bal) (touched exp) ->
  keys (add_expense bal exp) = keys bal.
Proof.
  unfold add_expense, touched. destruct (Expense.involved exp) as [[|p l]|]; try reflexivity.
  intros H. apply Forall_cons in H as [Hp Hl].
  pose proof (keys_assign_known bal (Expense.payer exp)
                (addition (read bal (Expense.payer exp)) (parseFloat (Expense.amount exp))) Hp)
    as Hk.
  rewrite keys_debits_known; [exact Hk|]. rewrite Hk. exact Hl.
Qed.

Lemma keys_roster_elem (participants : list string) (bal : properties) (q : string) :
  q ∈ keys (fold_left (fun bal p => assign bal p (Num zero)) participants bal) <->
  (q ∈ participants /\ q <> proto) \/ q ∈ keys bal.
Proof.
  revert bal. induction participants as [|p l IH]; intros bal; cbn [fold_left].
  - split; [intros H; right; exact H | intros [[H _]|H]; [inversion H | exact H]].
  - rewrite IH, keys_assign_elem, elem_of_cons. split.
    + intros [H|[[-> H]|H]]; tauto.
    + intros [[[->|H] Hp]|H]; tauto.
Qed.

Lemma keys_roster_NoDup (participants : list string) (bal : properties) :
  NoDup (keys bal) ->
  NoDup (keys (fold_left (fun bal p => assign bal p (Num zero)) participants bal)).
Proof.
  revert bal. induction participants as [|p l IH]; intros bal Hnd; cbn [fold_left]; [exact Hnd|].
  apply IH, keys_assign_NoDup, Hnd.
Qed.

Lemma keys_expenses (expenses : list Expense.t) (bal : properties) :
  NoDup (keys bal) ->
  NoDup (keys (fold_left add_expense expenses bal)) /\
  forall q, q ∈ keys (fold_left add_expense expenses bal) <->
            q ∈ keys bal \/ (Exists (fun exp => q ∈ touched exp) expenses /\ q <> proto).
Proof.
  revert bal. induction expenses as [|exp l IH]; intros bal Hnd; cbn [fold_left].
  - split; [exact Hnd|]. intros q. rewrite Exists_nil. tauto.
  - destruct (IH (add_expense bal exp) (keys_add_expense_NoDup bal exp Hnd)) as [Hnd' Hk].
    split; [exact Hnd'|]. intros q. rewrite Hk, keys_add_expense_elem, Exists_cons. tauto.
Qed.

(** No name is a key twice, and the keys are the names of the roster and
    the names the expenses assign to, but for [__proto__]. *)
Lemma keys_balances (participants : list string) (expenses : list Expense.t) :
  NoDup (keys (balances participants expenses)) /\
  forall q, q ∈ keys (balances participants expenses) <->
            (q ∈ participants \/ Exists (fun exp => q ∈ touched exp) expenses) /\ q <> proto.
Proof.
  unfold balances.
  destruct (keys_expenses expenses
              (fold_left (fun bal p => assign bal p (Num zero)) participants []))
    as [Hnd Hk]; [apply keys_roster_NoDup; constructor|].
  split; [exact Hnd|]. intros q. rewrite Hk, keys_roster_elem. split.
  - intros [[[H Hp]|H]|[H Hp]]; [tauto | exfalso; exact (not_elem_of_nil _ H) | tauto].
  - intros [[H|H] Hp]; [left; left; tauto | right; tauto].
Qed.

(** Expenses between participants of a roster without [__proto__] leave
    the keys as the roster made them. *)
Lemma keys_drawn (participants : list string) (expenses : list Expense.t) :
  proto ∉ participants -> Forall (drawn participants) expenses ->
  keys (balances participants expenses) =
  keys (fold_left (fun bal p => assign bal p (Num zero)) participants []).
Proof.
  intros Hp Hdr. unfold balances.
  assert (H0 : forall q, q ∈ participants ->
                 q ∈ keys (fold_left (fun bal p => assign bal p (Num zero)) participants [])).
  { intros q Hq. apply keys_roster_elem. left. split; [exact Hq|]. intros ->. exact (Hp Hq). }
  revert H0. generalize (fold_left (fun bal p => assign bal p (Num zero)) participants []).
  induction Hdr as [|exp l Hexp Hl IH]; intros bal H0; cbn [fold_left]; [reflexivity|].
  assert (Hk : keys (add_expense bal exp) = keys bal).
  { apply keys_add_expense_known.
    eapply Forall_impl; [exact (touched_drawn _ _ Hexp)|]. cbn beta. intros q Hq. apply H0, Hq. }
  rewrite IH; [exact Hk|]. intros q Hq. rewrite Hk. apply H0, Hq.
Qed.

(** ** The order of the keys *)

Lemma array_index_digits (k : string) (n : N) : array_index k = Some n -> k = digits n.
Proof.
  unfold array_index. destruct (NilZero.uint_of_string k) as [u|]; [|discriminate].
  cbn zeta. destruct (bool_decide (digits (N.of_uint u) = k)) eqn:E; [|discriminate].
  apply bool_decide_eq_true in E. destruct (N.of_uint u <? 2 ^ 32 - 1)%N; [|discriminate].
  cbn [andb]. intros [= <-]. symmetry. exact E.
Qed.

Lemma index_before_trans (a b c : string) :
  index_before a b -> index_before b c -> index_before a c.
Proof.
  unfold index_before. destruct (array_index a), (array_index b), (array_index c);
    try contradiction. lia.
Qed.

(** A new array index enters among the array indices, in its place. *)
Lemma enter_sorted (n : N) (k : string) (v : value) (indices rest : list string)
    (bal : properties) :
  keys bal = indices ++ rest -> array_index k = Some n -> k ∉ indices ->
  Forall (fun a => is_Some (array_index a)) indices ->
  Forall (fun a => array_index a = None) rest ->
  StronglySorted index_before indices ->
  exists indices', keys (enter n k v bal) = indices' ++ rest /\
    indices' ≡ₚ k :: indices /\ StronglySorted index_before indices'.
Proof.
  intros Hk Hn. revert bal Hk.
  induction indices as [|a indices IH]; intros bal Hk Hnew Hix Hrest Hs.
  - exists [k]. split; [|split; [reflexivity | repeat constructor]].
    cbn [app] in *. destruct bal as [|[k' v'] bal]; cbn [enter]; unfold keys in *;
      cbn [map fst] in *; [rewrite <- Hk; reflexivity|].
    assert (Hk' : array_index k' = None).
    { rewrite <- Hk in Hrest. apply Forall_cons in Hrest as [H _]. exact H. }
    rewrite Hk'. cbn [map fst]. rewrite Hk. reflexivity.
  - destruct bal as [|[k' v'] bal]; unfold keys in Hk; cbn [map fst app] in Hk; [discriminate|].
    injection Hk as -> Hk. apply Forall_cons in Hix as [[na Ha] Hix].
    apply StronglySorted_inv in Hs as [Hs Hlt]. apply not_elem_of_cons in Hnew as [Hka Hnew].
    cbn [enter]. rewrite Ha. destruct (N.ltb_spec na n) as [Hlt'|Hge].
    + destruct (IH bal Hk Hnew Hix Hrest Hs) as (indices' & Hkeys & Hperm & Hsorted).
      exists (a :: indices'). split; [|split].
      * unfold keys in *. cbn [map fst app]. rewrite Hkeys. reflexivity.
      * rewrite Hperm. apply Permutation_swap.
      * constructor; [exact Hsorted|]. rewrite Hperm. constructor; [|exact Hlt].
        unfold index_before. rewrite Ha, Hn. exact Hlt'.
    + exists (k :: a :: indices). split; [|split; [reflexivity|]].
      * unfold keys in *. cbn [map fst app]. rewrite Hk. reflexivity.
      * assert (Hlt' : index_before k a).
        { unfold index_before. rewrite Ha, Hn.
          destruct (N.eq_dec n na) as [->|Hne]; [|lia].
          exfalso. apply Hka. rewrite (array_index_digits k na Hn), (array_index_digits a na Ha).
          reflexivity. }
        constructor; [constructor; assumption|]. constructor; [exact Hlt'|].
        eapply Forall_impl; [exact Hlt|]. cbn beta. intros c Hc.
        exact (index_before_trans _ _ _ Hlt' Hc).
Qed.

Lemma listing_keys (participants keys : list string) (q : string) :
  listing participants keys -> q ∈ keys <-> q ∈ participants.
Proof.
  intros (indices & -> & Hperm & _). rewrite elem_of_app, Hperm, !list_elem_of_filter.
  destruct (array_index q) as [n|]; split.
  - intros [[_ H]|[H _]]; [exact H | discriminate].
  - intros H. left. split; [eexists; reflexivity | exact H].
  - intros [[[? [=]] _]|[_ H]]. exact H.
  - intros H. right. split; [reflexivity | exact H].
Qed.

(** The roster makes its names keys in the order of the listing. *)
Lemma roster_listing (participants done : list string) (bal : properties) :
  NoDup (done ++ participants) -> proto ∉ participants -> listing done (keys bal) ->
  listing (done ++ participants)
    (keys (fold_left (fun bal p => assign bal p (Num zero)) participants bal)).
Proof.
  revert done bal. induction participants as [|p l IH]; intros done bal Hnd Hp Hl;
    cbn [fold_left].
  - rewrite app_nil_r. exact Hl.
  - replace (done ++ p :: l) with ((done ++ [p]) ++ l) in * by (rewrite <- app_assoc; reflexivity).
    apply not_elem_of_cons in Hp as [Hpp Hp].
    apply IH; [exact Hnd | exact Hp|].
    assert (Hnew : p ∉ done).
    { apply NoDup_app in Hnd as [Hnd _]. apply NoDup_app in Hnd as (_ & Hd & _).
      intros Hin. apply (Hd p Hin). left. }
    assert (Hown : own bal p = None).
    { apply own_None. intros Hin. apply Hnew. exact (proj1 (listing_keys _ _ p Hl) Hin). }
    destruct Hl as (indices & Hkeys & Hperm & Hsorted).
    unfold assign. rewrite Hown, decide_False by congruence.
    destruct (array_index p) as [n|] eqn:Hn.
    + destruct (enter_sorted n p (Num zero) indices
                  (filter (fun k => array_index k = None) done) bal Hkeys Hn)
        as (indices' & Hkeys' & Hperm' & Hsorted').
      * intros Hin. apply Hnew. rewrite Hperm in Hin. apply list_elem_of_filter in Hin as [_ H].
        exact H.
      * rewrite Hperm. apply Forall_forall. intros a Ha.
        apply list_elem_of_filter in Ha as [H _]. exact H.
      * apply Forall_forall. intros a Ha. apply list_elem_of_filter in Ha as [H _]. exact H.
      * exact Hsorted.
      * exists indices'. split; [|split; [|exact Hsorted']].
        -- rewrite Hkeys', filter_app. rewrite (filter_cons_False _ p []) by (rewrite Hn; discriminate).
           rewrite filter_nil, app_nil_r. reflexivity.
        -- rewrite Hperm', Hperm, filter_app.
           rewrite (filter_cons_True _ p []) by (rewrite Hn; eexists; reflexivity).
           rewrite filter_nil. apply Permutation_cons_append.
    + exists indices. split; [|split; [|exact Hsorted]].
      * unfold keys in *. rewrite map_app, Hkeys, filter_app. cbn [map fst].
        rewrite (filter_cons_True _ p []) by exact Hn.
        rewrite filter_nil, <- app_assoc. reflexivity.
      * rewrite Hperm, filter_app.
        rewrite (filter_cons_False _ p []) by (rewrite Hn; intros [? [=]]).
        rewrite filter_nil, app_nil_r. reflexivity.
Qed.

Lemma listing_plain (participants keys : list string) :
  Forall (fun k => array_index k = None) participants -> listing participants keys ->
  keys = participants.
Proof.
  intros Hall (indices & -> & Hperm & _).
  assert (H1 : filter (fun k => is_Some (array_index k)) participants = []).
  { clear Hperm. induction Hall as [|p l Hp Hl IH]; [reflexivity|].
    rewrite filter_cons_False by (rewrite Hp; intros [? [=]]). exact IH. }
  assert (H2 : filter (fun k => array_index k = None) participants = participants).
  { clear Hperm H1. induction Hall as [|p l Hp Hl IH]; [reflexivity|].
    rewrite filter_cons_True by exact Hp. rewrite IH. reflexivity. }
  rewrite H1 in Hperm. apply Permutation_nil_r in Hperm. subst indices. exact H2.
Qed.

(** ** Names that are not on the roster *)

Lemma add_NaN_l (x : number) : add NaN x = NaN.
Proof. reflexivity. Qed.

Lemma add_NaN_r (x : number) : add x NaN = NaN.
Proof. destruct x; reflexivity. Qed.

Lemma sub_NaN_l (x : number) : sub NaN x = NaN.
Proof. reflexivity. Qed.

Lemma sub_NaN_r (x : number) : sub x NaN = NaN.
Proof. destruct x; reflexivity. Qed.

Lemma addition_unset (v : value) (x : number) : unset v -> unset (addition v x).
Proof.
  unfold unset. destruct v as [|y|name|name added]; cbn [ToNumber addition]; try reflexivity.
  intros ->. reflexivity.
Qed.

Lemma subtraction_unset (v : value) (x : number) : unset v -> unset (subtraction v x).
Proof. unfold unset, subtraction. cbn [ToNumber]. intros ->. reflexivity. Qed.

(** An assignment of a value that converts to NaN, to a name whose value
    converts to NaN: the name still reads as such a value. *)
Lemma assign_unset (bal : properties) (k k' : string) (w : value) :
  unset (read bal k') -> (k = k' -> unset w) -> unset (read (assign bal k w) k').
Proof.
  intros Hu Hw. destruct (decide (k = k')) as [<-|Hne].
  - destruct (own bal k) as [x|] eqn:E.
    + rewrite read_assign_eq by (right; rewrite E; eexists; reflexivity). exact (Hw eq_refl).
    + destruct (decide (k = proto)) as [->|Hp].
      * rewrite assign_proto by exact E. exact Hu.
      * rewrite read_assign_eq by (left; exact Hp). exact (Hw eq_refl).
  - rewrite read_assign_ne by exact Hne. exact Hu.
Qed.

Lemma debits_unset (involved : list string) (share : number) (bal : properties) (k : string) :
  unset (read bal k) ->
  unset (read (fold_left
                 (fun bal person => assign bal person (subtraction (read bal person) share))
                 involved bal) k).
Proof.
  revert bal. induction involved as [|p l IH]; intros bal Hu; cbn [fold_left]; [exact Hu|].
  apply IH, assign_unset; [exact Hu|]. intros ->. apply subtraction_unset, Hu.
Qed.

Lemma add_expense_unset (bal : properties) (exp : Expense.t) (k : string) :
  unset (read bal k) -> unset (read (add_expense bal exp) k).
Proof.
  intros Hu. unfold add_expense. destruct (Expense.involved exp) as [[|p l]|]; try exact Hu.
  apply debits_unset, assign_unset; [exact Hu|]. intros ->. apply addition_unset, Hu.
Qed.

Lemma expenses_unset (expenses : list Expense.t) (bal : properties) (k : string) :
  unset (read bal k) -> unset (read (fold_left add_expense expenses bal) k).
Proof.
  revert bal. induction expenses as [|exp l IH]; intros bal Hu; cbn [fold_left]; [exact Hu|].
  apply IH, add_expense_unset, Hu.
Qed.

Lemma roster_stranger (participants : list string) (bal : properties) (k : string) :
  k ∉ participants ->
  own (fold_left (fun bal p => assign bal p (Num zero)) participants bal) k = own bal k.
Proof.
  revert bal. induction participants as [|p l IH]; intros bal Hk; cbn [fold_left]; [reflexivity|].
  apply not_elem_of_cons in Hk as [Hne Hk]. rewrite IH by exact Hk.
  apply own_assign_ne. congruence.
Qed.

Lemma read_empty (k : string) :
  read [] k = if bool_decide (k ∈ Object_prototype) then Member k else Undefined.
Proof. reflexivity. Qed.

(** What is read under a name that is not on the roster converts to NaN,
    whatever the expenses. *)
Lemma stranger_unset (participants : list string) (expenses : list Expense.t) (k : string) :
  k ∉ participants -> unset (read (balances participants expenses) k).
Proof.
  intros Hk. unfold balances. apply expenses_unset. unfold read.
  rewrite (roster_stranger participants [] k Hk). cbn [own].
  destruct (bool_decide (k ∈ Object_prototype)); reflexivity.
Qed.

(** A balance that is a number other than NaN belongs to a participant of
    the roster. *)
Lemma number_on_roster (participants : list string) (expenses : list Expense.t)
    (k : string) (b : number) :
  (k, b) ∈ numbers (balances participants expenses) -> b <> NaN -> k ∈ participants.
Proof.
  intros Hin Hb. destruct (decide (k ∈ participants)) as [Hk|Hk]; [exact Hk|].
  exfalso. apply Hb. unfold numbers in Hin. apply list_elem_of_fmap in Hin as ([k' v] & [= -> ->] & Hin).
  cbn [fst snd].
  pose proof (own_elem _ k' v (proj1 (keys_balances participants expenses)) Hin) as Ho.
  pose proof (stranger_unset participants expenses k' Hk) as Hu.
  rewrite (read_own _ _ _ Ho) in Hu. exact Hu.
Qed.

(** ** Names that are neither on the roster nor inherited *)

Lemma fresh_assign (bal : properties) (k k' : string) (w : value) :
  k' <> proto ->
  read (assign bal k w) k' = if decide (k = k') then w else read bal k'.
Proof.
  intros Hp. destruct (decide (k = k')) as [->|Hne].
  - apply read_assign_eq. left. exact Hp.
  - apply read_assign_ne, Hne.
Qed.

Lemma debits_fresh (involved : list string) (share : number) (bal : properties) (k : string) :
  k <> proto -> read bal k = Undefined \/ read bal k = Num NaN ->
  read (fold_left (fun bal person => assign bal person (subtraction (read bal person) share))
          involved bal) k =
  if decide (k ∈ involved) then Num NaN else read bal k.
Proof.
  intros Hp. revert bal. induction involved as [|p l IH]; intros bal Hu; cbn [fold_left].
  - destruct (decide (k ∈ [])) as [H|_]; [exfalso; exact (not_elem_of_nil _ H) | reflexivity].
  - assert (Hs : subtraction (read bal k) share = Num NaN).
    { destruct Hu as [-> | ->]; reflexivity. }
    rewrite IH; rewrite (fresh_assign _ _ _ _ Hp).
    + destruct (decide (p = k)) as [->|Hne].
      * rewrite Hs. destruct (decide (k ∈ l)), (decide (k ∈ k :: l)) as [|Hn]; try reflexivity;
          exfalso; apply Hn; left.
      * destruct (decide (k ∈ l)) as [Hin|Hin], (decide (k ∈ p :: l)) as [Hin'|Hin'];
          try reflexivity.
        -- exfalso. apply Hin'. right. exact Hin.
        -- exfalso. apply elem_of_cons in Hin' as [->|Hin'];
             [apply Hne; reflexivity | exact (Hin Hin')].
    + destruct (decide (p = k)) as [->|Hne]; [right; exact Hs | exact Hu].
Qed.

Lemma add_expense_fresh (bal : properties) (exp : Expense.t) (k : string) :
  k <> proto -> read bal k = Undefined \/ read bal k = Num NaN ->
  read (add_expense bal exp) k = if decide (k ∈ touched exp) then Num NaN else read bal k.
Proof.
  intros Hp Hu. unfold add_expense, touched. destruct (Expense.involved exp) as [[|p l]|].
  - destruct (decide (k ∈ [])) as [H|_]; [exfalso; exact (not_elem_of_nil _ H) | reflexivity].
  - assert (Ha : addition (read bal k) (parseFloat (Expense.amount exp)) = Num NaN).
    { destruct Hu as [-> | ->]; reflexivity. }
    rewrite debits_fresh; rewrite ?(fresh_assign _ _ _ _ Hp); [|exact Hp|].
    + destruct (decide (Expense.payer exp = k)) as [->|Hne].
      * rewrite Ha.
        destruct (decide (k ∈ p :: l)), (decide (k ∈ k :: p :: l)) as [|Hn]; try reflexivity;
          exfalso; apply Hn; left.
      * destruct (decide (k ∈ p :: l)) as [Hin|Hin],
          (decide (k ∈ Expense.payer exp :: p :: l)) as [Hin'|Hin']; try reflexivity.
        -- exfalso. apply Hin'. right. exact Hin.
        -- exfalso. apply elem_of_cons in Hin' as [->|Hin'];
             [apply Hne; reflexivity | exact (Hin Hin')].
    + destruct (decide (Expense.payer exp = k)) as [->|Hne]; [right; exact Ha | exact Hu].
  - destruct (decide (k ∈ [])) as [H|_]; [exfalso; exact (not_elem_of_nil _ H) | reflexivity].
Qed.

Lemma expenses_fresh (expenses : list Expense.t) (bal : properties) (k : string) :
  k <> proto -> read bal k = Undefined \/ read bal k = Num NaN ->
  read (fold_left add_expense expenses bal) k =
  if decide (Exists (fun exp => k ∈ touched exp) expenses) then Num NaN else read bal k.
Proof.
  intros Hp. revert bal. induction expenses as [|exp l IH]; intros bal Hu; cbn [fold_left].
  - destruct (decide (Exists _ [])) as [H|_]; [|reflexivity].
    exfalso. apply Exists_nil in H. exact H.
  - assert (Hu' : read (add_expense bal exp) k = Undefined \/
                  read (add_expense bal exp) k = Num NaN).
    { rewrite add_expense_fresh by assumption.
      destruct (decide (k ∈ touched exp)); [right; reflexivity | exact Hu]. }
    rewrite IH by exact Hu'. rewrite add_expense_fresh by assumption.
    destruct (decide (Exists _ l)) as [Hl|Hl], (decide (Exists _ (exp :: l))) as [He|He],
      (decide (k ∈ touched exp)) as [Hk|Hk]; try reflexivity; exfalso;
      first [ apply He; solve [left; assumption | right; assumption]
            | apply Exists_cons in He as [He|He]; contradiction ].
Qed.

Lemma inherited_proto : proto ∈ Object_prototype.
Proof. apply (bool_decide_unpack _). vm_compute. exact I. Qed.

(** A name that is neither on the roster nor a name of [Object.prototype]
    reads [undefined] until an expense assigns to it, and NaN from then
    on. *)
Lemma read_stranger (participants : list string) (expenses : list Expense.t) (k : string) :
  k ∉ participants -> k ∉ Object_prototype ->
  read (balances participants expenses) k =
  if decide (Exists (fun exp => k ∈ touched exp) expenses) then Num NaN else Undefined.
Proof.
  intros Hk Hi. unfold balances.
  assert (Hp : k <> proto) by (intros ->; exact (Hi inherited_proto)).
  assert (H0 : read (fold_left (fun bal p => assign bal p (Num zero)) participants []) k =
               Undefined).
  { unfold read. rewrite (roster_stranger participants [] k Hk). cbn [own].
    rewrite bool_decide_eq_false_2 by exact Hi. reflexivity. }
  rewrite expenses_fresh; [|exact Hp | left; exact H0]. rewrite H0. reflexivity.
Qed.

Lemma whole_balances (o : object) :
  Forall (fun entry => integral entry.2) o -> (zabs o < 2 ^ 46)%Z ->
  Forall (fun entry => whole_balance entry.2) o.
Proof.
  induction 1 as [|[k v] o Hv Ho IH]; intros Hb; [constructor|].
  cbn [zabs foldr snd] in Hb. fold (zabs o) in Hb. pose proof (zabs_nonneg o).
  constructor; [split; [exact Hv | cbn [snd]; lia] | apply IH; lia].
Qed.

(** ** Amounts that are not numbers *)

Lemma addition_plain (v : value) (x : number) : plain v -> plain (addition v x).
Proof. intros [-> | [y ->]]; right; eexists; reflexivity. Qed.

Lemma subtraction_plain (v : value) (x : number) : plain (subtraction v x).
Proof. right. eexists; reflexivity. Qed.

Lemma assign_plain (bal : properties) (k k' : string) (w : value) :
  k' <> proto -> plain (read bal k') -> (k = k' -> plain w) -> plain (read (assign bal k w) k').
Proof.
  intros Hp Hu Hw. rewrite (fresh_assign _ _ _ _ Hp).
  destruct (decide (k = k')) as [E|E]; [exact (Hw E) | exact Hu].
Qed.

Lemma debits_plain (involved : list string) (share : number) (bal : properties) (k : string) :
  k <> proto -> plain (read bal k) ->
  plain (read (fold_left
                 (fun bal person => assign bal person (subtraction (read bal person) share))
                 involved bal) k).
Proof.
  intros Hp. revert bal. induction involved as [|p l IH]; intros bal Hu; cbn [fold_left];
    [exact Hu|].
  apply IH, assign_plain; [exact Hp | exact Hu|]. intros _. apply subtraction_plain.
Qed.

Lemma add_expense_plain (bal : properties) (exp : Expense.t) (k : string) :
  k <> proto -> plain (read bal k) -> plain (read (add_expense bal exp) k).
Proof.
  intros Hp Hu. unfold add_expense. destruct (Expense.involved exp) as [[|p l]|]; try exact Hu.
  apply debits_plain; [exact Hp|]. apply assign_plain; [exact Hp | exact Hu|].
  intros ->. apply addition_plain, Hu.
Qed.

Lemma expenses_plain (expenses : list Expense.t) (bal : properties) (k : string) :
  k <> proto -> plain (read bal k) -> plain (read (fold_left add_expense expenses bal) k).
Proof.
  intros Hp. revert bal. induction expenses as [|exp l IH]; intros bal Hu; cbn [fold_left];
    [exact Hu|].
  apply IH, add_expense_plain; assumption.
Qed.

(** Under a name that is not a name of [Object.prototype] there is never
    a string. *)
Lemma balances_plain (participants : list string) (expenses : list Expense.t) (k : string) :
  k ∉ Object_prototype -> plain (read (balances participants expenses) k).
Proof.
  intros Hi. assert (Hp : k <> proto) by (intros ->; exact (Hi inherited_proto)).
  unfold balances. apply expenses_plain; [exact Hp|].
  destruct (decide (k ∈ participants)) as [Hk|Hk].
  - right. exists zero. apply read_own. rewrite roster_own by exact Hp.
    rewrite decide_True by exact Hk. reflexivity.
  - left. unfold read. rewrite (roster_stranger participants [] k Hk). cbn [own].
    rewrite bool_decide_eq_false_2 by exact Hi. reflexivity.
Qed.

Lemma debits_NaN (involved : list string) (bal : properties) (k : string) :
  k <> proto -> k ∈ involved ->
  read (fold_left (fun bal person => assign bal person (subtraction (read bal person) NaN))
          involved bal) k = Num NaN.
Proof.
  intros Hp. revert bal. induction involved as [|p l IH]; intros bal Hk; [inversion Hk|].
  cbn [fold_left]. destruct (decide (p = k)) as [->|Hne].
  - rewrite debits_fresh; [|exact Hp|].
    + destruct (decide (k ∈ l)); [reflexivity|]. rewrite read_assign_eq by (left; exact Hp).
      unfold subtraction. rewrite sub_NaN_r. reflexivity.
    + right. rewrite read_assign_eq by (left; exact Hp).
      unfold subtraction. rewrite sub_NaN_r. reflexivity.
  - apply IH. apply elem_of_cons in Hk as [->|Hk]; [congruence | exact Hk].
Qed.

Lemma add_expense_NaN (bal : properties) (exp : Expense.t) (k : string) :
  k <> proto -> plain (read bal k) ->
  Expense.amount exp = NaN -> k ∈ touched exp -> read (add_expense bal exp) k = Num NaN.
Proof.
  intros Hp Hu Ha Hk. unfold add_expense, touched in *. rewrite Ha.
  destruct (Expense.involved exp) as [[|p l]|]; try (exfalso; exact (not_elem_of_nil _ Hk)).
  change (parseFloat NaN) with NaN.
  change (div NaN (of_Z (Z.of_nat (length (p :: l))))) with NaN.
  destruct (decide (k ∈ p :: l)) as [Hin|Hin]; [apply debits_NaN; assumption|].
  apply elem_of_cons in Hk as [->|Hk]; [|contradiction].
  assert (Hpay : read (assign bal (Expense.payer exp) (addition (read bal (Expense.payer exp)) NaN))
                   (Expense.payer exp) = Num NaN).
  { rewrite read_assign_eq by (left; exact Hp).
    destruct Hu as [-> | [y ->]]; cbn [addition]; [reflexivity|]. rewrite add_NaN_r. reflexivity. }
  rewrite debits_fresh; [|exact Hp | right; exact Hpay].
  rewrite decide_False by exact Hin. exact Hpay.
Qed.

(** The balance of whoever an expense without a number for its amount
    assigns to is NaN, whatever the expenses before and after it, unless
    the name is one of [Object.prototype]. *)
Lemma expenses_NaN (participants : list string) (expenses : list Expense.t) (exp : Expense.t)
    (k : string) :
  k ∉ Object_prototype -> exp ∈ expenses -> Expense.amount exp = NaN -> k ∈ touched exp ->
  read (balances participants expenses) k = Num NaN.
Proof.
  intros Hi Hin Ha Hk.
  assert (Hp : k <> proto) by (intros ->; exact (Hi inherited_proto)).
  apply list_elem_of_split in Hin as (l1 & l2 & ->).
  rewrite balances_app. cbn [fold_left].
  rewrite expenses_fresh; [|exact Hp|];
    rewrite (add_expense_NaN _ exp k Hp (balances_plain participants l1 k Hi) Ha Hk).
  - destruct (decide (Exists _ l2)); reflexivity.
  - right. reflexivity.
Qed.

End Keys.

(** * Paying the transactions

    On whole-number balances of any sum: each payment takes a balance
    towards zero and never past it, and when all are made nothing is left
    to settle. *)

Module Paying.
Import Js App Entries Format Loop Spec Terms Binary64 Matching Settlement Balances Exact Pairs.
Local Close Scope Z_scope.

Lemma Forall2_insert_r {A B} (R : A -> B -> Prop) (l : list A) (k : list B) (n : nat)
    (y : B) :
  Forall2 R l k -> (forall x, l !! n = Some x -> R x y) -> Forall2 R l (<[n:=y]> k).
Proof.
  intros H. revert n. induction H as [|x0 y0 l k Hxy H IH]; intros n Hn; [constructor|].
  destruct n as [|n]; cbn [list_insert].
  - constructor; [apply Hn; reflexivity | exact H].
  - constructor; [exact Hxy | apply IH; intros x Hx; apply Hn; exact Hx].
Qed.

Lemma step_shrinking (st0 st : state) :
  shrinking st0 st -> running st = true -> shrinking st0 (step st).
Proof.
  intros (Hah & Hd & Hc) Hrun.
  split; [apply (step_ahead whole_debt whole_credit matching_whole st Hah Hrun)|].
  destruct (step_exact st Hah Hrun)
    as (debtor & creditor & zd & zc & a & d' & c' & Hld & Hlc & Hwd & Hwc & Hzd & Hzc &
        Ha & Hd' & Hc' & _ & _ & _ & ->).
  cbn [debtors creditors]. split.
  - apply Forall2_insert_r; [exact Hd|]. intros e0 He0.
    destruct (Forall2_lookup_lr _ _ _ _ _ _ Hd He0 Hld) as [Hp Hz].
    split; [exact Hp|]. cbn [Entry.amount].
    rewrite (whole_to_Z _ _ Hwd) in Hz. rewrite (whole_to_Z _ _ Hd'). lia.
  - apply Forall2_insert_r; [exact Hc|]. intros e0 He0.
    destruct (Forall2_lookup_lr _ _ _ _ _ _ Hc He0 Hlc) as [Hp Hz].
    split; [exact Hp|]. cbn [Entry.amount].
    rewrite (whole_to_Z _ _ Hwc) in Hz. rewrite (whole_to_Z _ _ Hc'). lia.
Qed.

Lemma loop_shrinking (st0 : state) (fuel : nat) (st : state) :
  shrinking st0 st -> shrinking st0 (loop fuel st).
Proof. apply (loop_invariant (shrinking st0)). intros s Hs Hrun. apply step_shrinking; assumption. Qed.

Lemma start_shrinking (o : object) :
  NoDup (map fst o) -> Forall (fun entry => whole_balance entry.2) o ->
  shrinking (start o) (start o).
Proof.
  intros Hnd Ho.
  destruct (exact_matching_start o Hnd Ho) as (Hah & _).
  split; [exact Hah|]. rewrite start_eq. cbn [debtors creditors]. split.
  - apply Forall_Forall2_diag, Forall_forall. intros e He. rewrite sort_perm in He.
    destruct (elem_of_listed_debtor o e Ho He) as (_ & Hz & _).
    split; [reflexivity | lia].
  - apply Forall_Forall2_diag, Forall_forall. intros e He. rewrite sort_perm in He.
    destruct (elem_of_listed_creditor o e Ho He) as (_ & Hz & _).
    split; [reflexivity | lia].
Qed.

Lemma entry_whole_balance (st : state) (e : Entry.t) :
  ahead whole_debt whole_credit st -> passed st ->
  e ∈ debtors st \/ e ∈ creditors st -> whole_balance (Entry.amount e).
Proof.
  intros [Hd Hc] [Hpd Hpc] He.
  assert (Hzero : whole_balance zero).
  { split; [exact integral_zero | change (to_Z zero) with 0%Z; cbn; lia]. }
  assert (H : forall (P : number -> Prop) (l : list Entry.t) (n : nat),
            (forall x, P x -> whole_balance x) ->
            Forall (fun e => P (Entry.amount e)) (drop n l) ->
            Forall (fun e => Entry.amount e = zero) (take n l) ->
            e ∈ l -> whole_balance (Entry.amount e)).
  { intros P l n HP Hdrop Htake Hin. rewrite <- (take_drop n l) in Hin.
    apply elem_of_app in Hin as [Hin|Hin].
    - rewrite Forall_forall in Htake. rewrite (Htake e Hin). exact Hzero.
    - rewrite Forall_forall in Hdrop. exact (HP _ (Hdrop e Hin)). }
  destruct He as [He|He].
  - apply (H whole_debt (debtors st) (i st)); try assumption.
    intros x (z & Hz & Hb). split; [exact (whole_integral _ _ Hz)|].
    rewrite (whole_to_Z _ _ Hz). lia.
  - apply (H whole_credit (creditors st) (j st)); try assumption.
    intros x (z & Hz & Hb). split; [exact (whole_integral _ _ Hz)|].
    rewrite (whole_to_Z _ _ Hz). lia.
Qed.

Lemma omap_none {A B} (f : A -> option B) (l : list A) :
  Forall (fun x => f x = None) l -> omap f l = [].
Proof.
  induction 1 as [|x l Hx _ IH]; [reflexivity|].
  change (omap f (x :: l)) with (match f x with Some y => y :: omap f l | None => omap f l end).
  rewrite Hx. exact IH.
Qed.

(** When the loop is over, the balances that are left are all of one
    sign. *)
Lemma paid_one_sign (o : object) (fuel : nat) :
  NoDup (map fst o) -> Forall (fun entry => whole_balance entry.2) o ->
  running (loop fuel (start o)) = false ->
  Forall (fun entry => whole_balance entry.2)
    (settle_all o (transactions (loop fuel (start o)))) /\
  (Forall (fun entry => (0 <= to_Z entry.2)%Z)
     (settle_all o (transactions (loop fuel (start o)))) \/
   Forall (fun entry => (to_Z entry.2 <= 0)%Z)
     (settle_all o (transactions (loop fuel (start o))))).
Proof.
  intros Hnd Ho Hrun.
  pose proof (exact_matching_loop o _ _ fuel _ (exact_matching_start o Hnd Ho)) as Hex.
  set (st := loop fuel (start o)) in *.
  destruct Hex as (Hah & Hpassed & _ & _ & _ & Hkeys & Hagd & Hagc & Hago).
  assert (Hcase : forall p v, (p, v) ∈ settle_all o (transactions st) ->
            (exists e, e ∈ debtors st /\ v = Entry.amount e) \/
            (exists e, e ∈ creditors st /\ v = Entry.amount e) \/ v = zero).
  { intros p v Hin.
    assert (Hget : get (settle_all o (transactions st)) p = Some v).
    { apply elem_of_get; [rewrite Hkeys; exact Hnd | exact Hin]. }
    destruct (decide (p ∈ persons (debtors st))) as [Hp|Hp].
    { apply elem_of_persons_inv in Hp as (e & He & <-).
      rewrite (Hagd e He) in Hget. injection Hget as <-. left. exists e. split; [exact He | reflexivity]. }
    destruct (decide (p ∈ persons (creditors st))) as [Hq|Hq].
    { apply elem_of_persons_inv in Hq as (e & He & <-).
      rewrite (Hagc e He) in Hget. injection Hget as <-.
      right; left. exists e. split; [exact He | reflexivity]. }
    right; right. exact (Hago p v Hget Hp Hq). }
  assert (Hzero : whole_balance zero).
  { split; [exact integral_zero | change (to_Z zero) with 0%Z; cbn; lia]. }
  split.
  - apply Forall_forall. intros [p v] Hin. cbn [snd].
    destruct (Hcase p v Hin) as [(e & He & ->)|[(e & He & ->)| ->]]; [| |exact Hzero].
    + apply (entry_whole_balance st e Hah Hpassed). left. exact He.
    + apply (entry_whole_balance st e Hah Hpassed). right. exact He.
  - destruct Hah as [Hd Hc], Hpassed as [Hpd Hpc].
    rewrite Forall_forall in Hd, Hc, Hpd, Hpc.
    assert (Hdsign : forall e, e ∈ debtors st -> (to_Z (Entry.amount e) <= 0)%Z).
    { intros e He. rewrite <- (take_drop (i st) (debtors st)) in He.
      apply elem_of_app in He as [He|He].
      - rewrite (Hpd e He). change (to_Z zero) with 0%Z. lia.
      - destruct (Hd e He) as (z & Hz & Hb). rewrite (whole_to_Z _ _ Hz). lia. }
    assert (Hcsign : forall e, e ∈ creditors st -> (0 <= to_Z (Entry.amount e))%Z).
    { intros e He. rewrite <- (take_drop (j st) (creditors st)) in He.
      apply elem_of_app in He as [He|He].
      - rewrite (Hpc e He). change (to_Z zero) with 0%Z. lia.
      - destruct (Hc e He) as (z & Hz & Hb). rewrite (whole_to_Z _ _ Hz). lia. }
    apply running_false in Hrun. destruct Hrun as [Hrun|Hrun].
    + left. apply Forall_forall. intros [p v] Hin. cbn [snd].
      destruct (Hcase p v Hin) as [(e & He & ->)|[(e & He & ->)| ->]].
      * rewrite <- (take_ge (debtors st) (i st)) in He by exact Hrun.
        rewrite (Hpd e He). change (to_Z zero) with 0%Z. lia.
      * exact (Hcsign e He).
      * change (to_Z zero) with 0%Z. lia.
    + right. apply Forall_forall. intros [p v] Hin. cbn [snd].
      destruct (Hcase p v Hin) as [(e & He & ->)|[(e & He & ->)| ->]].
      * exact (Hdsign e He).
      * rewrite <- (take_ge (creditors st) (j st)) in He by exact Hrun.
        rewrite (Hpc e He). change (to_Z zero) with 0%Z. lia.
      * change (to_Z zero) with 0%Z. lia.
Qed.

(** When the loop is over, the credit that is left is the sum of the
    balances, if that is positive, and none otherwise. *)
Lemma credit_left (o : object) (S0 C0 : Z) (st : state) :
  exact_matching o S0 C0 st -> running st = false ->
  esum (drop (j st) (creditors st)) = Z.max S0 0.
Proof.
  intros ([Had Hac] & _ & _ & Hsum & _) Hrun.
  pose proof (esum_whole_debt _ Had) as [Hd1 Hd2].
  pose proof (esum_whole_credit _ Hac) as [Hc1 Hc2].
  apply running_false in Hrun. destruct Hrun as [Hi|Hj].
  - rewrite (drop_ge _ _ Hi) in Hsum. change (esum []) with 0%Z in Hsum. lia.
  - rewrite (drop_ge _ _ Hj) in Hsum |- *. change (esum []) with 0%Z in Hsum |- *. lia.
Qed.

End Paying.

(** * The history of the expenses *)

Module History.
Import Js App Entries Format Loop Terms Binary64 Order Sorting Page.
Local Close Scope Z_scope.

Lemma thousand_eq : of_Z 1000 = S754_finite false 8796093022208000 (-43).
Proof. vm_compute. reflexivity. Qed.

Lemma mul_thousand_pre (m : positive) (e : Z) :
  (e + -43 <= fexp (Zdigits2 (Zpos (m * 8796093022208000)) + (e + -43)))%Z.
Proof.
  cbn [Zdigits2]. pose proof (digits2_pos_bounds m) as [Hlo Hhi].
  assert (Hge : (2 ^ (Zpos (digits2_pos m) + 51) <= Zpos (m * 8796093022208000))%Z).
  { replace (Zpos (digits2_pos m) + 51)%Z with (Zpos (digits2_pos m) - 1 + 52)%Z by lia.
    rewrite Z.pow_add_r by lia. rewrite Pos2Z.inj_mul.
    change (2 ^ 52)%Z with 4503599627370496%Z. nia. }
  pose proof (digits2_pos_ge _ _ Hge). rewrite fexp_eq. lia.
Qed.

Lemma mul_thousand_good (x : number) : valid (mul x (of_Z 1000)) = true.
Proof.
  rewrite thousand_eq. destruct x as [s|s| |s m e]; try reflexivity.
  unfold mul, SFmul, prec, emax.
  apply (valid_good (xorb s false)). apply round_aux_good; [lia | apply mul_thousand_pre].
Qed.

Lemma mul_thousand_number (x : number) : truthy x = true -> mul x (of_Z 1000) <> NaN.
Proof.
  rewrite thousand_eq. destruct x as [s|s| |s m e]; cbn [truthy]; try discriminate; intros _.
  unfold mul, SFmul, prec, emax.
  pose proof (round_aux_good (xorb s false) (Zpos (m * 8796093022208000)) (e + -43) loc_Exact
                ltac:(lia) (mul_thousand_pre m e)) as Hg.
  intros Hn. rewrite Hn in Hg.
  destruct Hg as [H|[H|(m' & e' & H & _)]]; discriminate H.
Qed.

Section History.
Variable Date_parse : string -> option Z.

Lemma parsed_number (a : Doc.t) :
  valid (parsed Date_parse a) = true /\ parsed Date_parse a <> NaN.
Proof.
  unfold parsed.
  destruct (Date_parse (Doc.date a)) as [t|]; [|split; [reflexivity | discriminate]].
  destruct (truthy (of_Z t)) eqn:Ht; [|split; [reflexivity | discriminate]].
  split; [apply of_Z_good|]. intros Hn. rewrite Hn in Ht. discriminate.
Qed.

(** The time of an expense is a number. *)
Lemma time_number (a : Doc.t) :
  (forall seconds, Doc.createdAt a = Some seconds -> valid seconds = true) ->
  valid (time Date_parse a) = true /\ time Date_parse a <> NaN.
Proof.
  intros Hs. unfold time. destruct (Doc.createdAt a) as [seconds|]; [|apply parsed_number].
  destruct (truthy seconds) eqn:Ht; [|apply parsed_number].
  split; [apply mul_thousand_good | apply mul_thousand_number, Ht].
Qed.

Lemma newest_ordered (l : list Doc.t) :
  stamped l ->
  ordered_by (newest Date_parse) (fun a => (- rank (time Date_parse a))%Z) l.
Proof.
  unfold stamped. rewrite Forall_forall. intros Hl x y Hx Hy.
  destruct (time_number x (Hl x Hx)) as [Vx Nx], (time_number y (Hl y Hy)) as [Vy Ny].
  unfold newest. rewrite sub_positive by assumption. rewrite lt_rank by assumption.
  destruct (Z.ltb_spec (rank (time Date_parse x)) (rank (time Date_parse y))),
    (Z.ltb_spec (- rank (time Date_parse y)) (- rank (time Date_parse x)));
    try reflexivity; lia.
Qed.

Lemma sortedExpenses_perm (expenses : list Doc.t) :
  sortedExpenses Date_parse expenses ≡ₚ expenses.
Proof. apply Array_sort_perm. Qed.

Lemma sortedExpenses_sorted (expenses : list Doc.t) :
  stamped expenses ->
  StronglySorted (fun a b => le (time Date_parse b) (time Date_parse a) = true)
    (sortedExpenses Date_parse expenses).
Proof.
  intros Hst. unfold sortedExpenses.
  apply (StronglySorted_weaken
           (fun a b => (- rank (time Date_parse a) <= - rank (time Date_parse b))%Z)).
  - intros a b Ha Hb Hab. rewrite Array_sort_perm in Ha, Hb.
    unfold stamped in Hst. rewrite Forall_forall in Hst.
    destruct (time_number a (Hst a Ha)) as [Va Na], (time_number b (Hst b Hb)) as [Vb Nb].
    rewrite le_rank by assumption. apply Z.leb_le. lia.
  - apply Array_sort_sorted, newest_ordered, Hst.
Qed.

(** In a sorted list nothing of the tail comes before anything of the
    head. *)
Lemma sorted_take_drop {A} (R : A -> A -> Prop) (l : list A) (n : nat) (a b : A) :
  StronglySorted R l -> a ∈ take n l -> b ∈ drop n l -> R a b.
Proof.
  intros Hs. rewrite <- (take_drop n l) in Hs.
  revert Hs. generalize (take n l) (drop n l). intros l1 l2 Hs Ha Hb.
  induction l1 as [|x l1 IH]; [exfalso; exact (not_elem_of_nil _ Ha)|].
  cbn [app] in Hs. apply StronglySorted_inv in Hs as [Hs Hx].
  apply elem_of_cons in Ha as [->|Ha]; [|exact (IH Hs Ha)].
  rewrite Forall_forall in Hx. apply Hx. apply elem_of_app. right. exact Hb.
Qed.

End History.

End History.

(** * The form *)

Module Selection.
Import Js App Entries Format Spec Terms Page.
Local Close Scope Z_scope.

Lemma filter_other (involved : list string) (person : string) :
  person ∉ involved -> filter (fun p => p <> person) involved = involved.
Proof.
  induction involved as [|q l IH]; intros Hp; [reflexivity|].
  rewrite filter_cons. destruct (decide (q <> person)) as [Hq|Hq].
  - rewrite IH; [reflexivity|]. intros H. apply Hp. right. exact H.
  - exfalso. apply Hp. destruct (decide (q = person)) as [->|Hne]; [left | contradiction].
Qed.

Lemma toggleInvolved_elem (involved : list string) (person q : string) :
  q ∈ toggleInvolved involved person <->
  (q <> person /\ q ∈ involved) \/ (q = person /\ person ∉ involved).
Proof.
  unfold toggleInvolved. destruct (bool_decide_reflect (person ∈ involved)) as [Hin|Hin].
  - rewrite list_elem_of_filter. split.
    + intros [Hq Hl]. left. split; assumption.
    + intros [[Hq Hl]|[-> Hn]]; [split; assumption | contradiction].
  - rewrite elem_of_app, list_elem_of_singleton. split.
    + intros [Hl| ->]; [left; split; [intros ->; contradiction | exact Hl]
                       | right; split; [reflexivity | exact Hin]].
    + intros [[Hq Hl]|[-> Hn]]; [left; exact Hl | right; reflexivity].
Qed.

Lemma toggleInvolved_NoDup (involved : list string) (person : string) :
  NoDup involved -> NoDup (toggleInvolved involved person).
Proof.
  intros Hnd. unfold toggleInvolved.
  destruct (bool_decide_reflect (person ∈ involved)) as [Hin|Hin].
  - apply NoDup_filter, Hnd.
  - apply NoDup_app. split; [exact Hnd|]. split; [|apply NoDup_singleton].
    intros x Hx Hx'. apply list_elem_of_singleton in Hx'. subst x. contradiction.
Qed.

Section Roster.
Variable participants : list string.
Hypothesis distinct : NoDup participants.

Local Abbreviation tidy := (Terms.tidy participants).

Lemma handle_tidy (form : Form.t) (ev : event) :
  offered participants ev -> tidy form -> tidy (handle participants form ev).
Proof.
  intros Hev [Hnd Hin]. destruct ev; cbn [handle Form.involved]; try (split; assumption).
  - split; [apply toggleInvolved_NoDup, Hnd|].
    rewrite Forall_forall in Hin |- *. intros q Hq. apply toggleInvolved_elem in Hq.
    destruct Hq as [[_ Hq]|[-> _]]; [exact (Hin q Hq) | exact Hev].
  - split; [exact distinct|]. unfold selectAll. rewrite Forall_forall. intros q Hq. exact Hq.
  - split; constructor.
  - split; constructor.
Qed.

Lemma handle_payer (form : Form.t) (ev : event) :
  offered participants ev -> Form.payer form ∈ participants ->
  Form.payer (handle participants form ev) ∈ participants.
Proof. intros Hev Hp. destruct ev; cbn [handle Form.payer]; try exact Hp. exact Hev. Qed.

(** Whatever the user does, the selection stays tidy and the payer stays
    on the roster. *)
Lemma events_tidy (events : list event) (form : Form.t) :
  Forall (offered participants) events -> tidy form -> Form.payer form ∈ participants ->
  tidy (fold_left (handle participants) events form) /\
  Form.payer (fold_left (handle participants) events form) ∈ participants.
Proof.
  intros Hev. revert form.
  induction Hev as [|ev l Hoff Hl IH]; intros form Ht Hp; cbn [fold_left].
  - split; assumption.
  - apply IH; [apply handle_tidy | apply handle_payer]; assumption.
Qed.

End Roster.

Lemma DEFAULT_PARTICIPANTS_distinct : NoDup DEFAULT_PARTICIPANTS.
Proof. apply (bool_decide_unpack _). vm_compute. exact I. Qed.

(** What [handleAddExpense] sends is what the form holds, and it holds an
    amount, a description and somebody involved. *)
Lemma handleAddExpense_Some (parseFloat_text : string -> number) (form : Form.t) (now : string)
    (e : NewExpense.t) :
  handleAddExpense parseFloat_text form now = Some e ->
  Form.amount form <> ""%string /\ NewExpense.description e <> ""%string /\
  NewExpense.involved e <> [] /\
  NewExpense.involved e = Form.involved form /\ NewExpense.payer e = Form.payer form.
Proof.
  unfold handleAddExpense.
  destruct (bool_decide_reflect (Form.amount form = ""%string)) as [|Ha];
    [discriminate|].
  destruct (bool_decide_reflect (Form.description form = ""%string)) as [|Hd];
    [discriminate|].
  destruct (bool_decide_reflect (length (Form.involved form) = 0)) as [|Hl];
    [discriminate|].
  cbn [orb]. intros [= <-]. cbn [NewExpense.description NewExpense.involved NewExpense.payer].
  repeat split; try assumption. intros H. apply Hl. rewrite H. reflexivity.
Qed.

End Selection.

(** * The total *)

Module Totals.
Import Js App Entries Format Loop Spec Terms Binary64 Exact Rounding Keys Page.
Local Open Scope Z_scope.

Lemma totalSpent_total (expenses : list Doc.t) : totalSpent expenses = total (spent expenses).
Proof.
  unfold totalSpent, total, spent. generalize zero.
  induction expenses as [|item l IH]; intros acc; [reflexivity|].
  cbn [map fold_left snd]. apply IH.
Qed.

Lemma spent_fin (expenses : list Doc.t) :
  Forall (fun item => fin (Expense.amount (Doc.expense item))) expenses ->
  Forall (fun entry => fin entry.2) (spent expenses) /\
  fsum (spent expenses) = spent_exactly expenses /\
  fabs (spent expenses) = fvolume (map Doc.expense expenses) /\
  length (spent expenses) = length expenses.
Proof.
  induction 1 as [|item l Hx Hl (IH1 & IH2 & IH3 & IH4)].
  - repeat split. constructor.
  - destruct (parseFloat_fin _ Hx) as [Hf Hs].
    cbn [spent spent_exactly map fsum fabs fvolume foldr snd length].
    fold (spent l) (fsum (spent l)) (fabs (spent l)) (fvolume (map Doc.expense l))
      (spent_exactly l).
    rewrite Hs, IH2, IH3, IH4. repeat split. constructor; assumption.
Qed.

Lemma spent_integral (expenses : list Doc.t) :
  Forall (fun item => integral (Expense.amount (Doc.expense item))) expenses ->
  Forall (fun entry => integral entry.2) (spent expenses) /\
  zsum (spent expenses) = volume (map Doc.expense expenses) /\
  zabs (spent expenses) = spent_at_most expenses.
Proof.
  induction 1 as [|item l Hx Hl (IH1 & IH2 & IH3)].
  - repeat split. constructor.
  - cbn [spent spent_at_most map zsum zabs volume foldr snd].
    fold (spent l) (zsum (spent l)) (zabs (spent l)) (volume (map Doc.expense l))
      (spent_at_most l).
    rewrite (parseFloat_whole _ _ Hx), IH2, IH3. repeat split. constructor; assumption.
Qed.

Lemma totalSpent_NaN (expenses : list Doc.t) (item : Doc.t) (acc : number) :
  item ∈ expenses -> Expense.amount (Doc.expense item) = NaN ->
  fold_left (fun sum item => add sum (parseFloat (Expense.amount (Doc.expense item))))
    expenses acc = NaN.
Proof.
  revert acc. induction expenses as [|e l IH]; intros acc Hin Ha; [inversion Hin|].
  cbn [fold_left]. apply elem_of_cons in Hin as [<-|Hin]; [|exact (IH _ Hin Ha)].
  rewrite Ha. change (parseFloat NaN) with NaN. rewrite add_NaN_r.
  clear. induction l as [|e l IH]; [reflexivity|]. cbn [fold_left]. exact IH.
Qed.

End Totals.

(** * What is shown of a balance *)

Module Display.
Import Js App Entries Format Terms Binary64 Page.
Local Close Scope Z_scope.

Lemma digits_head (n : N) : exists c s, digits n = String c s /\ Ascii.eqb c "-" = false.
Proof.
  rewrite digits_eq. pose proof (to_uint_nonnil n) as Hn.
  destruct (N.to_uint n); [congruence| | | | | | | | | |]; cbn [NilEmpty.string_of_uint];
    eexists _, _; (split; [reflexivity | reflexivity]).
Qed.

Lemma fixed_has_minus (n : N) : has_minus (fixed n) = false.
Proof.
  unfold fixed. destruct (digits_head (n / 100)) as (c & s & -> & Hc).
  rewrite append_cons. exact Hc.
Qed.

Lemma exponent_notation_has_minus (s n : Z) : has_minus (exponent_notation s n) = false.
Proof.
  unfold exponent_notation. destruct (digits_head (Z.to_N s)) as (c & r & -> & Hc).
  destruct r; rewrite append_cons; exact Hc.
Qed.

Lemma toString_large_has_minus (x : number) (v : Z) : has_minus (toString_large x v) = false.
Proof.
  unfold toString_large. destruct (shortest_digits 18 x v 1) as [[s n]|].
  - apply exponent_notation_has_minus.
  - destruct (digits_head (Z.to_N v)) as (c & r & -> & Hc). exact Hc.
Qed.

(** A minus sign is printed for the numbers below zero, and for no other. *)
Lemma toFixed2_has_minus (x : number) : has_minus (toFixed2 x) = lt x zero.
Proof.
  destruct x as [s|s| |s m e]; try reflexivity.
  - destruct s; reflexivity.
  - assert (Hlt : lt (S754_finite s m e) zero = s) by (destruct s; reflexivity).
    rewrite Hlt. unfold toFixed2.
    destruct ((0 <=? e)%Z && (10 ^ 21 <=? Z.pos m * 2 ^ e)%Z).
    + destruct s; [rewrite append_cons; reflexivity|].
      rewrite append_empty_l. apply toString_large_has_minus.
    + destruct s; [rewrite append_cons; reflexivity|].
      rewrite append_empty_l. apply fixed_has_minus.
Qed.

End Display.

(** * Further properties

    Properties of the code that the specification does not state: the
    order in which debts are matched, who can appear in a settlement, the
    keys of the balances, the history of the expenses, the form and the
    total. *)

Module Further.
Import Js App Entries Format Loop Spec Terms Examples Binary64 Matching Settlement Balances Exact.
Import Rounding Order Sorting Pairs Keys Paying History Selection Totals Display Page.
Local Close Scope Z_scope.

Ltac listed := solve [repeat constructor].

Ltac decided := apply (bool_decide_unpack _); vm_compute; exact I.

(** ** The order of the matching *)

(** X2: on entry to the loop each of the two arrays is a rearrangement of
    the entries pushed to it; the debtors are in ascending order of their
    amounts, the largest debt first, and the creditors in descending order,
    the largest credit first.  This holds for every balance map: no entry
    holds NaN, on which the comparison functions would be inconsistent. *)
Theorem largest_first (balances : object) :
  debtors (start balances) ≡ₚ (separate balances).1 /\
  creditors (start balances) ≡ₚ (separate balances).2 /\
  StronglySorted (fun a b => le (Entry.amount a) (Entry.amount b) = true)
    (debtors (start balances)) /\
  StronglySorted (fun a b => le (Entry.amount b) (Entry.amount a) = true)
    (creditors (start balances)).
Proof.
  destruct (separate_numbered balances) as [Hd Hc].
  rewrite start_eq, separate_omap. cbn [debtors creditors fst snd].
  split; [apply sort_perm|]. split; [apply sort_perm|].
  split; [apply sorted_ascending, Hd | apply sorted_descending, Hc].
Qed.

(** X3: the two sorts are stable: the debtors of one amount, and the
    creditors of one amount, are matched in the order in which
    [Object.entries] lists them in the balances. *)
Theorem ties_keep_order (balances : object) (v : number) :
  List.filter (fun e => strict_eq (Entry.amount e) v) (debtors (start balances)) =
    List.filter (fun e => strict_eq (Entry.amount e) v) (separate balances).1 /\
  List.filter (fun e => strict_eq (Entry.amount e) v) (creditors (start balances)) =
    List.filter (fun e => strict_eq (Entry.amount e) v) (separate balances).2.
Proof.
  destruct (separate_numbered balances) as [Hd Hc].
  rewrite start_eq, separate_omap. cbn [debtors creditors fst snd].
  split; [apply stable_ascending, Hd | apply stable_descending, Hc].
Qed.

(** ** Who appears in a settlement *)

(** X4: in every transaction the loop pushes, [from] is a key of the
    balances whose rounded balance is below -0.01 and [to] is a key whose
    rounded balance is above 0.01: only debtors pay and only creditors are
    paid. *)
Theorem debtors_pay_creditors (balances : object) (fuel : nat) :
  Forall (fun tx =>
            (exists b, (Transaction.from tx, b) ∈ balances /\ lt (rounded b) (neg cent) = true) /\
            (exists b, (Transaction.to tx, b) ∈ balances /\ lt cent (rounded b) = true))
    (transactions (loop fuel (start balances))).
Proof. apply transactions_listed. Qed.

(** X5: [settlements] is empty, and the page says that no settlements are
    needed, exactly when the panel is closed, or no rounded balance is
    below -0.01, or no rounded balance is above 0.01. *)
Theorem no_settlements_iff (isSettleOpen : bool) (fuel : nat) (balances : object) :
  settlements isSettleOpen fuel balances = Some [] <->
  isSettleOpen = false \/ (separate balances).1 = [] \/ (separate balances).2 = [].
Proof.
  unfold settlements. destruct isSettleOpen.
  - rewrite returns_nothing. split; [intros H; right; exact H|].
    intros [H|H]; [discriminate | exact H].
  - split; [intros _; left; reflexivity | reflexivity].
Qed.

(** X6: when [calculateSettlements] returns, it returns at least as many
    transactions as the shorter of the two arrays has entries: each
    execution of the loop body moves a cursor by one entry at most. *)
Theorem transactions_at_least (balances : object) (fuel : nat) (txs : list Transaction.t) :
  calculateSettlements fuel balances = Some txs ->
  Nat.min (length (separate balances).1) (length (separate balances).2) <= length txs.
Proof.
  unfold calculateSettlements. intros H.
  destruct (running (loop fuel (start balances))) eqn:Hend; [discriminate|].
  injection H as <-.
  destruct (start_lengths balances) as (Hd & Hc & Hi & Hj & Ht).
  destruct (loop_counts fuel (start balances)) as (Hd2 & Hc2 & Hi2 & Hj2);
    [rewrite Hi; lia | rewrite Hj; lia |].
  apply running_false in Hend. rewrite Hd2, Hc2, Hd, Hc in Hend. lia.
Qed.

Lemma transactions_at_least_witness :
  calculateSettlements 1 couple = Some [Transaction.Build_t "B" "A" "10.00"] /\
  Nat.min (length (separate couple).1) (length (separate couple).2) <=
    length [Transaction.Build_t "B" "A" "10.00"].
Proof.
  assert (H : calculateSettlements 1 couple = Some [Transaction.Build_t "B" "A" "10.00"])
    by (vm_compute; reflexivity).
  split; [exact H | exact (transactions_at_least couple 1 _ H)].
Defined.

(** X7: for balances with distinct keys whose rounded balances are all
    finite, no two transactions have the same [from] and the same [to]:
    nobody is asked to pay the same participant twice. *)
Theorem no_pair_twice (balances : object) (fuel : nat) :
  NoDup (map fst balances) ->
  Forall (fun entry => infinite (rounded entry.2) = false) balances ->
  NoDup (map parties (transactions (loop fuel (start balances)))).
Proof.
  intros Hnd Hfin.
  apply (loop_paired fuel (start balances) (start_ahead balances Hfin) (start_paired _ Hnd)).
Qed.

(** With A owed 10, B owed 5, C owing 8 and D owing 7 there are three
    transactions, two of them to A and two of them from D. *)
Lemma no_pair_twice_witness :
  NoDup (map fst square) /\
  Forall (fun entry => infinite (rounded entry.2) = false) square /\
  map parties (transactions (loop 3 (start square))) =
    [("C", "A"); ("D", "A"); ("D", "B")]%string /\
  NoDup (map parties (transactions (loop 3 (start square)))).
Proof.
  assert (Hnd : NoDup (map fst square)) by decided.
  assert (Hfin : Forall (fun entry => infinite (rounded entry.2) = false) square).
  { repeat (apply Forall_cons_2; [vm_compute; reflexivity|]). apply Forall_nil_2. }
  split; [exact Hnd|]. split; [exact Hfin|]. split; [vm_compute; reflexivity|].
  exact (no_pair_twice square 3 Hnd Hfin).
Defined.

(** ** The keys of the balances *)

(** X8: whatever the expenses, no name is a key of the balances twice, and
    the keys are the participants of the roster together with the payer and
    the participants involved of every expense that is not skipped, but for
    the name [__proto__], which is never a key. *)
Theorem balances_keys (participants : list string) (expenses : list Expense.t) :
  NoDup (keys (balances participants expenses)) /\
  forall q, q ∈ keys (balances participants expenses) <->
            (q ∈ participants \/ Exists (fun exp => q ∈ touched exp) expenses) /\ q <> proto.
Proof. apply keys_balances. Qed.

(** X9: for a roster without repetition and without the name [__proto__],
    and expenses whose payer and participants involved are on the roster,
    the keys of the balances are the names of the roster, whatever the
    expenses: those that are array indices first, in ascending order, then
    the others in the order of the roster.  On a roster without array
    indices the keys are the roster in its order. *)
Theorem balances_keys_roster (participants : list string) (expenses : list Expense.t) :
  NoDup participants -> proto ∉ participants -> Forall (drawn participants) expenses ->
  listing participants (keys (balances participants expenses)) /\
  (Forall (fun k => array_index k = None) participants ->
   keys (balances participants expenses) = participants).
Proof.
  intros Hnd Hp Hdr.
  assert (Hl : listing participants (keys (balances participants expenses))).
  { rewrite (keys_drawn participants expenses Hp Hdr).
    apply (roster_listing participants [] []); [exact Hnd | exact Hp|].
    exists []. split; [reflexivity|]. split; [reflexivity | constructor]. }
  split; [exact Hl|]. intros Hall. exact (listing_plain _ _ Hall Hl).
Qed.

Lemma roster_dinner_drawn : Forall (drawn roster) [dinner].
Proof.
  apply Forall_cons_2; [|apply Forall_nil_2]. split; [listed|].
  intros involved [= <-]. repeat (apply Forall_cons_2; [listed|]). apply Forall_nil_2.
Qed.

Lemma numbered_supper_drawn : Forall (drawn numbered_roster) [supper].
Proof.
  apply Forall_cons_2; [|apply Forall_nil_2]. split; [listed|].
  intros involved [= <-]. repeat (apply Forall_cons_2; [listed|]). apply Forall_nil_2.
Qed.

Lemma roster_no_proto : proto ∉ roster.
Proof. decided. Qed.

(** On the roster B, 7, A the keys are 7, B, A; on the roster A, B, C they
    are A, B, C. *)
Lemma balances_keys_roster_witness :
  NoDup numbered_roster /\ (proto ∉ numbered_roster) /\
  Forall (drawn numbered_roster) [supper] /\
  listing numbered_roster (keys (balances numbered_roster [supper])) /\
  keys (balances numbered_roster [supper]) = ["7"; "B"; "A"]%string /\
  Forall (fun k => array_index k = None) roster /\
  keys (balances roster [dinner]) = roster.
Proof.
  assert (Hnd : NoDup numbered_roster) by decided.
  assert (Hp : proto ∉ numbered_roster) by decided.
  assert (Hnd' : NoDup roster) by decided.
  assert (Hall : Forall (fun k => array_index k = None) roster).
  { repeat (apply Forall_cons_2; [vm_compute; reflexivity|]). apply Forall_nil_2. }
  split; [exact Hnd|]. split; [exact Hp|]. split; [exact numbered_supper_drawn|].
  split; [exact (proj1 (balances_keys_roster numbered_roster [supper] Hnd Hp
                          numbered_supper_drawn))|].
  split; [vm_compute; reflexivity|]. split; [exact Hall|].
  exact (proj2 (balances_keys_roster roster [dinner] Hnd' roster_no_proto roster_dinner_drawn)
           Hall).
Defined.

(** X10: what is read under a name that is not on the roster converts to
    NaN, whatever the expenses.  If the name is not one of
    [Object.prototype] either, it reads [undefined] until an expense that
    is not skipped has it as its payer or among its participants involved,
    and NaN from then on: the first assignment adds to, or subtracts from,
    [undefined]. *)
Theorem stranger_balance (participants : list string) (expenses : list Expense.t) (k : string) :
  k ∉ participants ->
  ToNumber (read (balances participants expenses) k) = NaN /\
  (k ∉ Object_prototype ->
   read (balances participants expenses) k =
   if decide (Exists (fun exp => k ∈ touched exp) expenses) then Num NaN else Undefined).
Proof.
  intros Hk. split; [exact (stranger_unset participants expenses k Hk)|].
  intros Hi. exact (read_stranger participants expenses k Hk Hi).
Qed.

(** Z, who pays 30 for A and B, has the balance NaN; the name constructor
    in the place of Z holds a string. *)
Lemma stranger_balance_witness :
  ("Z"%string ∉ roster) /\ ("Z"%string ∉ Object_prototype) /\
  read (balances roster stranger) "Z" = Num NaN /\
  ("constructor"%string ∉ roster) /\
  read (balances roster builder) "constructor" = Text "constructor" [of_Z 30] /\
  ToNumber (read (balances roster builder) "constructor") = NaN.
Proof.
  assert (H : "Z"%string ∉ roster) by decided.
  assert (Hi : "Z"%string ∉ Object_prototype) by decided.
  assert (H' : "constructor"%string ∉ roster) by decided.
  split; [exact H|]. split; [exact Hi|].
  split; [rewrite (proj2 (stranger_balance roster stranger "Z" H) Hi); vm_compute; reflexivity|].
  split; [exact H'|]. split; [vm_compute; reflexivity|].
  exact (proj1 (stranger_balance roster builder "constructor" H')).
Defined.

(** X11: whatever the expenses, every transaction the loop pushes on the
    balances is between two participants of the roster: what a name from
    off the roster holds converts to NaN, which is neither below -0.01 nor
    above 0.01. *)
Theorem settled_among_participants (participants : list string) (expenses : list Expense.t)
    (fuel : nat) :
  Forall (fun tx => Transaction.from tx ∈ participants /\ Transaction.to tx ∈ participants)
    (transactions (loop fuel (start (numbers (balances participants expenses))))).
Proof.
  eapply Forall_impl; [apply transactions_listed|]. cbn beta.
  intros tx [(b & Hb & Hlt) (b' & Hb' & Hlt')]. split.
  - apply (number_on_roster participants expenses _ b Hb). intros ->. discriminate Hlt.
  - apply (number_on_roster participants expenses _ b' Hb'). intros ->.
    rewrite cent_eq in Hlt'. discriminate Hlt'.
Qed.

(** ** From the expenses to a settled trip *)

(** X12: for a roster without the name [__proto__] and expenses between its
    participants whose amounts are positive whole numbers, each a multiple
    of the number of participants it is split between, and add up to less
    than 2^45, [calculateSettlements] returns on the balances of
    [balances], within as many executions of the loop body as there are
    participants, and paying all its transactions leaves every balance at
    exactly zero. *)
Theorem whole_expenses_settle (participants : list string) (expenses : list Expense.t)
    (fuel : nat) :
  proto ∉ participants ->
  Forall (drawn participants) expenses -> Forall even_split expenses ->
  (2 * volume expenses < 2 ^ 46)%Z -> length participants <= fuel ->
  exists txs,
    calculateSettlements fuel (numbers (balances participants expenses)) = Some txs /\
    Forall (fun entry => entry.2 = zero)
      (settle_all (numbers (balances participants expenses)) txs).
Proof.
  intros Hp Hd He Hv Hfuel.
  assert (Hv53 : (0 + 2 * volume expenses < 2 ^ 53)%Z).
  { change (2 ^ 53)%Z with (128 * 2 ^ 46)%Z. pose proof (volume_nonneg expenses He). lia. }
  pose proof (proj1 (keys_balances participants expenses)) as Hnd.
  assert (Hlen : length (numbers (balances participants expenses)) <= length participants).
  { pose proof (f_equal (@length string) (keys_drawn participants expenses Hp Hd)) as Hk.
    unfold keys, numbers in *. rewrite !length_map in *. rewrite Hk.
    pose proof (roster_length participants []) as Hr. cbn [length] in Hr. exact Hr. }
  assert (Hnd' : NoDup (map fst (numbers (balances participants expenses)))).
  { unfold numbers. rewrite map_map. exact Hnd. }
  destruct (balances_values participants expenses Hp Hd) as (o0 & Hbal & Hk & Hz & _).
  pose proof (books_expenses participants expenses 0 _ (books_zero participants o0 Hk Hz) Hd He
                Hv53) as (_ & Hi & Hs & Hb).
  rewrite Hbal, numbers_values in *.
  set (o := fold_left post expenses o0) in *.
  assert (Ho : Forall (fun entry => whole_balance entry.2) o)
    by (apply whole_balances; [exact Hi | lia]).
  destruct (whole_returns o fuel Ho ltac:(lia)) as [Hrun Hret].
  exists (transactions (loop fuel (start o))). split; [exact Hret|].
  pose proof (exact_matching_loop o _ _ fuel _ (exact_matching_start o Hnd' Ho)) as Hex.
  rewrite Hs in Hex.
  exact (exact_matching_settled o _ _ Hnd' Hex Hrun).
Qed.

Lemma roster_dinner_even : Forall even_split [dinner].
Proof.
  apply Forall_cons_2; [|apply Forall_nil_2].
  split; [apply (whole_integral _ 30), of_Z_whole; vm_compute; reflexivity|].
  split; [vm_compute; reflexivity|].
  intros involved [= <-]. exists 10%Z. vm_compute. reflexivity.
Qed.

Lemma whole_expenses_settle_witness :
  (proto ∉ roster) /\
  Forall (drawn roster) [dinner] /\ Forall even_split [dinner] /\
  (2 * volume [dinner] < 2 ^ 46)%Z /\ length roster <= 3 /\
  exists txs, calculateSettlements 3 (numbers (balances roster [dinner])) = Some txs /\
    Forall (fun entry => entry.2 = zero) (settle_all (numbers (balances roster [dinner])) txs).
Proof.
  assert (Hv : (2 * volume [dinner] < 2 ^ 46)%Z) by (vm_compute; reflexivity).
  assert (Hf : length roster <= 3) by (cbn; lia).
  split; [exact roster_no_proto|].
  split; [exact roster_dinner_drawn|]. split; [exact roster_dinner_even|].
  split; [exact Hv|]. split; [exact Hf|].
  exact (whole_expenses_settle roster [dinner] 3 roster_no_proto roster_dinner_drawn
           roster_dinner_even Hv Hf).
Defined.

(** ** The history *)

(** X13: [sortedExpenses] is a rearrangement of the expenses in which no
    expense comes before a newer one, the time of an expense being a
    thousand times the seconds of its timestamp and, without a timestamp,
    what [Date.parse] makes of its date, 0 if that is NaN. *)
Theorem history_newest_first (Date_parse : string -> option Z) (expenses : list Doc.t) :
  stamped expenses ->
  sortedExpenses Date_parse expenses ≡ₚ expenses /\
  StronglySorted (fun a b => le (time Date_parse b) (time Date_parse a) = true)
    (sortedExpenses Date_parse expenses).
Proof.
  intros Hst. split; [apply sortedExpenses_perm | apply sortedExpenses_sorted, Hst].
Qed.

Lemma history_stamped : stamped history.
Proof.
  unfold stamped, history.
  repeat (apply Forall_cons_2;
            [intros seconds Hs; unfold receipt in Hs; cbn [Doc.createdAt] in Hs;
             try discriminate Hs; injection Hs as <-; vm_compute; reflexivity|]).
  apply Forall_nil_2.
Qed.

Lemma history_newest_first_witness :
  stamped history /\
  sortedExpenses calendar history ≡ₚ history /\
  StronglySorted (fun a b => le (time calendar b) (time calendar a) = true)
    (sortedExpenses calendar history).
Proof.
  split; [exact history_stamped | exact (history_newest_first calendar history history_stamped)].
Defined.

(** X14: the sort of the history is stable: the expenses of one time are
    listed in the order of the snapshot. *)
Theorem history_stable (Date_parse : string -> option Z) (expenses : list Doc.t)
    (t : number) :
  stamped expenses ->
  List.filter (fun a => strict_eq (time Date_parse a) t) (sortedExpenses Date_parse expenses) =
  List.filter (fun a => strict_eq (time Date_parse a) t) expenses.
Proof.
  intros Hst. unfold sortedExpenses.
  apply (Array_sort_stable (newest Date_parse) (fun a => (- rank (time Date_parse a))%Z)).
  - apply newest_ordered, Hst.
  - intros a b Ha Hb. rewrite (strict_eq_rank _ _ Ha), (strict_eq_rank _ _ Hb). reflexivity.
Qed.

Lemma same_second_stamped : stamped same_second.
Proof.
  unfold stamped, same_second.
  repeat (apply Forall_cons_2;
            [intros seconds Hs; unfold receipt in Hs; cbn [Doc.createdAt] in Hs;
             try discriminate Hs; injection Hs as <-; vm_compute; reflexivity|]).
  apply Forall_nil_2.
Qed.

(** Of four expenses, e1, e3 and e4 have the same time and e2 is a second
    older: the three are listed as e1, e3, e4, before e2. *)
Lemma history_stable_witness :
  stamped same_second /\
  map Doc.id (sortedExpenses calendar same_second) = ["e1"; "e3"; "e4"; "e2"]%string /\
  map Doc.id
    (List.filter (fun a => strict_eq (time calendar a) (of_Z 1767225600000)) same_second) =
    ["e1"; "e3"; "e4"]%string /\
  List.filter (fun a => strict_eq (time calendar a) (of_Z 1767225600000))
    (sortedExpenses calendar same_second) =
  List.filter (fun a => strict_eq (time calendar a) (of_Z 1767225600000)) same_second.
Proof.
  split; [exact same_second_stamped|]. split; [vm_compute; reflexivity|].
  split; [vm_compute; reflexivity|].
  exact (history_stable calendar same_second (of_Z 1767225600000) same_second_stamped).
Defined.

(** X15: the list shows all the expenses when the whole history is asked
    for, and three of them otherwise, or all if there are fewer; the
    expenses it hides are no newer than any it shows. *)
Theorem visible_are_newest (Date_parse : string -> option Z) (showAllHistory : bool)
    (expenses : list Doc.t) :
  stamped expenses ->
  exists hidden,
    visibleExpenses Date_parse showAllHistory expenses ++ hidden ≡ₚ expenses /\
    length (visibleExpenses Date_parse showAllHistory expenses) =
      (if showAllHistory then length expenses else Nat.min 3 (length expenses)) /\
    forall a b, a ∈ visibleExpenses Date_parse showAllHistory expenses -> b ∈ hidden ->
                le (time Date_parse b) (time Date_parse a) = true.
Proof.
  intros Hst. pose proof (sortedExpenses_sorted Date_parse expenses Hst) as Hs.
  pose proof (sortedExpenses_perm Date_parse expenses) as Hp.
  unfold visibleExpenses. destruct showAllHistory.
  - exists []. rewrite app_nil_r. split; [exact Hp|]. split; [rewrite Hp; reflexivity|].
    intros a b _ Hb. exfalso. exact (not_elem_of_nil _ Hb).
  - exists (drop 3 (sortedExpenses Date_parse expenses)).
    rewrite take_drop. split; [exact Hp|]. split; [rewrite length_take, Hp; reflexivity|].
    intros a b Ha Hb. exact (sorted_take_drop _ _ 3 a b Hs Ha Hb).
Qed.

Lemma visible_are_newest_witness :
  stamped history /\
  exists hidden,
    visibleExpenses calendar false history ++ hidden ≡ₚ history /\
    length (visibleExpenses calendar false history) = Nat.min 3 (length history) /\
    forall a b, a ∈ visibleExpenses calendar false history -> b ∈ hidden ->
                le (time calendar b) (time calendar a) = true.
Proof.
  split; [exact history_stamped | exact (visible_are_newest calendar false history history_stamped)].
Defined.

(** ** The form *)

(** X16: [toggleInvolved] changes whether the person toggled is selected
    and nobody else's selection, and a selection without repetition stays
    without repetition. *)
Theorem toggle_flips_one (involved : list string) (person : string) :
  (person ∈ toggleInvolved involved person <-> person ∉ involved) /\
  (forall q, q <> person -> (q ∈ toggleInvolved involved person <-> q ∈ involved)) /\
  (NoDup involved -> NoDup (toggleInvolved involved person)).
Proof.
  split; [|split].
  - rewrite toggleInvolved_elem. split.
    + intros [[H _]|[_ H]]; [congruence | exact H].
    + intros H. right. split; [reflexivity | exact H].
  - intros q Hq. rewrite toggleInvolved_elem. split.
    + intros [[_ H]|[H _]]; [exact H | contradiction].
    + intros H. left. split; assumption.
  - apply toggleInvolved_NoDup.
Qed.

(** X17: toggling a person twice gives the selection back when the person
    was not selected; when the person was, the person is selected again
    but at the end of the list, once. *)
Theorem toggle_twice (involved : list string) (person : string) :
  toggleInvolved (toggleInvolved involved person) person =
  if bool_decide (person ∈ involved) then filter (fun p => p <> person) involved ++ [person]
  else involved.
Proof.
  unfold toggleInvolved at 2. destruct (bool_decide_reflect (person ∈ involved)) as [Hin|Hin].
  - unfold toggleInvolved.
    destruct (bool_decide_reflect (person ∈ filter (fun p => p <> person) involved)) as [H|H];
      [|reflexivity].
    apply list_elem_of_filter in H as [H _]. congruence.
  - unfold toggleInvolved.
    destruct (bool_decide_reflect (person ∈ involved ++ [person])) as [H|H].
    + rewrite filter_app, (filter_other _ _ Hin), filter_cons.
      destruct (decide (person <> person)) as [Hp|_]; [congruence|].
      rewrite filter_nil, app_nil_r. reflexivity.
    + exfalso. apply H. apply elem_of_app. right. left.
Qed.

(** X18: whatever the user does to the form, through the amount, payer and
    description fields, the toggle buttons, Select All and Clear, and
    however often an expense has been added before, the expense that
    [handleAddExpense] sends has a payer from the roster, a description
    that is not empty, and a list of participants involved that is not
    empty, has nobody twice and nobody from off the roster. *)
Theorem form_sends_roster_expense (parseFloat_text : string -> number) (events : list event)
    (now : string) (e : NewExpense.t) :
  Forall (offered DEFAULT_PARTICIPANTS) events ->
  handleAddExpense parseFloat_text (fold_left (handle DEFAULT_PARTICIPANTS) events initial) now
    = Some e ->
  drawn DEFAULT_PARTICIPANTS (NewExpense.expense e) /\
  NewExpense.description e <> ""%string /\
  NoDup (NewExpense.involved e) /\ NewExpense.involved e <> [].
Proof.
  intros Hev Hsend.
  destruct (events_tidy DEFAULT_PARTICIPANTS DEFAULT_PARTICIPANTS_distinct events initial Hev)
    as [[Hnd Hin] Hp]; [split; constructor | left |].
  destruct (handleAddExpense_Some _ _ _ _ Hsend) as (_ & Hd & Hne & Hi & Hpay).
  split; [|split; [exact Hd | split; [rewrite Hi; exact Hnd | exact Hne]]].
  split; cbn [NewExpense.expense Expense.payer Expense.involved].
  - rewrite Hpay. exact Hp.
  - intros involved [= <-]. rewrite Hi. exact Hin.
Qed.

Lemma form_sends_roster_expense_witness :
  Forall (offered DEFAULT_PARTICIPANTS) lunch /\
  handleAddExpense (fun _ => of_cents 1250)
    (fold_left (handle DEFAULT_PARTICIPANTS) lunch initial) "2026-01-02T12:00:00.000Z" =
    Some {| NewExpense.amount := of_cents 1250; NewExpense.description := "Lunch";
            NewExpense.payer := "Theo"; NewExpense.involved := ["Theo"; "Ruben"];
            NewExpense.date := "2026-01-02T12:00:00.000Z" |} /\
  drawn DEFAULT_PARTICIPANTS
    (NewExpense.expense
       {| NewExpense.amount := of_cents 1250; NewExpense.description := "Lunch";
          NewExpense.payer := "Theo"; NewExpense.involved := ["Theo"; "Ruben"];
          NewExpense.date := "2026-01-02T12:00:00.000Z" |}) /\
  "Lunch"%string <> ""%string /\ NoDup ["Theo"; "Ruben"]%string /\ ["Theo"; "Ruben"]%string <> [].
Proof.
  assert (Hev : Forall (offered DEFAULT_PARTICIPANTS) lunch).
  { repeat (apply Forall_cons_2; [cbn [offered]; try exact I; listed|]). apply Forall_nil_2. }
  assert (Hsend : handleAddExpense (fun _ => of_cents 1250)
                    (fold_left (handle DEFAULT_PARTICIPANTS) lunch initial)
                    "2026-01-02T12:00:00.000Z" =
                  Some {| NewExpense.amount := of_cents 1250; NewExpense.description := "Lunch";
                          NewExpense.payer := "Theo"; NewExpense.involved := ["Theo"; "Ruben"];
                          NewExpense.date := "2026-01-02T12:00:00.000Z" |})
    by reflexivity.
  split; [exact Hev|]. split; [exact Hsend|].
  exact (form_sends_roster_expense _ lunch _ _ Hev Hsend).
Defined.

(** ** The total *)

(** X19: for finite amounts whose magnitudes, with 2^-21 for each expense,
    add up to less than 2^32, [totalSpent] is finite and differs from the
    exact sum of the amounts by at most 2^-21 for each expense (the values
    are in units of 2^-1074). *)
Theorem totalSpent_error (expenses : list Doc.t) :
  Forall (fun item => fin (Expense.amount (Doc.expense item))) expenses ->
  (fvolume (map Doc.expense expenses) + Z.of_nat (length expenses) * eps < lim)%Z ->
  fin (totalSpent expenses) /\
  (Z.abs (sv (totalSpent expenses) - spent_exactly expenses)
   <= Z.of_nat (length expenses) * eps)%Z.
Proof.
  intros Hf Hlt. destruct (spent_fin expenses Hf) as (H1 & H2 & H3 & H4).
  rewrite totalSpent_total, <- H2, <- H4.
  apply total_error; [exact H1|]. rewrite H3, H4. exact Hlt.
Qed.

Lemma history_fin : Forall (fun item => fin (Expense.amount (Doc.expense item))) history.
Proof. repeat (apply Forall_cons_2; [vm_compute; reflexivity|]). apply Forall_nil_2. Qed.

Lemma totalSpent_error_witness :
  Forall (fun item => fin (Expense.amount (Doc.expense item))) history /\
  (fvolume (map Doc.expense history) + Z.of_nat (length history) * eps < lim)%Z /\
  fin (totalSpent history) /\
  (Z.abs (sv (totalSpent history) - spent_exactly history) <= Z.of_nat (length history) * eps)%Z.
Proof.
  assert (Hlt : (fvolume (map Doc.expense history) + Z.of_nat (length history) * eps < lim)%Z)
    by (vm_compute; reflexivity).
  split; [exact history_fin|]. split; [exact Hlt|].
  exact (totalSpent_error history history_fin Hlt).
Defined.

(** X20: for amounts that are whole numbers whose magnitudes add up to less
    than 2^53, [totalSpent] is exactly their sum. *)
Theorem totalSpent_whole (expenses : list Doc.t) :
  Forall (fun item => integral (Expense.amount (Doc.expense item))) expenses ->
  (spent_at_most expenses < 2 ^ 53)%Z ->
  totalSpent expenses = of_Z (volume (map Doc.expense expenses)).
Proof.
  intros Hi Hb. destruct (spent_integral expenses Hi) as (H1 & H2 & H3).
  rewrite totalSpent_total. rewrite <- H3 in Hb.
  pose proof (total_whole (spent expenses) H1 Hb) as Hw. rewrite H2 in Hw.
  apply whole_of_Z; [|exact Hw]. rewrite <- H2. pose proof (zsum_le_zabs (spent expenses)). lia.
Qed.

Lemma history_integral :
  Forall (fun item => integral (Expense.amount (Doc.expense item))) history.
Proof.
  apply Forall_cons_2; [apply (whole_integral _ 30), of_Z_whole; vm_compute; reflexivity|].
  apply Forall_cons_2; [apply (whole_integral _ 60), of_Z_whole; vm_compute; reflexivity|].
  apply Forall_cons_2; [apply (whole_integral _ 90), of_Z_whole; vm_compute; reflexivity|].
  apply Forall_cons_2; [apply (whole_integral _ 12), of_Z_whole; vm_compute; reflexivity|].
  apply Forall_nil_2.
Qed.

Lemma totalSpent_whole_witness :
  Forall (fun item => integral (Expense.amount (Doc.expense item))) history /\
  (spent_at_most history < 2 ^ 53)%Z /\
  totalSpent history = of_Z (volume (map Doc.expense history)).
Proof.
  assert (Hb : (spent_at_most history < 2 ^ 53)%Z) by (vm_compute; reflexivity).
  split; [exact history_integral|]. split; [exact Hb|].
  exact (totalSpent_whole history history_integral Hb).
Defined.

(** ** What is shown of a balance *)

(** X21: a balance is shown in red exactly when its text starts with a
    minus sign or it is NaN; and a negative balance of a magnitude below
    0.005 is shown in red as -0.00. *)
Theorem red_iff_minus (amount : number) :
  (balance_class amount = "text-red-500"%string <->
   has_minus (balance_text amount) = true \/ amount = NaN) /\
  (forall m e, amount = S754_finite true m e -> (e < 0)%Z -> (200 * Zpos m < 2 ^ (- e))%Z ->
     balance_class amount = "text-red-500"%string /\ balance_text amount = "-0.00"%string).
Proof.
  unfold balance_class, balance_text. split.
  - rewrite toFixed2_has_minus. destruct amount as [s|s| |s m e].
    + cbn. split; [discriminate | intros [H|H]; discriminate H].
    + destruct s; cbn; split; try discriminate; try (intros _; left; reflexivity);
        try reflexivity; intros [H|H]; discriminate H.
    + cbn. split; [intros _; right; reflexivity | reflexivity].
    + assert (Hle : le zero (S754_finite s m e) = negb s) by (destruct s; reflexivity).
      assert (Hlt : lt (S754_finite s m e) zero = s) by (destruct s; reflexivity).
      rewrite Hle, Hlt. destruct s; cbn [negb]; split; try discriminate;
        try (intros _; left; reflexivity); try reflexivity; intros [H|H]; discriminate H.
  - intros m e -> He Hm. split; [reflexivity|]. unfold toFixed2.
    destruct (Z.leb_spec 0 e) as [H0|_]; [lia|]. cbn [andb].
    assert (Hp : (0 < 2 ^ (- e))%Z) by (apply pow2_pos; lia).
    assert (Hq : ((200 * Zpos m + 2 ^ (- e)) / 2 ^ (- e + 1) = 0)%Z).
    { apply Z.div_small. rewrite Z.pow_add_r by lia. change (2 ^ 1)%Z with 2%Z. lia. }
    rewrite Hq. reflexivity.
Qed.

(** ** Paying the transactions *)

(** X22: for balances with distinct keys that are whole numbers below 2^46 in
    magnitude, of any sum, paying the transactions the loop has pushed takes
    every balance towards zero and never past it: nobody has paid more than
    they owed, and nobody has been paid more than they were owed. *)
Theorem nobody_overpays (o : object) (fuel : nat) :
  NoDup (map fst o) -> Forall (fun entry => whole_balance entry.2) o ->
  Forall (fun entry => exists b, get o entry.1 = Some b /\ integral entry.2 /\
            ((to_Z b <= to_Z entry.2 <= 0)%Z \/ (0 <= to_Z entry.2 <= to_Z b)%Z))
    (settle_all o (transactions (loop fuel (start o)))).
Proof.
  intros Hnd Ho.
  pose proof (exact_matching_loop o _ _ fuel _ (exact_matching_start o Hnd Ho)) as Hex.
  pose proof (loop_shrinking (start o) fuel (start o) (start_shrinking o Hnd Ho))
    as (_ & Hsd & Hsc).
  set (st := loop fuel (start o)) in *.
  destruct Hex as (Hah & Hpassed & _ & _ & _ & Hkeys & Hagd & Hagc & Hago).
  apply Forall_forall. intros [p v] Hin. cbn [fst snd].
  assert (Hget : get (settle_all o (transactions st)) p = Some v).
  { apply elem_of_get; [rewrite Hkeys; exact Hnd | exact Hin]. }
  assert (Hkey : p ∈ map fst o).
  { rewrite <- Hkeys. exact (list_elem_of_fmap_2 fst _ _ Hin). }
  apply list_elem_of_fmap in Hkey as ([p' b] & Hp' & Hb). cbn [fst] in Hp'. subst p'.
  exists b. split; [exact (elem_of_get o p b Hnd Hb)|].
  destruct (decide (p ∈ persons (debtors st))) as [Hp|Hp].
  { apply elem_of_persons_inv in Hp as (e & He & <-).
    rewrite (Hagd e He) in Hget. injection Hget as <-.
    split; [apply (entry_whole_balance st e Hah Hpassed); left; exact He|]. left.
    apply list_elem_of_lookup in He as [k Hk].
    destruct (Forall2_lookup_r _ _ _ _ _ Hsd Hk) as (e0 & Hk0 & Hp0 & Hz).
    assert (He0 : e0 ∈ debtors (start o)) by (apply list_elem_of_lookup; exists k; exact Hk0).
    rewrite start_eq in He0. cbn [debtors] in He0. rewrite sort_perm in He0.
    destruct (elem_of_listed_debtor o e0 Ho He0) as (Hin0 & _ & _).
    rewrite Hp0 in Hin0.
    rewrite (NoDup_fst_agree o _ _ _ Hnd Hb Hin0). exact Hz. }
  destruct (decide (p ∈ persons (creditors st))) as [Hq|Hq].
  { apply elem_of_persons_inv in Hq as (e & He & <-).
    rewrite (Hagc e He) in Hget. injection Hget as <-.
    split; [apply (entry_whole_balance st e Hah Hpassed); right; exact He|]. right.
    apply list_elem_of_lookup in He as [k Hk].
    destruct (Forall2_lookup_r _ _ _ _ _ Hsc Hk) as (e0 & Hk0 & Hp0 & Hz).
    assert (He0 : e0 ∈ creditors (start o)) by (apply list_elem_of_lookup; exists k; exact Hk0).
    rewrite start_eq in He0. cbn [creditors] in He0. rewrite sort_perm in He0.
    destruct (elem_of_listed_creditor o e0 Ho He0) as (Hin0 & _ & _).
    rewrite Hp0 in Hin0.
    rewrite (NoDup_fst_agree o _ _ _ Hnd Hb Hin0). exact Hz. }
  rewrite (Hago p v Hget Hp Hq). split; [exact integral_zero|].
  change (to_Z zero) with 0%Z. destruct (Z.le_gt_cases (to_Z b) 0); [left | right]; lia.
Qed.

Lemma of_Z_whole_balance (n : Z) : (Z.abs n < 2 ^ 46)%Z -> whole_balance (of_Z n).
Proof.
  intros H. assert (H53 : (Z.abs n < 2 ^ 53)%Z).
  { change (2 ^ 53)%Z with (128 * 2 ^ 46)%Z. lia. }
  split; [exact (whole_integral _ _ (of_Z_whole n H53))|].
  rewrite (whole_to_Z _ _ (of_Z_whole n H53)). exact H.
Qed.

Lemma uneven_keys : NoDup (map fst uneven).
Proof. decided. Qed.

Lemma uneven_whole : Forall (fun entry => whole_balance entry.2) uneven.
Proof.
  apply Forall_cons_2; [apply of_Z_whole_balance; vm_compute; reflexivity|].
  apply Forall_cons_2; [apply of_Z_whole_balance; vm_compute; reflexivity|].
  apply Forall_nil_2.
Qed.

Lemma nobody_overpays_witness :
  NoDup (map fst uneven) /\ Forall (fun entry => whole_balance entry.2) uneven /\
  Forall (fun entry => exists b, get uneven entry.1 = Some b /\ integral entry.2 /\
            ((to_Z b <= to_Z entry.2 <= 0)%Z \/ (0 <= to_Z entry.2 <= to_Z b)%Z))
    (settle_all uneven (transactions (loop 2 (start uneven)))).
Proof.
  split; [exact uneven_keys|]. split; [exact uneven_whole|].
  exact (nobody_overpays uneven 2 uneven_keys uneven_whole).
Defined.

(** X23: for balances with distinct keys that are whole numbers below 2^46 in
    magnitude, of any sum, [calculateSettlements] returns, and on the
    balances that are left when its transactions are paid it returns no
    transaction: settling once is enough. *)
Theorem settled_once (o : object) (fuel fuel' : nat) :
  NoDup (map fst o) -> Forall (fun entry => whole_balance entry.2) o -> length o <= fuel ->
  exists txs, calculateSettlements fuel o = Some txs /\
              calculateSettlements fuel' (settle_all o txs) = Some [].
Proof.
  intros Hnd Ho Hfuel. destruct (whole_returns o fuel Ho Hfuel) as [Hrun Hret].
  exists (transactions (loop fuel (start o))). split; [exact Hret|].
  destruct (paid_one_sign o fuel Hnd Ho Hrun) as [Hw Hsign].
  apply returns_nothing. rewrite separate_omap. cbn [fst snd].
  destruct Hsign as [Hs|Hs]; [left | right]; apply omap_none, Forall_forall;
    intros [p v] Hin; rewrite Forall_forall in Hw, Hs;
    specialize (Hw _ Hin); specialize (Hs _ Hin); cbn [snd] in Hw, Hs;
    destruct (listed_whole p v Hw) as [Hld Hlc].
  - rewrite Hld. destruct (Z.ltb_spec (to_Z v) 0); [lia | reflexivity].
  - rewrite Hlc. destruct (Z.ltb_spec 0 (to_Z v)); [lia | reflexivity].
Qed.

Lemma settled_once_witness :
  NoDup (map fst uneven) /\ Forall (fun entry => whole_balance entry.2) uneven /\
  length uneven <= 2 /\
  exists txs, calculateSettlements 2 uneven = Some txs /\
              calculateSettlements 0 (settle_all uneven txs) = Some [].
Proof.
  assert (Hf : length uneven <= 2) by (cbn; lia).
  split; [exact uneven_keys|]. split; [exact uneven_whole|]. split; [exact Hf|].
  exact (settled_once uneven 2 0 uneven_keys uneven_whole Hf).
Defined.

(** X24: for balances with distinct keys that are whole numbers below 2^46 in
    magnitude, of any sum, with a total credit below 2^53, the amounts of
    the transactions returned add up to exactly the smaller of the total
    credit and the total debt (the total credit less the sum of the
    balances). *)
Theorem amounts_add_up_to_smaller_side (o : object) (fuel : nat) :
  NoDup (map fst o) -> Forall (fun entry => whole_balance entry.2) o ->
  (zcredit o < 2 ^ 53)%Z -> length o <= fuel ->
  exists txs, calculateSettlements fuel o = Some txs /\
    sum_amounts txs = of_Z (Z.min (zcredit o) (zcredit o - zsum o)).
Proof.
  intros Hnd Ho Hb Hfuel. destruct (whole_returns o fuel Ho Hfuel) as [Hrun Hret].
  exists (transactions (loop fuel (start o))). split; [exact Hret|].
  pose proof (exact_matching_loop o _ _ fuel _ (exact_matching_start o Hnd Ho)) as Hex.
  pose proof (credit_left o _ _ _ Hex Hrun) as Hleft.
  destruct Hex as (_ & _ & _ & _ & Hpaid & _).
  destruct (Hpaid Hb) as (P & HP & HP0 & HPC). rewrite Hleft in HPC.
  pose proof (zcredit_nonneg o).
  replace (Z.min (zcredit o) (zcredit o - zsum o)) with P by lia.
  apply whole_of_Z; [lia | exact HP].
Qed.

Lemma amounts_add_up_to_smaller_side_witness :
  NoDup (map fst uneven) /\ Forall (fun entry => whole_balance entry.2) uneven /\
  (zcredit uneven < 2 ^ 53)%Z /\ length uneven <= 2 /\
  exists txs, calculateSettlements 2 uneven = Some txs /\
    sum_amounts txs = of_Z (Z.min (zcredit uneven) (zcredit uneven - zsum uneven)).
Proof.
  assert (Hc : (zcredit uneven < 2 ^ 53)%Z) by (vm_compute; reflexivity).
  assert (Hf : length uneven <= 2) by (cbn; lia).
  split; [exact uneven_keys|]. split; [exact uneven_whole|]. split; [exact Hc|].
  split; [exact Hf|].
  exact (amounts_add_up_to_smaller_side uneven 2 uneven_keys uneven_whole Hc Hf).
Defined.

(** ** Amounts that are not numbers *)

(** X25: one expense whose amount is NaN makes [totalSpent] NaN and, if it
    is not skipped, makes the balance NaN of its payer and of every
    participant involved in it whose name is not one of [Object.prototype],
    whatever the roster and the other expenses are. *)
Theorem NaN_amount_spreads (participants : list string) (expenses : list Doc.t) (item : Doc.t) :
  item ∈ expenses -> Expense.amount (Doc.expense item) = NaN ->
  totalSpent expenses = NaN /\
  Forall (fun k => k ∉ Object_prototype ->
                   read (balances participants (map Doc.expense expenses)) k = Num NaN)
    (touched (Doc.expense item)).
Proof.
  intros Hin Ha. split; [exact (totalSpent_NaN expenses item zero Hin Ha)|].
  apply Forall_forall. intros k Hk Hi.
  apply (expenses_NaN participants _ (Doc.expense item)); [exact Hi| |exact Ha | exact Hk].
  apply list_elem_of_fmap. exists item. split; [reflexivity | exact Hin].
Qed.

(** After a lift pass of 30 and a taxi without an amount, which A pays for
    A and B, the total and the balances of A and B are NaN. *)
Lemma NaN_amount_spreads_witness :
  unreadable ∈ bills /\
  Expense.amount (Doc.expense unreadable) = NaN /\
  touched (Doc.expense unreadable) = ["A"; "A"; "B"]%string /\
  totalSpent bills = NaN /\
  read (balances roster (map Doc.expense bills)) "A" = Num NaN /\
  read (balances roster (map Doc.expense bills)) "B" = Num NaN.
Proof.
  assert (Hin : unreadable ∈ bills) by listed.
  assert (HA : "A"%string ∉ Object_prototype) by decided.
  assert (HB : "B"%string ∉ Object_prototype) by decided.
  split; [exact Hin|]. split; [reflexivity|]. split; [reflexivity|].
  split; [exact (proj1 (NaN_amount_spreads roster bills unreadable Hin eq_refl))|].
  split.
  - exact (proj1 (Forall_forall _ _)
             (proj2 (NaN_amount_spreads roster bills unreadable Hin eq_refl)) "A"%string
             ltac:(listed) HA).
  - exact (proj1 (Forall_forall _ _)
             (proj2 (NaN_amount_spreads roster bills unreadable Hin eq_refl)) "B"%string
             ltac:(listed) HB).
Defined.

End Further.
